(** * stereo-img: a shallow embedding of the <stereo-img> custom element
      and of its VR entry button

    The development follows the two source files of the repository:
    - [stereo-img.js]: the [StereoImg] custom element (attribute accessors,
      gaze-dwell navigation, the dwell progress ring, parsing and scene
      construction);
    - [vr-button.js]: [VRButton.createButton] and the session listener.

    The rendering engine, the DOM, the timer table of the window and the
    WebXR device API are collaborators of the code. Their state is kept
    explicit (attribute maps, a timer table, a clock, logs of the calls
    made); what they answer (raycast hits, clock readings, promise
    outcomes) enters the model as input of the step that consumes it. *)

From Stdlib Require Import ZArith List Ascii String Floats Lia.
From stdpp Require Import base option gmap strings.
Import ListNotations.

Set Default Proof Using "Type".
Local Open Scope string_scope.

(** ** JavaScript values seen by the attribute accessors *)

Module Js.

(** The primitive values a page script hands to the property setters.
    Numbers and objects are left out: [setAttribute] would stringify them
    with the runtime's own conversion. *)
Inductive value : Type :=
| VUndefined
| VNull
| VBool (b : bool)
| VString (s : string).

(** [if (val)] *)
Definition truthy (v : value) : bool :=
  match v with
  | VUndefined | VNull => false
  | VBool b => b
  | VString s => negb (String.eqb s EmptyString)
  end.

(** The DOMString conversion [setAttribute] applies to its argument. *)
Definition ToString (v : value) : string :=
  match v with
  | VUndefined => "undefined"
  | VNull => "null"
  | VBool true => "true"
  | VBool false => "false"
  | VString s => s
  end.

(** [a === v] where [a] is the result of [getAttribute]: a DOMString or
    [null] (here [None]). *)
Definition strict_equal (a : option string) (v : value) : bool :=
  match a, v with
  | None, VNull => true
  | Some s, VString t => String.eqb s t
  | _, _ => false
  end.

(** Truthiness of the result of a getter: [null] and the empty string are
    falsy. *)
Definition truthy_attr (a : option string) : bool :=
  match a with
  | None => false
  | Some s => negb (String.eqb s EmptyString)
  end.

End Js.

(** ** Arithmetic

    [clamp] and [linearScale] are written over the operations they use;
    the instance [double] gives these the arithmetic the program runs on
    (IEEE 754 binary64, the Number type), with [Math.max] and [Math.min]
    as the language defines them. *)

Module Arith.

Class Ops (T : Type) : Type := {
  add : T -> T -> T;
  sub : T -> T -> T;
  mul : T -> T -> T;
  div : T -> T -> T;
  opp : T -> T;
  math_max : T -> T -> T;
  math_min : T -> T -> T;
  of_Z : Z -> T;          (* an integer literal *)
  PI : T                  (* Math.PI *)
}.

(** The Number an integer literal stands for. *)
Definition Number_of_Z (z : Z) : float := PrimFloat.of_uint63 (Uint63.of_Z z).

Definition Math_PI : float := 0x1.921fb54442d18p+1%float.

Definition is_neg_zero (x : float) : bool :=
  match PrimFloat.classify x with
  | NZero => true
  | _ => false
  end.

(** [Math.max] on two Numbers: NaN is contagious and +0 is larger
    than -0. *)
Definition Math_max (a b : float) : float :=
  if (PrimFloat.is_nan a || PrimFloat.is_nan b)%bool then nan
  else if PrimFloat.ltb a b then b
  else if PrimFloat.ltb b a then a
  else if is_neg_zero a then b else a.

(** [Math.min] on two Numbers. *)
Definition Math_min (a b : float) : float :=
  if (PrimFloat.is_nan a || PrimFloat.is_nan b)%bool then nan
  else if PrimFloat.ltb a b then a
  else if PrimFloat.ltb b a then b
  else if is_neg_zero a then a else b.

#[global] Instance double : Ops float := {|
  add := PrimFloat.add;
  sub := PrimFloat.sub;
  mul := PrimFloat.mul;
  div := PrimFloat.div;
  opp := PrimFloat.opp;
  math_max := Math_max;
  math_min := Math_min;
  of_Z := Number_of_Z;
  PI := Math_PI
|}.

(** [x || 0] on an optional Number field: [undefined], NaN and both
    zeros give [0]. *)
Definition or_zero (x : option float) : float :=
  match x with
  | None => 0%float
  | Some f =>
      if (PrimFloat.is_nan f || PrimFloat.eqb f 0%float)%bool
      then 0%float else f
  end.

End Arith.

(** Module constant; the timeout in ms. *)
Definition PREV_NEXT_TIMEOUT_MS : Z := 1000.

Section Scaling.

Context {T : Type} `{Arith.Ops T}.

(** [const clamp = (val, min, max) => Math.min(Math.max(val, min), max)] *)
Definition clamp (val min max : T) : T :=
  Arith.math_min (Arith.math_max val min) max.

(** [linearScale]; [*] and [/] associate to the left. *)
Definition linearScale
    (factor minInput maxInput minOutput maxOutput : T)
    (shouldClamp : bool) : T :=
  let factor :=
    if shouldClamp then clamp factor minInput maxInput else factor in
  Arith.add minOutput
    (Arith.div
       (Arith.mul (Arith.sub maxOutput minOutput)
                  (Arith.sub factor minInput))
       (Arith.sub maxInput minInput)).

(** The sweep angle [updatePrevNextRing] hands to [RingGeometry]:
    [linearScale(timeSinceStartedMS, 0, PREV_NEXT_TIMEOUT_MS, 0,
    this.timerRingForPrev ? Math.PI * 2 : -Math.PI * 2)]. *)
Definition sweep (elapsed : T) (forPrev : bool) : T :=
linearScale elapsed (Arith.of_Z 0) (Arith.of_Z PREV_NEXT_TIMEOUT_MS)
  (Arith.of_Z 0)
  (if forPrev then Arith.mul Arith.PI (Arith.of_Z 2)
   else Arith.mul (Arith.opp Arith.PI) (Arith.of_Z 2))
  true.

End Scaling.

Definition PREV_NEXT_BUTTONS_Z : float := 0x1.2666666666666p+3%float.

(** ** Objects of the rendering engine

    Only the fields the element writes or reads are kept. *)

Module Three.

Record Vector3 : Type := { x : float; y : float; z : float }.

(** [layers.set(n)]: membership in layer [n] alone, as a bit mask. *)
Definition layers_set (n : Z) : Z := Z.shiftl 1 n.
(** [layers.enable(n)] *)
Definition layers_enable (n : Z) (mask : Z) : Z := Z.lor mask (Z.shiftl 1 n).
(** A fresh [Layers] object is in layer 0. *)
Definition layers_default : Z := 1.

(** What a texture is built from. *)
Inductive TextureSource : Type :=
| OfImageData (ref : positive)   (* an ImageData object of the heap *)
| OfImage (src : string).        (* a new Image() with its src *)

Record SphereGeometry : Type := {
  radius : float;
  widthSegments : Z;
  heightSegments : Z;
  phiStart : float;
  phiLength : float;
  thetaStart : float;
  thetaLength : float;
  (** the [scale(x, y, z)] calls applied to the vertices, oldest first *)
  scaled : list Vector3
}.

Record Euler : Type := {
  order : string;
  rot_x : float;
  rot_y : float;
  rot_z : float
}.

Record Mesh : Type := {
  geometry : SphereGeometry;
  material_map : TextureSource;   (* MeshBasicMaterial({ map }) *)
  rotation : Euler;
  layers : Z
}.

(** [new THREE.RingGeometry(inner, outer, thetaSegments, phiSegments,
    thetaStart, thetaLength)] in a mesh placed at [ring_x], [ring_z]. *)
Record RingMesh : Type := {
  innerRadius : float;
  outerRadius : float;
  thetaSegments : Z;
  phiSegments : Z;
  ring_thetaStart : float;
  ring_thetaLength : float;
  ring_color : Z;
  ring_x : float;
  ring_z : float;
  ring_up : Vector3;
  ring_lookAt : Vector3
}.

(** A prev/next button: a named group at a fixed place. Its children
    (outer ring, inner disc and, once the loader answers, the icon shapes
    under an unnamed inner group) and its orientation ([lookAt]) matter
    only to the raycaster, whose answer is an input. *)
Record ButtonGroup : Type := {
  name : string;
  position : Vector3
}.

Inductive Object3D : Type :=
| OMesh (m : Mesh)
| OGroup (g : ButtonGroup)
| ORing (id : positive) (r : RingMesh).

Record Scene : Type := {
  background : Z;
  children : list Object3D
}.

Definition scene_add (o : Object3D) (s : Scene) : Scene :=
  {| background := background s; children := children s ++ [o] |}.

Definition is_ring (id : positive) (o : Object3D) : bool :=
  match o with
  | ORing id' _ => Pos.eqb id id'
  | _ => false
  end.

(** [scene.remove(ring)]: by identity; absent objects are ignored. *)
Definition scene_remove_ring (id : positive) (s : Scene) : Scene :=
  {| background := background s;
     children := List.filter (fun o => negb (is_ring id o)) (children s) |}.

Record Camera : Type := {
  cam_position : Vector3;
  cam_layers : Z
}.

(** The last [raycaster.set(origin, direction)]. *)
Record Raycaster : Type := {
  ray_origin : Vector3;
  ray_direction : Vector3
}.

(** One entry of the array [intersectObjects] returns, as far as
    [prevNextTest] looks into it: [object], [object.parent] and
    [object.parent.name]. *)
Record Hit : Type := {
  object : option (option string)
}.

(** A hit on a mesh whose parent is named [n]. *)
Definition hit_under (n : string) : Hit := {| object := Some (Some n) |}.
(** A hit on an object without parent, and a hit without object. *)
Definition hit_orphan : Hit := {| object := Some None |}.
Definition hit_empty : Hit := {| object := None |}.

End Three.

(** ** ImageData and the parsers' result *)

Record ImageData : Type := {
  width : Z;
  height : Z;
  data : list Z      (* RGBA bytes, row by row *)
}.

(** [new ImageData(w, h)]: transparent black. *)
Definition new_ImageData (w h : Z) : ImageData :=
  {| width := w; height := h;
     data := List.repeat 0%Z (Z.to_nat (4 * w * h)) |}.

Record StereoData : Type := {
  leftEye : positive;           (* reference to an ImageData *)
  rightEye : positive;
  sd_phiLength : float;
  sd_thetaStart : float;
  sd_thetaLength : float;
  roll : option float;
  pitch : option float
}.

(** ** The custom element *)

Module StereoImg.
Import Three.

(** The fields of [this]. An absent ([undefined]) or [null] field is
    [None]. The window's timer handles are positive integers, so a handle
    is always truthy. [attributes] is the attribute table without the style
    attribute; of [this.style] the model keeps [opacity]. *)
Record Element : Type := {
  attributes : gmap string string;
  opacity : option string;            (* this.style.opacity *)
  stereoData : option StereoData;
  scene : option Scene;
  camera : option Camera;
  raycaster : option Raycaster;
  prevNextButtons : option (list ButtonGroup);
  timerRing : option positive;
  prevNextTimer : option positive;
  prevNextTimerStartMS : option float;
  timerRingForPrev : option bool;
  renderer : bool;
  controls : bool
}.

Definition with_attributes (v : gmap string string) (e : Element) : Element :=
  {| attributes := v; opacity := opacity e; stereoData := stereoData e;
     scene := scene e; camera := camera e; raycaster := raycaster e;
     prevNextButtons := prevNextButtons e; timerRing := timerRing e;
     prevNextTimer := prevNextTimer e;
     prevNextTimerStartMS := prevNextTimerStartMS e;
     timerRingForPrev := timerRingForPrev e; renderer := renderer e;
     controls := controls e |}.
Definition with_opacity (v : option string) (e : Element) : Element :=
  {| attributes := attributes e; opacity := v; stereoData := stereoData e;
     scene := scene e; camera := camera e; raycaster := raycaster e;
     prevNextButtons := prevNextButtons e; timerRing := timerRing e;
     prevNextTimer := prevNextTimer e;
     prevNextTimerStartMS := prevNextTimerStartMS e;
     timerRingForPrev := timerRingForPrev e; renderer := renderer e;
     controls := controls e |}.
Definition with_stereoData (v : option StereoData) (e : Element) : Element :=
  {| attributes := attributes e; opacity := opacity e; stereoData := v;
     scene := scene e; camera := camera e; raycaster := raycaster e;
     prevNextButtons := prevNextButtons e; timerRing := timerRing e;
     prevNextTimer := prevNextTimer e;
     prevNextTimerStartMS := prevNextTimerStartMS e;
     timerRingForPrev := timerRingForPrev e; renderer := renderer e;
     controls := controls e |}.
Definition with_scene (v : option Scene) (e : Element) : Element :=
  {| attributes := attributes e; opacity := opacity e;
     stereoData := stereoData e; scene := v; camera := camera e;
     raycaster := raycaster e; prevNextButtons := prevNextButtons e;
     timerRing := timerRing e; prevNextTimer := prevNextTimer e;
     prevNextTimerStartMS := prevNextTimerStartMS e;
     timerRingForPrev := timerRingForPrev e; renderer := renderer e;
     controls := controls e |}.
Definition with_camera (v : option Camera) (e : Element) : Element :=
  {| attributes := attributes e; opacity := opacity e;
     stereoData := stereoData e; scene := scene e; camera := v;
     raycaster := raycaster e; prevNextButtons := prevNextButtons e;
     timerRing := timerRing e; prevNextTimer := prevNextTimer e;
     prevNextTimerStartMS := prevNextTimerStartMS e;
     timerRingForPrev := timerRingForPrev e; renderer := renderer e;
     controls := controls e |}.
Definition with_raycaster (v : option Raycaster) (e : Element) : Element :=
  {| attributes := attributes e; opacity := opacity e;
     stereoData := stereoData e; scene := scene e; camera := camera e;
     raycaster := v; prevNextButtons := prevNextButtons e;
     timerRing := timerRing e; prevNextTimer := prevNextTimer e;
     prevNextTimerStartMS := prevNextTimerStartMS e;
     timerRingForPrev := timerRingForPrev e; renderer := renderer e;
     controls := controls e |}.
Definition with_prevNextButtons (v : option (list ButtonGroup)) (e : Element) : Element :=
  {| attributes := attributes e; opacity := opacity e;
     stereoData := stereoData e; scene := scene e; camera := camera e;
     raycaster := raycaster e; prevNextButtons := v;
     timerRing := timerRing e; prevNextTimer := prevNextTimer e;
     prevNextTimerStartMS := prevNextTimerStartMS e;
     timerRingForPrev := timerRingForPrev e; renderer := renderer e;
     controls := controls e |}.
Definition with_timerRing (v : option positive) (e : Element) : Element :=
  {| attributes := attributes e; opacity := opacity e;
     stereoData := stereoData e; scene := scene e; camera := camera e;
     raycaster := raycaster e; prevNextButtons := prevNextButtons e;
     timerRing := v; prevNextTimer := prevNextTimer e;
     prevNextTimerStartMS := prevNextTimerStartMS e;
     timerRingForPrev := timerRingForPrev e; renderer := renderer e;
     controls := controls e |}.
Definition with_prevNextTimer (v : option positive) (e : Element) : Element :=
  {| attributes := attributes e; opacity := opacity e;
     stereoData := stereoData e; scene := scene e; camera := camera e;
     raycaster := raycaster e; prevNextButtons := prevNextButtons e;
     timerRing := timerRing e; prevNextTimer := v;
     prevNextTimerStartMS := prevNextTimerStartMS e;
     timerRingForPrev := timerRingForPrev e; renderer := renderer e;
     controls := controls e |}.
Definition with_prevNextTimerStartMS (v : option float) (e : Element) : Element :=
  {| attributes := attributes e; opacity := opacity e;
     stereoData := stereoData e; scene := scene e; camera := camera e;
     raycaster := raycaster e; prevNextButtons := prevNextButtons e;
     timerRing := timerRing e; prevNextTimer := prevNextTimer e;
     prevNextTimerStartMS := v; timerRingForPrev := timerRingForPrev e;
     renderer := renderer e; controls := controls e |}.
Definition with_timerRingForPrev (v : option bool) (e : Element) : Element :=
  {| attributes := attributes e; opacity := opacity e;
     stereoData := stereoData e; scene := scene e; camera := camera e;
     raycaster := raycaster e; prevNextButtons := prevNextButtons e;
     timerRing := timerRing e; prevNextTimer := prevNextTimer e;
     prevNextTimerStartMS := prevNextTimerStartMS e; timerRingForPrev := v;
     renderer := renderer e; controls := controls e |}.
Definition with_renderer (v : bool) (e : Element) : Element :=
  {| attributes := attributes e; opacity := opacity e;
     stereoData := stereoData e; scene := scene e; camera := camera e;
     raycaster := raycaster e; prevNextButtons := prevNextButtons e;
     timerRing := timerRing e; prevNextTimer := prevNextTimer e;
     prevNextTimerStartMS := prevNextTimerStartMS e;
     timerRingForPrev := timerRingForPrev e; renderer := v;
     controls := controls e |}.
Definition with_controls (v : bool) (e : Element) : Element :=
  {| attributes := attributes e; opacity := opacity e;
     stereoData := stereoData e; scene := scene e; camera := camera e;
     raycaster := raycaster e; prevNextButtons := prevNextButtons e;
     timerRing := timerRing e; prevNextTimer := prevNextTimer e;
     prevNextTimerStartMS := prevNextTimerStartMS e;
     timerRingForPrev := timerRingForPrev e; renderer := renderer e;
     controls := v |}.

(** The closures the element hands to [setTimeout]. *)
Inductive Callback : Type :=
| GoToPrev      (* clears the dwell timer, dispatches stereoImgGoToPrev *)
| GoToNext      (* clears the dwell timer, dispatches stereoImgGoToNext *)
| Reparse.      (* that.parseImageAndInitialize3DScene() *)

Record Timer : Type := { due : Z; callback : Callback }.

(** Calls into the parsers and the metadata reader, with their
    arguments: the source and the [type] and [angle] options. *)
Inductive ExternalCall : Type :=
| CallParseVR (src : option string)
| CallParseStereo (src : option string) (type angle : option string)
| CallParseAnaglyph (src : option string) (angle : option string)
| CallExifr (src : option string).

(** Where a pending [parseImageAndInitialize3DScene] is suspended. *)
Inductive Stage : Type :=
| AwaitExif          (* const exif = await exifr.parse(...) *)
| AwaitParser        (* this.stereoData = await parse...(...) *)
| AwaitParsed        (* await this.parse() *)
| AwaitInitialized.  (* await this.initialize3DScene() *)

Record Task : Type := { stage : Stage; from_init : bool }.

(** The element together with the browser state it acts on. [clock] is
    the time of the event loop in ms; [dispatched] logs the
    [dispatchEvent] calls on the element with the time of the call;
    [console] logs the [console.warn] calls of the methods of the element.
    The loader of the button images reports a failed load with
    [console.log] from a callback of the engine, and the VR button warns
    from its own module (see [VRButton.console]): neither is kept here. *)
Record World : Type := {
  el : Element;
  timers : gmap positive Timer;
  next_handle : positive;
  clock : Z;
  dispatched : list (string * Z);
  console : list string;
  calls : list ExternalCall;
  tasks : list Task;
  heap : gmap positive ImageData;
  next_obj : positive;
  animating : bool                    (* setAnimationLoop installed *)
}.

Definition with_el (v : Element) (w : World) : World :=
  {| el := v; timers := timers w; next_handle := next_handle w;
     clock := clock w; dispatched := dispatched w; console := console w;
     calls := calls w; tasks := tasks w; heap := heap w;
     next_obj := next_obj w; animating := animating w |}.
Definition with_timers (v : gmap positive Timer) (w : World) : World :=
  {| el := el w; timers := v; next_handle := next_handle w;
     clock := clock w; dispatched := dispatched w; console := console w;
     calls := calls w; tasks := tasks w; heap := heap w;
     next_obj := next_obj w; animating := animating w |}.
Definition with_next_handle (v : positive) (w : World) : World :=
  {| el := el w; timers := timers w; next_handle := v; clock := clock w;
     dispatched := dispatched w; console := console w; calls := calls w;
     tasks := tasks w; heap := heap w; next_obj := next_obj w;
     animating := animating w |}.
Definition with_clock (v : Z) (w : World) : World :=
  {| el := el w; timers := timers w; next_handle := next_handle w;
     clock := v; dispatched := dispatched w; console := console w;
     calls := calls w; tasks := tasks w; heap := heap w;
     next_obj := next_obj w; animating := animating w |}.
Definition with_dispatched (v : list (string * Z)) (w : World) : World :=
  {| el := el w; timers := timers w; next_handle := next_handle w;
     clock := clock w; dispatched := v; console := console w;
     calls := calls w; tasks := tasks w; heap := heap w;
     next_obj := next_obj w; animating := animating w |}.
Definition with_console (v : list string) (w : World) : World :=
  {| el := el w; timers := timers w; next_handle := next_handle w;
     clock := clock w; dispatched := dispatched w; console := v;
     calls := calls w; tasks := tasks w; heap := heap w;
     next_obj := next_obj w; animating := animating w |}.
Definition with_calls (v : list ExternalCall) (w : World) : World :=
  {| el := el w; timers := timers w; next_handle := next_handle w;
     clock := clock w; dispatched := dispatched w; console := console w;
     calls := v; tasks := tasks w; heap := heap w; next_obj := next_obj w;
     animating := animating w |}.
Definition with_tasks (v : list Task) (w : World) : World :=
  {| el := el w; timers := timers w; next_handle := next_handle w;
     clock := clock w; dispatched := dispatched w; console := console w;
     calls := calls w; tasks := v; heap := heap w; next_obj := next_obj w;
     animating := animating w |}.
Definition with_heap (v : gmap positive ImageData) (w : World) : World :=
  {| el := el w; timers := timers w; next_handle := next_handle w;
     clock := clock w; dispatched := dispatched w; console := console w;
     calls := calls w; tasks := tasks w; heap := v; next_obj := next_obj w;
     animating := animating w |}.
Definition with_next_obj (v : positive) (w : World) : World :=
  {| el := el w; timers := timers w; next_handle := next_handle w;
     clock := clock w; dispatched := dispatched w; console := console w;
     calls := calls w; tasks := tasks w; heap := heap w; next_obj := v;
     animating := animating w |}.
Definition with_animating (v : bool) (w : World) : World :=
  {| el := el w; timers := timers w; next_handle := next_handle w;
     clock := clock w; dispatched := dispatched w; console := console w;
     calls := calls w; tasks := tasks w; heap := heap w;
     next_obj := next_obj w; animating := v |}.

Definition on_el (f : Element -> Element) (w : World) : World :=
  with_el (f (el w)) w.

(** *** DOM attributes *)

Definition getAttribute (n : string) (e : Element) : option string :=
  attributes e !! n.
Definition setAttribute (n v : string) (e : Element) : Element :=
  with_attributes (<[n := v]> (attributes e)) e.
Definition removeAttribute (n : string) (e : Element) : Element :=
  with_attributes (delete n (attributes e)) e.

(** The page can write the attribute table itself, with [setAttribute]
    and [removeAttribute] on the element. An HTML element stores and looks
    up attribute names in lower case; the table of the model is keyed by
    the names as the code spells them. A call of the page therefore enters
    the model under the name [backImageSrc] as the code spells it, or under
    a plain name (a lower-case letter followed by lower-case letters,
    digits and hyphens) other than [backimagesrc] and [style]: the style
    attribute holds [this.style], which the model keeps apart in
    [opacity]. A name that is no attribute name makes [setAttribute] throw
    before anything is written. *)
Definition plain_char (first : bool) (c : ascii) : bool :=
  let n := Ascii.nat_of_ascii c in
  (Nat.leb 97 n && Nat.leb n 122)
  || (negb first && ((Nat.leb 48 n && Nat.leb n 57) || Nat.eqb n 45)).

Definition page_attribute (n : string) : bool :=
  if String.eqb n "backImageSrc" then true
  else
    match n with
    | EmptyString => false
    | String c rest =>
        plain_char true c
        && forallb (plain_char false) (list_ascii_of_string rest)
        && negb (String.eqb n "style")
        && negb (String.eqb n "backimagesrc")
    end.

(** [this.x === 'literal'] on the result of a getter. *)
Definition attr_is (a : option string) (s : string) : bool :=
  match a with
  | Some t => String.eqb t s
  | None => false
  end.

(** *** Timers of the window *)

Definition setTimeout (cb : Callback) (delay : Z) (w : World)
  : positive * World :=
  let h := next_handle w in
  (h, with_next_handle (Pos.succ h)
        (with_timers
           (<[h := {| due := clock w + delay; callback := cb |}]> (timers w))
           w)).

(** [clearTimeout(null)] does nothing. *)
Definition clearTimeout (h : option positive) (w : World) : World :=
  match h with
  | Some h => with_timers (delete h (timers w)) w
  | None => w
  end.

Definition dispatchEvent (type : string) (w : World) : World :=
  with_dispatched (dispatched w ++ [(type, clock w)]) w.

Definition console_warn (msg : string) (w : World) : World :=
  with_console (console w ++ [msg]) w.

Definition call (c : ExternalCall) (w : World) : World :=
  with_calls (calls w ++ [c]) w.

(** *** Accessors *)

Definition get_type (e : Element) : option string := getAttribute "type" e.
Definition set_type (val : Js.value) (e : Element) : Element :=
  if Js.truthy val then setAttribute "type" (Js.ToString val) e
  else removeAttribute "type" e.

Definition get_angle (e : Element) : option string := getAttribute "angle" e.
Definition set_angle (val : Js.value) (e : Element) : Element :=
  if Js.truthy val then setAttribute "angle" (Js.ToString val) e
  else removeAttribute "angle" e.

(** [this.camera?.position.set(0, 0, 0.1)] *)
Definition home : Vector3 :=
  {| x := 0%float; y := 0%float; z := 0x1.999999999999ap-4%float |}.
Definition camera_home (e : Element) : Element :=
  match camera e with
  | Some c =>
      with_camera
        (Some {| cam_position := home; cam_layers := cam_layers c |}) e
  | None => e
  end.

Definition get_src (e : Element) : option string := getAttribute "src" e.
Definition set_src (val : Js.value) (w : World) : World :=
  if Js.strict_equal (getAttribute "src" (el w)) val then
    on_el camera_home w
  else
    let w :=
      on_el (fun e =>
               if Js.truthy val then setAttribute "src" (Js.ToString val) e
               else removeAttribute "src" e) w in
    snd (setTimeout Reparse 0 w).

Definition get_backImageSrc (e : Element) : option string :=
  getAttribute "backImageSrc" e.
Definition set_backImageSrc (val : Js.value) (w : World) : World :=
  let w :=
    on_el (fun e =>
             if Js.truthy val
             then setAttribute "backImageSrc" (Js.ToString val) e
             else removeAttribute "backImageSrc" e) w in
  snd (setTimeout Reparse 0 w).

(** *** Gaze-dwell navigation *)

(** The guard of [prevNextTest]. An array is truthy even when empty. *)
Definition ready (e : Element) : bool :=
  bool_decide (is_Some (scene e)) && bool_decide (is_Some (camera e))
  && bool_decide (is_Some (raycaster e))
  && bool_decide (is_Some (prevNextButtons e)).

(** The body shared by the two branches of the loop, from
    [if (!this.prevNextTimer)] on. *)
Definition start_dwell (cb : Callback) (now : float) (w : World) : World :=
  match prevNextTimer (el w) with
  | Some _ => w
  | None =>
      let w := on_el (with_prevNextTimerStartMS (Some now)) w in
      let (h, w) := setTimeout cb PREV_NEXT_TIMEOUT_MS w in
      on_el (with_prevNextTimer (Some h)) w
  end.

(** The [for] loop over the hits; [now] is what [performance.now()]
    answers. *)
Fixpoint prevNextLoop (now : float) (intersects : list Hit) (w : World)
  : World :=
  match intersects with
  | [] => w
  | hit :: rest =>
      match object hit with
      | Some (Some parent_name) =>
          if String.eqb parent_name "prev" then
            let w := on_el (with_timerRingForPrev (Some true)) w in
            prevNextLoop now rest (start_dwell GoToPrev now w)
          else if String.eqb parent_name "next" then
            let w := on_el (with_timerRingForPrev (Some false)) w in
            prevNextLoop now rest (start_dwell GoToNext now w)
          else prevNextLoop now rest w
      | _ => w
      end
  end.

(** [direction] is what [camera.getWorldDirection] answers and
    [intersects] what [raycaster.intersectObjects(this.prevNextButtons)]
    answers. *)
Definition prevNextTest (direction : Vector3) (intersects : list Hit)
    (now : float) (w : World) : World :=
  match camera (el w) with
  | Some cam =>
      if negb (ready (el w)) then w
      else
        let w :=
          on_el (with_raycaster
                   (Some {| ray_origin := cam_position cam;
                            ray_direction := direction |})) w in
        match intersects, prevNextTimer (el w) with
        | [], Some h =>
            on_el (with_prevNextTimer None) (clearTimeout (Some h) w)
        | _, _ => prevNextLoop now intersects w
        end
  | None => w
  end.

(** *** The dwell progress ring *)

Definition alloc (w : World) : positive * World :=
  (next_obj w, with_next_obj (Pos.succ (next_obj w)) w).

(** [this.timerRingForPrev ? a : b] *)
Definition for_prev {A : Type} (e : Element) (a b : A) : A :=
  match timerRingForPrev e with
  | Some true => a
  | _ => b
  end.

(** [performance.now() - this.prevNextTimerStartMS]; the difference with
    [undefined] is NaN. *)
Definition timeSinceStartedMS (now : float) (e : Element) : float :=
  match prevNextTimerStartMS e with
  | Some start => PrimFloat.sub now start
  | None => nan
  end.

Definition new_timerRing (now : float) (e : Element) (cam : Vector3)
  : RingMesh :=
  {| innerRadius := 1%float;
     outerRadius := 0x1.199999999999ap+0%float;
     thetaSegments := 128;
     phiSegments := 1;
     ring_thetaStart := 0%float;
     ring_thetaLength :=
       sweep (T := float) (timeSinceStartedMS now e) (for_prev e true false);
     ring_color := 0xf4870e;
     ring_x := for_prev e (PrimFloat.opp PREV_NEXT_BUTTONS_Z)
                 PREV_NEXT_BUTTONS_Z;
     ring_z := 1%float;
     ring_up := {| x := 1%float; y := 0%float; z := 0%float |};
     ring_lookAt := cam |}.

Definition camera_position (e : Element) : Vector3 :=
  match camera e with
  | Some c => cam_position c
  | None => {| x := 0%float; y := 0%float; z := 0%float |}
  end.

(** Runs inside the animation loop only, where scene and camera exist.
    The [forEach] that turns the buttons to the camera writes their
    orientation only. *)
Definition updatePrevNextRing (now : float) (w : World) : World :=
  let w :=
    match timerRing (el w) with
    | Some id =>
        on_el (fun e =>
                 with_timerRing None
                   (with_scene (scene_remove_ring id <$> scene e) e)) w
    | None => w
    end in
  match prevNextTimer (el w) with
  | Some _ =>
      let ring := new_timerRing now (el w) (camera_position (el w)) in
      let (id, w) := alloc w in
      on_el (fun e =>
               with_scene (scene_add (ORing id ring) <$> scene e)
                 (with_timerRing (Some id) e)) w
  | None => w
  end.

(** *** Parsing *)

Inductive ParseStatus : Type :=
| Fulfilled                 (* the body ran to its end *)
| Suspended (s : Stage).    (* the body waits for a collaborator *)

Definition new_ImageData_in (wd ht : Z) (w : World) : positive * World :=
  let (id, w) := alloc w in
  (id, with_heap (<[id := new_ImageData wd ht]> (heap w)) w).

(** [parse] up to its first [await], or to its end when there is none. *)
Definition parse (w : World) : ParseStatus * World :=
  let e := el w in
  if Js.truthy_attr (get_src e) then
    if attr_is (get_type e) "vr" then
      (Suspended AwaitParser, call (CallParseVR (get_src e)) w)
    else if (attr_is (get_type e) "left-right"
             || attr_is (get_type e) "top-bottom")%bool then
      (Suspended AwaitParser,
       call (CallParseStereo (get_src e) (get_type e) (get_angle e)) w)
    else if attr_is (get_type e) "anaglyph" then
      (Suspended AwaitParser,
       call (CallParseAnaglyph (get_src e) (get_angle e)) w)
    else
      (Suspended AwaitExif, call (CallExifr (get_src e)) w)
  else
    let (l, w) := new_ImageData_in 10 10 w in
    let (r, w) := new_ImageData_in 10 10 w in
    (Fulfilled,
     on_el (with_stereoData
              (Some {| leftEye := l; rightEye := r;
                       sd_phiLength := 0%float;
                       sd_thetaStart := 0%float;
                       sd_thetaLength := 0%float;
                       roll := None; pitch := None |})) w).

Definition dquote : string := String (Ascii.ascii_of_nat 34) EmptyString.

Definition no_type_warning : string :=
  "<stereo-img> does not have a " ++ dquote ++ "type" ++ dquote
  ++ " attribute and image does not have XMP metadata of a VR picture.  Use "
  ++ dquote ++ "type" ++ dquote
  ++ " attribute to specify the type of stereoscopic image. Assuming left-right stereo image.".

(** [parse] resumed with the answer of [exifr.parse]:
    [left_eye] is [exif?.GImage?.Data] being truthy. *)
Definition parse_after_exif (left_eye : bool) (w : World) : World :=
  let e := el w in
  if left_eye then call (CallParseVR (get_src e)) w
  else
    call (CallParseStereo (get_src e) None (get_angle e))
      (console_warn no_type_warning w).

(** [parse] resumed with the answer of a parser. *)
Definition parse_after_parser (sd : StereoData) (w : World) : World :=
  on_el (with_stereoData (Some sd)) w.

(** *** Scene construction *)

Definition new_SphereGeometry
    (phiStart phiLength thetaStart thetaLength : float) : SphereGeometry :=
  {| radius := 10%float; widthSegments := 60; heightSegments := 40;
     phiStart := phiStart; phiLength := phiLength;
     thetaStart := thetaStart; thetaLength := thetaLength;
     scaled := [] |}.

(** [geometry.scale(x, y, z)] *)
Definition geometry_scale (v : Vector3) (g : SphereGeometry)
  : SphereGeometry :=
  {| radius := radius g; widthSegments := widthSegments g;
     heightSegments := heightSegments g;
     phiStart := phiStart g; phiLength := phiLength g;
     thetaStart := thetaStart g; thetaLength := thetaLength g;
     scaled := scaled g ++ [v] |}.

(** [scale(-1, 1, 1)]: the mirror on the x-axis. *)
Definition mirror_x : Vector3 :=
  {| x := (-1)%float; y := 1%float; z := 1%float |}.

Definition EPSILON_PHI_LENGTH : float := 0x1.999999999999ap-6%float.

(** The rotation both eye meshes and the back mesh get, up to [rot_y]. *)
Definition eye_rotation (ry : float) (sd : StereoData) : Euler :=
  {| order := "YXZ"; rot_x := Arith.or_zero (roll sd); rot_y := ry;
     rot_z := Arith.or_zero (pitch sd) |}.

Definition half_turn_of_phi (sd : StereoData) : float :=
  PrimFloat.div (PrimFloat.mul (-1)%float (sd_phiLength sd)) 2%float.

Definition mesh1 (sd : StereoData) : Mesh :=
  {| geometry :=
       geometry_scale mirror_x
         (new_SphereGeometry (half_turn_of_phi sd) (sd_phiLength sd)
            (sd_thetaStart sd) (sd_thetaLength sd));
     material_map := OfImageData (leftEye sd);
     rotation := eye_rotation (PrimFloat.div Arith.Math_PI 2%float) sd;
     layers := layers_set 1 |}.

Definition mesh2 (sd : StereoData) : Mesh :=
  {| geometry :=
       geometry_scale mirror_x
         (new_SphereGeometry (half_turn_of_phi sd) (sd_phiLength sd)
            (sd_thetaStart sd) (sd_thetaLength sd));
     material_map := OfImageData (rightEye sd);
     rotation := eye_rotation (PrimFloat.div Arith.Math_PI 2%float) sd;
     layers := layers_set 2 |}.

Definition mesh3 (backImageSrc : string) (sd : StereoData) : Mesh :=
  {| geometry :=
       geometry_scale mirror_x
         (new_SphereGeometry
            (PrimFloat.sub (half_turn_of_phi sd) EPSILON_PHI_LENGTH)
            (PrimFloat.add (sd_phiLength sd)
               (PrimFloat.mul 2%float EPSILON_PHI_LENGTH))
            (sd_thetaStart sd) (sd_thetaLength sd));
     material_map := OfImage backImageSrc;
     rotation :=
       eye_rotation (PrimFloat.div (PrimFloat.opp Arith.Math_PI) 2%float) sd;
     layers := layers_set 0 |}.

Inductive Outcome (A : Type) : Type :=
| Returned (a : A)
| Threw (a : A).     (* a TypeError; [a] is the state reached before it *)
Arguments Returned {A} a.
Arguments Threw {A} a.

Definition initialize3DScene (e : Element) : Outcome Element :=
  let s := {| background := 0x101010; children := [] |} in
  match stereoData e with
  | None => Threw (with_scene (Some s) e)
  | Some sd =>
      let s := scene_add (OMesh (mesh1 sd)) s in
      let s := scene_add (OMesh (mesh2 sd)) s in
      let s :=
        if attr_is (get_angle e) "180" then
          match get_backImageSrc e with
          | Some back =>
              if Js.truthy_attr (Some back)
              then scene_add (OMesh (mesh3 back sd)) s else s
          | None => s
          end
        else s in
      Returned (with_scene (Some s) e)
  end.

(** [createPrevOrNextButton]: the group, its name and its place. The
    meshes of the arrow are added to the group when the loader of the
    image answers; what the raycaster finds of them enters the model with
    the animation frame. *)
Definition createPrevOrNextButton (isPrevButton : bool) : ButtonGroup :=
  {| name := if isPrevButton then "prev" else "next";
     position :=
       {| x := if isPrevButton then PrimFloat.opp PREV_NEXT_BUTTONS_Z
               else PREV_NEXT_BUTTONS_Z;
          y := 0%float; z := 1%float |} |}.

(** Called where the camera exists. *)
Definition addPrevNextButtons (e : Element) : Element :=
  let prev := createPrevOrNextButton true in
  let next := createPrevOrNextButton false in
  with_scene (scene_add (OGroup next) <$> (scene_add (OGroup prev) <$> scene e))
    (with_prevNextButtons (Some [prev; next]) e).

(** [parseImageAndInitialize3DScene] up to its first suspension. *)
Definition parseImageAndInitialize3DScene (from_init : bool) (w : World)
  : World :=
  let w := on_el (with_opacity (Some "0")) w in
  let (status, w) := parse w in
  let st := match status with Fulfilled => AwaitParsed | Suspended s => s end in
  with_tasks (tasks w ++ [{| stage := st; from_init := from_init |}]) w.

(** The end of [parseImageAndInitialize3DScene], after
    [await this.initialize3DScene()]. *)
Definition finish_scene (e : Element) : Element :=
  let e := camera_home e in
  let e := match camera e with
           | Some _ => addPrevNextButtons e
           | None => e
           end in
  with_opacity (Some "1") e.

(** [init] after [await this.parseImageAndInitialize3DScene()], up to
    [this.animate()]. Shadow root, sizing, the VR button and the resize
    observer belong to the page, not to [this]. *)
Definition init_rest (w : World) : World :=
  let w :=
    on_el (fun e =>
             let e := with_renderer true e in
             let e :=
               with_camera
                 (Some {| cam_position :=
                            {| x := 0%float; y := 0%float; z := 0%float |};
                          cam_layers := layers_enable 1 layers_default |}) e in
             let e :=
               with_raycaster
                 (Some {| ray_origin :=
                            {| x := 0%float; y := 0%float; z := 0%float |};
                          ray_direction :=
                            {| x := 0%float; y := 0%float;
                               z := (-1)%float |} |}) e in
             let e := addPrevNextButtons e in
             let e := with_controls true e in
             camera_home e) w in
  with_animating true w.

(** The state after [new StereoImg()] has run [init] up to its [await],
    for an element created with the attributes [attrs]. *)
Definition construct (attrs : gmap string string) : World :=
  parseImageAndInitialize3DScene true
    {| el := {| attributes := attrs; opacity := None; stereoData := None;
                scene := None; camera := None; raycaster := None;
                prevNextButtons := None; timerRing := None;
                prevNextTimer := None; prevNextTimerStartMS := None;
                timerRingForPrev := None; renderer := false;
                controls := false |};
       timers := ∅; next_handle := 1%positive; clock := 0;
       dispatched := []; console := []; calls := []; tasks := [];
       heap := ∅; next_obj := 1%positive; animating := false |}.

(** *** The event loop

    One label per task of the event loop that touches the element: calls
    of the page into the element, expiry of a timer, an animation frame
    with what the engine and the clock answer in it, and the settling of
    a promise a pending [parseImageAndInitialize3DScene] waits for. *)

Inductive Label : Type :=
| SetType (val : Js.value)
| SetAngle (val : Js.value)
| SetSrc (val : Js.value)
| SetBackImageSrc (val : Js.value)
| SetAttribute (n v : string)      (* by the page, see [page_attribute] *)
| RemoveAttribute (n : string)
| Tick (d : Z)
| Fire (h : positive)
| Frame (pose direction : Vector3) (intersects : list Hit)
        (now_test now_ring : float)
| ExifAnswer (i : nat) (left_eye : bool)
| ParserAnswer (i : nat) (sd : StereoData)
| Reject (i : nat)
| Resume (i : nat).

Definition run_callback (cb : Callback) (w : World) : World :=
  match cb with
  | GoToPrev =>
      let w := clearTimeout (prevNextTimer (el w)) w in
      let w := on_el (with_prevNextTimer None) w in
      dispatchEvent "stereoImgGoToPrev" w
  | GoToNext =>
      let w := clearTimeout (prevNextTimer (el w)) w in
      let w := on_el (with_prevNextTimer None) w in
      dispatchEvent "stereoImgGoToNext" w
  | Reparse => parseImageAndInitialize3DScene false w
  end.

(** [this.controls?.update()]: the controls place the camera. *)
Definition controls_update (pose : Vector3) (e : Element) : Element :=
  match controls e, camera e with
  | true, Some c =>
      with_camera
        (Some {| cam_position := pose; cam_layers := cam_layers c |}) e
  | _, _ => e
  end.

(** The callback of [setAnimationLoop]. *)
Definition animation_frame (pose direction : Vector3)
    (intersects : list Hit) (now_test now_ring : float) (w : World)
  : World :=
  let w := on_el (controls_update pose) w in
  let w := prevNextTest direction intersects now_test w in
  updatePrevNextRing now_ring w.

Definition set_stage (i : nat) (s : Stage) (t : Task) (w : World) : World :=
  with_tasks (<[i := {| stage := s; from_init := from_init t |}]> (tasks w)) w.

Definition drop_task (i : nat) (w : World) : World :=
  with_tasks (delete i (tasks w)) w.

Definition step (l : Label) (w : World) : option World :=
  match l with
  | SetType val => Some (on_el (set_type val) w)
  | SetAngle val => Some (on_el (set_angle val) w)
  | SetSrc val => Some (set_src val w)
  | SetBackImageSrc val => Some (set_backImageSrc val w)
  | SetAttribute n v =>
      if page_attribute n then Some (on_el (setAttribute n v) w) else None
  | RemoveAttribute n =>
      if page_attribute n then Some (on_el (removeAttribute n) w) else None
  | Tick d => if (0 <=? d)%Z then Some (with_clock (clock w + d) w) else None
  | Fire h =>
      match timers w !! h with
      | Some t =>
          if (due t <=? clock w)%Z
          then Some (run_callback (callback t)
                       (with_timers (delete h (timers w)) w))
          else None
      | None => None
      end
  | Frame pose direction intersects now_test now_ring =>
      if animating w
      then Some (animation_frame pose direction intersects
                   now_test now_ring w)
      else None
  | ExifAnswer i left_eye =>
      match tasks w !! i with
      | Some t =>
          match stage t with
          | AwaitExif =>
              Some (set_stage i AwaitParser t (parse_after_exif left_eye w))
          | _ => None
          end
      | None => None
      end
  | ParserAnswer i sd =>
      match tasks w !! i with
      | Some t =>
          match stage t with
          | AwaitParser =>
              Some (set_stage i AwaitParsed t (parse_after_parser sd w))
          | _ => None
          end
      | None => None
      end
  | Reject i =>
      match tasks w !! i with
      | Some t =>
          match stage t with
          | AwaitExif | AwaitParser => Some (drop_task i w)
          | _ => None
          end
      | None => None
      end
  | Resume i =>
      match tasks w !! i with
      | Some t =>
          match stage t with
          | AwaitParsed =>
              match initialize3DScene (el w) with
              | Returned e => Some (set_stage i AwaitInitialized t (with_el e w))
              | Threw e => Some (drop_task i (with_el e w))
              end
          | AwaitInitialized =>
              let w := drop_task i (on_el finish_scene w) in
              Some (if from_init t then init_rest w else w)
          | _ => None
          end
      | None => None
      end
  end.

Fixpoint run (ls : list Label) (w : World) : option World :=
  match ls with
  | [] => Some w
  | l :: ls =>
      match step l w with
      | Some w => run ls w
      | None => None
      end
  end.

End StereoImg.

(** ** The VR entry button *)

Module VRButton.

(** The closures assigned to the element's handlers. *)
Inductive Handler : Type :=
| EnterOrExit.     (* the arrow function [showEnterVR] gives to onclick *)

Record HTMLElement : Type := {
  tagName : string;
  id : string;
  style : gmap string string;
  textContent : string;
  innerHTML : string;
  href : option string;
  onclick : option Handler;
  onmouseenter : option Handler;
  onmouseleave : option Handler
}.

(** [document.createElement(tag)] *)
Definition createElement (tag : string) : HTMLElement :=
  {| tagName := tag; id := EmptyString; style := ∅;
     textContent := EmptyString; innerHTML := EmptyString; href := None;
     onclick := None; onmouseenter := None; onmouseleave := None |}.

Definition with_id (v : string) (b : HTMLElement) : HTMLElement :=
  {| tagName := tagName b; id := v; style := style b;
     textContent := textContent b; innerHTML := innerHTML b;
     href := href b; onclick := onclick b;
     onmouseenter := onmouseenter b; onmouseleave := onmouseleave b |}.
Definition with_style (v : gmap string string) (b : HTMLElement)
  : HTMLElement :=
  {| tagName := tagName b; id := id b; style := v;
     textContent := textContent b; innerHTML := innerHTML b;
     href := href b; onclick := onclick b;
     onmouseenter := onmouseenter b; onmouseleave := onmouseleave b |}.


(** [element.textContent = v], for a [markup_free] text. *)
Definition with_textContent (v : string) (b : HTMLElement) : HTMLElement :=
  {| tagName := tagName b; id := id b; style := style b;
     textContent := v; innerHTML := v;
     href := href b; onclick := onclick b;
     onmouseenter := onmouseenter b; onmouseleave := onmouseleave b |}.
(** [element.innerHTML = v], for a [markup_free] text. *)
Definition with_innerHTML (v : string) (b : HTMLElement) : HTMLElement :=
  {| tagName := tagName b; id := id b; style := style b;
     textContent := v; innerHTML := v;
     href := href b; onclick := onclick b;
     onmouseenter := onmouseenter b; onmouseleave := onmouseleave b |}.
Definition with_href (v : option string) (b : HTMLElement) : HTMLElement :=
  {| tagName := tagName b; id := id b; style := style b;
     textContent := textContent b; innerHTML := innerHTML b;
     href := v; onclick := onclick b;
     onmouseenter := onmouseenter b; onmouseleave := onmouseleave b |}.
Definition with_onclick (v : option Handler) (b : HTMLElement)
  : HTMLElement :=
  {| tagName := tagName b; id := id b; style := style b;
     textContent := textContent b; innerHTML := innerHTML b;
     href := href b; onclick := v;
     onmouseenter := onmouseenter b; onmouseleave := onmouseleave b |}.
Definition with_onmouseenter (v : option Handler) (b : HTMLElement)
  : HTMLElement :=
  {| tagName := tagName b; id := id b; style := style b;
     textContent := textContent b; innerHTML := innerHTML b;
     href := href b; onclick := onclick b;
     onmouseenter := v; onmouseleave := onmouseleave b |}.
Definition with_onmouseleave (v : option Handler) (b : HTMLElement)
  : HTMLElement :=
  {| tagName := tagName b; id := id b; style := style b;
     textContent := textContent b; innerHTML := innerHTML b;
     href := href b; onclick := onclick b;
     onmouseenter := onmouseenter b; onmouseleave := v |}.

(** [element.style.prop = v] *)
Definition set_style (prop v : string) (b : HTMLElement) : HTMLElement :=
  with_style (<[prop := v]> (style b)) b.

(** The variables [showEnterVR] closes over. *)
Record Closure : Type := { currentSession : option positive }.

(** A [requestSession(mode, { optionalFeatures })] call. *)
Record Request : Type := { mode : string; optionalFeatures : list string }.

(** The button with the part of the page it talks to. Sessions are
    named by positive numbers. *)
Record State : Type := {
  button : HTMLElement;              (* the element of line 3 *)
  message : option HTMLElement;      (* the link made without WebXR *)
  closure : option Closure;          (* [None] until showEnterVR runs *)
  probing : bool;                    (* isSessionSupported is unsettled *)
  xrSessionIsGranted : bool;         (* the static field *)
  listeners : gset positive;         (* sessions with onSessionEnded on 'end' *)
  requests : list Request;           (* requestSession calls made *)
  unanswered : nat;                  (* of which still unsettled *)
  known : gset positive;             (* sessions handed out so far *)
  awaiting : gset positive;          (* onSessionStarted waits for setSession *)
  ended : list positive;             (* session.end() calls made *)
  console : list string;
  granted_listener : bool;           (* 'sessiongranted' has its listener *)
  followed : list string             (* addresses the link was followed to *)
}.

Definition put_button (v : HTMLElement) (s : State) : State :=
  {| button := v; message := message s; closure := closure s;
     probing := probing s; xrSessionIsGranted := xrSessionIsGranted s;
     listeners := listeners s; requests := requests s;
     unanswered := unanswered s; known := known s; awaiting := awaiting s;
     ended := ended s; console := console s;
     granted_listener := granted_listener s; followed := followed s |}.
Definition put_message (v : option HTMLElement) (s : State) : State :=
  {| button := button s; message := v; closure := closure s;
     probing := probing s; xrSessionIsGranted := xrSessionIsGranted s;
     listeners := listeners s; requests := requests s;
     unanswered := unanswered s; known := known s; awaiting := awaiting s;
     ended := ended s; console := console s;
     granted_listener := granted_listener s; followed := followed s |}.
Definition put_closure (v : option Closure) (s : State) : State :=
  {| button := button s; message := message s; closure := v;
     probing := probing s; xrSessionIsGranted := xrSessionIsGranted s;
     listeners := listeners s; requests := requests s;
     unanswered := unanswered s; known := known s; awaiting := awaiting s;
     ended := ended s; console := console s;
     granted_listener := granted_listener s; followed := followed s |}.
Definition put_probing (v : bool) (s : State) : State :=
  {| button := button s; message := message s; closure := closure s;
     probing := v; xrSessionIsGranted := xrSessionIsGranted s;
     listeners := listeners s; requests := requests s;
     unanswered := unanswered s; known := known s; awaiting := awaiting s;
     ended := ended s; console := console s;
     granted_listener := granted_listener s; followed := followed s |}.
Definition put_xrSessionIsGranted (v : bool) (s : State) : State :=
  {| button := button s; message := message s; closure := closure s;
     probing := probing s; xrSessionIsGranted := v;
     listeners := listeners s; requests := requests s;
     unanswered := unanswered s; known := known s; awaiting := awaiting s;
     ended := ended s; console := console s;
     granted_listener := granted_listener s; followed := followed s |}.
Definition put_listeners (v : gset positive) (s : State) : State :=
  {| button := button s; message := message s; closure := closure s;
     probing := probing s; xrSessionIsGranted := xrSessionIsGranted s;
     listeners := v; requests := requests s; unanswered := unanswered s;
     known := known s; awaiting := awaiting s; ended := ended s;
     console := console s;
     granted_listener := granted_listener s; followed := followed s |}.
Definition put_requests (v : list Request) (s : State) : State :=
  {| button := button s; message := message s; closure := closure s;
     probing := probing s; xrSessionIsGranted := xrSessionIsGranted s;
     listeners := listeners s; requests := v; unanswered := unanswered s;
     known := known s; awaiting := awaiting s; ended := ended s;
     console := console s;
     granted_listener := granted_listener s; followed := followed s |}.
Definition put_unanswered (v : nat) (s : State) : State :=
  {| button := button s; message := message s; closure := closure s;
     probing := probing s; xrSessionIsGranted := xrSessionIsGranted s;
     listeners := listeners s; requests := requests s; unanswered := v;
     known := known s; awaiting := awaiting s; ended := ended s;
     console := console s;
     granted_listener := granted_listener s; followed := followed s |}.
Definition put_known (v : gset positive) (s : State) : State :=
  {| button := button s; message := message s; closure := closure s;
     probing := probing s; xrSessionIsGranted := xrSessionIsGranted s;
     listeners := listeners s; requests := requests s;
     unanswered := unanswered s; known := v; awaiting := awaiting s;
     ended := ended s; console := console s;
     granted_listener := granted_listener s; followed := followed s |}.
Definition put_awaiting (v : gset positive) (s : State) : State :=
  {| button := button s; message := message s; closure := closure s;
     probing := probing s; xrSessionIsGranted := xrSessionIsGranted s;
     listeners := listeners s; requests := requests s;
     unanswered := unanswered s; known := known s; awaiting := v;
     ended := ended s; console := console s;
     granted_listener := granted_listener s; followed := followed s |}.
Definition put_ended (v : list positive) (s : State) : State :=
  {| button := button s; message := message s; closure := closure s;
     probing := probing s; xrSessionIsGranted := xrSessionIsGranted s;
     listeners := listeners s; requests := requests s;
     unanswered := unanswered s; known := known s; awaiting := awaiting s;
     ended := v; console := console s;
     granted_listener := granted_listener s; followed := followed s |}.
Definition put_console (v : list string) (s : State) : State :=
  {| button := button s; message := message s; closure := closure s;
     probing := probing s; xrSessionIsGranted := xrSessionIsGranted s;
     listeners := listeners s; requests := requests s;
     unanswered := unanswered s; known := known s; awaiting := awaiting s;
     ended := ended s; console := v;
     granted_listener := granted_listener s; followed := followed s |}.

Definition put_followed (v : list string) (s : State) : State :=
  {| button := button s; message := message s; closure := closure s;
     probing := probing s; xrSessionIsGranted := xrSessionIsGranted s;
     listeners := listeners s; requests := requests s;
     unanswered := unanswered s; known := known s; awaiting := awaiting s;
     ended := ended s; console := console s;
     granted_listener := granted_listener s; followed := v |}.

Definition on_button (f : HTMLElement -> HTMLElement) (s : State) : State :=
  put_button (f (button s)) s.

Definition console_warn (msg : string) (s : State) : State :=
  put_console (console s ++ [msg]) s.

(** The optional features asked for at session creation. *)
Definition sessionInit : list string :=
  ["local-floor"; "bounded-floor"; "hand-tracking"; "layers"].

(** The body of the onclick arrow function. *)
Definition click_handler (s : State) : State :=
  match closure s with
  | Some c =>
      match currentSession c with
      | None =>
          put_unanswered (S (unanswered s))
            (put_requests
               (requests s ++ [{| mode := "immersive-vr";
                                  optionalFeatures := sessionInit |}]) s)
      | Some session => put_ended (ended s ++ [session]) s
      end
  | None => s
  end.

(** [button.click()], and a click of the user: runs the handler that is
    installed, if any. *)
Definition click (s : State) : State :=
  match onclick (button s) with
  | Some EnterOrExit => click_handler s
  | None => s
  end.

(** A click on the link that is returned without WebXR. No handler is set
    on it; as an anchor with an address, its activation asks the browser to
    follow that address (the fragment '#unavailable' of the page, or the
    page's own address over HTTPS). What the browser then does with the
    page is not part of the model. *)
Definition follow_link (m : HTMLElement) (s : State) : State :=
  match href m with
  | Some address => put_followed (followed s ++ [address]) s
  | None => s
  end.

(** [onSessionStarted] up to [await renderer.xr.setSession(session)]. *)
Definition onSessionStarted_begin (session : positive) (s : State) : State :=
  put_awaiting ({[session]} ∪ awaiting s)
    (put_listeners ({[session]} ∪ listeners s) s).

(** [onSessionStarted] after the [await]. *)
Definition onSessionStarted_end (session : positive) (s : State) : State :=
  put_closure (Some {| currentSession := Some session |})
    (on_button (with_textContent "Exit VR") s).

(** [onSessionEnded]; [None] is the TypeError of
    [currentSession.removeEventListener] on [null], raised before
    anything is written. *)
Definition onSessionEnded (s : State) : option State :=
  match closure s with
  | Some {| currentSession := Some session |} =>
      Some (put_closure (Some {| currentSession := None |})
              (on_button (with_textContent "View in 3D VR")
                 (put_listeners (listeners s ∖ {[session]}) s)))
  | _ => None
  end.

Definition showEnterVR (s : State) : State :=
  let s := put_closure (Some {| currentSession := None |}) s in
  on_button
    (fun b =>
       let b := set_style "display" EmptyString b in
       let b := set_style "cursor" "pointer" b in
       let b := set_style "left" "calc(50% - 70px)" b in
       let b := set_style "width" "140px" b in
       let b := with_textContent "View in 3D VR" b in
       with_onclick (Some EnterOrExit) b) s.

Definition disableButton (s : State) : State :=
  on_button
    (fun b =>
       let b := set_style "display" "none" b in
       let b := with_onmouseenter None b in
       let b := with_onmouseleave None b in
       with_onclick None b) s.

Definition showWebXRNotFound (s : State) : State := disableButton s.

Definition showVRNotAllowed (exception : string) (s : State) : State :=
  console_warn
    ("Exception when trying to call xr.isSessionSupported " ++ exception)
    (disableButton s).

Definition stylizeElement (element : HTMLElement) : HTMLElement :=
  let element := set_style "display" EmptyString element in
  let element := set_style "position" "absolute" element in
  let element := set_style "bottom" "12px" element in
  let element := set_style "padding" "12px 6px" element in
  let element :=
    set_style "border" "1px solid rgba(255, 255, 255, 0.6)" element in
  let element := set_style "borderRadius" "6px" element in
  let element := set_style "background" "#d97706" element in
  let element := set_style "color" "#fff" element in
  let element := set_style "fontSize" "18px" element in
  let element := set_style "fontWeight" "700" element in
  let element := set_style "fontFamily" "lato, sans-serif" element in
  let element := set_style "textAlign" "center" element in
  let element := set_style "outline" "none" element in
  set_style "zIndex" "999" element.

(** [href.replace(/^http:/, 'https:')] *)
Definition to_https (href : string) : string :=
  if String.prefix "http:" href
  then "https:" ++ String.substring 5 (String.length href - 5) href
  else href.

(** What the page offers when [createButton] runs. *)
Record Page : Type := {
  xr_in_navigator : bool;
  isSecureContext : option bool;      (* [None]: the member is absent *)
  location_href : string;
  granted : bool;                     (* VRButton.xrSessionIsGranted *)
  userAgent : string                  (* navigator.userAgent *)
}.

Definition toLowerCase_ascii (c : ascii) : ascii :=
  let n := Ascii.nat_of_ascii c in
  if Nat.leb 65 n && Nat.leb n 90 then Ascii.ascii_of_nat (n + 32) else c.

Fixpoint toLowerCase (s : string) : string :=
  match s with
  | EmptyString => EmptyString
  | String c s => String (toLowerCase_ascii c) (toLowerCase s)
  end.

(** [/WebXRViewer\//i.test(userAgent)]: the user agent holds 'WebXRViewer/'
    in some mix of upper and lower case. Without the u flag a character
    beyond ASCII never matches an ASCII letter, so that folding the ASCII
    letters is all the flag i does for this pattern. *)
Definition is_WebXRViewer (userAgent : string) : bool :=
  match String.index 0 "webxrviewer/" (toLowerCase userAgent) with
  | Some _ => true
  | None => false
  end.

(** [registerSessionGrantedListener], which runs once when the module is
    loaded: whether it adds the listener of 'sessiongranted' to
    [navigator.xr]. *)
Definition registerSessionGrantedListener (p : Page) : bool :=
  if xr_in_navigator p
  then if is_WebXRViewer (userAgent p) then false else true
  else false.

(** [createButton] up to its [return]. *)
Definition createButton (p : Page) : State :=
  let button := createElement "button" in
  let s (button : HTMLElement) (message : option HTMLElement) (probing : bool) :=
    {| button := button; message := message; closure := None;
       probing := probing; xrSessionIsGranted := granted p;
       listeners := ∅; requests := []; unanswered := 0; known := ∅;
       awaiting := ∅; ended := []; console := [];
       granted_listener := registerSessionGrantedListener p;
       followed := [] |} in
  if xr_in_navigator p then
    let button := with_id "VRButton" button in
    let button := set_style "display" "none" button in
    let button := stylizeElement button in
    s button None true
  else
    let message := createElement "a" in
    let message :=
      match isSecureContext p with
      | Some false =>
          with_innerHTML "VR Mode Requires HTTPS"
            (with_href (Some (to_https (location_href p))) message)
      | _ =>
          with_innerHTML "VR Mode Unavailable (?)"
            (with_href (Some "#unavailable") message)
      end in
    let message := stylizeElement message in
    let message := set_style "display" "none" message in
    s button (Some message) false.

(** The element [createButton] returns. With WebXR it is the button
    itself, which the later callbacks keep writing to. *)
Definition returned (s : State) : HTMLElement :=
  match message s with
  | Some m => m
  | None => button s
  end.

Inductive Label : Type :=
| Supported (supported : bool)      (* isSessionSupported resolves *)
| NotAllowed (exception : string)   (* isSessionSupported rejects *)
| SessionGranted                    (* 'sessiongranted' on navigator.xr *)
| Click                             (* a click on the returned element *)
| SessionStarted (session : positive)   (* requestSession resolves *)
| RequestRejected
| SetSessionDone (session : positive)   (* setSession resolves *)
| SetSessionFailed (session : positive)
| SessionEnd (session : positive).      (* 'end' on the session *)

Definition step (l : Label) (s : State) : option State :=
  match l with
  | Supported supported =>
      if probing s then
        let s := put_probing false s in
        let s := if supported then showEnterVR s else showWebXRNotFound s in
        Some (if supported && xrSessionIsGranted s then click s else s)
      else None
  | NotAllowed exception =>
      if probing s
      then Some (showVRNotAllowed exception (put_probing false s))
      else None
  | SessionGranted =>
      match message s with
      | None =>
          Some (if granted_listener s
                then put_xrSessionIsGranted true s
                else s)
      | Some _ => None
      end
  | Click =>
      match message s with
      | None => Some (click s)
      | Some m => Some (follow_link m s)
      end
  | SessionStarted session =>
      match unanswered s with
      | S n =>
          if bool_decide (session ∈ known s) then None
          else Some (onSessionStarted_begin session
                       (put_known ({[session]} ∪ known s)
                          (put_unanswered n s)))
      | O => None
      end
  | RequestRejected =>
      match unanswered s with
      | S n => Some (put_unanswered n s)
      | O => None
      end
  | SetSessionDone session =>
      if bool_decide (session ∈ awaiting s)
      then Some (onSessionStarted_end session
                   (put_awaiting (awaiting s ∖ {[session]}) s))
      else None
  | SetSessionFailed session =>
      if bool_decide (session ∈ awaiting s)
      then Some (put_awaiting (awaiting s ∖ {[session]}) s)
      else None
  | SessionEnd session =>
      if bool_decide (session ∈ known s) then
        if bool_decide (session ∈ listeners s) then
          match onSessionEnded s with
          | Some s' => Some s'
          | None => Some s
          end
        else Some s
      else None
  end.

Fixpoint run (ls : list Label) (s : State) : option State :=
  match ls with
  | [] => Some s
  | l :: ls =>
      match step l s with
      | Some s => run ls s
      | None => None
      end
  end.

Definition hidden (e : HTMLElement) : Prop := style e !! "display" = Some "none".

Definition handlers_cleared (e : HTMLElement) : Prop :=
  onclick e = None /\ onmouseenter e = None /\ onmouseleave e = None.

End VRButton.

(** ** Registration of the element

    [window.customElements] as a table from names to element classes. *)

Module Registry.

Inductive Class : Type :=
| StereoImgClass               (* the class StereoImg of this module *)
| OtherClass (n : positive).   (* a class defined elsewhere *)

(** [customElements.get(name)]; [None] is [undefined]. *)
Definition get (name : string) (registry : gmap string Class) : option Class :=
  registry !! name.

(** [customElements.define(name, c)]; [None] is the NotSupportedError
    raised when the name is already in use. *)
Definition define (name : string) (c : Class) (registry : gmap string Class)
  : option (gmap string Class) :=
  match registry !! name with
  | Some _ => None
  | None => Some (<[name := c]> registry)
  end.

(** The last statement of the module:
    [if (window.customElements.get('stereo-img') === undefined)
       window.customElements.define('stereo-img', StereoImg);] *)
Definition register (registry : gmap string Class)
  : option (gmap string Class) :=
  match get "stereo-img" registry with
  | None => define "stereo-img" StereoImgClass registry
  | Some _ => Some registry
  end.

End Registry.

(** * Vocabulary of the properties

    Predicates on states and runs in which the properties below are
    stated, and the sample states their instances are checked on. *)

Import StereoImg.
Local Open Scope list_scope.

(** ** Attributes *)

(** A property [name] with getter [get] and setter [set] reflects the
    attribute of the same name: the getter reads it, a truthy value is
    stored (as a DOMString) and read back, a falsy value removes it, and no
    other attribute changes. [view] finds the element in the state the
    setter acts on and [applies] is the condition under which the setter
    reaches its assignment. *)
Definition reflects {S : Type} (view : S -> Element) (name : string)
    (get : Element -> option string) (set : Js.value -> S -> S)
    (applies : Js.value -> S -> Prop) : Prop :=
  forall (s : S) (val : Js.value),
    get (view s) = attributes (view s) !! name /\
    (applies val s ->
     (Js.truthy val = true ->
      attributes (view (set val s))
        = <[name := Js.ToString val]> (attributes (view s)) /\
      get (view (set val s)) = Some (Js.ToString val)) /\
     (Js.truthy val = false ->
      attributes (view (set val s)) = delete name (attributes (view s)) /\
      get (view (set val s)) = None) /\
     (forall other, other <> name ->
        attributes (view (set val s)) !! other
          = attributes (view s) !! other)).

(** ** Runs, timers and dwell *)

(** The states of the event loop of a page that created the element with
    some attributes. *)
Definition reachable (w : World) : Prop :=
  exists attrs ls, run ls (construct attrs) = Some w.

(** The two buttons, with the group name, the timer callback and the
    event that belong to each. *)
Inductive Button : Type := Prev | Next.

Definition group_name (b : Button) : string :=
  match b with Prev => "prev" | Next => "next" end.

Definition dwell_callback (b : Button) : Callback :=
  match b with Prev => GoToPrev | Next => GoToNext end.

Definition navigation_event (b : Button) : string :=
  match b with Prev => "stereoImgGoToPrev" | Next => "stereoImgGoToNext" end.

(** [w'] has the timer table, the clock, the event log and the dwell timer
    of [w]. *)
Definition same_window (w w' : World) : Prop :=
  timers w' = timers w /\ next_handle w' = next_handle w /\
  dispatched w' = dispatched w /\ clock w' = clock w /\
  prevNextTimer (el w') = prevNextTimer (el w).

(** Labels that neither touch the timer table nor the event log. *)
Definition quiet (l : Label) : bool :=
  match l with
  | SetSrc _ | SetBackImageSrc _ | Fire _ | Frame _ _ _ _ _ | Tick _ => false
  | _ => true
  end.

(** A dwell on button [b] started in [w] at clock reading [now]: one new
    timer, due [PREV_NEXT_TIMEOUT_MS] later, under a new handle that
    becomes the pending dwell timer. *)
Definition dwell_started (b : Button) (now : float) (w w' : World) : Prop :=
  prevNextTimer (el w) = None /\
  prevNextTimer (el w') = Some (next_handle w) /\
  timers w' = <[next_handle w :=
                  {| due := clock w + PREV_NEXT_TIMEOUT_MS;
                     callback := dwell_callback b |}]> (timers w) /\
  next_handle w' = Pos.succ (next_handle w) /\
  dispatched w' = dispatched w /\ clock w' = clock w /\
  prevNextTimerStartMS (el w') = Some now.

(** A hit the loop steps over: on an object whose parent is named neither
    "prev" nor "next". *)
Definition passes_by (hit : Three.Hit) : Prop :=
  exists n, Three.object hit = Some (Some n) /\ n <> "prev" /\ n <> "next".

(** What [prevNextTest] does to the window: nothing, the cancellation of
    the pending dwell on an empty answer, or the start of one dwell. *)
Definition dwell_cancelled (h : positive) (w w' : World) : Prop :=
  prevNextTimer (el w) = Some h /\ prevNextTimer (el w') = None /\
  timers w' = delete h (timers w) /\ next_handle w' = next_handle w /\
  dispatched w' = dispatched w /\ clock w' = clock w.

Definition clear (h : option positive) (t : gmap positive Timer)
  : gmap positive Timer :=
  match h with
  | Some h => delete h t
  | None => t
  end.

Inductive window_change (l : Label) (w w' : World) : Prop :=
| wc_same :
    same_window w w' -> window_change l w w'
| wc_tick (d : Z) :
    l = Tick d -> (0 <= d)%Z ->
    timers w' = timers w -> next_handle w' = next_handle w ->
    dispatched w' = dispatched w -> clock w' = (clock w + d)%Z ->
    prevNextTimer (el w') = prevNextTimer (el w) ->
    window_change l w w'
| wc_reparse_timer :
    timers w' = <[next_handle w :=
                    {| due := clock w + 0; callback := Reparse |}]> (timers w) ->
    next_handle w' = Pos.succ (next_handle w) ->
    dispatched w' = dispatched w -> clock w' = clock w ->
    prevNextTimer (el w') = prevNextTimer (el w) ->
    window_change l w w'
| wc_cancel (h : positive) pose dir n1 n2 :
    l = Frame pose dir [] n1 n2 -> dwell_cancelled h w w' ->
    window_change l w w'
| wc_start (b : Button) pose dir hits n1 n2 :
    l = Frame pose dir hits n1 n2 ->
    In (Three.hit_under (group_name b)) hits ->
    dwell_started b n1 w w' ->
    window_change l w w'
| wc_fire_dwell (h : positive) (tm : Timer) (b : Button) :
    l = Fire h -> timers w !! h = Some tm -> (due tm <= clock w)%Z ->
    callback tm = dwell_callback b ->
    prevNextTimer (el w') = None ->
    timers w' = clear (prevNextTimer (el w)) (delete h (timers w)) ->
    next_handle w' = next_handle w ->
    dispatched w' = dispatched w ++ [(navigation_event b, clock w)] ->
    clock w' = clock w ->
    window_change l w w'
| wc_fire_reparse (h : positive) (tm : Timer) :
    l = Fire h -> timers w !! h = Some tm -> (due tm <= clock w)%Z ->
    callback tm = Reparse ->
    timers w' = delete h (timers w) -> next_handle w' = next_handle w ->
    dispatched w' = dispatched w -> clock w' = clock w ->
    prevNextTimer (el w') = prevNextTimer (el w) ->
    window_change l w w'.

(** Every handle in the table was issued; the pending dwell timer is in
    the table with a dwell callback; and no other dwell timer is. *)
Definition window_ok (w : World) : Prop :=
  (forall k tm, timers w !! k = Some tm -> (k < next_handle w)%positive) /\
  (forall k, prevNextTimer (el w) = Some k ->
             exists tm b, timers w !! k = Some tm /\
                          callback tm = dwell_callback b) /\
  (forall k tm b, timers w !! k = Some tm ->
                  callback tm = dwell_callback b ->
                  prevNextTimer (el w) = Some k).

(** Once the loop is installed the guard of [prevNextTest] holds; and a
    scene exists while a task waits to finish it. *)
Definition loop_ok (w : World) : Prop :=
  (animating w = true -> ready (el w) = true) /\
  Forall (fun t => stage t = AwaitInitialized -> is_Some (scene (el w)))
         (tasks w).

(** [w'] has the loop flag and the tasks of [w], and every field the guard
    asks for that [w] has. *)
Definition keeps_fields (w w' : World) : Prop :=
  animating w' = animating w /\
  (is_Some (scene (el w)) -> is_Some (scene (el w'))) /\
  (is_Some (camera (el w)) -> is_Some (camera (el w'))) /\
  (is_Some (raycaster (el w)) -> is_Some (raycaster (el w'))) /\
  (is_Some (prevNextButtons (el w)) -> is_Some (prevNextButtons (el w'))).

(** In the run [ls] from the creation of the element, some animation frame
    found no dwell pending, had a hit on button [b] and took place at
    clock time [t0]. *)
Definition dwell_origin (attrs : gmap string string) (ls : list Label)
    (b : Button) (t0 : Z) : Prop :=
  exists ls1 ls2 w1 pose dir hits n1 n2,
    ls = ls1 ++ Frame pose dir hits n1 n2 :: ls2 /\
    run ls1 (construct attrs) = Some w1 /\
    prevNextTimer (el w1) = None /\
    In (Three.hit_under (group_name b)) hits /\
    clock w1 = t0.

(** Every dwell timer in the table is due a full timeout after its
    origin, and every event in the log was dispatched no earlier. *)
Definition traced (attrs : gmap string string) (ls : list Label) (w : World)
  : Prop :=
  (forall h tm b, timers w !! h = Some tm -> callback tm = dwell_callback b ->
     exists t0, dwell_origin attrs ls b t0 /\
                due tm = (t0 + PREV_NEXT_TIMEOUT_MS)%Z) /\
  (forall ev t, In (ev, t) (dispatched w) ->
     exists b t0, ev = navigation_event b /\ dwell_origin attrs ls b t0 /\
                  (t0 + PREV_NEXT_TIMEOUT_MS <= t)%Z).

(** The dwell timer [h] is pending in [w] and stays pending in every
    state of the run [ls] from [w]. *)
Fixpoint dwelling (h : positive) (ls : list Label) (w : World) : Prop :=
  prevNextTimer (el w) = Some h /\
  match ls with
  | [] => True
  | l :: ls =>
      match step l w with
      | Some w' => dwelling h ls w'
      | None => True
      end
  end.

(** The run [ls] from the creation of the element ends in a dwell on
    button [b] that an animation frame started at clock time [t0], under
    the timer handle [h], in a state without pending dwell and with a hit
    on [b]; and the dwell has been pending ever since. *)
Definition dwelt (attrs : gmap string string) (ls : list Label)
    (b : Button) (h : positive) (t0 : Z) : Prop :=
  exists ls1 ls2 w1 w2 pose dir hits n1 n2,
    ls = ls1 ++ Frame pose dir hits n1 n2 :: ls2 /\
    run ls1 (construct attrs) = Some w1 /\
    step (Frame pose dir hits n1 n2) w1 = Some w2 /\
    dwell_started b n1 w1 w2 /\ h = next_handle w1 /\ clock w1 = t0 /\
    In (Three.hit_under (group_name b)) hits /\
    dwelling h ls2 w2.

(** The [k]-th event of the log of the run [ls] is [ev], dispatched at
    clock time [t]: it was dispatched by the timer of a dwell on the
    button of [ev], when that timer fired after a dwell of at least
    [PREV_NEXT_TIMEOUT_MS]. *)
Definition dispatched_by_dwell (attrs : gmap string string)
    (ls : list Label) (k : nat) (ev : string) (t : Z) : Prop :=
  exists b h t0 ls1 ls3 w3,
    ls = ls1 ++ Fire h :: ls3 /\
    run ls1 (construct attrs) = Some w3 /\
    dwelt attrs ls1 b h t0 /\
    ev = navigation_event b /\ clock w3 = t /\
    (t0 + PREV_NEXT_TIMEOUT_MS <= t)%Z /\
    length (dispatched w3) = k.

(** Every dwell timer in the table belongs to a dwell that has lasted
    since its start, and every event of the log was dispatched by such a
    dwell. *)
Definition dwell_traced (attrs : gmap string string) (ls : list Label)
    (w : World) : Prop :=
  (forall h tm b, timers w !! h = Some tm -> callback tm = dwell_callback b ->
     exists t0, dwelt attrs ls b h t0 /\
                due tm = (t0 + PREV_NEXT_TIMEOUT_MS)%Z) /\
  (forall k ev t, dispatched w !! k = Some (ev, t) ->
     dispatched_by_dwell attrs ls k ev t).

(** ** Sample runs of the element *)

Definition origin : Three.Vector3 :=
  {| Three.x := 0%float; Three.y := 0%float; Three.z := 0%float |}.

(** The state a run from an element without attributes ends in. *)
Definition after (ls : list Label) : World :=
  match run ls (construct ∅) with
  | Some w => w
  | None => construct ∅
  end.

(** The element is created, its scene is built and its loop runs. *)
Definition mounted : list Label := [Resume 0; Resume 0].

(** An animation frame with the camera at the origin, in which the
    raycast reports [hits]. *)
Definition gaze (hits : list Three.Hit) : Label :=
  Frame origin origin hits 5%float 6%float.

(** Concrete states of sample runs. *)
Definition w_mounted : World := Eval vm_compute in after mounted.
Definition w_dwelling : World :=
  Eval vm_compute in after (mounted ++ [gaze [Three.hit_under "prev"]]).
Definition w_due : World :=
  Eval vm_compute in
    after (mounted ++ [gaze [Three.hit_under "prev"]; Tick 1000]).

Definition w_still_dwelling : World :=
  Eval vm_compute in
    after (mounted ++ [gaze [Three.hit_under "prev"];
                       gaze [Three.hit_under "next"]]).

Definition w_fired : World :=
  Eval vm_compute in
    after (mounted ++ [gaze [Three.hit_under "prev"]; Tick 1000;
                       Fire 1%positive]).

Definition w_looked_away : World :=
  Eval vm_compute in after (mounted ++ [gaze [Three.hit_under "prev"]; gaze []]).

(** ** Object identities and the scene *)

(** [w'] has the ImageData objects of [w] and possibly new ones, under
    identities that were not yet given out in [w]. *)
Definition heap_grows (w w' : World) : Prop :=
  (next_obj w <= next_obj w')%positive /\
  forall k v, heap w' !! k = Some v ->
              heap w !! k = Some v \/
              (next_obj w <= k < next_obj w')%positive.

(** No identity of the heap is still to be given out. *)
Definition heap_ok (w : World) : Prop :=
  forall k v, heap w !! k = Some v -> (k < next_obj w)%positive.

(** The element right after its creation, without attributes. *)
Definition w_created : World := Eval vm_compute in construct ∅.

(** The sphere both eyes are drawn on, for the angles of [sd]. *)
Definition eye_sphere (sd : StereoData) : Three.SphereGeometry :=
  {| Three.radius := 10%float;
     Three.widthSegments := 60; Three.heightSegments := 40;
     Three.phiStart :=
       PrimFloat.div (PrimFloat.mul (-1)%float (sd_phiLength sd)) 2%float;
     Three.phiLength := sd_phiLength sd;
     Three.thetaStart := sd_thetaStart sd;
     Three.thetaLength := sd_thetaLength sd;
     Three.scaled :=
       [{| Three.x := (-1)%float; Three.y := 1%float; Three.z := 1%float |}]
  |}.

(** The back image is asked for: the angle attribute is "180" and the
    backImageSrc attribute holds a non-empty source. *)
Definition back_image_set (e : Element) (src : string) : Prop :=
  get_angle e = Some "180" /\ get_backImageSrc e = Some src /\
  src <> EmptyString.

(** An element set up for a half sphere with a back image. *)
Definition e_half_sphere : Element :=
  Eval vm_compute in
    with_stereoData
      (Some {| leftEye := 1; rightEye := 2;
               sd_phiLength := Arith.Math_PI; sd_thetaStart := 0%float;
               sd_thetaLength := Arith.Math_PI; roll := None; pitch := None |})
      (setAttribute "angle" "180"
         (setAttribute "backImageSrc" "back.jpg" (el w_created))).

(** ** Binary64 constants *)

Definition SF_zero : spec_float := Eval vm_compute in Prim2SF 0%float.

(** ** The order of the binary64 numbers

    The comparisons of two Numbers that are not NaN are the comparisons of
    their places [sordF] in the integers; rounding to nearest, ties to
    even, is followed on the numbers of the shift records. *)

Section Binary64Vocabulary.

Local Open Scope Z_scope.

(** The least exponent and the exponent function of the binary64 format. *)
Definition emin64 : Z := SpecFloat.emin prec emax.
Definition fexp64 (e : Z) : Z := SpecFloat.fexp prec emax e.

(** A shift record as one number: the mantissa followed by the round bit
    and the sticky bit. One step of [shr_1] is [halve] on this number, and
    the record of a quotient [N / D] is [ratio_key N D]. *)
Definition shr_key (mrs : shr_record) : Z :=
  4 * shr_m mrs + (if shr_r mrs then 2 else 0) + (if shr_s mrs then 1 else 0).

Definition halve (k : Z) : Z := 2 * (k / 4) + (if k mod 4 =? 0 then 0 else 1).

Definition ratio_key (N D : Z) : Z :=
  2 * (2 * N / D) + (if (2 * N) mod D =? 0 then 0 else 1).

(** [round_nearest_even] on the number of a shift record. *)
Definition rne_key (k : Z) : Z :=
  let m := k / 4 in
  let c := k mod 4 in
  if c <? 2 then m
  else if c =? 2 then (if Z.even m then m else m + 1)
  else m + 1.

(** The place of a non-negative number among the non-negative binary64
    numbers (its bit pattern): 0 for zero, infinity last. *)
Definition ord64 (x : spec_float) : Z :=
  match x with
  | S754_zero _ => 0
  | S754_finite _ m e => (e - emin64) * 2 ^ 52 + Zpos m
  | S754_infinity _ => 2047 * 2 ^ 52
  | S754_nan => 0
  end.

(** The place of the number [binary_round_aux] makes of the mantissa [q]
    with exponent [E] and the shift record of number [k0], as long as it
    does not overflow. *)
Definition round_ord (k0 q E : Z) : Z :=
  let e' := fexp64 (Zdigits2 q + E) in
  (e' - emin64) * 2 ^ 52 + rne_key (Nat.iter (Z.to_nat (e' - E)) halve k0).

(** Zero, or positive, NaN excluded. *)
Definition nonneg64 (x : spec_float) : Prop :=
  match x with
  | S754_zero _ => True
  | S754_finite s _ _ | S754_infinity s => s = false
  | S754_nan => False
  end.

(** The place of the rounded quotient [N / D * 2 ^ E], as long as it does
    not overflow. *)
Definition rnd_ord (N D E : Z) : Z :=
  let e' := fexp64 (Zdigits2 (N / D) + E) in
  (e' - emin64) * 2 ^ 52 + rne_key (ratio_key N (D * 2 ^ (e' - E))).

(** The exponent and the shift [SFdiv_core_binary] chooses. *)
Definition div_exp (mx : positive) (ex : Z) (mb : positive) (eb : Z) : Z :=
  Z.min (fexp64 (Zdigits2 (Z.pos mx) + ex - (Zdigits2 (Z.pos mb) + eb)))
        (ex - eb).

(** The numerator [SFdiv_core_binary] divides, after its shift. *)
Definition div_num (mx : positive) (ex : Z) (mb : positive) (eb : Z) : Z :=
  Z.pos mx * 2 ^ (ex - eb - div_exp mx ex mb eb).

(** A finite, positive number. *)
Definition posfin64 (x : spec_float) : Prop :=
  match x with
  | S754_finite false _ _ => True
  | _ => False
  end.

(** The place of a number in the order of the binary64 values that are
    not NaN: the two zeros at 0, the positive numbers at their ordinal and
    the negative ones mirrored. *)
Definition sord64 (x : spec_float) : Z :=
  match x with
  | S754_zero _ => 0
  | S754_finite false _ _ | S754_infinity false => ord64 x
  | S754_finite true _ _ | S754_infinity true => - ord64 x
  | S754_nan => 0
  end.

(** The same for a Number. *)
Definition sordF (x : float) : Z := sord64 (Prim2SF x).

Definition nonnegF (x : float) : Prop := nonneg64 (Prim2SF x).

(** The sweep of the "prev" ring before the final addition of zero. *)
Definition sweep_core (c : float) : float :=
  PrimFloat.div (PrimFloat.mul (PrimFloat.mul Arith.Math_PI 2%float) c)
                1000%float.

(** [Math.PI * 2] and [-Math.PI * 2], the two values the ring is scaled
    to. *)
Definition two_pi : float := PrimFloat.mul Arith.Math_PI 2%float.
Definition minus_two_pi : float :=
  PrimFloat.mul (PrimFloat.opp Arith.Math_PI) 2%float.


End Binary64Vocabulary.

(** ** The VR entry button *)

(** The states of a button that some page created. *)
Definition vr_reachable (s : VRButton.State) : Prop :=
  exists p ls, VRButton.run ls (VRButton.createButton p) = Some s.

(** The current session, once [showEnterVR] has run. *)
Definition current (s : VRButton.State) : option (option positive) :=
  VRButton.currentSession <$> VRButton.closure s.

(** The button reads "View in 3D VR" exactly when no session is current;
    the handler is installed once the closure exists; and the current
    session is known, listened to and no longer awaited. *)
Definition vr_ok (s : VRButton.State) : Prop :=
  (VRButton.probing s = true ->
   VRButton.closure s = None /\ VRButton.message s = None) /\
  (forall c, VRButton.closure s = Some c ->
     (VRButton.currentSession c = None <->
      VRButton.textContent (VRButton.button s) = "View in 3D VR") /\
     VRButton.onclick (VRButton.button s) = Some VRButton.EnterOrExit /\
     VRButton.message s = None) /\
  VRButton.awaiting s ⊆ VRButton.known s /\
  VRButton.awaiting s ⊆ VRButton.listeners s /\
  (forall session, current s = Some (Some session) ->
     session ∈ VRButton.known s /\ session ∈ VRButton.listeners s /\
     session ∉ VRButton.awaiting s) /\
  (VRButton.closure s = None -> VRButton.unanswered s = 0%nat /\
                                VRButton.awaiting s = ∅).

(** A page with WebXR, one without, and one in the WebXRViewer browser. *)
Definition page_with_xr : VRButton.Page :=
  {| VRButton.xr_in_navigator := true; VRButton.isSecureContext := Some true;
     VRButton.location_href := "https://example.org/";
     VRButton.granted := false;
     VRButton.userAgent := "Mozilla/5.0 (X11; Linux x86_64) Chrome/120.0" |}.



(** The state a run of the button of [page_with_xr] ends in. *)
Definition vr_after (ls : list VRButton.Label) : VRButton.State :=
  match VRButton.run ls (VRButton.createButton page_with_xr) with
  | Some s => s
  | None => VRButton.createButton page_with_xr
  end.

Definition s_offered : VRButton.State :=
  Eval vm_compute in vr_after [VRButton.Supported true].
Definition s_requested : VRButton.State :=
  Eval vm_compute in vr_after [VRButton.Supported true; VRButton.Click].
Definition s_starting : VRButton.State :=
  Eval vm_compute in
    vr_after [VRButton.Supported true; VRButton.Click;
              VRButton.SessionStarted 1%positive].
Definition s_presenting : VRButton.State :=
  Eval vm_compute in
    vr_after [VRButton.Supported true; VRButton.Click;
              VRButton.SessionStarted 1%positive;
              VRButton.SetSessionDone 1%positive].


(** ** What the loop keeps: fields, rings and the event log *)

(** The steps of the animation loop, and those that resume a pending
    [parseImageAndInitialize3DScene] after one of its two awaits. *)
Definition is_frame (l : Label) : bool :=
  match l with Frame _ _ _ _ _ => true | _ => false end.

Definition is_resume (l : Label) : bool :=
  match l with Resume _ => true | _ => false end.

(** The fields of the element that no other step writes. *)
Definition loop_fields (e : Element) :=
  (scene e, raycaster e, prevNextButtons e, timerRing e,
   prevNextTimerStartMS e, timerRingForPrev e, renderer e, controls e).

(** The two buttons [addPrevNextButtons] makes, "prev" first. *)
Definition navigation_buttons : list Three.ButtonGroup :=
  [createPrevOrNextButton true; createPrevOrNextButton false].

(** A pending dwell has its start time and its side recorded. *)
Definition dwell_recorded (e : Element) : Prop :=
  is_Some (prevNextTimer e) ->
  is_Some (prevNextTimerStartMS e) /\ is_Some (timerRingForPrev e).

(** What [init] sets up once, together with the loop. *)
Definition mounted_ok (w : World) : Prop :=
  (animating w = true ->
   is_Some (raycaster (el w)) /\
   prevNextButtons (el w) = Some navigation_buttons /\
   renderer (el w) = true /\ controls (el w) = true /\
   exists c, camera (el w) = Some c /\ Three.cam_layers c = 3%Z) /\
  (animating w = false ->
   camera (el w) = None /\ raycaster (el w) = None /\
   prevNextButtons (el w) = None /\ renderer (el w) = false /\
   controls (el w) = false /\ timerRing (el w) = None /\
   prevNextTimer (el w) = None /\ dispatched w = []) /\
  dwell_recorded (el w).

(** The identities of the progress rings among the children of a scene. *)
Definition timer_rings (s : Three.Scene) : list positive :=
  omap (fun o => match o with Three.ORing id _ => Some id | _ => None end)
       (Three.children s).

(** The children of a scene that are not progress rings. *)
Definition scenery (s : Three.Scene) : list Three.Object3D :=
  List.filter (fun o => match o with Three.ORing _ _ => false | _ => true end)
              (Three.children s).

(** The scene holds no ring but the one [this.timerRing] names. *)
Definition ring_ok (w : World) : Prop :=
  forall sc, scene (el w) = Some sc ->
    timer_rings sc = [] \/
    exists id, timer_rings sc = [id] /\ timerRing (el w) = Some id.

(** Any two entries of the event log are a full timeout apart, the
    earlier first; no entry is later than the clock; and every dwell timer
    in the table is due at least a full timeout after every entry. *)
Definition spaced (w : World) : Prop :=
  (forall i j e1 t1 e2 t2, (i < j)%nat ->
     dispatched w !! i = Some (e1, t1) -> dispatched w !! j = Some (e2, t2) ->
     (t1 + PREV_NEXT_TIMEOUT_MS <= t2)%Z) /\
  (forall e t, (e, t) ∈ dispatched w -> (t <= clock w)%Z) /\
  (forall h tm b e t,
     timers w !! h = Some tm -> callback tm = dwell_callback b ->
     (e, t) ∈ dispatched w -> (t + PREV_NEXT_TIMEOUT_MS <= due tm)%Z).

(** A hit on an object that has a parent. *)
Definition has_parent (hit : Three.Hit) : Prop :=
  exists n, Three.object hit = Some (Some n).

(** The value of [this.timerRingForPrev] that belongs to a button, and the
    group [createPrevOrNextButton] makes for it. *)
Definition is_prev (b : Button) : bool :=
  match b with Prev => true | Next => false end.

Definition button_group (b : Button) : Three.ButtonGroup :=
  createPrevOrNextButton (is_prev b).

(** Two dwells in a row, each kept up to its end. *)
Definition w_fired_twice : World :=
  Eval vm_compute in
    after (mounted ++ [gaze [Three.hit_under "prev"]; Tick 1000;
                       Fire 1%positive; gaze [Three.hit_under "next"];
                       Tick 1500; Fire 2%positive]).

(** A hit without object, or on an object without parent. *)
Definition parentless (hit : Three.Hit) : Prop :=
  Three.object hit = None \/ Three.object hit = Some None.

(** ** Mounting and parsing *)

(** The stereo data [parse] makes up for an element without source, on a
    page where no object was made before. *)
Definition fallback_stereoData : StereoData :=
  {| leftEye := 1; rightEye := 2; sd_phiLength := 0%float;
     sd_thetaStart := 0%float; sd_thetaLength := 0%float;
     roll := None; pitch := None |}.

(** A dwell on "prev" is pending and a parse, asked for by setting
    backImageSrc, has just ended. *)
Definition w_reparsing : World :=
  Eval vm_compute in
    after (mounted ++ [gaze [Three.hit_under "prev"];
                       SetBackImageSrc (Js.VString "b.jpg");
                       Fire 2%positive]).

(** A call that [parse] makes before it has looked at the image: the
    source is set, and a type handed to [parseStereo] is one of the two
    the element knows. *)
Definition first_call (c : ExternalCall) : Prop :=
  match c with
  | CallParseVR s | CallParseAnaglyph s _ | CallExifr s =>
      Js.truthy_attr s = true
  | CallParseStereo s ty _ =>
      Js.truthy_attr s = true /\
      (ty = Some "left-right" \/ ty = Some "top-bottom")
  end.

(** The call [parse] falls back on when the image carries no left eye. *)
Definition untyped_stereo (c : ExternalCall) : bool :=
  match c with
  | CallParseStereo _ None _ => true
  | _ => false
  end.

(** What a step does to the pending parses, the calls made, the console
    and [this.stereoData]. *)
Inductive parse_change (w w' : World) : Prop :=
| pc_same :
    tasks w' = tasks w -> calls w' = calls w -> console w' = console w ->
    stereoData (el w') = stereoData (el w) ->
    parse_change w w'
| pc_called (b : bool) (st : Stage) (c : ExternalCall) :
    tasks w' = tasks w ++ [{| stage := st; from_init := b |}] ->
    st = AwaitParser \/ st = AwaitExif ->
    calls w' = calls w ++ [c] -> first_call c ->
    console w' = console w -> stereoData (el w') = stereoData (el w) ->
    parse_change w w'
| pc_fallback (b : bool) (sd : StereoData) :
    tasks w' = tasks w ++ [{| stage := AwaitParsed; from_init := b |}] ->
    calls w' = calls w -> console w' = console w ->
    stereoData (el w') = Some sd ->
    parse_change w w'
| pc_exif (i : nat) (t : Task) (c : ExternalCall) :
    tasks w !! i = Some t -> stage t = AwaitExif ->
    tasks w' = <[i := {| stage := AwaitParser; from_init := from_init t |}]>
                 (tasks w) ->
    calls w' = calls w ++ [c] ->
    (c = CallParseVR (get_src (el w)) /\ console w' = console w \/
     c = CallParseStereo (get_src (el w)) None (get_angle (el w)) /\
     console w' = console w ++ [no_type_warning]) ->
    stereoData (el w') = stereoData (el w) ->
    parse_change w w'
| pc_parsed (i : nat) (t : Task) (sd : StereoData) :
    tasks w !! i = Some t -> stage t = AwaitParser ->
    tasks w' = <[i := {| stage := AwaitParsed; from_init := from_init t |}]>
                 (tasks w) ->
    calls w' = calls w -> console w' = console w ->
    stereoData (el w') = Some sd ->
    parse_change w w'
| pc_initialized (i : nat) (t : Task) :
    tasks w !! i = Some t -> stage t = AwaitParsed ->
    is_Some (stereoData (el w)) ->
    tasks w' = <[i := {| stage := AwaitInitialized;
                         from_init := from_init t |}]> (tasks w) ->
    calls w' = calls w -> console w' = console w ->
    stereoData (el w') = stereoData (el w) ->
    parse_change w w'
| pc_dropped (i : nat) (t : Task) :
    tasks w !! i = Some t ->
    (stage t = AwaitParsed -> stereoData (el w) = None) ->
    tasks w' = delete i (tasks w) ->
    calls w' = calls w -> console w' = console w ->
    stereoData (el w') = stereoData (el w) ->
    parse_change w w'.

(** The tasks past [await this.parse()] run on a defined [stereoData];
    the console holds one warning for each untyped [parseStereo] call and
    nothing else; and every call but those that follow the metadata reader
    was made with a source and a known type. *)
Definition parse_ok (w : World) : Prop :=
  Forall (fun t => stage t = AwaitParsed \/ stage t = AwaitInitialized ->
                   is_Some (stereoData (el w))) (tasks w) /\
  console w
    = repeat no_type_warning (length (List.filter untyped_stereo (calls w))) /\
  Forall (fun c => first_call c \/ untyped_stereo c = true \/
                   exists s, c = CallParseVR s) (calls w).

(** An element with a source and no type, whose metadata hold no left
    eye. *)
Definition attrs_src_only : gmap string string := {[ "src" := "a.jpg" ]}.


(** The types [parse] knows. *)
Definition known_types : list string :=
  ["vr"; "left-right"; "top-bottom"; "anaglyph"].

(** What [this.src] reads after the assignment [this.src = val] took
    effect. *)
Definition src_after (val : Js.value) : option string :=
  if Js.truthy val then Some (Js.ToString val) else None.

(** The step [l] asks for a new parse: it starts one timer that is due at
    once and changes neither the pending parses nor the scene; and when
    that timer fires, the element turns transparent and one more parse is
    pending, on the scene as it was. *)
Definition schedules_reparse (l : Label) (w : World) : Prop :=
  exists w1 w2,
    step l w = Some w1 /\
    timers w !! next_handle w = None /\
    timers w1
      = <[next_handle w := {| due := clock w; callback := Reparse |}]>
          (timers w) /\
    tasks w1 = tasks w /\ calls w1 = calls w /\
    scene (el w1) = scene (el w) /\ opacity (el w1) = opacity (el w) /\
    step (Fire (next_handle w)) w1 = Some w2 /\
    timers w2 = timers w /\ opacity (el w2) = Some "0" /\
    length (tasks w2) = S (length (tasks w)) /\
    scene (el w2) = scene (el w).


(** The parse that [init] waits for is gone and the loop was never
    installed: no task is left that would run the rest of [init]. *)
Definition unmountable (w : World) : Prop :=
  animating w = false /\ Forall (fun t => from_init t = false) (tasks w).

(** The element with a source only, after the metadata reader rejected;
    and the same after the source was set again and read again. *)
Definition w_rejected : World :=
  Eval vm_compute in drop_task 0 (construct attrs_src_only).

Definition retried : list Label :=
  [SetSrc (Js.VString "b.jpg"); Fire 1; ExifAnswer 0 true].

Definition w_retried : World :=
  Eval vm_compute in
    match run retried w_rejected with
    | Some w => w
    | None => w_rejected
    end.

(** The tasks that carry the rest of [init], and the loop it installs:
    there is one of them. *)
Definition init_count (w : World) : nat :=
  length (List.filter from_init (tasks w)) + (if animating w then 1 else 0).

(** ** Binary64 values *)

(** A binary64 value that is a zero or NaN. *)
Definition zero_or_nan (x : spec_float) : Prop :=
  match x with
  | S754_zero _ | S754_nan => True
  | _ => False
  end.

(** ** Requests of the VR button *)

(** The request for a session that a click makes. *)
Definition vr_request : VRButton.Request :=
  {| VRButton.mode := "immersive-vr";
     VRButton.optionalFeatures := VRButton.sessionInit |}.

(** Every request made is the one a click makes, no more requests wait
    for an answer than were made, and [end()] was only called on sessions
    that the page handed out. *)
Definition requests_ok (s : VRButton.State) : Prop :=
  Forall (eq vr_request) (VRButton.requests s) /\
  (VRButton.unanswered s + size (VRButton.known s)
   <= length (VRButton.requests s))%nat /\
  Forall (fun session => session ∈ VRButton.known s) (VRButton.ended s).

(** A button that gave up: the support query is settled, [showEnterVR]
    never ran, no handler is installed and no session is around. *)
Definition given_up (s : VRButton.State) : Prop :=
  VRButton.probing s = false /\ VRButton.closure s = None /\
  VRButton.onclick (VRButton.button s) = None /\
  VRButton.unanswered s = 0%nat /\ VRButton.awaiting s = ∅ /\
  VRButton.known s = ∅ /\ VRButton.requests s = [] /\ VRButton.ended s = [].

(** * Properties *)

(** ** Attribute accessors *)

Lemma reflects_setAttribute (e : Element) (name v : string) :
  attributes (setAttribute name v e) = <[name := v]> (attributes e).
Proof. reflexivity. Qed.

Lemma reflects_removeAttribute (e : Element) (name : string) :
  attributes (removeAttribute name e) = delete name (attributes e).
Proof. reflexivity. Qed.

Lemma attributes_assign (e : Element) (name : string) (val : Js.value) :
  let e' := if Js.truthy val then setAttribute name (Js.ToString val) e
            else removeAttribute name e in
  (Js.truthy val = true ->
   attributes e' = <[name := Js.ToString val]> (attributes e) /\
   attributes e' !! name = Some (Js.ToString val)) /\
  (Js.truthy val = false ->
   attributes e' = delete name (attributes e) /\
   attributes e' !! name = None) /\
  (forall other, other <> name ->
     attributes e' !! other = attributes e !! other).
Proof.
  cbv zeta. destruct (Js.truthy val); repeat split; intros; try discriminate.
  - rewrite reflects_setAttribute. apply lookup_insert_eq.
  - rewrite reflects_setAttribute. by apply lookup_insert_ne.
  - rewrite reflects_removeAttribute. apply lookup_delete_eq.
  - rewrite reflects_removeAttribute. by apply lookup_delete_ne.
Qed.

Lemma el_setTimeout (cb : Callback) (d : Z) (w : World) :
  el (snd (setTimeout cb d w)) = el w.
Proof. reflexivity. Qed.

(** C4: each of the properties type, angle, src and backImageSrc reads the
    attribute of its name (null when absent); its setter stores a truthy
    value in that attribute and removes the attribute on a falsy value,
    whatever the attributes were before (for src, when the value differs
    from the current attribute). *)
Theorem accessors_reflect_attributes :
  reflects id "type" get_type set_type (fun _ _ => True) /\
  reflects id "angle" get_angle set_angle (fun _ _ => True) /\
  reflects el "src" get_src set_src
    (fun val w => Js.strict_equal (getAttribute "src" (el w)) val = false) /\
  reflects el "backImageSrc" get_backImageSrc set_backImageSrc
    (fun _ _ => True).
Proof.
  repeat apply conj.
  - intros e val. split; [reflexivity|]. intros _.
    apply (attributes_assign e "type" val).
  - intros e val. split; [reflexivity|]. intros _.
    apply (attributes_assign e "angle" val).
  - intros w val. split; [reflexivity|]. intros Hne.
    unfold set_src. rewrite Hne, el_setTimeout.
    apply (attributes_assign (el w) "src" val).
  - intros w val. split; [reflexivity|]. intros _.
    unfold set_backImageSrc. rewrite el_setTimeout.
    apply (attributes_assign (el w) "backImageSrc" val).
Qed.

Lemma accessors_reflect_attributes_witness :
  (Js.truthy (Js.VString "vr") = true /\ Js.truthy Js.VNull = false /\
   Js.strict_equal (getAttribute "src" (el w_mounted)) (Js.VString "a.jpg")
     = false) /\
  get_type (set_type (Js.VString "vr") (el w_mounted)) = Some "vr" /\
  get_angle (set_angle Js.VNull (setAttribute "angle" "180" (el w_mounted)))
    = None /\
  get_src (el (set_src (Js.VString "a.jpg") w_mounted)) = Some "a.jpg" /\
  get_backImageSrc (el (set_backImageSrc (Js.VString "b.jpg") w_mounted))
    = Some "b.jpg".
Proof.
  destruct accessors_reflect_attributes as (T & A & S & B).
  split; [exact (conj eq_refl (conj eq_refl eq_refl))|].
  split; [|split; [|split]].
  - destruct (T (el w_mounted) (Js.VString "vr")) as (_ & H).
    destruct (H I) as (Ht & _). exact (proj2 (Ht eq_refl)).
  - destruct (A (setAttribute "angle" "180" (el w_mounted)) Js.VNull)
      as (_ & H).
    destruct (H I) as (_ & Hf & _). exact (proj2 (Hf eq_refl)).
  - destruct (S w_mounted (Js.VString "a.jpg")) as (_ & H).
    destruct (H eq_refl) as (Ht & _). exact (proj2 (Ht eq_refl)).
  - destruct (B w_mounted (Js.VString "b.jpg")) as (_ & H).
    destruct (H I) as (Ht & _). exact (proj2 (Ht eq_refl)).
Defined.

(** ** Reachable states and what every step preserves *)

Lemma run_app (ls1 ls2 : list Label) (w : World) :
  run (ls1 ++ ls2) w = match run ls1 w with
                       | Some w1 => run ls2 w1
                       | None => None
                       end.
Proof.
  revert w. induction ls1 as [|l ls1 IH]; intros w; simpl; [done|].
  destruct (step l w); [apply IH | done].
Qed.

Lemma run_snoc (ls : list Label) (l : Label) (w w' : World) :
  run (ls ++ [l]) w = Some w' <->
  exists w1, run ls w = Some w1 /\ step l w1 = Some w'.
Proof.
  rewrite run_app. destruct (run ls w) as [w1|]; simpl.
  - destruct (step l w1) as [w2|] eqn:E; split.
    + intros [= <-]. eauto.
    + intros (w3 & [= <-] & Hs). congruence.
    + discriminate.
    + intros (w3 & [= <-] & Hs). congruence.
  - split; [discriminate | intros (w3 & Hr & _); discriminate].
Qed.

(** Induction over the reachable states. *)
Lemma reachable_ind' (P : World -> Prop) :
  (forall attrs, P (construct attrs)) ->
  (forall l w w', reachable w -> P w -> step l w = Some w' -> P w') ->
  forall w, reachable w -> P w.
Proof.
  intros Hinit Hstep w (attrs & ls & Hr). revert w Hr.
  induction ls as [|l ls IH] using rev_ind; intros w Hr.
  - injection Hr as <-. apply Hinit.
  - apply run_snoc in Hr as (w1 & Hr & Hs).
    eapply Hstep; [exists attrs, ls; exact Hr | by apply IH | exact Hs].
Qed.

(** What a step may do to the tables of the window and to the logs.
    [unfold_ops] opens the operations down to the records. *)
Ltac unfold_ops :=
  unfold animation_frame, updatePrevNextRing, prevNextTest,
    run_callback, parseImageAndInitialize3DScene, parse, parse_after_exif,
    parse_after_parser, set_src, set_backImageSrc, init_rest, drop_task,
    set_stage, start_dwell, new_ImageData_in, alloc, setTimeout,
    clearTimeout, dispatchEvent, console_warn, call, on_el in *.

Ltac split_cases :=
  repeat (simpl in *; try done;
          match goal with
          | |- context [match ?x with _ => _ end] => destruct x eqn:?
          | |- context [if ?x then _ else _] => destruct x eqn:?
          end).

(** The loop starts timers and does nothing else to the window. *)
Lemma prevNextLoop_frame (now : float) (hits : list Three.Hit) (w : World) :
  let w' := prevNextLoop now hits w in
  clock w' = clock w /\ dispatched w' = dispatched w /\
  heap w' = heap w /\ next_obj w' = next_obj w /\
  animating w' = animating w /\ tasks w' = tasks w /\
  calls w' = calls w /\ console w' = console w /\
  attributes (el w') = attributes (el w) /\
  stereoData (el w') = stereoData (el w) /\
  scene (el w') = scene (el w) /\ camera (el w') = camera (el w) /\
  raycaster (el w') = raycaster (el w) /\
  prevNextButtons (el w') = prevNextButtons (el w) /\
  timerRing (el w') = timerRing (el w).
Proof.
  revert w. induction hits as [|hit hits IH]; intros w; simpl; [done|].
  destruct (Three.object hit) as [[n|]|]; [|done..].
  destruct (String.eqb n "prev"); [|destruct (String.eqb n "next")].
  - destruct (IH (start_dwell GoToPrev now
                    (on_el (with_timerRingForPrev (Some true)) w)))
      as (-> & -> & -> & -> & -> & -> & -> & -> & -> & -> & -> & -> & -> & -> & ->).
    unfold_ops. split_cases.
  - destruct (IH (start_dwell GoToNext now
                    (on_el (with_timerRingForPrev (Some false)) w)))
      as (-> & -> & -> & -> & -> & -> & -> & -> & -> & -> & -> & -> & -> & -> & ->).
    unfold_ops. split_cases.
  - apply IH.
Qed.

Lemma same_window_refl (w : World) : same_window w w.
Proof. by repeat split. Qed.

Lemma same_window_trans (w1 w2 w3 : World) :
  same_window w1 w2 -> same_window w2 w3 -> same_window w1 w3.
Proof.
  intros (? & ? & ? & ? & ?) (? & ? & ? & ? & ?).
  repeat split; congruence.
Qed.

Lemma same_window_parse (w : World) : same_window w (snd (parse w)).
Proof. unfold same_window. unfold_ops. split_cases. Qed.

Lemma same_window_reparse (b : bool) (w : World) :
  same_window w (parseImageAndInitialize3DScene b w).
Proof.
  unfold parseImageAndInitialize3DScene.
  pose proof (same_window_parse (on_el (with_opacity (Some "0")) w)) as H.
  destruct (parse (on_el (with_opacity (Some "0")) w)) as [st w1].
  destruct H as (? & ? & ? & ? & ?). simpl in *. by repeat split.
Qed.

Lemma same_window_finish (w : World) : same_window w (on_el finish_scene w).
Proof.
  unfold same_window, finish_scene, camera_home, addPrevNextButtons.
  unfold_ops. split_cases.
Qed.

Lemma same_window_init_rest (w : World) : same_window w (init_rest w).
Proof.
  unfold same_window, init_rest, camera_home, addPrevNextButtons.
  unfold_ops. split_cases.
Qed.

Lemma same_window_ring (now : float) (w : World) :
  same_window w (updatePrevNextRing now w).
Proof. unfold same_window. unfold_ops. split_cases. Qed.

Lemma quiet_step (l : Label) (w w' : World) :
  quiet l = true -> step l w = Some w' -> same_window w w'.
Proof.
  intros Hq Hs. destruct l; try discriminate; simpl in Hs.
  - injection Hs as <-. unfold same_window, set_type. unfold_ops. split_cases.
  - injection Hs as <-. unfold same_window, set_angle. unfold_ops. split_cases.
  - destruct (page_attribute n); [|done]. injection Hs as <-.
    by repeat split.
  - destruct (page_attribute n); [|done]. injection Hs as <-.
    by repeat split.
  - destruct (tasks w !! i) as [t|]; [|done].
    destruct (stage t); try done. injection Hs as <-.
    unfold same_window. unfold_ops. split_cases.
  - destruct (tasks w !! i) as [t|]; [|done].
    destruct (stage t); try done. injection Hs as <-. by repeat split.
  - destruct (tasks w !! i) as [t|]; [|done].
    destruct (stage t); try done; injection Hs as <-; by repeat split.
  - destruct (tasks w !! i) as [t|]; [|done].
    destruct (stage t); try done.
    + unfold initialize3DScene in Hs.
      destruct (stereoData (el w)); injection Hs as <-; by repeat split.
    + injection Hs as <-.
      eapply same_window_trans; [apply same_window_finish|].
      destruct (from_init t).
      * eapply same_window_trans; [|apply same_window_init_rest].
        by repeat split.
      * by repeat split.
Qed.

Lemma tick_step (d : Z) (w w' : World) :
  step (Tick d) w = Some w' ->
  timers w' = timers w /\ next_handle w' = next_handle w /\
  dispatched w' = dispatched w /\ (clock w <= clock w')%Z /\
  el w' = el w.
Proof.
  simpl. destruct (Z.leb_spec 0 d); [|done]. intros [= <-]. simpl.
  repeat split. lia.
Qed.

(** *** The timer table under the dwell loop *)

Lemma hit_eta (hit : Three.Hit) (n : string) :
  Three.object hit = Some (Some n) -> hit = Three.hit_under n.
Proof. destruct hit as [o]. simpl. by intros ->. Qed.

Lemma start_dwell_pending (cb : Callback) (now : float) (w : World) :
  is_Some (prevNextTimer (el w)) -> start_dwell cb now w = w.
Proof. intros [h Hh]. unfold start_dwell. by rewrite Hh. Qed.

Lemma start_dwell_idle (b : Button) (now : float) (w : World) :
  prevNextTimer (el w) = None ->
  dwell_started b now w (start_dwell (dwell_callback b) now w).
Proof. intros Hn. unfold start_dwell. rewrite Hn. by repeat split. Qed.

(** While a dwell timer is pending the loop changes only the side the
    ring is drawn on. *)
Lemma prevNextLoop_pending (now : float) (hits : list Three.Hit) (w : World) :
  is_Some (prevNextTimer (el w)) ->
  same_window w (prevNextLoop now hits w) /\
  prevNextTimerStartMS (el (prevNextLoop now hits w))
    = prevNextTimerStartMS (el w).
Proof.
  revert w. induction hits as [|hit hits IH]; intros w Hp; simpl.
  { split; [apply same_window_refl | done]. }
  destruct (Three.object hit) as [[n|]|];
    [|split; [apply same_window_refl | done]..].
  destruct (String.eqb n "prev"); [|destruct (String.eqb n "next")].
  - rewrite start_dwell_pending by done.
    destruct (IH (on_el (with_timerRingForPrev (Some true)) w) Hp)
      as ((? & ? & ? & ? & ?) & ?). by repeat split.
  - rewrite start_dwell_pending by done.
    destruct (IH (on_el (with_timerRingForPrev (Some false)) w) Hp)
      as ((? & ? & ? & ? & ?) & ?). by repeat split.
  - by apply IH.
Qed.

Lemma dwell_started_then (b : Button) (now : float) (w w1 w2 : World) :
  dwell_started b now w w1 -> same_window w1 w2 ->
  prevNextTimerStartMS (el w2) = prevNextTimerStartMS (el w1) ->
  dwell_started b now w w2.
Proof.
  intros (? & ? & ? & ? & ? & ? & ?) (? & ? & ? & ? & ?) ?.
  repeat split; congruence.
Qed.

Lemma dwell_started_after (b : Button) (now : float) (w0 w w' : World) :
  same_window w0 w -> next_handle w0 = next_handle w ->
  dwell_started b now w w' -> dwell_started b now w0 w'.
Proof.
  intros (Ht & Hn & Hd & Hc & Hp) _ (? & ? & ? & ? & ? & ? & ?).
  unfold dwell_started. rewrite <- Ht, <- Hn, <- Hd, <- Hc, <- Hp.
  by repeat split.
Qed.

(** The loop either leaves the window as it is or starts one dwell, on a
    button that is among the hits. *)
Lemma prevNextLoop_timers (now : float) (hits : list Three.Hit) (w : World) :
  same_window w (prevNextLoop now hits w) \/
  exists b, In (Three.hit_under (group_name b)) hits /\
            dwell_started b now w (prevNextLoop now hits w).
Proof.
  revert w. induction hits as [|hit hits IH]; intros w; simpl.
  { left. apply same_window_refl. }
  destruct (Three.object hit) as [[n|]|] eqn:Ho;
    [|left; apply same_window_refl..].
  apply hit_eta in Ho as ->.
  destruct (prevNextTimer (el w)) as [h|] eqn:Hp.
  { left.
    assert (is_Some (prevNextTimer (el w))) as Hs by (rewrite Hp; eauto).
    pose proof (prevNextLoop_pending now (Three.hit_under n :: hits) w Hs)
      as [H _].
    simpl in H. exact H. }
  destruct (String.eqb_spec n "prev") as [->|Hn1];
    [|destruct (String.eqb_spec n "next") as [->|Hn2]].
  - right. exists Prev. split; [by left|].
    set (w1 := on_el (with_timerRingForPrev (Some true)) w).
    assert (dwell_started Prev now w (start_dwell GoToPrev now w1)) as Hd.
    { apply (dwell_started_after Prev now w w1); [by repeat split | done |].
      by apply (start_dwell_idle Prev). }
    assert (is_Some (prevNextTimer (el (start_dwell GoToPrev now w1)))) as Hs.
    { destruct Hd as (_ & -> & _). eauto. }
    destruct (prevNextLoop_pending now hits _ Hs) as [Hsame Hms].
    by eapply dwell_started_then.
  - right. exists Next. split; [by left|].
    set (w1 := on_el (with_timerRingForPrev (Some false)) w).
    assert (dwell_started Next now w (start_dwell GoToNext now w1)) as Hd.
    { apply (dwell_started_after Next now w w1); [by repeat split | done |].
      by apply (start_dwell_idle Next). }
    assert (is_Some (prevNextTimer (el (start_dwell GoToNext now w1)))) as Hs.
    { destruct Hd as (_ & -> & _). eauto. }
    destruct (prevNextLoop_pending now hits _ Hs) as [Hsame Hms].
    by eapply dwell_started_then.
  - destruct (IH w) as [H|(b & Hin & H)]; [by left|].
    right. exists b. split; [by right | done].
Qed.

(** The loop returns at the first hit that has no object or whose object
    has no parent. *)
Lemma prevNextLoop_returns_early (now : float) (rest : list Three.Hit)
    (w : World) :
  prevNextLoop now (Three.hit_orphan :: rest) w = w /\
  prevNextLoop now (Three.hit_empty :: rest) w = w.
Proof. by split. Qed.

Lemma prevNextLoop_skip (now : float) (pre rest : list Three.Hit) (w : World) :
  Forall passes_by pre ->
  prevNextLoop now (pre ++ rest) w = prevNextLoop now rest w.
Proof.
  induction 1 as [|hit pre (n & Ho & Hp & Hn) _ IH]; simpl; [done|].
  rewrite Ho.
  destruct (String.eqb_spec n "prev"); [done|].
  destruct (String.eqb_spec n "next"); [done|].
  exact IH.
Qed.

(** The first hit on a button decides: with no dwell pending, the loop
    starts the dwell of that button. *)
Lemma prevNextLoop_first (b : Button) (now : float)
    (pre post : list Three.Hit) (w : World) :
  Forall passes_by pre -> prevNextTimer (el w) = None ->
  dwell_started b now w
    (prevNextLoop now (pre ++ Three.hit_under (group_name b) :: post) w).
Proof.
  intros Hpre Hn. rewrite prevNextLoop_skip by done.
  pose (w1 := on_el (with_timerRingForPrev
                       (Some match b with Prev => true | Next => false end)) w).
  assert (dwell_started b now w (start_dwell (dwell_callback b) now w1)) as Hd.
  { apply (dwell_started_after b now w w1); [by repeat split | done |].
    by apply start_dwell_idle. }
  assert (is_Some (prevNextTimer
                     (el (start_dwell (dwell_callback b) now w1)))) as Hs.
  { destruct Hd as (_ & -> & _). eauto. }
  destruct (prevNextLoop_pending now post _ Hs) as [Hsame Hms].
  destruct b; simpl; by eapply dwell_started_then.
Qed.

Lemma prevNextTest_timers (dir : Three.Vector3) (hits : list Three.Hit)
    (now : float) (w : World) :
  let w' := prevNextTest dir hits now w in
  same_window w w' \/
  (exists h, hits = [] /\ dwell_cancelled h w w') \/
  (exists b, In (Three.hit_under (group_name b)) hits /\
             dwell_started b now w w').
Proof.
  cbv zeta. unfold prevNextTest.
  destruct (camera (el w)) as [cam|]; [|left; apply same_window_refl].
  destruct (ready (el w)); simpl; [|left; apply same_window_refl].
  set (w1 := on_el (with_raycaster _) w).
  assert (same_window w w1) as Hw1 by by repeat split.
  destruct hits as [|hit hits].
  - destruct (prevNextTimer (el w)) as [h|] eqn:Hp.
    + right. left. exists h. by repeat split.
    + left. by repeat split.
  - pose proof (prevNextLoop_timers now (hit :: hits) w1) as HL.
    destruct (prevNextTimer (el w1));
      (destruct HL as [H|(b & Hin & H)];
       [left; by eapply same_window_trans
       |right; right; exists b; split; [done|];
        by eapply dwell_started_after]).
Qed.

Lemma ready_camera (e : Element) :
  ready e = true -> is_Some (camera e).
Proof.
  unfold ready. intros H.
  repeat (apply andb_prop in H as [H ?]).
  by eapply bool_decide_eq_true_1.
Qed.

(** The exact cases of [prevNextTest] in a state that passes its guard. *)
Lemma prevNextTest_empty (dir : Three.Vector3) (now : float) (h : positive)
    (w : World) :
  ready (el w) = true -> prevNextTimer (el w) = Some h ->
  dwell_cancelled h w (prevNextTest dir [] now w).
Proof.
  intros Hr Hp. unfold prevNextTest.
  destruct (camera (el w)) as [cam|] eqn:Hc.
  - rewrite Hr. simpl. rewrite Hp. by repeat split.
  - apply ready_camera in Hr as [c Hr]. congruence.
Qed.

Lemma prevNextTest_first (b : Button) (dir : Three.Vector3) (now : float)
    (pre post : list Three.Hit) (w : World) :
  ready (el w) = true -> Forall passes_by pre ->
  prevNextTimer (el w) = None ->
  dwell_started b now w
    (prevNextTest dir (pre ++ Three.hit_under (group_name b) :: post) now w).
Proof.
  intros Hr Hpre Hn. unfold prevNextTest.
  destruct (ready_camera _ Hr) as [cam ->]. rewrite Hr. simpl.
  set (w1 := on_el (with_raycaster _) w).
  assert (same_window w w1) as Hw1 by by repeat split.
  assert (prevNextTimer (el w1) = None) as Hn1 by done.
  pose proof (prevNextLoop_first b now pre post w1 Hpre Hn1) as H.
  destruct (pre ++ Three.hit_under (group_name b) :: post) eqn:E.
  { by destruct pre. }
  by eapply dwell_started_after.
Qed.

(** *** What one step does to the window *)

Lemma ring_startMS (now : float) (w : World) :
  prevNextTimerStartMS (el (updatePrevNextRing now w))
    = prevNextTimerStartMS (el w).
Proof. unfold_ops. split_cases. Qed.

Lemma controls_update_window (pose : Three.Vector3) (w : World) :
  same_window w (on_el (controls_update pose) w).
Proof. unfold same_window, controls_update. unfold_ops. split_cases. Qed.

Lemma frame_cases pose dir hits n1 n2 (w w' : World) :
  step (Frame pose dir hits n1 n2) w = Some w' ->
  same_window w w' \/
  (exists h, hits = [] /\ dwell_cancelled h w w') \/
  (exists b, In (Three.hit_under (group_name b)) hits /\
             dwell_started b n1 w w').
Proof.
  simpl. destruct (animating w); [|done]. intros [= <-].
  unfold animation_frame.
  set (w1 := on_el (controls_update pose) w).
  pose proof (controls_update_window pose w) as H1. fold w1 in H1.
  assert (next_handle w = next_handle w1) as Hn by by destruct H1 as (_ & -> & _).
  pose proof (same_window_ring n2 (prevNextTest dir hits n1 w1)) as H3.
  pose proof (ring_startMS n2 (prevNextTest dir hits n1 w1)) as H4.
  destruct (prevNextTest_timers dir hits n1 w1)
    as [H2|[(h & -> & H2)|(b & Hin & H2)]].
  - left. eauto using same_window_trans.
  - right. left. exists h. split; [done|].
    destruct H1 as (Ha & Hb & Hc & Hd & He).
    destruct H2 as (? & ? & ? & ? & ? & ?).
    destruct H3 as (? & ? & ? & ? & ?).
    repeat split; congruence.
  - right. right. exists b. split; [done|].
    eapply dwell_started_then; [|exact H3|exact H4].
    by eapply dwell_started_after.
Qed.

Lemma frame_step pose dir hits n1 n2 (w w' : World) :
  step (Frame pose dir hits n1 n2) w = Some w' ->
  window_change (Frame pose dir hits n1 n2) w w'.
Proof.
  intros Hs.
  destruct (frame_cases _ _ _ _ _ _ _ Hs) as [H|[(h & -> & H)|(b & Hin & H)]].
  - by apply wc_same.
  - by eapply (wc_cancel _ _ _ h).
  - by eapply (wc_start _ _ _ b).
Qed.

Lemma fire_step (h : positive) (w w' : World) :
  step (Fire h) w = Some w' -> window_change (Fire h) w w'.
Proof.
  simpl. destruct (timers w !! h) as [tm|] eqn:Ht; [|done].
  destruct (Z.leb_spec (due tm) (clock w)); [|done]. intros [= <-].
  destruct (callback tm) eqn:Hcb; simpl.
  - eapply (wc_fire_dwell _ _ _ h tm Prev); try done;
      simpl; by destruct (prevNextTimer (el w)).
  - eapply (wc_fire_dwell _ _ _ h tm Next); try done;
      simpl; by destruct (prevNextTimer (el w)).
  - pose proof (same_window_reparse false
                  (with_timers (delete h (timers w)) w))
      as (? & ? & ? & ? & ?).
    by eapply (wc_fire_reparse _ _ _ h tm).
Qed.

Lemma step_window (l : Label) (w w' : World) :
  step l w = Some w' -> window_change l w w'.
Proof.
  intros Hs. destruct (quiet l) eqn:Hq.
  { apply wc_same. by eapply quiet_step. }
  destruct l; try discriminate.
  - simpl in Hs. injection Hs as <-. unfold set_src.
    destruct (Js.strict_equal _ _).
    + apply wc_same. unfold same_window, camera_home. unfold_ops. split_cases.
    + apply wc_reparse_timer; simpl; try done; by destruct (Js.truthy val).
  - simpl in Hs. injection Hs as <-.
    apply wc_reparse_timer; simpl; try done; by destruct (Js.truthy val).
  - destruct (tick_step _ _ _ Hs) as (? & ? & ? & ? & He).
    simpl in Hs. destruct (Z.leb_spec 0 d); [|done]. injection Hs as <-.
    by eapply (wc_tick _ _ _ d).
  - by apply fire_step.
  - by apply frame_step.
Qed.

(** *** Invariants of the timer table *)

Lemma dwell_not_reparse (b : Button) : Reparse <> dwell_callback b.
Proof. by destruct b. Qed.

Lemma construct_window (attrs : gmap string string) :
  timers (construct attrs) = ∅ /\ next_handle (construct attrs) = 1%positive /\
  dispatched (construct attrs) = [] /\ clock (construct attrs) = 0%Z /\
  prevNextTimer (el (construct attrs)) = None.
Proof.
  unfold construct.
  match goal with
  | |- context [parseImageAndInitialize3DScene true ?w0] =>
      destruct (same_window_reparse true w0) as (-> & -> & -> & -> & ->)
  end.
  done.
Qed.

Lemma window_ok_step (l : Label) (w w' : World) :
  window_ok w -> step l w = Some w' -> window_ok w'.
Proof.
  intros (H1 & H2 & H3) Hs. apply step_window in Hs.
  destruct Hs as
    [ (Et & En & _ & _ & Ep)
    | d _ _ Et En _ _ Ep
    | Et En _ _ Ep
    | h ? ? ? ? _ (Hp & Ep & Et & En & _ & _)
    | b ? ? ? ? ? _ _ (Hp & Ep & Et & En & _ & _ & _)
    | h tm b _ Hh _ Hcb Ep Et En _ _
    | h tm _ Hh _ Hcb Et En _ _ Ep ];
    unfold window_ok; rewrite ?Et, ?En, ?Ep.
  - done.
  - done.
  - repeat split.
    + intros k tm [[<- <-]|[_ Hk]]%lookup_insert_Some; [lia|].
      apply H1 in Hk. lia.
    + intros k Hk. destruct (H2 k Hk) as (tm & b & Hl & Hc).
      exists tm, b. split; [|done].
      rewrite lookup_insert_ne; [done|]. apply H1 in Hl. lia.
    + intros k tm b [[<- <-]|[_ Hk]]%lookup_insert_Some Hc.
      * by apply dwell_not_reparse in Hc.
      * by eapply H3.
  - repeat split.
    + intros k tm [_ Hk]%lookup_delete_Some. by eapply H1.
    + done.
    + intros k tm b [Hne Hk]%lookup_delete_Some Hc.
      specialize (H3 k tm b Hk Hc). congruence.
  - repeat split.
    + intros k tm [[<- <-]|[_ Hk]]%lookup_insert_Some; [lia|].
      apply H1 in Hk. lia.
    + intros k [= <-]. eexists _, b. split; [apply lookup_insert_eq | done].
    + intros k tm b' [[<- <-]|[_ Hk]]%lookup_insert_Some Hc; [done|].
      specialize (H3 k tm b' Hk Hc). congruence.
  - pose proof (H3 h tm b Hh Hcb) as Hp. rewrite Hp. simpl.
    repeat split.
    + intros k tm' [_ [_ Hk]%lookup_delete_Some]%lookup_delete_Some.
      by eapply H1.
    + done.
    + intros k tm' b' [_ [Hne Hk]%lookup_delete_Some]%lookup_delete_Some Hc.
      specialize (H3 k tm' b' Hk Hc). congruence.
  - repeat split.
    + intros k tm' [_ Hk]%lookup_delete_Some. by eapply H1.
    + intros k Hk. destruct (H2 k Hk) as (tm' & b & Hl & Hc).
      exists tm', b. split; [|done].
      rewrite lookup_delete_ne; [done|]. intros ->.
      rewrite Hh in Hl. injection Hl as <-.
      rewrite Hcb in Hc. by apply dwell_not_reparse in Hc.
    + intros k tm' b [_ Hk]%lookup_delete_Some Hc. by eapply H3.
Qed.

Lemma reachable_window_ok (w : World) : reachable w -> window_ok w.
Proof.
  apply reachable_ind'.
  - intros attrs.
    destruct (construct_window attrs) as (Et & En & _ & _ & Ep).
    unfold window_ok. rewrite Et, Ep. repeat split; intros; simplify_map_eq.
  - intros l w1 w2 _ Hok Hs. by eapply window_ok_step.
Qed.

(** *** The animation loop runs on a complete element *)

Lemma ready_fields (e : Element) :
  ready e = true <->
  is_Some (scene e) /\ is_Some (camera e) /\ is_Some (raycaster e) /\
  is_Some (prevNextButtons e).
Proof.
  unfold ready. rewrite !andb_true_iff, !bool_decide_eq_true. tauto.
Qed.

Lemma keeps_fields_trans (w1 w2 w3 : World) :
  keeps_fields w1 w2 -> keeps_fields w2 w3 -> keeps_fields w1 w3.
Proof.
  intros (? & ? & ? & ? & ?) (? & ? & ? & ? & ?).
  repeat split; [congruence | tauto..].
Qed.

Lemma loop_ok_keeps (w w' : World) :
  keeps_fields w w' -> tasks w' = tasks w -> loop_ok w -> loop_ok w'.
Proof.
  intros (Ha & Hs & Hc & Hr & Hb) Ht (H1 & H2). split.
  - rewrite Ha. intros Han. specialize (H1 Han).
    apply ready_fields. apply ready_fields in H1. tauto.
  - rewrite Ht. eapply Forall_impl; [exact H2|]. simpl. tauto.
Qed.

Ltac keep_fields :=
  unfold keeps_fields; unfold_ops; simpl;
  repeat (match goal with
          | |- context [match ?p (el ?w) with _ => _ end] =>
              is_var w; destruct (p (el w)) eqn:?; simpl in *
          | |- context [_ <$> ?p (el ?w)] =>
              is_var w; destruct (p (el w)) eqn:?; simpl in *
          | |- context [if ?x then _ else _] => destruct x eqn:?; simpl in *
          | |- context [match ?x with _ => _ end] =>
              destruct x eqn:?; simpl in *
          end);
  repeat split; simpl; eauto; try (by intros [? [=]]); try congruence.

Lemma keeps_fields_test dir hits now (w : World) :
  keeps_fields w (prevNextTest dir hits now w) /\
  tasks (prevNextTest dir hits now w) = tasks w.
Proof.
  unfold prevNextTest.
  destruct (camera (el w)) as [cam|] eqn:Hc; [|by repeat split].
  destruct (ready (el w)); simpl; [|by repeat split].
  set (w1 := on_el (with_raycaster _) w).
  assert (keeps_fields w w1 /\ tasks w1 = tasks w) as [Hk Ht].
  { subst w1. split; [|done]. keep_fields. }
  destruct hits as [|hit hits].
  - destruct (prevNextTimer (el w)); [|done].
    split; [|done]. eapply keeps_fields_trans; [exact Hk|]. by repeat split.
  - pose proof (prevNextLoop_frame now (hit :: hits) w1) as
      (_ & _ & _ & _ & Ha & Hts & _ & _ & _ & _ & Hs & Hcam & Hr & Hb & _).
    assert (keeps_fields w1 (prevNextLoop now (hit :: hits) w1)) as Hk2.
    { unfold keeps_fields. rewrite Ha, Hs, Hcam, Hr, Hb. by repeat split. }
    split; [by eapply keeps_fields_trans | congruence].
Qed.

Lemma keeps_fields_ring now (w : World) :
  keeps_fields w (updatePrevNextRing now w) /\
  tasks (updatePrevNextRing now w) = tasks w.
Proof.
  unfold keeps_fields. unfold_ops.
  destruct (timerRing (el w)) eqn:E1; simpl;
    destruct (scene (el w)) eqn:E2; simpl;
    destruct (prevNextTimer (el w)) eqn:E4; simpl;
    rewrite ?E2; simpl; repeat split; eauto.
Qed.

Lemma keeps_fields_frame pose dir hits n1 n2 (w : World) :
  keeps_fields w (animation_frame pose dir hits n1 n2 w) /\
  tasks (animation_frame pose dir hits n1 n2 w) = tasks w.
Proof.
  unfold animation_frame.
  set (w1 := on_el (controls_update pose) w).
  assert (keeps_fields w w1 /\ tasks w1 = tasks w) as [Hk Ht].
  { subst w1. split; [|done]. unfold controls_update. keep_fields. }
  destruct (keeps_fields_test dir hits n1 w1) as [Hk2 Ht2].
  destruct (keeps_fields_ring n2 (prevNextTest dir hits n1 w1)) as [Hk3 Ht3].
  split; [eauto using keeps_fields_trans | congruence].
Qed.

Lemma keeps_fields_parse (w : World) :
  keeps_fields w (snd (parse w)) /\ tasks (snd (parse w)) = tasks w /\
  forall s, fst (parse w) = Suspended s -> s <> AwaitInitialized.
Proof.
  repeat split; [keep_fields.. | unfold_ops; split_cases |].
  unfold_ops. intros s. split_cases; by intros [= <-].
Qed.

Lemma loop_ok_reparse (b : bool) (w : World) :
  loop_ok w -> loop_ok (parseImageAndInitialize3DScene b w).
Proof.
  intros Hok. unfold parseImageAndInitialize3DScene.
  set (w0 := on_el (with_opacity (Some "0")) w).
  assert (loop_ok w0) as Hok0.
  { eapply loop_ok_keeps; [|done|exact Hok]. by repeat split. }
  destruct (keeps_fields_parse w0) as (Hk & Ht & Hst).
  destruct (parse w0) as [st w1] eqn:Hp. simpl in *.
  pose proof (loop_ok_keeps w0 w1 Hk Ht Hok0) as [H1 H2].
  split; simpl; [done|].
  apply Forall_app. split; [done|]. apply Forall_singleton. simpl.
  destruct st as [|s]; [done|]. intros ->. by specialize (Hst _ eq_refl).
Qed.

Lemma loop_ok_tasks (w w' : World) (ts : list Task) :
  keeps_fields w w' -> tasks w' = ts -> loop_ok w ->
  (Forall (fun t => stage t = AwaitInitialized -> is_Some (scene (el w)))
          (tasks w) ->
   Forall (fun t => stage t = AwaitInitialized -> is_Some (scene (el w)))
          ts) ->
  loop_ok w'.
Proof.
  intros (Ha & Hs & Hc & Hr & Hb) Ht (H1 & H2) Hts. split.
  - rewrite Ha. intros Han. specialize (H1 Han).
    apply ready_fields. apply ready_fields in H1. tauto.
  - rewrite Ht. eapply Forall_impl; [exact (Hts H2)|]. simpl. tauto.
Qed.

Lemma initialize3DScene_scene (e e' : Element) :
  initialize3DScene e = Returned e' \/ initialize3DScene e = Threw e' ->
  is_Some (scene e') /\ camera e' = camera e /\ raycaster e' = raycaster e /\
  prevNextButtons e' = prevNextButtons e /\
  prevNextTimer e' = prevNextTimer e /\ attributes e' = attributes e /\
  stereoData e' = stereoData e.
Proof.
  unfold initialize3DScene.
  destruct (stereoData e) eqn:E; intros [[= <-]|[= <-]]; simpl;
    repeat split; eauto.
Qed.

Lemma finish_scene_fields (w : World) :
  keeps_fields w (on_el finish_scene w).
Proof. unfold finish_scene, camera_home, addPrevNextButtons. keep_fields. Qed.

Lemma init_rest_ready (w : World) :
  is_Some (scene (el w)) ->
  animating (init_rest w) = true /\ ready (el (init_rest w)) = true /\
  tasks (init_rest w) = tasks w.
Proof.
  intros [s Hs]. unfold init_rest, camera_home, addPrevNextButtons.
  unfold_ops. simpl. rewrite Hs. simpl. repeat split.
Qed.

Lemma loop_ok_step (l : Label) (w w' : World) :
  loop_ok w -> step l w = Some w' -> loop_ok w'.
Proof.
  intros Hok Hs. destruct l; simpl in Hs.
  - injection Hs as <-. eapply (loop_ok_keeps w); [|done|done].
    unfold set_type, setAttribute, removeAttribute. keep_fields.
  - injection Hs as <-. eapply (loop_ok_keeps w); [|done|done].
    unfold set_angle, setAttribute, removeAttribute. keep_fields.
  - injection Hs as <-. eapply (loop_ok_keeps w); [| |done].
    + unfold set_src, camera_home, setAttribute, removeAttribute. keep_fields.
    + unfold set_src. unfold_ops. split_cases.
  - injection Hs as <-. eapply (loop_ok_keeps w); [|done|done].
    unfold set_backImageSrc, setAttribute, removeAttribute. keep_fields.
  - destruct (page_attribute n); [|done]. injection Hs as <-. eapply (loop_ok_keeps w); [|done|done]. by repeat split.
  - destruct (page_attribute n); [|done]. injection Hs as <-. eapply (loop_ok_keeps w); [|done|done]. by repeat split.
  - destruct (0 <=? d)%Z; [|done]. injection Hs as <-.
    eapply (loop_ok_keeps w); [|done|done]. by repeat split.
  - destruct (timers w !! h) as [tm|]; [|done].
    destruct (due tm <=? clock w)%Z; [|done]. injection Hs as <-.
    assert (loop_ok (with_timers (delete h (timers w)) w)) as Hok1.
    { eapply (loop_ok_keeps w); [|done|done]. by repeat split. }
    destruct (callback tm); simpl.
    + eapply (loop_ok_keeps (with_timers (delete h (timers w)) w)); [| |exact Hok1]; [keep_fields | unfold_ops; split_cases].
    + eapply (loop_ok_keeps (with_timers (delete h (timers w)) w)); [| |exact Hok1]; [keep_fields | unfold_ops; split_cases].
    + by apply loop_ok_reparse.
  - destruct (animating w); [|done]. injection Hs as <-.
    destruct (keeps_fields_frame pose direction intersects now_test now_ring w).
    by eapply (loop_ok_keeps w).
  - destruct (tasks w !! i) as [t|] eqn:Hi; [|done].
    destruct (stage t) eqn:Hst; try done. injection Hs as <-.
    eapply (loop_ok_tasks w); [|reflexivity|exact Hok|].
    + unfold parse_after_exif. keep_fields.
    + intros H. unfold parse_after_exif. unfold_ops.
      destruct left_eye; simpl; by apply Forall_insert.
  - destruct (tasks w !! i) as [t|] eqn:Hi; [|done].
    destruct (stage t) eqn:Hst; try done. injection Hs as <-.
    eapply (loop_ok_tasks w); [|reflexivity|exact Hok|].
    + by repeat split.
    + intros H. simpl. by apply Forall_insert.
  - destruct (tasks w !! i) as [t|] eqn:Hi; [|done].
    destruct (stage t) eqn:Hst; try done; injection Hs as <-;
      (eapply (loop_ok_tasks w); [|reflexivity|exact Hok|];
       [by repeat split | intros H; simpl; by apply Forall_delete]).
  - destruct (tasks w !! i) as [t|] eqn:Hi; [|done].
    destruct (stage t) eqn:Hst; try done.
    + destruct (initialize3DScene (el w)) as [e|e] eqn:Hinit;
        injection Hs as <-.
      * destruct (initialize3DScene_scene (el w) e (or_introl Hinit))
          as (Hsc & Hc & Hr & Hb & _).
        destruct Hok as [H1 H2]. split; simpl.
        -- intros Han. specialize (H1 Han). apply ready_fields.
           apply ready_fields in H1. rewrite Hc, Hr, Hb. tauto.
        -- apply Forall_insert; [|done].
           eapply Forall_impl; [exact H2|]. simpl. tauto.
      * destruct (initialize3DScene_scene (el w) e (or_intror Hinit))
          as (Hsc & Hc & Hr & Hb & _).
        destruct Hok as [H1 H2]. split; simpl.
        -- intros Han. specialize (H1 Han). apply ready_fields.
           apply ready_fields in H1. rewrite Hc, Hr, Hb. tauto.
        -- apply Forall_delete. eapply Forall_impl; [exact H2|]. simpl. tauto.
    + injection Hs as <-.
      assert (is_Some (scene (el w))) as Hsc.
      { destruct Hok as [_ H2]. rewrite Forall_lookup in H2.
        by apply (H2 i t Hi). }
      assert (loop_ok (drop_task i (on_el finish_scene w))) as Hok1.
      { eapply (loop_ok_tasks w);
          [apply (finish_scene_fields w) | reflexivity | exact Hok |].
        intros H. simpl. by apply Forall_delete. }
      destruct (from_init t); [|done].
      assert (is_Some (scene (el (drop_task i (on_el finish_scene w)))))
        as Hsc1.
      { by apply (finish_scene_fields w). }
      destruct (init_rest_ready _ Hsc1) as (Ha & Hr & Ht).
      split; [done|]. rewrite Ht.
      destruct Hok1 as [_ H2]. eapply Forall_impl; [exact H2|]. simpl.
      intros t' Ht' Hst'. apply ready_fields in Hr. tauto.
Qed.

Lemma reachable_loop_ok (w : World) : reachable w -> loop_ok w.
Proof.
  apply reachable_ind'.
  - intros attrs. unfold construct. apply loop_ok_reparse.
    split; simpl; [done | constructor].
  - intros l w1 w2 _ Hok Hs. by eapply loop_ok_step.
Qed.

(** *** A cancelled timer stays cancelled *)

Lemma gone_step (l : Label) (h : positive) (w w' : World) :
  (h < next_handle w)%positive -> timers w !! h = None ->
  step l w = Some w' ->
  l <> Fire h /\ (h < next_handle w')%positive /\ timers w' !! h = None.
Proof.
  intros Hlt Hnone Hs. split.
  { intros ->. simpl in Hs. by rewrite Hnone in Hs. }
  apply step_window in Hs.
  destruct Hs as
    [ (Et & En & _)
    | d _ _ Et En _ _ _
    | Et En _ _ _
    | h' ? ? ? ? _ (_ & _ & Et & En & _)
    | b ? ? ? ? ? _ _ (_ & _ & Et & En & _)
    | h' tm b _ _ _ _ _ Et En _ _
    | h' tm _ _ _ _ Et En _ _ _ ];
    rewrite Et, En; split; try lia; try done.
  - rewrite lookup_insert_ne; [done | lia].
  - by apply lookup_delete_None; right.
  - rewrite lookup_insert_ne; [done | lia].
  - destruct (prevNextTimer (el w)); simpl;
      repeat (apply lookup_delete_None; right); done.
  - by apply lookup_delete_None; right.
Qed.

Lemma never_fires (ls : list Label) (h : positive) (w w' : World) :
  (h < next_handle w)%positive -> timers w !! h = None ->
  run ls w = Some w' -> ~ In (Fire h) ls.
Proof.
  revert w. induction ls as [|l ls IH]; intros w Hlt Hnone Hr; simpl.
  { tauto. }
  simpl in Hr. destruct (step l w) as [w1|] eqn:Hs; [|done].
  destruct (gone_step l h w w1 Hlt Hnone Hs) as (Hne & Hlt1 & Hnone1).
  intros [->|Hin]; [done|]. by eapply IH.
Qed.

(** *** Where a dwell timer comes from *)

Lemma dwell_origin_snoc attrs ls l b t0 :
  dwell_origin attrs ls b t0 -> dwell_origin attrs (ls ++ [l]) b t0.
Proof.
  intros (ls1 & ls2 & w1 & pose & dir & hits & n1 & n2 & -> & H).
  exists ls1, (ls2 ++ [l]), w1, pose, dir, hits, n1, n2.
  split; [|done]. by rewrite <- app_assoc.
Qed.

Lemma dwell_callback_inj (b b' : Button) :
  dwell_callback b = dwell_callback b' -> b = b'.
Proof. by destruct b, b'. Qed.

Lemma traced_snoc attrs ls l (w w' : World) :
  run ls (construct attrs) = Some w -> traced attrs ls w ->
  step l w = Some w' -> traced attrs (ls ++ [l]) w'.
Proof.
  intros Hr (HT & HD) Hs.
  assert (forall h tm b, timers w !! h = Some tm ->
            callback tm = dwell_callback b ->
            exists t0, dwell_origin attrs (ls ++ [l]) b t0 /\
                       due tm = (t0 + PREV_NEXT_TIMEOUT_MS)%Z) as HT'.
  { intros h tm b Hl Hc. destruct (HT h tm b Hl Hc) as (t0 & Ho & Hd).
    exists t0. split; [by apply dwell_origin_snoc | done]. }
  assert (forall ev t, In (ev, t) (dispatched w) ->
     exists b t0, ev = navigation_event b /\
                  dwell_origin attrs (ls ++ [l]) b t0 /\
                  (t0 + PREV_NEXT_TIMEOUT_MS <= t)%Z) as HD'.
  { intros ev t Hin. destruct (HD ev t Hin) as (b & t0 & He & Ho & Hle).
    exists b, t0. repeat split; [done | by apply dwell_origin_snoc | done]. }
  clear HT HD.
  apply step_window in Hs.
  destruct Hs as
    [ (Et & _ & Ed & _)
    | d _ _ Et _ Ed _ _
    | Et _ Ed _ _
    | h' ? ? ? ? _ (_ & _ & Et & _ & Ed & _)
    | b ? ? hits ? ? El Hin (Hp & _ & Et & _ & Ed & _)
    | h' tm b _ Hh Hdue Hcb _ Et _ Ed _
    | h' tm _ _ _ _ Et _ Ed _ _ ];
    unfold traced; rewrite Et, Ed; split; try done.
  - intros h tm b [[<- <-]|[_ Hk]]%lookup_insert_Some Hc.
    + by apply dwell_not_reparse in Hc.
    + by eapply HT'.
  - intros h tm b [_ Hk]%lookup_delete_Some Hc. by eapply HT'.
  - intros h tm b' [[<- <-]|[_ Hk]]%lookup_insert_Some Hc.
    + simpl in Hc. apply dwell_callback_inj in Hc as <-.
      exists (clock w). split; [|done].
      exists ls, [], w. eexists _, _, hits, _, _. by rewrite El.
    + by eapply HT'.
  - intros h tm' b' Hl Hc. eapply (HT' h tm' b'); [|done].
    destruct (prevNextTimer (el w)); simpl in Hl;
      repeat (apply lookup_delete_Some in Hl as [_ Hl]); done.
  - intros ev t [Hin|[[= <- <-]|[]]]%in_app_or; [by apply HD'|].
    destruct (HT' h' tm b Hh Hcb) as (t0 & Ho & Hd).
    exists b, t0. repeat split; [done|lia].
  - intros h tm' b' [_ Hk]%lookup_delete_Some Hc. by eapply HT'.
Qed.

Lemma run_traced attrs ls (w : World) :
  run ls (construct attrs) = Some w -> traced attrs ls w.
Proof.
  revert w. induction ls as [|l ls IH] using rev_ind; intros w Hr.
  - injection Hr as <-.
    destruct (construct_window attrs) as (Et & _ & Ed & _).
    unfold traced. rewrite Et, Ed. split; [intros; simplify_map_eq | done].
  - apply run_snoc in Hr as (w1 & Hr & Hs). eapply traced_snoc; eauto.
Qed.

(** *** Frames on a reachable state *)

Lemma frame_ready pose dir hits n1 n2 (w w' : World) :
  reachable w -> step (Frame pose dir hits n1 n2) w = Some w' ->
  ready (el (on_el (controls_update pose) w)) = true /\
  w' = updatePrevNextRing n2
         (prevNextTest dir hits n1 (on_el (controls_update pose) w)).
Proof.
  intros Hreach Hs. simpl in Hs.
  destruct (animating w) eqn:Ha; [|done]. injection Hs as <-.
  split; [|done].
  destruct (reachable_loop_ok w Hreach) as [Hr _]. specialize (Hr Ha).
  apply ready_fields. apply ready_fields in Hr.
  assert (keeps_fields w (on_el (controls_update pose) w))
    as (_ & ? & ? & ? & ?) by (unfold controls_update; keep_fields).
  tauto.
Qed.

Lemma frame_first (b : Button) pose dir pre post n1 n2 (w w' : World) :
  reachable w -> prevNextTimer (el w) = None -> Forall passes_by pre ->
  step (Frame pose dir (pre ++ Three.hit_under (group_name b) :: post) n1 n2) w
    = Some w' ->
  dwell_started b n1 w w'.
Proof.
  intros Hreach Hn Hpre Hs.
  destruct (frame_ready _ _ _ _ _ _ _ Hreach Hs) as [Hr ->].
  set (w1 := on_el (controls_update pose) w) in *.
  pose proof (controls_update_window pose w) as H1. fold w1 in H1.
  assert (prevNextTimer (el w1) = None) as Hn1
    by (destruct H1 as (_ & _ & _ & _ & ->); done).
  pose proof (prevNextTest_first b dir n1 pre post w1 Hr Hpre Hn1) as H2.
  eapply dwell_started_then;
    [|apply same_window_ring|apply ring_startMS].
  eapply dwell_started_after; [exact H1| |exact H2].
  by destruct H1 as (_ & -> & _).
Qed.

Lemma frame_empty pose dir n1 n2 (h : positive) (w w' : World) :
  reachable w -> prevNextTimer (el w) = Some h ->
  step (Frame pose dir [] n1 n2) w = Some w' ->
  dwell_cancelled h w w'.
Proof.
  intros Hreach Hp Hs.
  destruct (frame_ready _ _ _ _ _ _ _ Hreach Hs) as [Hr ->].
  set (w1 := on_el (controls_update pose) w) in *.
  pose proof (controls_update_window pose w) as H1. fold w1 in H1.
  destruct H1 as (Et & En & Ed & Ec & Ep).
  assert (prevNextTimer (el w1) = Some h) as Hp1 by congruence.
  destruct (prevNextTest_empty dir n1 h w1 Hr Hp1) as (_ & ? & ? & ? & ? & ?).
  destruct (same_window_ring n2 (prevNextTest dir [] n1 w1))
    as (? & ? & ? & ? & ?).
  repeat split; congruence.
Qed.

Lemma fire_dwell (b : Button) (h : positive) (tm : Timer) (w : World) :
  reachable w -> timers w !! h = Some tm ->
  callback tm = dwell_callback b -> (due tm <= clock w)%Z ->
  exists w', step (Fire h) w = Some w' /\
             prevNextTimer (el w') = None /\
             timers w' = delete h (timers w) /\
             dispatched w' = dispatched w ++ [(navigation_event b, clock w)].
Proof.
  intros Hreach Hl Hc Hdue.
  destruct (reachable_window_ok w Hreach) as (_ & _ & H3).
  specialize (H3 h tm b Hl Hc).
  simpl. rewrite Hl. destruct (Z.leb_spec (due tm) (clock w)); [|lia].
  eexists. split; [reflexivity|]. rewrite Hc.
  assert (delete h (delete h (timers w)) = delete h (timers w)) as Hdd.
  { apply map_eq; intros k; destruct (decide (k = h)) as [->|Hne];
      by rewrite ?lookup_delete_eq, ?lookup_delete_ne by done. }
  destruct b; simpl; rewrite H3; simpl; by rewrite Hdd.
Qed.

(** ** Gaze-dwell navigation *)

(** C1: in an animation step with no dwell timer pending, if the first hit
    on a button group that the raycast reports is on "prev" (respectively
    "next"), every hit before it having a parent, then prevNextTest starts
    one timer of PREV_NEXT_TIMEOUT_MS = 1000 ms under a new handle and makes
    it the pending dwell timer; when a dwell timer expires the pending timer
    is cleared and exactly one stereoImgGoToPrev (respectively
    stereoImgGoToNext) event is dispatched; and while a dwell timer is
    pending an animation step starts no timer. *)
Theorem dwell_starts_on_first_button_hit :
  (forall (w w' : World) (b : Button) pose dir pre post n1 n2,
     reachable w -> prevNextTimer (el w) = None -> Forall passes_by pre ->
     step (Frame pose dir (pre ++ Three.hit_under (group_name b) :: post)
             n1 n2) w = Some w' ->
     exists h,
       timers w !! h = None /\ prevNextTimer (el w') = Some h /\
       timers w' = <[h := {| due := clock w + PREV_NEXT_TIMEOUT_MS;
                             callback := dwell_callback b |}]> (timers w) /\
       dispatched w' = dispatched w) /\
  (forall (w : World) (h : positive) (tm : Timer) (b : Button),
     reachable w -> timers w !! h = Some tm ->
     callback tm = dwell_callback b -> (due tm <= clock w)%Z ->
     exists w', step (Fire h) w = Some w' /\
                prevNextTimer (el w') = None /\
                timers w' = delete h (timers w) /\
                dispatched w'
                  = dispatched w ++ [(navigation_event b, clock w)]) /\
  (forall (w w' : World) (h : positive) pose dir hits n1 n2,
     reachable w -> prevNextTimer (el w) = Some h ->
     step (Frame pose dir hits n1 n2) w = Some w' ->
     next_handle w' = next_handle w /\
     forall k tm, timers w' !! k = Some tm -> timers w !! k = Some tm).
Proof.
  repeat apply conj.
  - intros w w' b pose dir pre post n1 n2 Hreach Hn Hpre Hs.
    destruct (frame_first b _ _ _ _ _ _ _ _ Hreach Hn Hpre Hs)
      as (_ & Hp & Ht & _ & Hd & _).
    exists (next_handle w). repeat split; try done.
    destruct (reachable_window_ok w Hreach) as (H1 & _).
    destruct (timers w !! next_handle w) as [tm|] eqn:E; [|done].
    apply H1 in E. lia.
  - intros w h tm b. apply fire_dwell.
  - intros w w' h pose dir hits n1 n2 Hreach Hp Hs.
    destruct (frame_cases _ _ _ _ _ _ _ Hs)
      as [(Et & En & _)|[(h' & _ & (_ & _ & Et & En & _))|(b & _ & (Hn & _))]].
    + rewrite Et, En. by split.
    + rewrite Et, En. split; [done|].
      by intros k tm [_ Hk]%lookup_delete_Some.
    + congruence.
Qed.

Lemma dwell_starts_on_first_button_hit_witness :
  (reachable w_mounted /\ prevNextTimer (el w_mounted) = None /\
   Forall passes_by [] /\
   step (gaze ([] ++ Three.hit_under (group_name Prev) :: [])) w_mounted
     = Some w_dwelling) /\
  (exists h,
     timers w_mounted !! h = None /\ prevNextTimer (el w_dwelling) = Some h /\
     timers w_dwelling
       = <[h := {| due := clock w_mounted + PREV_NEXT_TIMEOUT_MS;
                   callback := dwell_callback Prev |}]> (timers w_mounted) /\
     dispatched w_dwelling = dispatched w_mounted) /\
  (exists w3, step (Fire 1%positive) w_due = Some w3 /\
              prevNextTimer (el w3) = None /\
              timers w3 = delete 1%positive (timers w_due) /\
              dispatched w3
                = dispatched w_due ++ [(navigation_event Prev, clock w_due)]) /\
  (next_handle w_still_dwelling = next_handle w_dwelling /\
   forall k tm, timers w_still_dwelling !! k = Some tm ->
                timers w_dwelling !! k = Some tm).
Proof.
  assert (reachable w_mounted) as R0
    by (exists ∅, mounted; vm_compute; reflexivity).
  assert (reachable w_dwelling) as R1
    by (exists ∅, (mounted ++ [gaze [Three.hit_under "prev"]]);
        vm_compute; reflexivity).
  assert (reachable w_due) as R2
    by (exists ∅, (mounted ++ [gaze [Three.hit_under "prev"]; Tick 1000]);
        vm_compute; reflexivity).
  assert (step (gaze ([] ++ Three.hit_under (group_name Prev) :: []))
            w_mounted = Some w_dwelling) as S1
    by (vm_compute; reflexivity).
  assert (step (gaze [Three.hit_under "next"]) w_dwelling
          = Some w_still_dwelling)
    as S2 by (vm_compute; reflexivity).
  destruct dwell_starts_on_first_button_hit as (T1 & T2 & T3).
  split; [|split; [|split]].
  - split; [exact R0|]. split; [reflexivity|]. split; [constructor|exact S1].
  - exact (T1 w_mounted w_dwelling Prev origin origin [] [] _ _
              R0 eq_refl ltac:(constructor) S1).
  - refine (T2 w_due 1%positive {| due := 1000; callback := GoToPrev |} Prev
              R2 _ eq_refl _); vm_compute; [reflexivity | discriminate].
  - exact (T3 w_dwelling w_still_dwelling 1%positive origin origin
              [Three.hit_under "next"] _ _ R1 eq_refl S2).
Defined.

(** C1, as stated, fails when the ray passes through both buttons (the
    controls let the camera be panned onto the line through them): with
    "next" the nearer hit and "prev" behind it, and no dwell pending, the
    only timer started is the one of "next". *)
Lemma dwell_on_prev_not_started_behind_next :
  let hits := [Three.hit_under "next"; Three.hit_under "prev"] in
  reachable w_mounted /\ prevNextTimer (el w_mounted) = None /\
  In (Three.hit_under (group_name Prev)) hits /\
  exists w', step (gaze hits) w_mounted = Some w' /\
             map_to_list (timers w')
               = [(1%positive, {| due := 1000; callback := GoToNext |})] /\
             ~ exists h tm, timers w' !! h = Some tm /\
                            callback tm = dwell_callback Prev.
Proof.
  cbv zeta. split; [|split; [|split]].
  - exists ∅, mounted. vm_compute. reflexivity.
  - reflexivity.
  - right. by left.
  - eexists. split; [vm_compute; reflexivity|].
    assert (map_to_list
              (timers
                 (after (mounted ++ [gaze [Three.hit_under "next";
                                           Three.hit_under "prev"]])))
            = [(1%positive, {| due := 1000; callback := GoToNext |})]) as Hl
      by (vm_compute; reflexivity).
    split; [vm_compute; reflexivity|].
    intros (h & tm & Hh & Hc).
    assert ((h, tm) ∈ [(1%positive, {| due := 1000; callback := GoToNext |})])
      as Hin.
    { rewrite <- Hl. apply elem_of_map_to_list. exact Hh. }
    apply list_elem_of_singleton in Hin. injection Hin as -> ->.
    discriminate Hc.
Qed.

Lemma dwelling_now (h : positive) (ls : list Label) (w : World) :
  dwelling h ls w -> prevNextTimer (el w) = Some h.
Proof. destruct ls; simpl; tauto. Qed.

Lemma dwelling_snoc (h : positive) (ls : list Label) (l : Label)
    (w w1 w' : World) :
  dwelling h ls w -> run ls w = Some w1 -> step l w1 = Some w' ->
  prevNextTimer (el w') = Some h -> dwelling h (ls ++ [l]) w.
Proof.
  revert w. induction ls as [|l0 ls IH]; intros w Hd Hr Hs Hp; simpl in *.
  - injection Hr as ->. rewrite Hs. simpl. tauto.
  - destruct Hd as [Hw Hd]. split; [done|].
    destruct (step l0 w) as [w0|]; [|done]. by apply IH.
Qed.

Lemma dwelling_end (h : positive) (ls : list Label) (w w' : World) :
  dwelling h ls w -> run ls w = Some w' -> prevNextTimer (el w') = Some h.
Proof.
  revert w. induction ls as [|l ls IH]; intros w Hd Hr; simpl in *.
  - injection Hr as <-. tauto.
  - destruct Hd as [_ Hd]. destruct (step l w) as [w0|]; [|done]. eauto.
Qed.

Lemma run_cons_app (ls1 ls2 : list Label) (l : Label) (w w1 w2 w' : World) :
  run ls1 w = Some w1 -> step l w1 = Some w2 ->
  run (ls1 ++ l :: ls2) w = Some w' -> run ls2 w2 = Some w'.
Proof.
  intros H1 Hs Hr. rewrite run_app, H1 in Hr. simpl in Hr.
  by rewrite Hs in Hr.
Qed.

Lemma dwelt_snoc attrs ls l b h t0 (w w' : World) :
  run ls (construct attrs) = Some w -> step l w = Some w' ->
  prevNextTimer (el w') = Some h ->
  dwelt attrs ls b h t0 -> dwelt attrs (ls ++ [l]) b h t0.
Proof.
  intros Hr Hs Hp
    (ls1 & ls2 & w1 & w2 & pose & dir & hits & n1 & n2 & -> & H1 & Hf & Hst
     & Hh & Hc & Hin & Hd).
  exists ls1, (ls2 ++ [l]), w1, w2, pose, dir, hits, n1, n2.
  split; [by rewrite <- app_assoc|].
  repeat (split; [done|]).
  eapply dwelling_snoc; eauto. by eapply run_cons_app.
Qed.

Lemma dispatched_by_dwell_snoc attrs ls l k ev t :
  dispatched_by_dwell attrs ls k ev t ->
  dispatched_by_dwell attrs (ls ++ [l]) k ev t.
Proof.
  intros (b & h & t0 & ls1 & ls3 & w3 & -> & H).
  exists b, h, t0, ls1, (ls3 ++ [l]), w3.
  split; [by rewrite <- app_assoc|done].
Qed.

Lemma dwell_traced_snoc attrs ls l (w w' : World) :
  run ls (construct attrs) = Some w -> dwell_traced attrs ls w ->
  step l w = Some w' -> dwell_traced attrs (ls ++ [l]) w'.
Proof.
  intros Hr (HT & HD) Hs.
  assert (reachable w') as Hreach'.
  { exists attrs, (ls ++ [l]). apply run_snoc. eauto. }
  destruct (reachable_window_ok w' Hreach') as (_ & _ & Hone').
  assert (forall h tm b, timers w !! h = Some tm ->
            timers w' !! h = Some tm ->
            callback tm = dwell_callback b ->
            exists t0, dwelt attrs (ls ++ [l]) b h t0 /\
                       due tm = (t0 + PREV_NEXT_TIMEOUT_MS)%Z) as HT'.
  { intros h tm b Hl Hl' Hc. destruct (HT h tm b Hl Hc) as (t0 & Ho & Hd).
    exists t0. split; [|done].
    eapply dwelt_snoc; eauto. }
  assert (forall k ev t, dispatched w !! k = Some (ev, t) ->
            dispatched_by_dwell attrs (ls ++ [l]) k ev t) as HD'.
  { intros k ev t Hk. by apply dispatched_by_dwell_snoc, HD. }
  pose proof Hs as Hs0.
  apply step_window in Hs.
  destruct Hs as
    [ (Et & _ & Ed & _)
    | d _ _ Et _ Ed _ _
    | Et _ Ed _ _
    | h' ? ? ? ? _ (_ & _ & Et & _ & Ed & _)
    | b ? ? hits ? ? El Hin Hst
    | h' tm b El Hh Hdue Hcb _ Et _ Ed _
    | h' tm _ _ _ _ Et _ Ed _ _ ];
    unfold dwell_traced.
  - rewrite Ed. split; [|done].
    intros h tm b Hl Hc. apply (HT' h tm b); [congruence|done|done].
  - rewrite Ed. split; [|done].
    intros h tm b Hl Hc. apply (HT' h tm b); [congruence|done|done].
  - rewrite Ed. split; [|done].
    intros h tm b Hl Hc. pose proof Hl as Hl0. rewrite Et in Hl.
    apply lookup_insert_Some in Hl as [[<- <-]|[_ Hk]].
    + by apply dwell_not_reparse in Hc.
    + by apply (HT' h tm b).
  - rewrite Ed. split; [|done].
    intros h tm b Hl Hc. pose proof Hl as Hl0. rewrite Et in Hl.
    apply lookup_delete_Some in Hl as [_ Hk]. by apply (HT' h tm b).
  - pose proof Hst as (Hp & Hp' & Et & _ & Ed & Hck & _).
    rewrite Ed. split; [|done].
    intros h tm b' Hl Hc. pose proof Hl as Hl0. rewrite Et in Hl.
    apply lookup_insert_Some in Hl as [[<- <-]|[_ Hk]].
    + simpl in Hc. apply dwell_callback_inj in Hc as <-.
      exists (clock w). split; [|done].
      exists ls, [], w, w'. eexists _, _, hits, _, _.
      rewrite El in Hs0. repeat (split; [by rewrite ?El|]).
      simpl. by split.
    + by apply (HT' h tm b').
  - split.
    + intros h tm' b' Hl Hc. pose proof Hl as Hl0. rewrite Et in Hl.
      apply (HT' h tm' b'); [|done|done].
      destruct (prevNextTimer (el w)); simpl in Hl;
        repeat (apply lookup_delete_Some in Hl as [_ Hl]); done.
    + intros k ev t Hk. rewrite Ed in Hk.
      apply lookup_app_Some in Hk as [Hk|[Hlen Hk]]; [by apply HD'|].
      apply list_lookup_singleton_Some in Hk as [Hk0 [= <- <-]].
      destruct (HT h' tm b Hh Hcb) as (t0 & Ho & Hd).
      exists b, h', t0, ls, [], w. subst l.
      split; [done|]. split; [done|]. split; [done|]. split; [done|].
      split; [done|]. split; lia.
  - rewrite Ed. split; [|done].
    intros h tm' b' Hl Hc. pose proof Hl as Hl0. rewrite Et in Hl.
    apply lookup_delete_Some in Hl as [_ Hk]. by apply (HT' h tm' b').
Qed.

Lemma run_dwell_traced attrs ls (w : World) :
  run ls (construct attrs) = Some w -> dwell_traced attrs ls w.
Proof.
  revert w. induction ls as [|l ls IH] using rev_ind; intros w Hr.
  - injection Hr as <-.
    destruct (construct_window attrs) as (Et & _ & Ed & _).
    unfold dwell_traced. rewrite Et, Ed.
    split; [intros; simplify_map_eq | done].
  - apply run_snoc in Hr as (w1 & Hr & Hs). eapply dwell_traced_snoc; eauto.
Qed.

(** While a dwell lasts its timer does not fire and no animation step
    has an empty raycast. *)
Lemma dwelling_steps (h : positive) (ls : list Label) (w w' : World) :
  reachable w -> dwelling h ls w -> run ls w = Some w' ->
  Forall (fun l => l <> Fire h /\
                   forall pose dir n1 n2, l <> Frame pose dir [] n1 n2) ls.
Proof.
  revert w. induction ls as [|l ls IH]; intros w Hreach Hd Hr;
    [constructor|].
  simpl in Hd, Hr. destruct Hd as [Hp Hd].
  destruct (step l w) as [w1|] eqn:Hs; [|done].
  assert (reachable w1) as Hreach1.
  { destruct Hreach as (attrs & ls0 & Hr0). exists attrs, (ls0 ++ [l]).
    apply run_snoc. eauto. }
  constructor; [|by eapply IH].
  pose proof (dwelling_now _ _ _ Hd) as Hp1.
  split.
  - intros ->.
    destruct (reachable_window_ok w Hreach) as (_ & H2 & _).
    destruct (H2 h Hp) as (tm & b & Hl & Hc).
    simpl in Hs. rewrite Hl in Hs.
    destruct (due tm <=? clock w)%Z eqn:Hdue; [|done].
    apply Z.leb_le in Hdue.
    destruct (fire_dwell b h tm w Hreach Hl Hc Hdue) as (w2 & Hs2 & Hn & _).
    simpl in Hs2. rewrite Hl in Hs2.
    destruct (Z.leb_spec (due tm) (clock w)); [|lia]. congruence.
  - intros pose dir n1 n2 ->.
    destruct (frame_empty _ _ _ _ h _ _ Hreach Hp Hs) as (_ & Hn & _).
    congruence.
Qed.

(** C6: in an animation step where a dwell timer is pending and the
    raycast against the two button groups reports no hit, prevNextTest
    clears the pending timer and sets it to null, and that timer never
    fires afterwards. Every navigation event in the log was dispatched by
    the firing of a dwell timer: an animation step that found no dwell
    pending and whose raycast hit the button of the event started that
    timer at least PREV_NEXT_TIMEOUT_MS = 1000 ms before the dispatch, and
    the timer was the pending one in every state from that step to the
    dispatch. While a timer stays the pending one, it does not fire and no
    animation step has an empty raycast. *)
Theorem gaze_away_cancels_dwell :
  (forall (w w' : World) (h : positive) pose dir n1 n2,
     reachable w -> prevNextTimer (el w) = Some h ->
     step (Frame pose dir [] n1 n2) w = Some w' ->
     prevNextTimer (el w') = None /\ timers w' = delete h (timers w) /\
     dispatched w' = dispatched w /\
     forall ls w'', run ls w' = Some w'' -> ~ In (Fire h) ls) /\
  (forall attrs ls (w : World) k ev t,
     run ls (construct attrs) = Some w ->
     dispatched w !! k = Some (ev, t) ->
     dispatched_by_dwell attrs ls k ev t) /\
  (forall (w w' : World) (h : positive) ls,
     reachable w -> dwelling h ls w -> run ls w = Some w' ->
     Forall (fun l => l <> Fire h /\
                      forall pose dir n1 n2, l <> Frame pose dir [] n1 n2)
            ls).
Proof.
  split; [|split].
  - intros w w' h pose dir n1 n2 Hreach Hp Hs.
    destruct (frame_empty _ _ _ _ h _ _ Hreach Hp Hs)
      as (_ & Hp' & Et & En & Ed & _).
    repeat split; try done.
    intros ls w'' Hr.
    destruct (reachable_window_ok w Hreach) as (H1 & H2 & _).
    destruct (H2 h Hp) as (tm & b & Hl & _).
    apply (never_fires ls h w' w''); [| |done].
    + rewrite En. by eapply H1.
    + rewrite Et. apply lookup_delete_eq.
  - intros attrs ls w k ev t Hr Hk.
    destruct (run_dwell_traced attrs ls w Hr) as [_ HD]. by apply HD.
  - intros w w' h ls. apply dwelling_steps.
Qed.

Lemma gaze_away_cancels_dwell_witness :
  (reachable w_dwelling /\ prevNextTimer (el w_dwelling) = Some 1%positive /\
   step (gaze []) w_dwelling = Some w_looked_away /\
   run [Tick 2000] w_looked_away <> None /\
   run (mounted ++ [gaze [Three.hit_under "prev"]; Tick 1000; Fire 1%positive])
       (construct ∅) = Some w_fired /\
   dispatched w_fired !! 0%nat = Some ("stereoImgGoToPrev", 1000%Z)) /\
  (prevNextTimer (el w_looked_away) = None /\
   timers w_looked_away = delete 1%positive (timers w_dwelling) /\
   dispatched w_looked_away = dispatched w_dwelling /\
   ~ In (Fire 1%positive) [Tick 2000]) /\
  dispatched_by_dwell ∅
    (mounted ++ [gaze [Three.hit_under "prev"]; Tick 1000; Fire 1%positive])
    0 "stereoImgGoToPrev" 1000 /\
  (dwelling 1 [Tick 1000; gaze [Three.hit_under "prev"]] w_dwelling /\
   run [Tick 1000; gaze [Three.hit_under "prev"]] w_dwelling <> None) /\
  Forall (fun l => l <> Fire 1%positive /\
                   forall pose dir n1 n2, l <> Frame pose dir [] n1 n2)
    [Tick 1000; gaze [Three.hit_under "prev"]].
Proof.
  assert (reachable w_dwelling) as R1
    by (exists ∅, (mounted ++ [gaze [Three.hit_under "prev"]]);
        vm_compute; reflexivity).
  assert (step (gaze []) w_dwelling = Some w_looked_away) as S
    by (vm_compute; reflexivity).
  assert (run [Tick 2000] w_looked_away
          = Some (with_clock 2000 w_looked_away)) as S'
    by (vm_compute; reflexivity).
  assert (run (mounted ++ [gaze [Three.hit_under "prev"]; Tick 1000;
                           Fire 1%positive]) (construct ∅) = Some w_fired)
    as Hrun by (vm_compute; reflexivity).
  assert (dispatched w_fired !! 0%nat = Some ("stereoImgGoToPrev", 1000%Z))
    as Hin by reflexivity.
  assert (dwelling 1 [Tick 1000; gaze [Three.hit_under "prev"]] w_dwelling)
    as Hd by (vm_compute; tauto).
  assert (exists w, run [Tick 1000; gaze [Three.hit_under "prev"]] w_dwelling
                    = Some w) as [w3 Hr3]
    by (eexists; vm_compute; reflexivity).
  destruct gaze_away_cancels_dwell as (T1 & T2 & T3).
  split; [|split; [|split; [|split]]].
  - split; [exact R1|]. split; [reflexivity|]. split; [exact S|].
    split; [by rewrite S'|]. split; [exact Hrun | exact Hin].
  - destruct (T1 w_dwelling w_looked_away 1%positive origin origin _ _
                R1 eq_refl S) as (H1 & H2 & H3 & H4).
    exact (conj H1 (conj H2 (conj H3 (H4 _ _ S')))).
  - exact (T2 ∅ _ w_fired _ _ _ Hrun Hin).
  - split; [exact Hd | by rewrite Hr3].
  - exact (T3 w_dwelling w3 1%positive _ R1 Hd Hr3).
Defined.

(** ** The events the element dispatches *)

(** C7: the only events the element dispatches are stereoImgGoToPrev and
    stereoImgGoToNext: every entry of the log of a reachable state is one
    of the two; a step extends the log only when a due timer carrying a
    dwell callback fires, and then by exactly one event; and a timer
    carrying a dwell callback enters the timer table only in an animation
    step whose raycast hit the button of that callback. *)
Theorem only_navigation_events_dispatched :
  (forall (w : World), reachable w ->
     forall ev t, In (ev, t) (dispatched w) ->
                  ev = "stereoImgGoToPrev" \/ ev = "stereoImgGoToNext") /\
  (forall (l : Label) (w w' : World), step l w = Some w' ->
     dispatched w' = dispatched w \/
     exists h tm b,
       l = Fire h /\ timers w !! h = Some tm /\ (due tm <= clock w)%Z /\
       callback tm = dwell_callback b /\
       dispatched w' = dispatched w ++ [(navigation_event b, clock w)]) /\
  (forall (l : Label) (w w' : World) (h : positive) (tm : Timer) (b : Button),
     step l w = Some w' -> timers w' !! h = Some tm ->
     callback tm = dwell_callback b ->
     timers w !! h = Some tm \/
     exists pose dir hits n1 n2,
       l = Frame pose dir hits n1 n2 /\
       In (Three.hit_under (group_name b)) hits /\
       due tm = (clock w + PREV_NEXT_TIMEOUT_MS)%Z).
Proof.
  repeat apply conj.
  - intros w (attrs & ls & Hr) ev t Hin.
    destruct (run_traced attrs ls w Hr) as [_ HD].
    destruct (HD ev t Hin) as (b & _ & -> & _). destruct b; simpl; tauto.
  - intros l w w' Hs. apply step_window in Hs.
    destruct Hs as
      [ (_ & _ & Ed & _)
      | d _ _ _ _ Ed _ _
      | _ _ Ed _ _
      | h' ? ? ? ? _ (_ & _ & _ & _ & Ed & _)
      | b ? ? ? ? ? _ _ (_ & _ & _ & _ & Ed & _)
      | h' tm b El Hh Hdue Hcb _ _ _ Ed _
      | h' tm _ _ _ _ _ _ Ed _ _ ]; try (by left).
    right. exists h', tm, b. by repeat split.
  - intros l w w' h tm b Hs Hl Hc. apply step_window in Hs.
    destruct Hs as
      [ (Et & _)
      | d _ _ Et _ _ _ _
      | Et _ _ _ _
      | h' ? ? ? ? _ (_ & _ & Et & _)
      | b' ? ? hits ? ? El Hin (_ & _ & Et & _)
      | h' tm' b' _ _ _ _ _ Et _ _ _
      | h' tm' _ _ _ _ Et _ _ _ _ ]; rewrite Et in Hl.
    + by left.
    + by left.
    + apply lookup_insert_Some in Hl as [[<- <-]|[_ Hl]]; [|by left].
      by apply dwell_not_reparse in Hc.
    + apply lookup_delete_Some in Hl as [_ Hl]. by left.
    + apply lookup_insert_Some in Hl as [[<- <-]|[_ Hl]]; [|by left].
      simpl in Hc. apply dwell_callback_inj in Hc as <-.
      right. eexists _, _, hits, _, _. by repeat split.
    + left. destruct (prevNextTimer (el w)); simpl in Hl;
        repeat (apply lookup_delete_Some in Hl as [_ Hl]); done.
    + apply lookup_delete_Some in Hl as [_ Hl]. by left.
Qed.

Lemma only_navigation_events_dispatched_witness :
  (reachable w_fired /\ In ("stereoImgGoToPrev", 1000%Z) (dispatched w_fired) /\
   step (gaze [Three.hit_under "prev"]) w_mounted = Some w_dwelling /\
   timers w_dwelling !! 1%positive
     = Some {| due := 1000; callback := GoToPrev |}) /\
  ("stereoImgGoToPrev" = "stereoImgGoToPrev"
   \/ "stereoImgGoToPrev" = "stereoImgGoToNext") /\
  (dispatched w_dwelling = dispatched w_mounted \/
   exists h tm b,
     gaze [Three.hit_under "prev"] = Fire h /\
     timers w_mounted !! h = Some tm /\ (due tm <= clock w_mounted)%Z /\
     callback tm = dwell_callback b /\
     dispatched w_dwelling
       = dispatched w_mounted ++ [(navigation_event b, clock w_mounted)]) /\
  (timers w_mounted !! 1%positive
     = Some {| due := 1000; callback := GoToPrev |} \/
   exists pose dir hits n1 n2,
     gaze [Three.hit_under "prev"] = Frame pose dir hits n1 n2 /\
     In (Three.hit_under (group_name Prev)) hits /\
     1000%Z = (clock w_mounted + PREV_NEXT_TIMEOUT_MS)%Z).
Proof.
  assert (reachable w_fired) as R
    by (exists ∅, (mounted ++ [gaze [Three.hit_under "prev"]; Tick 1000;
                               Fire 1%positive]);
        vm_compute; reflexivity).
  assert (In ("stereoImgGoToPrev", 1000%Z) (dispatched w_fired)) as Hin
    by (left; reflexivity).
  assert (step (gaze [Three.hit_under "prev"]) w_mounted = Some w_dwelling)
    as S by (vm_compute; reflexivity).
  assert (timers w_dwelling !! 1%positive
          = Some {| due := 1000; callback := GoToPrev |}) as Hl
    by (vm_compute; reflexivity).
  destruct only_navigation_events_dispatched as (T1 & T2 & T3).
  split; [exact (conj R (conj Hin (conj S Hl)))|]. split; [|split].
  - exact (T1 w_fired R _ _ Hin).
  - exact (T2 _ _ _ S).
  - exact (T3 _ _ _ 1%positive _ Prev S Hl eq_refl).
Defined.

(** ** Object identities *)

Lemma heap_grows_same (w w' : World) :
  heap w' = heap w -> next_obj w' = next_obj w -> heap_grows w w'.
Proof. unfold heap_grows. intros -> ->. split; [lia | by left]. Qed.

Lemma heap_grows_trans (w1 w2 w3 : World) :
  heap_grows w1 w2 -> heap_grows w2 w3 -> heap_grows w1 w3.
Proof.
  intros [H1 H2] [H3 H4]. split; [lia|].
  intros k v Hk. destruct (H4 k v Hk) as [Hk2|?]; [|right; lia].
  destruct (H2 k v Hk2) as [?|?]; [by left | right; lia].
Qed.

Lemma heap_ok_grows (w w' : World) : heap_ok w -> heap_grows w w' -> heap_ok w'.
Proof.
  intros Hok [H1 H2] k v Hk.
  destruct (H2 k v Hk) as [Hk1|?]; [|lia]. apply Hok in Hk1. lia.
Qed.

Lemma new_ImageData_in_spec (wd ht : Z) (w : World) :
  let id := fst (new_ImageData_in wd ht w) in
  let w' := snd (new_ImageData_in wd ht w) in
  id = next_obj w /\ next_obj w' = Pos.succ (next_obj w) /\
  heap w' = <[id := new_ImageData wd ht]> (heap w) /\
  el w' = el w /\ calls w' = calls w /\ tasks w' = tasks w.
Proof. by repeat split. Qed.

Lemma heap_grows_new_ImageData (wd ht : Z) (w : World) :
  heap_grows w (snd (new_ImageData_in wd ht w)).
Proof.
  split; simpl; [lia|].
  intros k v [[<- <-]|[_ Hk]]%lookup_insert_Some; [right; lia | by left].
Qed.

Lemma heap_grows_parse (w : World) : heap_grows w (snd (parse w)).
Proof.
  unfold parse.
  destruct (Js.truthy_attr (get_src (el w))).
  - repeat (match goal with
            | |- context [if ?c then _ else _] => destruct c
            end); by apply heap_grows_same.
  - pose proof (heap_grows_new_ImageData 10 10 w) as H1.
    destruct (new_ImageData_in 10 10 w) as [l w1]. simpl in H1.
    pose proof (heap_grows_new_ImageData 10 10 w1) as H2.
    destruct (new_ImageData_in 10 10 w1) as [r w2]. simpl in *.
    eapply heap_grows_trans; [exact H1|].
    eapply heap_grows_trans; [exact H2|]. by apply heap_grows_same.
Qed.

Lemma heap_grows_reparse (b : bool) (w : World) :
  heap_grows w (parseImageAndInitialize3DScene b w).
Proof.
  unfold parseImageAndInitialize3DScene.
  pose proof (heap_grows_parse (on_el (with_opacity (Some "0")) w)) as H.
  destruct (parse (on_el (with_opacity (Some "0")) w)) as [st w1].
  simpl in H. eapply heap_grows_trans; [|eapply heap_grows_trans];
    [|exact H|]; by apply heap_grows_same.
Qed.

Lemma heap_grows_test dir hits now (w : World) :
  heap_grows w (prevNextTest dir hits now w).
Proof.
  unfold prevNextTest.
  destruct (camera (el w)); [|by apply heap_grows_same].
  destruct (ready (el w)); simpl; [|by apply heap_grows_same].
  set (w1 := on_el (with_raycaster _) w).
  destruct hits as [|hit hits].
  - destruct (prevNextTimer (el w)); by apply heap_grows_same.
  - pose proof (prevNextLoop_frame now (hit :: hits) w1)
      as (_ & _ & Hh & Hn & _).
    by apply heap_grows_same.
Qed.

Lemma heap_grows_ring now (w : World) :
  heap_grows w (updatePrevNextRing now w).
Proof.
  unfold updatePrevNextRing, alloc. unfold_ops.
  destruct (timerRing (el w)); simpl;
    destruct (prevNextTimer (el w)); simpl;
    (split; simpl; [lia | by left]).
Qed.

Lemma heap_grows_step (l : Label) (w w' : World) :
  step l w = Some w' -> heap_grows w w'.
Proof.
  intros Hs. destruct l; simpl in Hs.
  - injection Hs as <-. by apply heap_grows_same.
  - injection Hs as <-. by apply heap_grows_same.
  - injection Hs as <-. unfold set_src.
    destruct (Js.strict_equal _ _); by apply heap_grows_same.
  - injection Hs as <-. by apply heap_grows_same.
  - destruct (page_attribute n); [|done]. injection Hs as <-. by apply heap_grows_same.
  - destruct (page_attribute n); [|done]. injection Hs as <-. by apply heap_grows_same.
  - destruct (0 <=? d)%Z; [|done]. injection Hs as <-.
    by apply heap_grows_same.
  - destruct (timers w !! h) as [tm|]; [|done].
    destruct (due tm <=? clock w)%Z; [|done]. injection Hs as <-.
    destruct (callback tm); simpl.
    + unfold_ops. destruct (prevNextTimer (el w)); by apply heap_grows_same.
    + unfold_ops. destruct (prevNextTimer (el w)); by apply heap_grows_same.
    + eapply heap_grows_trans; [|apply heap_grows_reparse].
      by apply heap_grows_same.
  - destruct (animating w); [|done]. injection Hs as <-.
    unfold animation_frame.
    eapply heap_grows_trans; [|apply heap_grows_ring].
    eapply heap_grows_trans; [|apply heap_grows_test].
    by apply heap_grows_same.
  - destruct (tasks w !! i) as [t|]; [|done].
    destruct (stage t); try done. injection Hs as <-.
    unfold parse_after_exif. destruct left_eye; by apply heap_grows_same.
  - destruct (tasks w !! i) as [t|]; [|done].
    destruct (stage t); try done. injection Hs as <-.
    by apply heap_grows_same.
  - destruct (tasks w !! i) as [t|]; [|done].
    destruct (stage t); try done; injection Hs as <-;
      by apply heap_grows_same.
  - destruct (tasks w !! i) as [t|]; [|done].
    destruct (stage t); try done.
    + destruct (initialize3DScene (el w)); injection Hs as <-;
        by apply heap_grows_same.
    + injection Hs as <-. destruct (from_init t); by apply heap_grows_same.
Qed.

Lemma reachable_heap_ok (w : World) : reachable w -> heap_ok w.
Proof.
  apply reachable_ind'.
  - intros attrs. unfold construct.
    eapply heap_ok_grows; [|apply heap_grows_reparse].
    intros k v Hk. simpl in Hk. by rewrite lookup_empty in Hk.
  - intros l w1 w2 _ Hok Hs.
    eapply heap_ok_grows; [exact Hok | by eapply heap_grows_step].
Qed.

(** ** Setting src to its current value *)

(** C8: setting the src property to a value strictly equal to the current
    src attribute leaves the src attribute (and every other attribute), the
    parsed stereoData and the scene as they are, schedules no timer and
    starts no parse; the state changes at most in the camera, whose
    position, when there is a camera, becomes (0, 0, 0.1). *)
Theorem set_src_same_value_only_resets_camera :
  forall (w : World) (val : Js.value),
    Js.strict_equal (get_src (el w)) val = true ->
    let w' := set_src val w in
    attributes (el w') = attributes (el w) /\
    stereoData (el w') = stereoData (el w) /\
    scene (el w') = scene (el w) /\
    timers w' = timers w /\ next_handle w' = next_handle w /\
    tasks w' = tasks w /\ calls w' = calls w /\
    dispatched w' = dispatched w /\
    camera (el w')
      = (fun c => {| Three.cam_position :=
                       {| Three.x := 0%float; Three.y := 0%float;
                          Three.z := 0x1.999999999999ap-4%float |};
                     Three.cam_layers := Three.cam_layers c |})
          <$> camera (el w) /\
    w' = on_el (with_camera (camera (el w'))) w.
Proof.
  intros w val Heq. cbv zeta. unfold set_src, get_src in *. rewrite Heq.
  unfold camera_home. unfold_ops.
  destruct w as [e ? ? ? ? ? ? ? ? ? ?]. destruct e. simpl.
  destruct camera0; simpl; by repeat split.
Qed.

Lemma set_src_same_value_only_resets_camera_witness :
  Js.strict_equal (get_src (el w_mounted)) Js.VNull = true /\
  camera (el (set_src Js.VNull w_mounted))
    = (fun c => {| Three.cam_position :=
                     {| Three.x := 0%float; Three.y := 0%float;
                        Three.z := 0x1.999999999999ap-4%float |};
                   Three.cam_layers := Three.cam_layers c |})
        <$> camera (el w_mounted) /\
  timers (set_src Js.VNull w_mounted) = timers w_mounted.
Proof.
  pose proof (set_src_same_value_only_resets_camera w_mounted Js.VNull eq_refl)
    as (_ & _ & _ & Ht & _ & _ & _ & _ & Hc & _).
  exact (conj eq_refl (conj Hc Ht)).
Defined.

(** ** Parsing without a source *)

Lemma new_ImageData_blank (wd ht : Z) :
  Forall (fun byte => byte = 0%Z) (data (new_ImageData wd ht)).
Proof.
  unfold new_ImageData. cbn [data].
  induction (Z.to_nat (4 * wd * ht)) as [|n IH]; simpl; by constructor.
Qed.

Lemma new_ImageData_10_10 :
  width (new_ImageData 10 10) = 10%Z /\ height (new_ImageData 10 10) = 10%Z /\
  length (data (new_ImageData 10 10)) = 400%nat /\
  Forall (fun byte => byte = 0%Z) (data (new_ImageData 10 10)).
Proof.
  split; [reflexivity|]. split; [reflexivity|]. split; [reflexivity|].
  apply new_ImageData_blank.
Qed.

(** C9: when the element has no src attribute, parse runs to its end
    without waiting for anything and without a call to a parser or to the
    metadata reader, and sets stereoData to the fallback: leftEye and
    rightEye are two distinct ImageData objects that did not exist before,
    each 10 by 10 and transparent black, and phiLength, thetaStart and
    thetaLength are 0. *)
Theorem parse_without_src_uses_fallback :
  forall (w : World),
    reachable w -> get_src (el w) = None ->
    exists (l r : positive) (w' : World),
      parse w = (Fulfilled, w') /\
      calls w' = calls w /\ timers w' = timers w /\ tasks w' = tasks w /\
      stereoData (el w')
        = Some {| leftEye := l; rightEye := r;
                  sd_phiLength := 0%float; sd_thetaStart := 0%float;
                  sd_thetaLength := 0%float; roll := None; pitch := None |} /\
      l <> r /\ heap w !! l = None /\ heap w !! r = None /\
      heap w' !! l = Some (new_ImageData 10 10) /\
      heap w' !! r = Some (new_ImageData 10 10) /\
      width (new_ImageData 10 10) = 10%Z /\
      height (new_ImageData 10 10) = 10%Z /\
      length (data (new_ImageData 10 10)) = 400%nat /\
      Forall (fun byte => byte = 0%Z) (data (new_ImageData 10 10)).
Proof.
  intros w Hreach Hsrc.
  pose proof (reachable_heap_ok w Hreach) as Hok.
  exists (next_obj w), (Pos.succ (next_obj w)).
  unfold parse. rewrite Hsrc. simpl. eexists. split; [reflexivity|]. simpl.
  assert (forall k, (next_obj w <= k)%positive -> heap w !! k = None) as Hfree.
  { intros k Hk. destruct (heap w !! k) eqn:E; [|done].
    apply Hok in E. lia. }
  repeat split; try done.
  - lia.
  - apply Hfree. lia.
  - apply Hfree. lia.
  - rewrite lookup_insert_ne by lia. apply lookup_insert_eq.
  - apply lookup_insert_eq.
  - apply new_ImageData_10_10.
Qed.

Lemma parse_without_src_uses_fallback_witness :
  (reachable w_mounted /\ get_src (el w_mounted) = None) /\
  exists (l r : positive) (w' : World),
    parse w_mounted = (Fulfilled, w') /\
    calls w' = calls w_mounted /\ timers w' = timers w_mounted /\
    tasks w' = tasks w_mounted /\
    stereoData (el w')
      = Some {| leftEye := l; rightEye := r;
                sd_phiLength := 0%float; sd_thetaStart := 0%float;
                sd_thetaLength := 0%float; roll := None; pitch := None |} /\
    l <> r /\ heap w_mounted !! l = None /\ heap w_mounted !! r = None /\
    heap w' !! l = Some (new_ImageData 10 10) /\
    heap w' !! r = Some (new_ImageData 10 10) /\
    width (new_ImageData 10 10) = 10%Z /\
    height (new_ImageData 10 10) = 10%Z /\
    length (data (new_ImageData 10 10)) = 400%nat /\
    Forall (fun byte => byte = 0%Z) (data (new_ImageData 10 10)).
Proof.
  assert (reachable w_mounted) as R0
    by (exists ∅, mounted; vm_compute; reflexivity).
  exact (conj (conj R0 eq_refl)
              (parse_without_src_uses_fallback w_mounted R0 eq_refl)).
Defined.

(** ** Scene construction *)

Lemma layers_set_only (n k : Z) :
  (0 <= n)%Z -> (0 <= k)%Z ->
  Z.testbit (Three.layers_set n) k = (k =? n)%Z.
Proof.
  intros Hn Hk. unfold Three.layers_set.
  rewrite Z.shiftl_1_l. destruct (Z.eqb_spec k n) as [->|Hne].
  - by apply Z.pow2_bits_true.
  - apply Z.pow2_bits_false. congruence.
Qed.

(** C5: for every stereoData, initialize3DScene builds a new scene whose
    first mesh is in layer 1 only and textured with leftEye, whose second
    mesh is in layer 2 only and textured with rightEye, both on the same
    sphere geometry (radius 10, phiStart -phiLength/2, phiLength,
    thetaStart and thetaLength of the stereoData) mirrored on the x-axis;
    a third mesh, in layer 0 only and textured with the back image, follows
    if and only if the angle attribute is "180" and backImageSrc is set, and
    nothing else is in the scene. *)
Theorem initialize3DScene_builds_eye_meshes :
  forall (e : Element) (sd : StereoData),
    stereoData e = Some sd ->
    exists (e' : Element) (left right : Three.Mesh) (back : list Three.Object3D),
      initialize3DScene e = Returned e' /\
      attributes e' = attributes e /\
      scene e' = Some {| Three.background := 0x101010;
                         Three.children :=
                           Three.OMesh left :: Three.OMesh right :: back |} /\
      Three.material_map left = Three.OfImageData (leftEye sd) /\
      (forall k, (0 <= k)%Z ->
                 Z.testbit (Three.layers left) k = (k =? 1)%Z) /\
      Three.material_map right = Three.OfImageData (rightEye sd) /\
      (forall k, (0 <= k)%Z ->
                 Z.testbit (Three.layers right) k = (k =? 2)%Z) /\
      Three.geometry left = eye_sphere sd /\
      Three.geometry right = eye_sphere sd /\
      ((exists src, back_image_set e src) <-> back <> []) /\
      (forall src, back_image_set e src ->
         exists m, back = [Three.OMesh m] /\
                   Three.material_map m = Three.OfImage src /\
                   forall k, (0 <= k)%Z ->
                             Z.testbit (Three.layers m) k = (k =? 0)%Z).
Proof.
  intros e sd Hsd. unfold initialize3DScene. rewrite Hsd.
  unfold back_image_set, attr_is.
  pose proof (fun n (Hn : (0 <= n)%Z) k (Hk : (0 <= k)%Z) =>
                layers_set_only n k Hn Hk) as Hlayer.
  destruct (get_angle e) as [a|] eqn:Ha; simpl;
    [destruct (String.eqb_spec a "180") as [->|Hne]; simpl;
     [destruct (get_backImageSrc e) as [src|] eqn:Hb; simpl;
      [destruct (String.eqb_spec src EmptyString) as [->|Hsrc]; simpl|]|]|];
    eexists _, (mesh1 sd), (mesh2 sd), _;
    (split; [reflexivity|]); (split; [reflexivity|]);
    (split; [reflexivity|]);
    (split; [reflexivity|]); (split; [by apply Hlayer|]);
    (split; [reflexivity|]); (split; [by apply Hlayer|]);
    (split; [reflexivity|]); (split; [reflexivity|]).
  - split; [split; [|done]|].
    + by intros (src & _ & [= <-] & Hn).
    + by intros src (_ & [= <-] & Hn).
  - split; [split; [done|]|].
    + intros _. by exists src.
    + intros src' (_ & [= <-] & _). eexists. split; [reflexivity|].
      split; [reflexivity|]. by apply Hlayer.
  - split; [split; [|done]|].
    + by intros (src & _ & [=] & _).
    + by intros src (_ & [=] & _).
  - split; [split; [|done]|].
    + intros (src & [= ->] & _). done.
    + intros src ([= ->] & _). done.
  - split; [split; [|done]|].
    + by intros (src & [=] & _).
    + by intros src ([=] & _).
Qed.

Lemma initialize3DScene_builds_eye_meshes_witness :
  exists sd,
    stereoData e_half_sphere = Some sd /\
    back_image_set e_half_sphere "back.jpg" /\
    exists (e' : Element) (left right : Three.Mesh) (m : Three.Mesh),
      initialize3DScene e_half_sphere = Returned e' /\
      scene e' = Some {| Three.background := 0x101010;
                         Three.children :=
                           [Three.OMesh left; Three.OMesh right;
                            Three.OMesh m] |} /\
      Three.geometry left = eye_sphere sd /\
      Three.geometry right = eye_sphere sd /\
      Three.material_map m = Three.OfImage "back.jpg".
Proof.
  eexists. split; [reflexivity|].
  assert (back_image_set e_half_sphere "back.jpg") as Hb
    by (split; [vm_compute; reflexivity|];
        split; [vm_compute; reflexivity | discriminate]).
  split; [exact Hb|].
  destruct (initialize3DScene_builds_eye_meshes e_half_sphere _ eq_refl)
    as (e' & left & right & back & Hi & _ & Hs & _ & _ & _ & _ & Hl & Hr
        & _ & Hback).
  destruct (Hback _ Hb) as (m & -> & Hm & _).
  exists e', left, right, m. exact (conj Hi (conj Hs (conj Hl (conj Hr Hm)))).
Defined.

(** ** The linear scale *)

(** *** The sweep outside the dwell *)


Lemma Prim2SF_zero : Prim2SF 0%float = SF_zero.
Proof. vm_compute. reflexivity. Qed.

Lemma is_nan_spec (v : float) :
  PrimFloat.is_nan v = negb (SFeqb (Prim2SF v) (Prim2SF v)).
Proof. unfold PrimFloat.is_nan. by rewrite FloatAxioms.eqb_spec. Qed.





(** *** The order of the binary64 numbers *)

Section Binary64Order.

Local Open Scope Z_scope.

Lemma is_nan_SF (v : float) :
  Prim2SF v = S754_nan -> PrimFloat.is_nan v = true.
Proof. intros H. by rewrite is_nan_spec, H. Qed.

Lemma SF_of_nan (v : float) :
  PrimFloat.is_nan v = true -> Prim2SF v = S754_nan.
Proof.
  rewrite is_nan_spec. unfold SFeqb.
  destruct (Prim2SF v) as [[|]|[|]| |[|] m e]; cbn; try done;
    by rewrite Z.compare_refl, Pos.compare_cont_refl.
Qed.

Lemma emin64_eq : emin64 = -1074.
Proof. reflexivity. Qed.

Lemma fexp64_eq e : fexp64 e = Z.max (e - 53) (-1074).
Proof. reflexivity. Qed.

Lemma digits2_size (p : positive) : digits2_pos p = Pos.size p.
Proof. induction p; simpl; congruence. Qed.

Lemma Zdigits2_log2 (m : Z) : 0 < m -> Zdigits2 m = Z.log2 m + 1.
Proof.
  destruct m as [|p|p]; try lia. intros _. simpl. rewrite digits2_size.
  destruct p; simpl; lia.
Qed.

Lemma Zdigits2_bounds (m : Z) :
  0 < m -> 2 ^ (Zdigits2 m - 1) <= m < 2 ^ Zdigits2 m.
Proof.
  intros H. rewrite (Zdigits2_log2 m H).
  replace (Z.log2 m + 1 - 1) with (Z.log2 m) by lia.
  pose proof (Z.log2_spec m H). unfold Z.succ in *. lia.
Qed.

Lemma Zdigits2_nonneg (m : Z) : 0 <= m -> 0 <= Zdigits2 m.
Proof. destruct m; simpl; lia. Qed.

Lemma Zdigits2_unique (m d : Z) :
  2 ^ (d - 1) <= m < 2 ^ d -> 0 < m -> Zdigits2 m = d.
Proof.
  intros [H1 H2] Hm. rewrite (Zdigits2_log2 m Hm).
  assert (0 < d).
  { destruct (Z.lt_ge_cases 0 d) as [|Hd]; [done|].
    assert (2 ^ d <= 2 ^ 0) by (apply Z.pow_le_mono_r; lia).
    change (2 ^ 0) with 1 in *. lia. }
  assert (Z.log2 m = d - 1); [|lia].
  apply Z.log2_unique; [lia|]. unfold Z.succ.
  replace (d - 1 + 1) with d by lia. done.
Qed.

Ltac zdm := Z.div_mod_to_equations; lia.

Lemma halve_mono (k1 k2 : Z) : k1 <= k2 -> halve k1 <= halve k2.
Proof.
  intros H. unfold halve.
  destruct (Z.eqb_spec (k1 mod 4) 0), (Z.eqb_spec (k2 mod 4) 0); zdm.
Qed.

Lemma halve_nonneg (k : Z) : 0 <= k -> 0 <= halve k.
Proof. intros H. unfold halve. destruct (Z.eqb_spec (k mod 4) 0); zdm. Qed.

Lemma halve_spec (m c : Z) :
  0 <= c < 4 -> halve (4 * m + c) = 2 * m + (if c =? 0 then 0 else 1).
Proof.
  intros Hc. unfold halve.
  assert ((4 * m + c) / 4 = m) as -> by zdm.
  assert ((4 * m + c) mod 4 = c) as -> by zdm.
  done.
Qed.

Lemma shr_1_key (mrs : shr_record) :
  0 <= shr_m mrs ->
  shr_key (shr_1 mrs) = halve (shr_key mrs) /\ 0 <= shr_m (shr_1 mrs).
Proof.
  destruct mrs as [m r s]. unfold shr_key. cbn [shr_m shr_r shr_s]. intros Hm.
  rewrite <- (Z.add_assoc (4 * m)), halve_spec by (destruct r, s; lia).
  destruct m as [|p|p]; [| |lia].
  - destruct r, s; simpl; split; reflexivity || lia.
  - destruct p as [p|p|]; cbn [shr_1 shr_m shr_r shr_s].
    + rewrite Pos2Z.inj_xI. destruct r, s; simpl; lia.
    + rewrite Pos2Z.inj_xO. destruct r, s; simpl; lia.
    + destruct r, s; simpl; split; reflexivity || lia.
Qed.

Lemma iter_pos_nat {A : Type} (f : A -> A) (p : positive) (x : A) :
  SpecFloat.iter_pos f p x = Nat.iter (Pos.to_nat p) f x.
Proof.
  revert x. induction p as [p IH|p IH|]; intros x;
    cbn [SpecFloat.iter_pos].
  - rewrite !IH, Pos2Nat.inj_xI.
    replace (S (2 * Pos.to_nat p)) with (S (Pos.to_nat p + Pos.to_nat p))
      by lia.
    rewrite Nat.iter_succ_r, Nat.iter_add. done.
  - rewrite !IH, Pos2Nat.inj_xO.
    replace (2 * Pos.to_nat p)%nat with (Pos.to_nat p + Pos.to_nat p)%nat
      by lia.
    by rewrite Nat.iter_add.
  - reflexivity.
Qed.

Lemma shr_key_iter (n : nat) (mrs : shr_record) :
  0 <= shr_m mrs ->
  shr_key (Nat.iter n shr_1 mrs) = Nat.iter n halve (shr_key mrs) /\
  0 <= shr_m (Nat.iter n shr_1 mrs).
Proof.
  intros Hm. induction n as [|n [IH1 IH2]]; simpl; [done|].
  destruct (shr_1_key _ IH2) as [-> ?]. by rewrite IH1.
Qed.

Lemma ratio_key_halve (N D : Z) :
  0 <= N -> 0 < D -> halve (ratio_key N D) = ratio_key N (2 * D).
Proof.
  intros HN HD. unfold halve, ratio_key.
  assert (2 * N / (2 * D) = N / D) as E1
    by (apply Z.div_mul_cancel_l; lia).
  assert ((2 * N) mod (2 * D) = 2 * (N mod D)) as E2
    by (apply Z.mul_mod_distr_l; lia).
  rewrite E1, E2.
  pose proof (Z.div_mod N D ltac:(lia)) as H1.
  pose proof (Z.mod_pos_bound N D HD) as H2.
  set (q := N / D) in *. set (r := N mod D) in *.
  assert (2 * N = D * (2 * q) + 2 * r) as H3 by lia.
  destruct (Z.lt_ge_cases (2 * r) D) as [Hlt|Hge].
  - assert (2 * N / D = 2 * q) as E3
      by (symmetry; apply (Z.div_unique _ _ _ (2 * r)); lia).
    assert ((2 * N) mod D = 2 * r) as E4
      by (symmetry; apply (Z.mod_unique _ _ (2 * q)); lia).
    rewrite E3, E4.
    destruct (Z.eqb_spec (2 * r) 0);
      match goal with
      | |- context [?a mod 4 =? 0] => destruct (Z.eqb_spec (a mod 4) 0)
      end; zdm.
  - assert (2 * N / D = 2 * q + 1) as E3
      by (symmetry; apply (Z.div_unique _ _ _ (2 * r - D)); lia).
    assert ((2 * N) mod D = 2 * r - D) as E4
      by (symmetry; apply (Z.mod_unique _ _ (2 * q + 1)); lia).
    rewrite E3, E4.
    destruct (Z.eqb_spec (2 * r) 0); [lia|].
    destruct (Z.eqb_spec (2 * r - D) 0);
      match goal with
      | |- context [?a mod 4 =? 0] => destruct (Z.eqb_spec (a mod 4) 0)
      end; zdm.
Qed.

Lemma ratio_key_iter (n : nat) (N D : Z) :
  0 <= N -> 0 < D ->
  Nat.iter n halve (ratio_key N D) = ratio_key N (D * 2 ^ Z.of_nat n).
Proof.
  intros HN HD. induction n as [|n IH].
  - simpl. by rewrite Z.mul_1_r.
  - simpl Nat.iter. rewrite IH, ratio_key_halve; [|done|].
    + f_equal. rewrite Nat2Z.inj_succ, Z.pow_succ_r by lia. lia.
    + apply Z.mul_pos_pos; [done|]. apply Z.pow_pos_nonneg; lia.
Qed.

Lemma ratio_key_exact (M : Z) : ratio_key M 1 = 4 * M.
Proof.
  unfold ratio_key. rewrite Z.div_1_r, Z.mod_1_r. simpl. lia.
Qed.

Lemma rne_key_spec (m c : Z) :
  0 <= c < 4 ->
  rne_key (4 * m + c)
  = if c <? 2 then m
    else if c =? 2 then (if Z.even m then m else m + 1)
    else m + 1.
Proof.
  intros Hc. unfold rne_key.
  assert ((4 * m + c) / 4 = m) as -> by zdm.
  assert ((4 * m + c) mod 4 = c) as -> by zdm.
  done.
Qed.

Lemma rne_key_between (k : Z) : k / 4 <= rne_key k <= k / 4 + 1.
Proof.
  unfold rne_key. cbv zeta.
  destruct (k mod 4 <? 2); [lia|].
  destruct (k mod 4 =? 2); [|lia]. destruct (Z.even (k / 4)); lia.
Qed.

Lemma rne_key_low (k : Z) : k mod 4 < 2 -> rne_key k = k / 4.
Proof.
  intros H. unfold rne_key. cbv zeta.
  destruct (Z.ltb_spec (k mod 4) 2); [done|lia].
Qed.

Lemma rne_key_high (k : Z) : 2 < k mod 4 -> rne_key k = k / 4 + 1.
Proof.
  intros H. unfold rne_key. cbv zeta.
  destruct (Z.ltb_spec (k mod 4) 2); [lia|].
  destruct (Z.eqb_spec (k mod 4) 2); [lia|done].
Qed.

Lemma rne_key_mono (k1 k2 : Z) : k1 <= k2 -> rne_key k1 <= rne_key k2.
Proof.
  intros H.
  pose proof (rne_key_between k1) as B1.
  pose proof (rne_key_between k2) as B2.
  destruct (Z.eq_dec (k1 / 4) (k2 / 4)) as [E|NE].
  - destruct (Z.lt_ge_cases (k1 mod 4) 2) as [L1|G1].
    { rewrite (rne_key_low k1 L1). lia. }
    destruct (Z.lt_ge_cases 2 (k2 mod 4)) as [L2|G2].
    { rewrite (rne_key_high k2 L2). lia. }
    assert (k1 mod 4 = 2 /\ k2 mod 4 = 2) as [M1 M2] by zdm.
    unfold rne_key. cbv zeta. rewrite M1, M2, E. simpl. lia.
  - assert (k1 / 4 < k2 / 4) by zdm. lia.
Qed.

Lemma rne_key_le (k M : Z) : k < 4 * M -> rne_key k <= M.
Proof. intros H. pose proof (rne_key_between k). zdm. Qed.

Lemma rne_key_ge (k M : Z) : 4 * M <= k -> M <= rne_key k.
Proof. intros H. pose proof (rne_key_between k). zdm. Qed.

Lemma rne_record (mrs : shr_record) :
  round_nearest_even (shr_m mrs) (loc_of_shr_record mrs)
  = rne_key (shr_key mrs).
Proof.
  destruct mrs as [m r s]. unfold shr_key. cbn [shr_m shr_r shr_s].
  rewrite <- Z.add_assoc, rne_key_spec by (destruct r, s; lia).
  destruct r, s; reflexivity.
Qed.

Lemma halve_upper (k X : Z) : k < 8 * X -> halve k < 4 * X.
Proof. intros H. unfold halve. destruct (k mod 4 =? 0); zdm. Qed.

Lemma halve_lower (k X : Z) : 8 * X <= k -> 4 * X <= halve k.
Proof. intros H. unfold halve. destruct (k mod 4 =? 0); zdm. Qed.

Lemma shr_nat (mrs : shr_record) (e n : Z) :
  0 <= n -> shr mrs e n = (Nat.iter (Z.to_nat n) shr_1 mrs, e + n).
Proof.
  intros Hn. unfold shr. destruct n as [|p|p]; [|..].
  - simpl. f_equal. lia.
  - by rewrite iter_pos_nat.
  - lia.
Qed.

Lemma shr_record_key (m : Z) (l : location) :
  shr_m (shr_record_of_loc m l) = m /\
  4 * m <= shr_key (shr_record_of_loc m l) < 4 * m + 4.
Proof. destruct l as [|[]]; unfold shr_key; simpl; lia. Qed.

Lemma halve_iter_nonneg (n : nat) (k : Z) : 0 <= k -> 0 <= Nat.iter n halve k.
Proof. intros H. induction n; simpl; [done|]. by apply halve_nonneg. Qed.

Lemma halve_iter_upper (n : nat) (k X : Z) :
  k < 4 * X * 2 ^ Z.of_nat n -> Nat.iter n halve k < 4 * X.
Proof.
  revert X. induction n as [|n IH]; intros X H.
  - simpl in *. lia.
  - simpl Nat.iter. apply halve_upper.
    replace (8 * X) with (4 * (2 * X)) by lia. apply IH.
    rewrite Nat2Z.inj_succ, Z.pow_succ_r in H by lia. lia.
Qed.

Lemma halve_iter_lower (n : nat) (k X : Z) :
  4 * X * 2 ^ Z.of_nat n <= k -> 4 * X <= Nat.iter n halve k.
Proof.
  revert X. induction n as [|n IH]; intros X H.
  - simpl in *. lia.
  - simpl Nat.iter. apply halve_lower.
    replace (8 * X) with (4 * (2 * X)) by lia. apply IH.
    rewrite Nat2Z.inj_succ, Z.pow_succ_r in H by lia. lia.
Qed.

Lemma pow52 : 2 ^ 52 = 4503599627370496.
Proof. reflexivity. Qed.
Lemma pow53 : 2 ^ 53 = 9007199254740992.
Proof. reflexivity. Qed.

Lemma Zdigits2_succ_le (q : Z) : 0 <= q -> q + 1 <= 2 ^ Zdigits2 q.
Proof.
  intros H. destruct (Z.eq_dec q 0) as [->|Hq]; [simpl; lia|].
  pose proof (Zdigits2_bounds q ltac:(lia)). lia.
Qed.

(** The rounded mantissa after the first shift of [binary_round_aux]. *)
Lemma round_ord_mantissa (k0 q E : Z) :
  0 <= q -> E <= fexp64 (Zdigits2 q + E) ->
  4 * q <= k0 < 4 * q + 4 ->
  let e' := fexp64 (Zdigits2 q + E) in
  let m1 := rne_key (Nat.iter (Z.to_nat (e' - E)) halve k0) in
  0 <= m1 <= 2 ^ 53 /\ (emin64 < e' -> 2 ^ 52 <= m1).
Proof.
  intros Hq HV Hk. cbv zeta.
  set (d := Zdigits2 q) in *. set (e' := fexp64 (d + E)) in *.
  set (n := e' - E). assert (0 <= n) as Hn by lia.
  assert (Z.of_nat (Z.to_nat n) = n) as Hnn by lia.
  pose proof (Zdigits2_nonneg q Hq) as Hd. fold d in Hd.
  pose proof (Zdigits2_succ_le q Hq) as Hq1. fold d in Hq1.
  assert (e' = Z.max (d + E - 53) (-1074)) as He' by reflexivity.
  set (k' := Nat.iter (Z.to_nat n) halve k0).
  assert (0 <= k') as Hk0 by (apply halve_iter_nonneg; lia).
  assert (k' < 4 * 2 ^ 53) as Hup.
  { apply halve_iter_upper. rewrite Hnn.
    assert (2 ^ d <= 2 ^ (53 + n)) as Hp
      by (apply Z.pow_le_mono_r; lia).
    rewrite Z.pow_add_r in Hp by lia. nia. }
  split.
  - split.
    + pose proof (rne_key_between k'). zdm.
    + by apply rne_key_le.
  - intros Hnorm. rewrite emin64_eq in Hnorm.
    assert (n = d - 53) as Hnd by lia.
    assert (0 < q) as Hq0.
    { destruct (Z.eq_dec q 0) as [E0|]; [|lia]. subst d. rewrite E0 in *.
      simpl in *. lia. }
    pose proof (Zdigits2_bounds q Hq0) as [Hlo _]. fold d in Hlo.
    apply rne_key_ge. apply halve_iter_lower. rewrite Hnn.
    replace (d - 1) with (52 + n) in Hlo by lia.
    rewrite Z.pow_add_r in Hlo by lia. nia.
Qed.

Lemma bra_ord (q E : Z) (l : location) :
  0 <= q -> E <= fexp64 (Zdigits2 q + E) ->
  let r := binary_round_aux prec emax false q E l in
  nonneg64 r /\
  ord64 r
  = Z.min (2047 * 2 ^ 52) (round_ord (shr_key (shr_record_of_loc q l)) q E).
Proof.
  intros Hq HV. cbv zeta.
  destruct (shr_record_key q l) as [Hm Hk].
  pose proof (round_ord_mantissa _ q E Hq HV Hk) as Hm1. cbv zeta in Hm1.
  unfold round_ord. cbv zeta.
  remember (binary_round_aux prec emax false q E l) as r eqn:Hr.
  unfold binary_round_aux in Hr. unfold shr_fexp at 1 in Hr.
  change (fexp prec emax (Zdigits2 q + E)) with (fexp64 (Zdigits2 q + E))
    in Hr.
  set (e' := fexp64 (Zdigits2 q + E)) in *.
  rewrite shr_nat in Hr by lia.
  destruct (shr_key_iter (Z.to_nat (e' - E)) (shr_record_of_loc q l))
    as [Hki _]; [lia|].
  replace (E + (e' - E)) with e' in Hr by lia.
  rewrite rne_record, Hki in Hr.
  set (m1 := rne_key _) in *.
  destruct Hm1 as [[Hm0 Hm53] Hnorm].
  assert (e' = Z.max (Zdigits2 q + E - 53) (-1074)) as He' by reflexivity.
  rewrite emin64_eq in *. rewrite pow52, pow53 in *.
  unfold shr_fexp in Hr.
  destruct (Z.eq_dec m1 0) as [E0|N0].
  { rewrite E0 in *. cbn [Zdigits2 Z.add] in Hr.
    assert (e' = -1074) as Hemin by lia.
    change (fexp prec emax (0 + e')) with (Z.max (0 + e' - 53) (-1074)) in Hr.
    replace (Z.max (0 + e' - 53) (-1074) - e') with 0 in Hr by lia.
    simpl in Hr. subst r. split; [done|]. simpl. lia. }
  destruct (Z.eq_dec m1 9007199254740992) as [E53|N53].
  { rewrite E53 in *.
    change (Zdigits2 9007199254740992) with 54 in Hr.
    change (fexp prec emax (54 + e')) with (Z.max (54 + e' - 53) (-1074))
      in Hr.
    replace (Z.max (54 + e' - 53) (-1074) - e') with 1 in Hr by lia.
    cbn [shr shr_record_of_loc SpecFloat.iter_pos shr_1 shr_m fst snd] in Hr.
    change (emax - prec) with 971 in Hr.
    destruct (Z.leb_spec (e' + 1) 971); subst r; simpl;
      rewrite ?emin64_eq, ?pow52; split; try done; lia. }
  assert (0 < m1 < 9007199254740992) as Hmid by lia.
  pose proof (Zdigits2_bounds m1 ltac:(lia)) as [Hd1 Hd2].
  set (d1 := Zdigits2 m1) in *.
  assert (d1 <= 53) as Hd53.
  { destruct (Z.le_gt_cases d1 53) as [|Hgt]; [done|].
    assert (2 ^ 53 <= 2 ^ (d1 - 1)) by (apply Z.pow_le_mono_r; lia).
    rewrite pow53 in *. lia. }
  assert (-1074 < e' -> d1 = 53) as Hd1n.
  { intros Hn. specialize (Hnorm Hn).
    destruct (Z.le_gt_cases 53 d1) as [|Hlt]; [lia|].
    assert (2 ^ d1 <= 2 ^ 52) by (apply Z.pow_le_mono_r; lia).
    rewrite pow52 in *. lia. }
  change (fexp prec emax (d1 + e')) with (Z.max (d1 + e' - 53) (-1074)) in Hr.
  replace (Z.max (d1 + e' - 53) (-1074) - e') with 0 in Hr by lia.
  cbn [shr shr_record_of_loc shr_m] in Hr.
  destruct m1 as [|p|p]; try lia.
  change (emax - prec) with 971 in Hr.
  destruct (Z.leb_spec e' 971); subst r; simpl;
    rewrite ?emin64_eq, ?pow52; split; try done; try lia.
Qed.

Lemma round_ord_ratio (N D E : Z) :
  0 <= N -> 0 < D -> E <= fexp64 (Zdigits2 (N / D) + E) ->
  round_ord (ratio_key N D) (N / D) E = rnd_ord N D E.
Proof.
  intros HN HD HV. unfold round_ord, rnd_ord. cbv zeta.
  rewrite ratio_key_iter by done. rewrite Z2Nat.id by lia. reflexivity.
Qed.

Lemma ratio_key_mono (N1 D1 N2 D2 : Z) :
  0 <= N1 -> 0 < D1 -> 0 < D2 -> N1 * D2 <= N2 * D1 ->
  ratio_key N1 D1 <= ratio_key N2 D2.
Proof.
  intros HN HD1 HD2 H. unfold ratio_key.
  pose proof (Z.div_mod (2 * N1) D1 ltac:(lia)) as E1.
  pose proof (Z.mod_pos_bound (2 * N1) D1 HD1) as B1.
  pose proof (Z.div_mod (2 * N2) D2 ltac:(lia)) as E2.
  pose proof (Z.mod_pos_bound (2 * N2) D2 HD2) as B2.
  set (a1 := 2 * N1 / D1) in *. set (r1 := (2 * N1) mod D1) in *.
  set (a2 := 2 * N2 / D2) in *. set (r2 := (2 * N2) mod D2) in *.
  assert (D1 * D2 * a1 + r1 * D2 <= D1 * D2 * a2 + r2 * D1) as H' by nia.
  assert (a1 <= a2) as Ha.
  { destruct (Z.le_gt_cases a1 a2) as [|Hgt]; [done|]. exfalso.
    assert (D1 * D2 * (a2 + 1) <= D1 * D2 * a1) by nia. nia. }
  destruct (Z.eq_dec a1 a2) as [Ea|Na].
  - destruct (Z.eqb_spec r1 0), (Z.eqb_spec r2 0); try lia; nia.
  - destruct (Z.eqb_spec r1 0), (Z.eqb_spec r2 0); lia.
Qed.

Lemma ratio_key_lt (N D M : Z) :
  0 <= N -> 0 < D -> N < M * D -> ratio_key N D < 4 * M.
Proof.
  intros HN HD H. unfold ratio_key.
  assert (2 * N / D < 2 * M) by (apply Z.div_lt_upper_bound; lia).
  destruct (_ =? 0); lia.
Qed.

Lemma ratio_key_ge (N D M : Z) :
  0 < D -> M * D <= N -> 4 * M <= ratio_key N D.
Proof.
  intros HD H. unfold ratio_key.
  assert (2 * M <= 2 * N / D) by (apply Z.div_le_lower_bound; lia).
  destruct (_ =? 0); lia.
Qed.

(** The scaled value [N / (D * 2 ^ n)] that is rounded lies below
    [2 ^ 53], and at or above [2 ^ 52] in the normal range. *)
Lemma rnd_ord_scaled (N D E : Z) :
  0 <= N -> 0 < D -> E <= fexp64 (Zdigits2 (N / D) + E) ->
  let e' := fexp64 (Zdigits2 (N / D) + E) in
  let D' := D * 2 ^ (e' - E) in
  0 < D' /\ N < 2 ^ 53 * D' /\ (emin64 < e' -> 2 ^ 52 * D' <= N).
Proof.
  intros HN HD HV. cbv zeta.
  set (q := N / D) in *. set (d := Zdigits2 q) in *.
  set (e' := fexp64 (d + E)) in *. set (n := e' - E).
  assert (0 <= n) as Hn by lia.
  assert (e' = Z.max (d + E - 53) (-1074)) as He' by reflexivity.
  assert (0 <= q) as Hq by (apply Z.div_pos; lia).
  pose proof (Zdigits2_nonneg q Hq) as Hd. fold d in Hd.
  pose proof (Zdigits2_succ_le q Hq) as Hq1. fold d in Hq1.
  pose proof (Z.div_mod N D ltac:(lia)) as EN.
  pose proof (Z.mod_pos_bound N D HD) as BN. fold q in EN.
  assert (0 < 2 ^ n) as Hpn by (apply Z.pow_pos_nonneg; lia).
  split; [nia|]. split.
  - assert (2 ^ d <= 2 ^ (53 + n)) as Hp
      by (apply Z.pow_le_mono_r; lia).
    rewrite Z.pow_add_r in Hp by lia. nia.
  - intros Hnorm. rewrite emin64_eq in Hnorm.
    assert (n = d - 53) as Hnd by lia.
    assert (0 < q) as Hq0.
    { destruct (Z.eq_dec q 0) as [E0|]; [|lia]. subst d. rewrite E0 in *.
      simpl in *. lia. }
    pose proof (Zdigits2_bounds q Hq0) as [Hlo _]. fold d in Hlo.
    replace (d - 1) with (52 + n) in Hlo by lia.
    rewrite Z.pow_add_r in Hlo by lia. nia.
Qed.

Lemma rnd_ord_mono (N1 D1 E1 N2 D2 E2 E0 : Z) :
  0 <= N1 -> 0 <= N2 -> 0 < D1 -> 0 < D2 ->
  E1 <= fexp64 (Zdigits2 (N1 / D1) + E1) ->
  E2 <= fexp64 (Zdigits2 (N2 / D2) + E2) ->
  E0 <= E1 -> E0 <= E2 ->
  N1 * D2 * 2 ^ (E1 - E0) <= N2 * D1 * 2 ^ (E2 - E0) ->
  rnd_ord N1 D1 E1 <= rnd_ord N2 D2 E2.
Proof.
  intros HN1 HN2 HD1 HD2 HV1 HV2 H01 H02 H.
  destruct (rnd_ord_scaled N1 D1 E1 HN1 HD1 HV1) as (P1 & U1 & L1).
  destruct (rnd_ord_scaled N2 D2 E2 HN2 HD2 HV2) as (P2 & U2 & L2).
  unfold rnd_ord. cbv zeta in *.
  set (e1 := fexp64 (Zdigits2 (N1 / D1) + E1)) in *.
  set (e2 := fexp64 (Zdigits2 (N2 / D2) + E2)) in *.
  assert (-1074 <= e1 /\ -1074 <= e2) as [Hm1 Hm2].
  { unfold e1, e2. rewrite !fexp64_eq. lia. }
  rewrite emin64_eq in *. rewrite pow52, pow53 in *.
  set (A := 2 ^ (E1 - E0)) in *. set (B := 2 ^ (E2 - E0)) in *.
  set (Q1 := 2 ^ (e1 - E1)) in *. set (Q2 := 2 ^ (e2 - E2)) in *.
  assert (0 < A /\ 0 < B /\ 0 < Q1 /\ 0 < Q2) as (HA & HB & HQ1 & HQ2)
    by (repeat split; apply Z.pow_pos_nonneg; lia).
  assert (Q1 * A = 2 ^ (e1 - E0)) as EA.
  { unfold Q1, A. rewrite <- Z.pow_add_r by lia. f_equal. lia. }
  assert (Q2 * B = 2 ^ (e2 - E0)) as EB.
  { unfold Q2, B. rewrite <- Z.pow_add_r by lia. f_equal. lia. }
  assert (e1 <= e2) as Hle.
  { destruct (Z.le_gt_cases e1 e2) as [|Hgt]; [done|]. exfalso.
    specialize (L1 ltac:(lia)).
    assert (2 * 2 ^ (e2 - E0) <= 2 ^ (e1 - E0)) as Hp.
    { rewrite <- Z.pow_succ_r by lia. apply Z.pow_le_mono_r; lia. }
    rewrite <- EA, <- EB in Hp.
    assert (4503599627370496 * (D1 * D2) * (Q1 * A)
            < 9007199254740992 * (D1 * D2) * (Q2 * B)) as Hc.
    { apply Z.le_lt_trans with (N1 * D2 * A).
      - replace (4503599627370496 * (D1 * D2) * (Q1 * A))
          with (4503599627370496 * (D1 * Q1) * (D2 * A)) by ring.
        rewrite <- (Z.mul_assoc N1).
        apply Z.mul_le_mono_nonneg_r; lia.
      - apply Z.le_lt_trans with (N2 * D1 * B); [done|].
        replace (9007199254740992 * (D1 * D2) * (Q2 * B))
          with (9007199254740992 * (D2 * Q2) * (D1 * B)) by ring.
        rewrite <- (Z.mul_assoc N2).
        apply Z.mul_lt_mono_pos_r; lia. }
    assert (0 < D1 * D2) as HX by lia.
    set (X := D1 * D2) in *. set (U := Q1 * A) in *. set (W := Q2 * B) in *.
    nia. }
  destruct (Z.eq_dec e1 e2) as [Ee|Ne].
  - assert (N1 * (D2 * Q2) <= N2 * (D1 * Q1)) as Hv.
    { assert (0 < 2 ^ (e1 - E0)) as HC by (apply Z.pow_pos_nonneg; lia).
      set (C := 2 ^ (e1 - E0)) in *.
      assert (Q2 * B = C) as EB' by (rewrite EB, <- Ee; done).
      apply (Z.mul_le_mono_pos_r _ _ C HC).
      replace (N1 * (D2 * Q2) * C) with (N1 * D2 * A * (Q2 * Q1)).
      2:{ rewrite <- EA. ring. }
      replace (N2 * (D1 * Q1) * C) with (N2 * D1 * B * (Q2 * Q1)).
      2:{ rewrite <- EB'. ring. }
      apply Z.mul_le_mono_nonneg_r; [lia|done]. }
    pose proof (rne_key_mono _ _
                  (ratio_key_mono N1 (D1 * Q1) N2 (D2 * Q2) HN1 P1 P2 Hv)).
    rewrite Ee. lia.
  - assert (rne_key (ratio_key N1 (D1 * Q1)) <= 9007199254740992) as R1.
    { apply rne_key_le, ratio_key_lt; done. }
    assert (4503599627370496 <= rne_key (ratio_key N2 (D2 * Q2))) as R2.
    { apply rne_key_ge, ratio_key_ge; [done|]. apply L2. lia. }
    nia.
Qed.

Lemma valid_finite (s : bool) (m : positive) (e : Z) :
  valid_binary (S754_finite s m e) = true ->
  -1074 <= e <= 971 /\ Z.pos m < 2 ^ 53 /\ (-1074 < e -> 2 ^ 52 <= Z.pos m) /\
  e = fexp64 (Zdigits2 (Z.pos m) + e).
Proof.
  unfold SpecFloat.valid_binary, bounded, canonical_mantissa.
  intros [Hc Hb]%andb_prop. apply Z.eqb_eq in Hc. apply Z.leb_le in Hb.
  change (emax - prec) with 971 in Hb.
  change (Z.pos (digits2_pos m)) with (Zdigits2 (Z.pos m)) in Hc.
  change (fexp prec emax) with fexp64 in Hc.
  pose proof (Zdigits2_bounds (Z.pos m) ltac:(lia)) as [Hlo Hhi].
  set (d := Zdigits2 (Z.pos m)) in *.
  assert (e = Z.max (d + e - 53) (-1074)) as He by (rewrite <- Hc at 1; done).
  split; [lia|]. split; [|split; [|done]].
  - assert (2 ^ d <= 2 ^ 53) by (apply Z.pow_le_mono_r; lia). lia.
  - intros Hn. assert (d = 53) as Hd by lia.
    rewrite Hd in Hlo. exact Hlo.
Qed.


Lemma ord64_finite_lt (s : bool) (m : positive) (e : Z) :
  valid_binary (S754_finite s m e) = true ->
  0 < ord64 (S754_finite s m e) < 2047 * 2 ^ 52.
Proof.
  intros Hv. destruct (valid_finite s m e Hv) as (He & Hm & _).
  simpl. rewrite emin64_eq, pow52, pow53 in *. lia.
Qed.

Lemma SFleb_ord (x y : spec_float) :
  valid_binary x = true -> valid_binary y = true ->
  nonneg64 x -> nonneg64 y ->
  (SFleb x y = true <-> ord64 x <= ord64 y) /\
  (SFltb x y = true <-> ord64 x < ord64 y).
Proof.
  intros Vx Vy Nx Ny.
  destruct x as [sx|sx| |sx mx ex], y as [sy|sy| |sy my ey];
    try done; simpl in Nx, Ny; subst;
    try pose proof (ord64_finite_lt _ _ _ Vx) as Bx;
    try pose proof (ord64_finite_lt _ _ _ Vy) as By;
    unfold SFleb, SFltb; cbn [SFcompare]; cbn [ord64] in *;
    try (split; split; (discriminate || lia || done)).
  destruct (valid_finite _ _ _ Vx) as (Hex & Hmx & Hnx & _).
  destruct (valid_finite _ _ _ Vy) as (Hey & Hmy & Hny & _).
  rewrite emin64_eq, pow52, pow53 in *.
  change (Pos.compare_cont Eq mx my) with (mx ?= my)%positive.
  destruct (Z.compare_spec ex ey) as [->|Hlt|Hgt].
  - destruct (Pos.compare_spec mx my) as [->|Hl|Hg];
      split; split; (discriminate || lia || done).
  - split; split; try done; intros _; specialize (Hny ltac:(lia)); nia.
  - split; split; try discriminate; intros H; exfalso;
      specialize (Hnx ltac:(lia)); nia.
Qed.

Lemma nonneg64_not_nan (x : spec_float) : nonneg64 x -> x <> S754_nan.
Proof. by destruct x. Qed.

(** The value order of two valid finite numbers, on their mantissas
    brought to a common exponent [t]. *)
Lemma finite_le_value (mx my : positive) (ex ey t : Z) :
  valid_binary (S754_finite false mx ex) = true ->
  valid_binary (S754_finite false my ey) = true ->
  SFleb (S754_finite false mx ex) (S754_finite false my ey) = true ->
  t <= ex -> t <= ey ->
  Z.pos mx * 2 ^ (ex - t) <= Z.pos my * 2 ^ (ey - t).
Proof.
  intros Vx Vy Hle Hx Hy.
  destruct (valid_finite _ _ _ Vx) as (Hex & Hmx & Hnx & _).
  destruct (valid_finite _ _ _ Vy) as (Hey & Hmy & Hny & _).
  unfold SFleb in Hle. cbn [SFcompare] in Hle.
  change (Pos.compare_cont Eq mx my) with (mx ?= my)%positive in Hle.
  rewrite pow52, pow53 in *.
  destruct (Z.compare_spec ex ey) as [->|Hlt|Hgt]; [| |done].
  - destruct (Pos.compare_spec mx my) as [->|Hl|Hg]; [lia| |done].
    apply Z.mul_le_mono_nonneg_r; [|lia].
    apply Z.pow_nonneg. lia.
  - specialize (Hny ltac:(lia)).
    replace (ey - t) with ((ey - ex) + (ex - t)) by lia.
    rewrite Z.pow_add_r by lia.
    assert (2 ^ 1 <= 2 ^ (ey - ex)) by (apply Z.pow_le_mono_r; lia).
    change (2 ^ 1) with 2 in *.
    assert (0 < 2 ^ (ex - t)) by (apply Z.pow_pos_nonneg; lia).
    set (P := 2 ^ (ex - t)) in *. set (Q := 2 ^ (ey - ex)) in *.
    assert (Z.pos mx <= Z.pos my * Q) by nia.
    rewrite Z.mul_assoc. apply Z.mul_le_mono_nonneg_r; lia.
Qed.

Lemma Zdigits2_ge (q k : Z) : 2 ^ (k - 1) <= q -> 0 < q -> k <= Zdigits2 q.
Proof.
  intros H Hq. pose proof (Zdigits2_bounds q Hq) as [_ Hhi].
  destruct (Z.le_gt_cases k (Zdigits2 q)) as [|Hgt]; [done|].
  assert (2 ^ Zdigits2 q <= 2 ^ (k - 1)) by (apply Z.pow_le_mono_r; lia).
  lia.
Qed.

Lemma fexp64_mono (a b : Z) : a <= b -> fexp64 a <= fexp64 b.
Proof. rewrite !fexp64_eq. lia. Qed.

Lemma SFmul_ord (ma mx : positive) (ea ex : Z) :
  valid_binary (S754_finite false ma ea) = true ->
  valid_binary (S754_finite false mx ex) = true ->
  let r := SFmul prec emax (S754_finite false ma ea) (S754_finite false mx ex) in
  nonneg64 r /\
  ord64 r = Z.min (2047 * 2 ^ 52) (rnd_ord (Z.pos ma * Z.pos mx) 1 (ea + ex)) /\
  ea + ex <= fexp64 (Zdigits2 (Z.pos ma * Z.pos mx / 1) + (ea + ex)).
Proof.
  intros Va Vx. cbv zeta. cbn [SFmul xorb].
  destruct (valid_finite _ _ _ Va) as (Hea & Hma & Hna & _).
  destruct (valid_finite _ _ _ Vx) as (Hex & Hmx & Hnx & _).
  rewrite Pos2Z.inj_mul. set (q := Z.pos ma * Z.pos mx).
  assert (0 < q) as Hq by (unfold q; lia).
  assert (ea + ex <= fexp64 (Zdigits2 q + (ea + ex))) as HV.
  { rewrite fexp64_eq. rewrite pow52 in *.
    destruct (Z.eq_dec ea (-1074)) as [Ea|Na];
      [destruct (Z.eq_dec ex (-1074)) as [Ex|Nx]; [lia|]|].
    - assert (53 <= Zdigits2 q); [|lia].
      apply Zdigits2_ge; [|done]. change (2 ^ (53 - 1)) with 4503599627370496.
      specialize (Hnx ltac:(lia)). unfold q. nia.
    - assert (53 <= Zdigits2 q); [|lia].
      apply Zdigits2_ge; [|done]. change (2 ^ (53 - 1)) with 4503599627370496.
      specialize (Hna ltac:(lia)). unfold q. nia. }
  destruct (bra_ord q (ea + ex) loc_Exact ltac:(lia) HV) as [Hn Ho].
  split; [exact Hn|]. rewrite Z.div_1_r. split; [|exact HV].
  rewrite Ho. f_equal.
  rewrite <- (round_ord_ratio q 1 (ea + ex)); rewrite ?Z.div_1_r; try lia.
  rewrite ratio_key_exact. reflexivity.
Qed.

Lemma new_location_key (D q r : Z) :
  0 < D -> 0 <= r < D ->
  shr_key (shr_record_of_loc q (new_location D r)) = ratio_key (D * q + r) D.
Proof.
  intros HD Hr. unfold ratio_key.
  assert (2 * (D * q + r) = D * (2 * q) + 2 * r) as E by ring.
  assert (shr_key (shr_record_of_loc q (new_location D r))
          = 4 * q + (if r =? 0 then 0
                     else if 2 * r <? D then 1
                     else if 2 * r =? D then 2 else 3)) as ->.
  { unfold new_location.
    destruct (Z.even D) eqn:Hev;
      unfold new_location_even, new_location_odd;
      destruct (Z.eqb_spec r 0) as [->|Hr0];
      try (unfold shr_key; cbn [shr_record_of_loc shr_m shr_r shr_s]; lia).
    - destruct (Z.compare_spec (2 * r) D) as [Heq|Hlt|Hgt];
        destruct (Z.ltb_spec (2 * r) D); destruct (Z.eqb_spec (2 * r) D);
        unfold shr_key; cbn [shr_record_of_loc shr_m shr_r shr_s]; lia.
    - assert (2 * r <> D) as Hne.
      { intros <-. rewrite Z.even_mul in Hev. discriminate Hev. }
      destruct (Z.compare_spec (2 * r + 1) D) as [Heq|Hlt|Hgt];
        destruct (Z.ltb_spec (2 * r) D); destruct (Z.eqb_spec (2 * r) D);
        unfold shr_key; cbn [shr_record_of_loc shr_m shr_r shr_s]; lia. }
  destruct (Z.lt_ge_cases (2 * r) D) as [Hlt|Hge].
  - assert (2 * (D * q + r) / D = 2 * q) as ->
      by (symmetry; apply (Z.div_unique _ _ _ (2 * r)); lia).
    assert ((2 * (D * q + r)) mod D = 2 * r) as ->
      by (symmetry; apply (Z.mod_unique _ _ (2 * q)); lia).
    destruct (Z.eqb_spec r 0), (Z.eqb_spec (2 * r) 0); try lia.
    destruct (Z.ltb_spec (2 * r) D); lia.
  - assert (2 * (D * q + r) / D = 2 * q + 1) as ->
      by (symmetry; apply (Z.div_unique _ _ _ (2 * r - D)); lia).
    assert ((2 * (D * q + r)) mod D = 2 * r - D) as ->
      by (symmetry; apply (Z.mod_unique _ _ (2 * q + 1)); lia).
    destruct (Z.eqb_spec r 0); [lia|].
    destruct (Z.ltb_spec (2 * r) D); [lia|].
    destruct (Z.eqb_spec (2 * r) D), (Z.eqb_spec (2 * r - D) 0); lia.
Qed.

Lemma SFdiv_core_eq (mx mb : positive) (ex eb : Z) :
  SFdiv_core_binary prec emax (Z.pos mx) ex (Z.pos mb) eb
  = (div_num mx ex mb eb / Z.pos mb, div_exp mx ex mb eb,
     new_location (Z.pos mb) (div_num mx ex mb eb mod Z.pos mb)).
Proof.
  unfold SFdiv_core_binary, div_num.
  change (fexp prec emax) with fexp64. fold (div_exp mx ex mb eb).
  set (e' := div_exp mx ex mb eb).
  assert (e' <= ex - eb) as He by (unfold e', div_exp; lia).
  set (s := ex - eb - e'). assert (0 <= s) as Hs by lia.
  assert (match s with
          | 0 => Z.pos mx
          | Z.pos _ => Z.shiftl (Z.pos mx) s
          | Z.neg _ => 0
          end = Z.pos mx * 2 ^ s) as ->.
  { destruct s as [|p|p] eqn:Es; [simpl; lia| |lia].
    by rewrite Z.shiftl_mul_pow2. }
  unfold Z.div, Z.modulo.
  by destruct (Z.div_eucl (Z.pos mx * 2 ^ s) (Z.pos mb)).
Qed.

Lemma div_valid (mx mb : positive) (ex eb : Z) :
  let e' := div_exp mx ex mb eb in
  let q := div_num mx ex mb eb / Z.pos mb in
  0 <= q /\ e' <= fexp64 (Zdigits2 q + e') /\ e' <= ex - eb.
Proof.
  cbv zeta. unfold div_num.
  set (e' := div_exp mx ex mb eb).
  assert (e' <= ex - eb) as He by (unfold e', div_exp; lia).
  set (s := ex - eb - e'). assert (0 <= s) as Hs by lia.
  set (d1 := Zdigits2 (Z.pos mx)). set (d2 := Zdigits2 (Z.pos mb)).
  pose proof (Zdigits2_bounds (Z.pos mx) ltac:(lia)) as [L1 _]. fold d1 in L1.
  pose proof (Zdigits2_bounds (Z.pos mb) ltac:(lia)) as [_ U2]. fold d2 in U2.
  assert (0 < 2 ^ s) as Hps by (apply Z.pow_pos_nonneg; lia).
  set (q := Z.pos mx * 2 ^ s / Z.pos mb).
  assert (0 <= q) as Hq by (apply Z.div_pos; lia).
  split; [done|]. split; [|done].
  assert (e' <= fexp64 (d1 + ex - (d2 + eb))) as HF
    by (unfold e', div_exp; fold d1 d2; lia).
  apply Z.le_trans with (1 := HF). apply fexp64_mono.
  assert (d1 + s - d2 <= Zdigits2 q); [|lia].
  pose proof (Zdigits2_nonneg q Hq).
  destruct (Z.le_gt_cases (d1 + s - d2) 0) as [|Hpos]; [lia|].
  assert (1 <= d1) as Hd1 by (unfold d1; simpl; lia).
  assert (0 <= d2) as Hd2 by (unfold d2; simpl; lia).
  assert (2 ^ (d1 + s - d2 - 1) <= q) as Hlow.
  { apply Z.div_le_lower_bound; [lia|].
    apply Z.le_trans with (2 ^ d2 * 2 ^ (d1 + s - d2 - 1)).
    - apply Z.mul_le_mono_nonneg_r; [apply Z.pow_nonneg|]; lia.
    - rewrite <- Z.pow_add_r by lia.
      replace (d2 + (d1 + s - d2 - 1)) with ((d1 - 1) + s) by lia.
      rewrite Z.pow_add_r by lia.
      apply Z.mul_le_mono_nonneg_r; lia. }
  apply Zdigits2_ge; [done|].
  assert (0 < 2 ^ (d1 + s - d2 - 1)) by (apply Z.pow_pos_nonneg; lia). lia.
Qed.

Lemma SFdiv_ord (mx mb : positive) (ex eb : Z) :
  let r := SFdiv prec emax (S754_finite false mx ex) (S754_finite false mb eb) in
  nonneg64 r /\
  ord64 r = Z.min (2047 * 2 ^ 52)
              (rnd_ord (div_num mx ex mb eb) (Z.pos mb) (div_exp mx ex mb eb)).
Proof.
  cbv zeta. cbn [SFdiv xorb]. rewrite SFdiv_core_eq.
  destruct (div_valid mx mb ex eb) as (Hq & HV & _). cbv zeta in Hq, HV.
  set (N := div_num mx ex mb eb) in *. set (e' := div_exp mx ex mb eb) in *.
  assert (0 <= N) as HN.
  { unfold N, div_num. apply Z.mul_nonneg_nonneg; [lia|].
    apply Z.pow_nonneg. lia. }
  destruct (bra_ord (N / Z.pos mb) e'
              (new_location (Z.pos mb) (N mod Z.pos mb)) Hq HV) as [Hn Ho].
  split; [exact Hn|]. rewrite Ho. f_equal.
  rewrite new_location_key by (try apply Z.mod_pos_bound; lia).
  rewrite <- Z.div_mod by lia.
  apply round_ord_ratio; [done|lia|done].
Qed.

Lemma ratio_key_nonneg (N D : Z) : 0 <= N -> 0 <= D -> 0 <= ratio_key N D.
Proof.
  intros HN HD. unfold ratio_key.
  assert (0 <= 2 * N / D) by (apply Z_div_nonneg_nonneg; lia).
  destruct (_ =? 0); lia.
Qed.

Lemma rnd_ord_nonneg (N D E : Z) : 0 <= N -> 0 < D -> 0 <= rnd_ord N D E.
Proof.
  intros HN HD. unfold rnd_ord. cbv zeta.
  set (e' := fexp64 _).
  assert (-1074 <= e') by (unfold e'; rewrite fexp64_eq; lia).
  assert (0 <= ratio_key N (D * 2 ^ (e' - E))) as Hk.
  { apply ratio_key_nonneg; [done|].
    apply Z.mul_nonneg_nonneg; [lia|]. apply Z.pow_nonneg. lia. }
  pose proof (rne_key_between (ratio_key N (D * 2 ^ (e' - E)))).
  assert (0 <= ratio_key N (D * 2 ^ (e' - E)) / 4) by (apply Z.div_pos; lia).
  rewrite emin64_eq, pow52. lia.
Qed.

Lemma SFmul_mono (a x y : spec_float) :
  posfin64 a -> valid_binary a = true ->
  valid_binary x = true -> valid_binary y = true ->
  nonneg64 x -> nonneg64 y -> SFleb x y = true ->
  nonneg64 (SFmul prec emax a x) /\ nonneg64 (SFmul prec emax a y) /\
  ord64 (SFmul prec emax a x) <= ord64 (SFmul prec emax a y).
Proof.
  intros Pa Va Vx Vy Nx Ny Hle.
  destruct a as [| | |[|] ma ea]; try done.
  assert (forall z, valid_binary z = true -> nonneg64 z ->
            nonneg64 (SFmul prec emax (S754_finite false ma ea) z) /\
            0 <= ord64 (SFmul prec emax (S754_finite false ma ea) z)
              <= 2047 * 2 ^ 52) as Hres.
  { intros [s|s| |s m e] Vz Nz; try done; simpl in Nz; subst;
      try (cbn [SFmul xorb nonneg64 ord64]; rewrite ?pow52;
           split; [done|lia]).
    destruct (SFmul_ord ma m ea e Va Vz) as (Hn & Ho & _).
      split; [exact Hn|]. rewrite Ho.
      pose proof (rnd_ord_nonneg (Z.pos ma * Z.pos m) 1 (ea + e)
                    ltac:(lia) ltac:(lia)).
      rewrite pow52 in *. lia. }
  destruct (Hres x Vx Nx) as [Hnx Hox]. destruct (Hres y Vy Ny) as [Hny Hoy].
  split; [done|]. split; [done|].
  destruct x as [sx|sx| |sx mx ex], y as [sy|sy| |sy my ey]; try done;
    simpl in Nx, Ny; subst; try discriminate Hle;
    try (cbn [SFmul xorb ord64] in *; lia).
  destruct (SFmul_ord ma mx ea ex Va Vx) as (_ & -> & HV1).
    destruct (SFmul_ord ma my ea ey Va Vy) as (_ & -> & HV2).
    apply Z.min_le_compat_l.
    apply (rnd_ord_mono _ _ _ _ _ _ (ea + Z.min ex ey)); try lia; try done.
    pose proof (finite_le_value mx my ex ey (Z.min ex ey) Vx Vy Hle
                  ltac:(lia) ltac:(lia)) as Hv.
    replace (ea + ex - (ea + Z.min ex ey)) with (ex - Z.min ex ey) by lia.
    replace (ea + ey - (ea + Z.min ex ey)) with (ey - Z.min ex ey) by lia.
    rewrite !Z.mul_1_r, <- !Z.mul_assoc.
    apply Z.mul_le_mono_nonneg_l; lia.
Qed.

Lemma SFdiv_mono (b x y : spec_float) :
  posfin64 b ->
  valid_binary x = true -> valid_binary y = true ->
  nonneg64 x -> nonneg64 y -> SFleb x y = true ->
  nonneg64 (SFdiv prec emax x b) /\ nonneg64 (SFdiv prec emax y b) /\
  ord64 (SFdiv prec emax x b) <= ord64 (SFdiv prec emax y b).
Proof.
  intros Pb Vx Vy Nx Ny Hle.
  destruct b as [| | |[|] mb eb]; try done.
  assert (forall m e, 0 <= div_num m e mb eb) as HN.
  { intros m e. unfold div_num. apply Z.mul_nonneg_nonneg; [lia|].
    apply Z.pow_nonneg. lia. }
  assert (forall z, nonneg64 z ->
            nonneg64 (SFdiv prec emax z (S754_finite false mb eb)) /\
            0 <= ord64 (SFdiv prec emax z (S754_finite false mb eb))
              <= 2047 * 2 ^ 52) as Hres.
  { intros [s|s| |s m e] Nz; try done; simpl in Nz; subst;
      try (cbn [SFdiv xorb nonneg64 ord64]; rewrite ?pow52;
           split; [done|lia]).
    destruct (SFdiv_ord m mb e eb) as (Hn & Ho).
      split; [exact Hn|]. rewrite Ho.
      pose proof (rnd_ord_nonneg (div_num m e mb eb) (Z.pos mb)
                    (div_exp m e mb eb) (HN m e) ltac:(lia)).
      rewrite pow52 in *. lia. }
  destruct (Hres x Nx) as [Hnx Hox]. destruct (Hres y Ny) as [Hny Hoy].
  split; [done|]. split; [done|].
  destruct x as [sx|sx| |sx mx ex], y as [sy|sy| |sy my ey]; try done;
    simpl in Nx, Ny; subst; try discriminate Hle;
    try (cbn [SFdiv xorb ord64] in *; lia).
  destruct (SFdiv_ord mx mb ex eb) as (_ & ->).
    destruct (SFdiv_ord my mb ey eb) as (_ & ->).
    destruct (div_valid mx mb ex eb) as (_ & HV1 & Hx).
    destruct (div_valid my mb ey eb) as (_ & HV2 & Hy).
    cbv zeta in HV1, HV2, Hx, Hy.
    apply Z.min_le_compat_l.
    set (e1 := div_exp mx ex mb eb) in *. set (e2 := div_exp my ey mb eb) in *.
    apply (rnd_ord_mono _ _ _ _ _ _ (Z.min e1 e2)); try lia; try done.
    pose proof (finite_le_value mx my ex ey (eb + Z.min e1 e2) Vx Vy Hle
                  ltac:(lia) ltac:(lia)) as Hv.
    unfold div_num. fold e1 e2.
    assert (forall m e e', e' <= e - eb -> Z.min e1 e2 <= e' ->
              Z.pos m * 2 ^ (e - eb - e') * Z.pos mb * 2 ^ (e' - Z.min e1 e2)
              = Z.pos mb * (Z.pos m * 2 ^ (e - (eb + Z.min e1 e2)))) as Hsh.
    { intros m e e' H1 H2.
      replace (e - (eb + Z.min e1 e2))
        with ((e - eb - e') + (e' - Z.min e1 e2)) by lia.
      rewrite Z.pow_add_r by lia. ring. }
    rewrite !Hsh by lia.
    apply Z.mul_le_mono_nonneg_l; lia.
Qed.

Lemma finite_compare (mx my : positive) (ex ey : Z) :
  valid_binary (S754_finite false mx ex) = true ->
  valid_binary (S754_finite false my ey) = true ->
  let c := match ex ?= ey with
           | Eq => Pos.compare_cont Eq mx my
           | Lt => Lt
           | Gt => Gt
           end in
  let ox := ord64 (S754_finite false mx ex) in
  let oy := ord64 (S754_finite false my ey) in
  match c with
  | Eq => ox = oy
  | Lt => ox < oy
  | Gt => oy < ox
  end.
Proof.
  intros Vx Vy. cbv zeta. cbn [ord64].
  destruct (valid_finite _ _ _ Vx) as (Hex & Hmx & Hnx & _).
  destruct (valid_finite _ _ _ Vy) as (Hey & Hmy & Hny & _).
  rewrite emin64_eq, pow52, pow53 in *.
  change (Pos.compare_cont Eq mx my) with (mx ?= my)%positive.
  destruct (Z.compare_spec ex ey) as [->|Hlt|Hgt].
  - destruct (Pos.compare_spec mx my) as [->|Hl|Hg]; lia.
  - specialize (Hny ltac:(lia)). nia.
  - specialize (Hnx ltac:(lia)). nia.
Qed.

Lemma SFcompare_sord (x y : spec_float) :
  valid_binary x = true -> valid_binary y = true ->
  x <> S754_nan -> y <> S754_nan ->
  exists c, SFcompare x y = Some c /\
            match c with
            | Eq => sord64 x = sord64 y
            | Lt => sord64 x < sord64 y
            | Gt => sord64 y < sord64 x
            end.
Proof.
  intros Vx Vy Nx Ny.
  assert (forall s m e, valid_binary (S754_finite s m e) = true ->
            0 < ord64 (S754_finite s m e) < 2047 * 2 ^ 52) as Hfin
    by (intros; by apply ord64_finite_lt).
  destruct x as [sx|sx| |sx mx ex]; [| |done|];
    (destruct y as [sy|sy| |sy my ey]; [| |done|]);
    try pose proof (Hfin _ _ _ Vx) as Bx;
    try pose proof (Hfin _ _ _ Vy) as By;
    try (pose proof (finite_compare mx my ex ey Vx Vy) as Hc;
         cbv zeta in Hc);
    try destruct sx; try destruct sy;
    cbn [SFcompare]; (eexists; split; [reflexivity|]);
    cbn [sord64 ord64] in *; rewrite ?pow52 in *; try lia.
  - destruct (ex ?= ey); [destruct (Pos.compare_cont Eq mx my)| |];
      simpl; lia.
  - destruct (ex ?= ey); [destruct (Pos.compare_cont Eq mx my)| |];
      simpl; lia.
Qed.

Lemma SF_order (x y : spec_float) :
  valid_binary x = true -> valid_binary y = true ->
  x <> S754_nan -> y <> S754_nan ->
  (SFleb x y = true <-> sord64 x <= sord64 y) /\
  (SFltb x y = true <-> sord64 x < sord64 y) /\
  (SFeqb x y = true <-> sord64 x = sord64 y).
Proof.
  intros Vx Vy Nx Ny.
  destruct (SFcompare_sord x y Vx Vy Nx Ny) as (c & Hc & H).
  unfold SFleb, SFltb, SFeqb. rewrite Hc.
  destruct c; repeat split; intros; (done || lia).
Qed.

Lemma not_nan (x : float) :
  PrimFloat.is_nan x = false <-> Prim2SF x <> S754_nan.
Proof.
  split.
  - intros H E. apply is_nan_SF in E. congruence.
  - intros H. destruct (PrimFloat.is_nan x) eqn:E; [|done].
    by apply SF_of_nan in E.
Qed.

Lemma double_order (x y : float) :
  PrimFloat.is_nan x = false -> PrimFloat.is_nan y = false ->
  (PrimFloat.leb x y = true <-> sordF x <= sordF y) /\
  (PrimFloat.ltb x y = true <-> sordF x < sordF y) /\
  (PrimFloat.eqb x y = true <-> sordF x = sordF y).
Proof.
  intros Hx%not_nan Hy%not_nan.
  rewrite FloatAxioms.leb_spec, FloatAxioms.ltb_spec, FloatAxioms.eqb_spec.
  apply SF_order; try done; apply Prim2SF_valid.
Qed.

Lemma nonneg64_sord (x : spec_float) :
  valid_binary x = true ->
  (nonneg64 x <-> x <> S754_nan /\ 0 <= sord64 x) /\
  (nonneg64 x -> sord64 x = ord64 x).
Proof.
  intros Vx.
  destruct x as [s|s| |s m e]; try pose proof (ord64_finite_lt _ _ _ Vx);
    try destruct s; cbn [nonneg64 sord64 ord64] in *; rewrite ?pow52 in *;
    repeat split; try done; try lia; intros; try tauto; try lia;
    try (destruct H0; lia).
Qed.

Lemma Math_max_sord (a b : float) :
  PrimFloat.is_nan a = false -> PrimFloat.is_nan b = false ->
  PrimFloat.is_nan (Arith.Math_max a b) = false /\
  sordF (Arith.Math_max a b) = Z.max (sordF a) (sordF b).
Proof.
  intros Ha Hb. unfold Arith.Math_max. rewrite Ha, Hb. simpl.
  destruct (double_order a b Ha Hb) as (_ & Hlt & _).
  destruct (double_order b a Hb Ha) as (_ & Hgt & _).
  destruct (PrimFloat.ltb a b).
  { split; [done|]. pose proof (proj1 Hlt eq_refl). lia. }
  destruct (PrimFloat.ltb b a).
  { split; [done|]. pose proof (proj1 Hgt eq_refl). lia. }
  assert (sordF a = sordF b) as E.
  { destruct (Z.lt_trichotomy (sordF a) (sordF b)) as [H|[H|H]]; [|done|].
    - apply Hlt in H. discriminate H.
    - apply Hgt in H. discriminate H. }
  destruct (Arith.is_neg_zero a); (split; [done|lia]).
Qed.

Lemma Math_min_sord (a b : float) :
  PrimFloat.is_nan a = false -> PrimFloat.is_nan b = false ->
  PrimFloat.is_nan (Arith.Math_min a b) = false /\
  sordF (Arith.Math_min a b) = Z.min (sordF a) (sordF b).
Proof.
  intros Ha Hb. unfold Arith.Math_min. rewrite Ha, Hb. simpl.
  destruct (double_order a b Ha Hb) as (_ & Hlt & _).
  destruct (double_order b a Hb Ha) as (_ & Hgt & _).
  destruct (PrimFloat.ltb a b).
  { split; [done|]. pose proof (proj1 Hlt eq_refl). lia. }
  destruct (PrimFloat.ltb b a).
  { split; [done|]. pose proof (proj1 Hgt eq_refl). lia. }
  assert (sordF a = sordF b) as E.
  { destruct (Z.lt_trichotomy (sordF a) (sordF b)) as [H|[H|H]]; [|done|].
    - apply Hlt in H. discriminate H.
    - apply Hgt in H. discriminate H. }
  destruct (Arith.is_neg_zero a); (split; [done|lia]).
Qed.

Lemma clamp_sord (v lo hi : float) :
  PrimFloat.is_nan v = false -> PrimFloat.is_nan lo = false ->
  PrimFloat.is_nan hi = false ->
  PrimFloat.is_nan (clamp (T := float) v lo hi) = false /\
  sordF (clamp (T := float) v lo hi)
  = Z.min (Z.max (sordF v) (sordF lo)) (sordF hi).
Proof.
  intros Hv Hlo Hhi. unfold clamp. cbn [Arith.math_min Arith.math_max Arith.double].
  destruct (Math_max_sord v lo Hv Hlo) as [N1 E1].
  destruct (Math_min_sord _ hi N1 Hhi) as [N2 E2].
  split; [done|]. by rewrite E2, E1.
Qed.

Lemma sub_zero_r (x : float) : PrimFloat.sub x 0%float = x.
Proof.
  apply Prim2SF_inj. rewrite sub_spec, Prim2SF_zero. unfold SF_zero.
  by destruct (Prim2SF x) as [[|]|[|]| |[|] m e].
Qed.

Lemma add_zero_l (x : float) :
  PrimFloat.is_nan x = false ->
  PrimFloat.is_nan (PrimFloat.add 0%float x) = false /\
  sordF (PrimFloat.add 0%float x) = sordF x.
Proof.
  intros Hx%not_nan. rewrite not_nan. unfold sordF.
  rewrite add_spec, Prim2SF_zero. unfold SF_zero.
  by destruct (Prim2SF x) as [[|]|[|]| |[|] m e].
Qed.

Lemma SFopp_sord (x : spec_float) : sord64 (SFopp x) = - sord64 x.
Proof. destruct x as [[|]|[|]| |[|] m e]; cbn [SFopp negb sord64 ord64]; lia. Qed.

Lemma bra_negb (s : bool) (m e : Z) (l : location) :
  binary_round_aux prec emax (negb s) m e l
  = SFopp (binary_round_aux prec emax s m e l).
Proof.
  unfold binary_round_aux.
  destruct (shr_fexp prec emax m e l) as [mrs' e'].
  destruct (shr_fexp prec emax _ e' loc_Exact) as [mrs'' e''].
  destruct (shr_m mrs''); try reflexivity.
  by destruct (e'' <=? emax - prec).
Qed.

Lemma SFmul_opp_l (a x : spec_float) :
  SF64mul (SFopp a) x = SFopp (SF64mul a x).
Proof.
  destruct a as [sa|sa| |sa ma ea], x as [sx|sx| |sx mx ex];
    cbn [SF64mul SFmul SFopp]; try reflexivity;
    try (by destruct sa, sx).
  rewrite <- bra_negb. by destruct sa, sx.
Qed.

Lemma SFdiv_opp_l (p b : spec_float) :
  SF64div (SFopp p) b = SFopp (SF64div p b).
Proof.
  destruct p as [sp|sp| |sp mp ep], b as [sb|sb| |sb mb eb];
    cbn [SF64div SFdiv SFopp]; try reflexivity;
    try (by destruct sp, sb).
  destruct (SFdiv_core_binary prec emax (Z.pos mp) ep (Z.pos mb) eb)
    as [[mz ez] lz].
  rewrite <- bra_negb. by destruct sp, sb.
Qed.

Lemma nonnegF_sord (x : float) :
  nonnegF x <-> PrimFloat.is_nan x = false /\ 0 <= sordF x.
Proof.
  unfold nonnegF, sordF. rewrite not_nan.
  apply nonneg64_sord, Prim2SF_valid.
Qed.

Lemma mul_mono_double (a x y : float) :
  posfin64 (Prim2SF a) -> nonnegF x -> nonnegF y -> sordF x <= sordF y ->
  nonnegF (PrimFloat.mul a x) /\ nonnegF (PrimFloat.mul a y) /\
  sordF (PrimFloat.mul a x) <= sordF (PrimFloat.mul a y).
Proof.
  intros Pa Nx Ny Hle.
  pose proof (Prim2SF_valid x) as Vx. pose proof (Prim2SF_valid y) as Vy.
  pose proof (Prim2SF_valid a) as Va.
  assert (SFleb (Prim2SF x) (Prim2SF y) = true) as HL.
  { apply SF_order; try done; by apply nonneg64_not_nan. }
  destruct (SFmul_mono _ _ _ Pa Va Vx Vy Nx Ny HL) as (N1 & N2 & Ho).
  unfold nonnegF, sordF. rewrite !mul_spec. split; [done|]. split; [done|].
  pose proof (Prim2SF_valid (PrimFloat.mul a x)) as V1.
  pose proof (Prim2SF_valid (PrimFloat.mul a y)) as V2.
  rewrite mul_spec in V1, V2.
  rewrite (proj2 (nonneg64_sord _ V1) N1), (proj2 (nonneg64_sord _ V2) N2).
  exact Ho.
Qed.

Lemma div_mono_double (b x y : float) :
  posfin64 (Prim2SF b) -> nonnegF x -> nonnegF y -> sordF x <= sordF y ->
  nonnegF (PrimFloat.div x b) /\ nonnegF (PrimFloat.div y b) /\
  sordF (PrimFloat.div x b) <= sordF (PrimFloat.div y b).
Proof.
  intros Pb Nx Ny Hle.
  pose proof (Prim2SF_valid x) as Vx. pose proof (Prim2SF_valid y) as Vy.
  assert (SFleb (Prim2SF x) (Prim2SF y) = true) as HL.
  { apply SF_order; try done; by apply nonneg64_not_nan. }
  destruct (SFdiv_mono _ _ _ Pb Vx Vy Nx Ny HL) as (N1 & N2 & Ho).
  unfold nonnegF, sordF. rewrite !div_spec. split; [done|]. split; [done|].
  pose proof (Prim2SF_valid (PrimFloat.div x b)) as V1.
  pose proof (Prim2SF_valid (PrimFloat.div y b)) as V2.
  rewrite div_spec in V1, V2.
  rewrite (proj2 (nonneg64_sord _ V1) N1), (proj2 (nonneg64_sord _ V2) N2).
  exact Ho.
Qed.




(** The call of [updatePrevNextRing], with the subtractions of zero
    carried out. *)
Lemma sweep_double_unfold (elapsed : float) (forPrev : bool) :
  sweep (T := float) elapsed forPrev
  = PrimFloat.add 0%float
      (PrimFloat.div
         (PrimFloat.mul
            (if forPrev then PrimFloat.mul Arith.Math_PI 2%float
             else PrimFloat.mul (PrimFloat.opp Arith.Math_PI) 2%float)
            (clamp (T := float) elapsed 0%float 1000%float))
         1000%float).
Proof.
  unfold sweep, linearScale.
  cbn [Arith.add Arith.sub Arith.mul Arith.div Arith.opp Arith.PI
       Arith.double].
  change (@Arith.of_Z float _ 0) with 0%float.
  change (@Arith.of_Z float _ PREV_NEXT_TIMEOUT_MS) with 1000%float.
  change (@Arith.of_Z float _ 2) with 2%float.
  rewrite !sub_zero_r. by destruct forPrev.
Qed.

Lemma sweep_core_mono (c1 c2 : float) :
  nonnegF c1 -> nonnegF c2 -> sordF c1 <= sordF c2 ->
  nonnegF (sweep_core c1) /\ nonnegF (sweep_core c2) /\
  sordF (sweep_core c1) <= sordF (sweep_core c2).
Proof.
  intros N1 N2 Hle. unfold sweep_core.
  assert (posfin64 (Prim2SF (PrimFloat.mul Arith.Math_PI 2%float))) as PA
    by (vm_compute; exact I).
  assert (posfin64 (Prim2SF 1000%float)) as PK by (vm_compute; exact I).
  destruct (mul_mono_double _ c1 c2 PA N1 N2 Hle) as (M1 & M2 & HM).
  exact (div_mono_double _ _ _ PK M1 M2 HM).
Qed.

Lemma sordF_consts :
  sordF 0%float = 0 /\ sordF 1000%float = 4652007308841189376 /\
  sordF (PrimFloat.mul Arith.Math_PI 2%float) = 4618760256179416344 /\
  sordF (sweep_core 1000%float) = 4618760256179416344 /\
  sordF (sweep_core 0%float) = 0.
Proof. vm_compute. repeat split. Qed.

Lemma sweep_double_sord (elapsed : float) :
  PrimFloat.is_nan elapsed = false ->
  let c := clamp (T := float) elapsed 0%float 1000%float in
  PrimFloat.is_nan (sweep (T := float) elapsed true) = false /\
  PrimFloat.is_nan (sweep (T := float) elapsed false) = false /\
  sordF (sweep (T := float) elapsed true) = sordF (sweep_core c) /\
  sordF (sweep (T := float) elapsed false) = - sordF (sweep_core c) /\
  nonnegF c /\ sordF c = Z.min (Z.max (sordF elapsed) 0) 4652007308841189376.
Proof.
  intros He. cbv zeta.
  destruct (clamp_sord elapsed 0%float 1000%float He eq_refl eq_refl)
    as [Nc Ec].
  destruct sordF_consts as (S0 & SK & _).
  rewrite S0, SK in Ec.
  set (c := clamp (T := float) elapsed 0%float 1000%float) in *.
  assert (nonnegF c) as Hc by (apply nonnegF_sord; split; [done|lia]).
  destruct (sweep_core_mono c c Hc Hc ltac:(lia)) as (Nz & _ & _).
  apply nonnegF_sord in Nz as [Nz Pz].
  rewrite !sweep_double_unfold. fold c. fold (sweep_core c).
  destruct (add_zero_l (sweep_core c) Nz) as [Na Ea].
  split; [done|].
  assert (PrimFloat.div
            (PrimFloat.mul (PrimFloat.mul (PrimFloat.opp Arith.Math_PI) 2%float) c)
            1000%float
          = PrimFloat.opp (sweep_core c)) as ->.
  { apply Prim2SF_inj. unfold sweep_core.
    rewrite opp_spec, !div_spec.
    rewrite (mul_spec (PrimFloat.mul (PrimFloat.opp Arith.Math_PI) 2%float) c).
    rewrite (mul_spec (PrimFloat.mul Arith.Math_PI 2%float) c).
    assert (Prim2SF (PrimFloat.mul (PrimFloat.opp Arith.Math_PI) 2%float)
            = SFopp (Prim2SF (PrimFloat.mul Arith.Math_PI 2%float))) as ->
      by (vm_compute; reflexivity).
    by rewrite SFmul_opp_l, SFdiv_opp_l. }
  assert (PrimFloat.is_nan (PrimFloat.opp (sweep_core c)) = false) as No.
  { apply not_nan. rewrite opp_spec. apply not_nan in Nz.
    by destruct (Prim2SF (sweep_core c)). }
  destruct (add_zero_l _ No) as [Nb Eb].
  split; [done|]. split; [done|]. split; [|done].
  rewrite Eb. unfold sordF. rewrite opp_spec. apply SFopp_sord.
Qed.


Lemma sweep_double_between (elapsed : float) :
  PrimFloat.is_nan elapsed = false ->
  0 <= sordF (sweep (T := float) elapsed true) <= sordF two_pi /\
  sordF (sweep (T := float) elapsed false)
  = - sordF (sweep (T := float) elapsed true) /\
  PrimFloat.is_nan (sweep (T := float) elapsed true) = false /\
  PrimFloat.is_nan (sweep (T := float) elapsed false) = false.
Proof.
  intros He.
  destruct (sweep_double_sord elapsed He) as (N1 & N2 & E1 & E2 & Nc & Ec).
  cbv zeta in *.
  set (c := clamp (T := float) elapsed 0%float 1000%float) in *.
  destruct sordF_consts as (S0 & SK & SP & SC & _).
  assert (nonnegF 1000%float) as NK by (vm_compute; reflexivity).
  destruct (sweep_core_mono c 1000%float Nc NK ltac:(lia)) as (Nz & _ & Hz).
  apply nonnegF_sord in Nz as [_ Pz].
  rewrite E1, E2. unfold two_pi. rewrite SP, <- SC. repeat split; try done.
Qed.



End Binary64Order.



(** The call of the ring evaluated at and beyond the ends of the dwell. *)
Lemma sweep_double_end_points :
  sweep (T := float) 0%float true = 0%float /\
  sweep (T := float) (-5)%float false = 0%float /\
  sweep (T := float) 1000%float true = PrimFloat.mul Arith.Math_PI 2%float /\
  sweep (T := float) 5000%float true = PrimFloat.mul Arith.Math_PI 2%float /\
  sweep (T := float) 1000%float false
    = PrimFloat.mul (PrimFloat.opp Arith.Math_PI) 2%float /\
  sweep (T := float) infinity false
    = PrimFloat.mul (PrimFloat.opp Arith.Math_PI) 2%float.
Proof. vm_compute. repeat split. Qed.


(** ** The VR entry button *)

Lemma vr_run_snoc (ls : list VRButton.Label) (l : VRButton.Label)
    (s s' : VRButton.State) :
  VRButton.run (ls ++ [l]) s = Some s' <->
  exists s1, VRButton.run ls s = Some s1 /\ VRButton.step l s1 = Some s'.
Proof.
  revert s. induction ls as [|l0 ls IH]; intros s; simpl.
  - destruct (VRButton.step l s) as [s1|] eqn:E; split.
    + intros [= <-]. eauto.
    + intros (s2 & [= <-] & Hs). congruence.
    + discriminate.
    + intros (s2 & [= <-] & Hs). congruence.
  - destruct (VRButton.step l0 s) as [s1|]; [apply IH|].
    split; [discriminate | intros (s2 & Hr & _); discriminate].
Qed.

Lemma vr_reachable_ind (P : VRButton.State -> Prop) :
  (forall p, P (VRButton.createButton p)) ->
  (forall l s s', vr_reachable s -> P s -> VRButton.step l s = Some s' -> P s') ->
  forall s, vr_reachable s -> P s.
Proof.
  intros Hinit Hstep s (p & ls & Hr). revert s Hr.
  induction ls as [|l ls IH] using rev_ind; intros s Hr.
  - injection Hr as <-. apply Hinit.
  - apply vr_run_snoc in Hr as (s1 & Hr & Hs).
    eapply Hstep; [exists p, ls; exact Hr | by apply IH | exact Hs].
Qed.

Lemma vr_ok_create (p : VRButton.Page) : vr_ok (VRButton.createButton p).
Proof.
  unfold VRButton.createButton, vr_ok, current.
  destruct (VRButton.xr_in_navigator p); simpl; repeat split; try done.
Qed.
Lemma vr_ok_frame (s s' : VRButton.State) :
  VRButton.probing s' = VRButton.probing s ->
  VRButton.closure s' = VRButton.closure s ->
  VRButton.message s' = VRButton.message s ->
  VRButton.button s' = VRButton.button s ->
  VRButton.awaiting s' = VRButton.awaiting s ->
  VRButton.known s' = VRButton.known s ->
  VRButton.listeners s' = VRButton.listeners s ->
  (VRButton.closure s = None -> VRButton.unanswered s' = 0%nat) ->
  vr_ok s -> vr_ok s'.
Proof.
  intros E1 E2 E3 E4 E5 E6 E7 Hun (Hp & Hc & Hak & Hal & Hcur & Hnone).
  unfold vr_ok, current. rewrite E1, E2, E3, E4, E5, E6, E7.
  repeat apply conj; try done.
  all: intros Hcl; destruct (Hnone Hcl); auto.
Qed.

Lemma vr_ok_supported (b : bool) (s s' : VRButton.State) :
  vr_ok s -> VRButton.step (VRButton.Supported b) s = Some s' -> vr_ok s'.
Proof.
  intros (Hp & Hc & Hak & Hal & Hcur & Hnone) Hs. simpl in Hs.
  destruct (VRButton.probing s) eqn:Hpr; [|done]. injection Hs as <-.
  destruct (Hp eq_refl) as [Hcl Hm].
  destruct (Hnone Hcl) as [Hun Haw].
  assert (vr_ok (VRButton.showEnterVR (VRButton.put_probing false s))) as H1.
  { unfold vr_ok, current. simpl. rewrite Haw, Hm.
    split; [done|]. split; [by intros c [= <-]|].
    split; [set_solver|]. split; [set_solver|]. split; [done|]. done. }
  assert (vr_ok (VRButton.showWebXRNotFound (VRButton.put_probing false s)))
    as H2.
  { unfold vr_ok, current. simpl. rewrite Hcl, Haw.
    split; [done|]. split; [done|].
    split; [set_solver|]. split; [set_solver|]. split; [done|]. done. }
  destruct b; simpl; [|exact H2].
  destruct (VRButton.xrSessionIsGranted _); [|exact H1].
  eapply vr_ok_frame; [..|exact H1]; try reflexivity. done.
Qed.

Lemma vr_ok_step (l : VRButton.Label) (s s' : VRButton.State) :
  vr_ok s -> VRButton.step l s = Some s' -> vr_ok s'.
Proof.
  intros Hok Hs. destruct l.
  - by eapply vr_ok_supported.
  - (* isSessionSupported rejects *)
    destruct Hok as (Hp & Hc & Hak & Hal & Hcur & Hnone). simpl in Hs.
    destruct (VRButton.probing s) eqn:Hpr; [|done]. injection Hs as <-.
    destruct (Hp eq_refl) as [Hcl Hm].
    destruct (Hnone Hcl) as [Hun Haw].
    unfold vr_ok, current. simpl. rewrite Hcl, Haw.
    split; [done|]. split; [done|].
    split; [set_solver|]. split; [set_solver|]. split; [done|]. done.
  - (* sessiongranted *)
    simpl in Hs. destruct (VRButton.message s); [done|]. injection Hs as <-.
    destruct (VRButton.granted_listener s); [|exact Hok].
    eapply vr_ok_frame; [..|exact Hok]; try reflexivity.
    intros Hcl. destruct Hok as (_ & _ & _ & _ & _ & Hnone).
    by destruct (Hnone Hcl).
  - (* click *)
    simpl in Hs. destruct (VRButton.message s) as [m|] eqn:Hmsg;
      injection Hs as <-.
    { unfold VRButton.follow_link.
      destruct (VRButton.href m); [|exact Hok].
      eapply vr_ok_frame; [..|exact Hok]; try reflexivity.
      intros Hcl. destruct Hok as (_ & _ & _ & _ & _ & Hnone).
      by destruct (Hnone Hcl). }
    unfold VRButton.click, VRButton.click_handler.
    destruct (VRButton.onclick (VRButton.button s)) as [[]|]; [|exact Hok].
    destruct (VRButton.closure s) as [[[session|]]|] eqn:Hcl; [| |exact Hok].
    + eapply vr_ok_frame; [..|exact Hok]; try reflexivity.
      intros Hcl'. congruence.
    + eapply vr_ok_frame; [..|exact Hok]; try reflexivity.
      intros Hcl'. congruence.
  - (* requestSession resolves *)
    destruct Hok as (Hp & Hc & Hak & Hal & Hcur & Hnone). simpl in Hs.
    destruct (VRButton.unanswered s) as [|n] eqn:Hun; [done|].
    destruct (bool_decide (session ∈ VRButton.known s)) eqn:Hk; [done|].
    apply bool_decide_eq_false in Hk. injection Hs as <-.
    assert (VRButton.closure s <> None) as Hcl.
    { intros Hcl. destruct (Hnone Hcl). congruence. }
    unfold vr_ok, current. simpl.
    split; [done|]. split; [done|].
    split; [set_solver|]. split; [set_solver|]. split; [|done].
    intros session' Hs'. destruct (Hcur _ Hs') as (? & ? & ?). set_solver.
  - (* requestSession rejects *)
    simpl in Hs.
    destruct (VRButton.unanswered s) as [|n] eqn:Hun; [done|].
    injection Hs as <-.
    eapply vr_ok_frame; [..|exact Hok]; try reflexivity.
    intros Hcl. destruct Hok as (_ & _ & _ & _ & _ & Hnone).
    destruct (Hnone Hcl). congruence.
  - (* setSession resolves *)
    destruct Hok as (Hp & Hc & Hak & Hal & Hcur & Hnone). simpl in Hs.
    destruct (bool_decide (session ∈ VRButton.awaiting s)) eqn:Hk; [|done].
    apply bool_decide_eq_true in Hk. injection Hs as <-.
    assert (exists c, VRButton.closure s = Some c) as [c Hcl].
    { destruct (VRButton.closure s) eqn:E; [eauto|].
      destruct (Hnone eq_refl) as [_ Ha]. set_solver. }
    destruct (Hc c Hcl) as (_ & Hon & Hm).
    unfold vr_ok, current. simpl.
    split; [intros Hpr; destruct (Hp Hpr); congruence|].
    split; [by intros c' [= <-]|].
    split; [set_solver|]. split; [set_solver|]. split; [|done].
    intros session' [= <-]. set_solver.
  - (* setSession rejects *)
    destruct Hok as (Hp & Hc & Hak & Hal & Hcur & Hnone). simpl in Hs.
    destruct (bool_decide (session ∈ VRButton.awaiting s)) eqn:Hk; [|done].
    apply bool_decide_eq_true in Hk. injection Hs as <-.
    unfold vr_ok, current. simpl.
    split; [done|]. split; [done|].
    split; [set_solver|]. split; [set_solver|]. split.
    + intros session' Hs'. destruct (Hcur _ Hs') as (? & ? & ?). set_solver.
    + intros Hcl. destruct (Hnone Hcl) as [? Ha]. set_solver.
  - (* 'end' on a session *)
    simpl in Hs.
    destruct (bool_decide (session ∈ VRButton.known s)); [|done].
    destruct (bool_decide (session ∈ VRButton.listeners s));
      [|by injection Hs as <-].
    unfold VRButton.onSessionEnded in Hs.
    destruct (VRButton.closure s) as [[[cur|]]|] eqn:Hcl;
      injection Hs as <-; try exact Hok.
    destruct Hok as (Hp & Hc & Hak & Hal & Hcur & Hnone).
    destruct (Hc _ Hcl) as (_ & Hon & Hm).
    destruct (Hcur cur) as (Hck & Hcl' & Hca);
      [unfold current; by rewrite Hcl|].
    unfold vr_ok, current. simpl.
    split; [intros Hpr; destruct (Hp Hpr); congruence|].
    split; [by intros c' [= <-]|].
    split; [set_solver|]. split; [set_solver|]. split; [done|]. done.
Qed.

Lemma vr_reachable_ok (s : VRButton.State) : vr_reachable s -> vr_ok s.
Proof.
  apply vr_reachable_ind.
  - apply vr_ok_create.
  - intros l s1 s2 _ Hok Hs. by eapply vr_ok_step.
Qed.

(** C2: for the button of a page where isSessionSupported('immersive-vr')
    resolved true: in every reachable state currentSession is null exactly
    when the button text is 'View in 3D VR'; showEnterVR starts in that
    state with the button shown; a click with currentSession null requests
    an immersive-vr session, and once that session has started the text is
    'Exit VR' and currentSession is the session; a click with a session
    current calls end() on it, and the 'end' event of the session puts the
    text back to 'View in 3D VR' and currentSession back to null. *)
Theorem enter_vr_button_toggles :
  (forall (s : VRButton.State) (c : VRButton.Closure),
     vr_reachable s -> VRButton.closure s = Some c ->
     (VRButton.currentSession c = None <->
      VRButton.textContent (VRButton.button s) = "View in 3D VR")) /\
  (forall (p : VRButton.Page),
     VRButton.xr_in_navigator p = true -> VRButton.granted p = false ->
     exists s, VRButton.step (VRButton.Supported true) (VRButton.createButton p)
               = Some s /\
               VRButton.returned s = VRButton.button s /\
               VRButton.closure s = Some {| VRButton.currentSession := None |} /\
               VRButton.textContent (VRButton.button s) = "View in 3D VR" /\
               VRButton.style (VRButton.button s) !! "display"
                 = Some EmptyString /\
               VRButton.onclick (VRButton.button s)
                 = Some VRButton.EnterOrExit) /\
  (forall (s : VRButton.State),
     vr_reachable s ->
     VRButton.closure s = Some {| VRButton.currentSession := None |} ->
     exists s', VRButton.step VRButton.Click s = Some s' /\
                VRButton.requests s'
                  = VRButton.requests s
                    ++ [{| VRButton.mode := "immersive-vr";
                           VRButton.optionalFeatures := VRButton.sessionInit |}] /\
                VRButton.ended s' = VRButton.ended s /\
                VRButton.closure s' = VRButton.closure s /\
                VRButton.button s' = VRButton.button s) /\
  (forall (s s1 : VRButton.State) (session : positive),
     vr_reachable s ->
     VRButton.step (VRButton.SessionStarted session) s = Some s1 ->
     exists s2, VRButton.step (VRButton.SetSessionDone session) s1 = Some s2 /\
                VRButton.textContent (VRButton.button s2) = "Exit VR" /\
                VRButton.closure s2
                  = Some {| VRButton.currentSession := Some session |}) /\
  (forall (s : VRButton.State) (session : positive),
     vr_reachable s ->
     VRButton.closure s = Some {| VRButton.currentSession := Some session |} ->
     (exists s', VRButton.step VRButton.Click s = Some s' /\
                 VRButton.ended s' = VRButton.ended s ++ [session] /\
                 VRButton.requests s' = VRButton.requests s /\
                 VRButton.closure s' = VRButton.closure s /\
                 VRButton.button s' = VRButton.button s) /\
     (exists s', VRButton.step (VRButton.SessionEnd session) s = Some s' /\
                 VRButton.textContent (VRButton.button s') = "View in 3D VR" /\
                 VRButton.closure s'
                   = Some {| VRButton.currentSession := None |})).
Proof.
  split; [|split; [|split; [|split]]].
  - intros s c Hreach Hcl.
    destruct (vr_reachable_ok s Hreach) as (_ & Hc & _).
    by destruct (Hc c Hcl).
  - intros p Hxr Hg. unfold VRButton.createButton. rewrite Hxr. simpl.
    rewrite Hg. simpl. eexists. split; [reflexivity|]. by repeat split.
  - intros s Hreach Hcl.
    destruct (vr_reachable_ok s Hreach) as (_ & Hc & _).
    destruct (Hc _ Hcl) as (_ & Hon & Hm).
    simpl. rewrite Hm. unfold VRButton.click, VRButton.click_handler.
    rewrite Hon, Hcl. simpl. eexists. split; [reflexivity|]. simpl.
    by rewrite Hcl.
  - intros s s1 session Hreach Hs. simpl in Hs.
    destruct (VRButton.unanswered s) as [|n]; [done|].
    destruct (bool_decide (session ∈ VRButton.known s)); [done|].
    injection Hs as <-. simpl.
    rewrite bool_decide_eq_true_2 by set_solver.
    eexists. split; [reflexivity|]. by split.
  - intros s session Hreach Hcl.
    destruct (vr_reachable_ok s Hreach) as (_ & Hc & _ & _ & Hcur & _).
    destruct (Hc _ Hcl) as (_ & Hon & Hm).
    destruct (Hcur session) as (Hk & Hl & _); [unfold current; by rewrite Hcl|].
    split.
    + simpl. rewrite Hm. unfold VRButton.click, VRButton.click_handler.
      rewrite Hon, Hcl. simpl. eexists. split; [reflexivity|]. simpl.
      by rewrite Hcl.
    + simpl. rewrite !bool_decide_eq_true_2 by done.
      unfold VRButton.onSessionEnded. rewrite Hcl.
      eexists. split; [reflexivity|]. by split.
Qed.

Lemma enter_vr_button_toggles_witness :
  (vr_reachable s_presenting /\
   VRButton.closure s_presenting
     = Some {| VRButton.currentSession := Some 1%positive |} /\
   vr_reachable s_offered /\
   VRButton.closure s_offered = Some {| VRButton.currentSession := None |} /\
   vr_reachable s_requested /\
   VRButton.step (VRButton.SessionStarted 1%positive) s_requested
     = Some s_starting) /\
  (Some 1%positive = None <->
   VRButton.textContent (VRButton.button s_presenting) = "View in 3D VR") /\
  (exists s', VRButton.step VRButton.Click s_offered = Some s' /\
              VRButton.requests s'
                = VRButton.requests s_offered
                  ++ [{| VRButton.mode := "immersive-vr";
                         VRButton.optionalFeatures := VRButton.sessionInit |}] /\
              VRButton.ended s' = VRButton.ended s_offered /\
              VRButton.closure s' = VRButton.closure s_offered /\
              VRButton.button s' = VRButton.button s_offered) /\
  (exists s2, VRButton.step (VRButton.SetSessionDone 1%positive) s_starting
              = Some s2 /\
              VRButton.textContent (VRButton.button s2) = "Exit VR" /\
              VRButton.closure s2
                = Some {| VRButton.currentSession := Some 1%positive |}) /\
  (exists s', VRButton.step (VRButton.SessionEnd 1%positive) s_presenting
              = Some s' /\
              VRButton.textContent (VRButton.button s') = "View in 3D VR" /\
              VRButton.closure s'
                = Some {| VRButton.currentSession := None |}).
Proof.
  assert (vr_reachable s_offered) as R1
    by (exists page_with_xr, [VRButton.Supported true];
        vm_compute; reflexivity).
  assert (vr_reachable s_requested) as R2
    by (exists page_with_xr, [VRButton.Supported true; VRButton.Click];
        vm_compute; reflexivity).
  assert (vr_reachable s_presenting) as R4
    by (exists page_with_xr,
          [VRButton.Supported true; VRButton.Click;
           VRButton.SessionStarted 1%positive;
           VRButton.SetSessionDone 1%positive];
        vm_compute; reflexivity).
  assert (VRButton.step (VRButton.SessionStarted 1%positive) s_requested
          = Some s_starting) as S3 by (vm_compute; reflexivity).
  destruct enter_vr_button_toggles as (T1 & _ & T3 & T4 & T5).
  split; [exact (conj R4 (conj eq_refl (conj R1 (conj eq_refl (conj R2 S3)))))|].
  split; [exact (T1 s_presenting _ R4 eq_refl)|].
  split; [exact (T3 s_offered R1 eq_refl)|].
  split; [exact (T4 s_requested s_starting 1%positive R2 S3)|].
  exact (proj2 (T5 s_presenting 1%positive R4 eq_refl)).
Defined.

(** ** Without WebXR or without session support *)





(** * Further properties of the element and of the button *)

(** ** The mounted element and its loop *)

Lemma parse_el (w : World) :
  animating (snd (parse w)) = animating w /\
  (el (snd (parse w)) = el w \/
   exists sd, el (snd (parse w)) = with_stereoData (Some sd) (el w)).
Proof. unfold_ops. split_cases; eauto. Qed.

Lemma reparse_el (b : bool) (w : World) :
  let w' := parseImageAndInitialize3DScene b w in
  animating w' = animating w /\
  (el w' = with_opacity (Some "0") (el w) \/
   exists sd, el w' = with_stereoData (Some sd) (with_opacity (Some "0") (el w))).
Proof.
  cbv zeta. unfold parseImageAndInitialize3DScene.
  pose proof (parse_el (on_el (with_opacity (Some "0")) w)) as H.
  destruct (parse (on_el (with_opacity (Some "0")) w)) as [st w1].
  simpl in *. exact H.
Qed.

Lemma step_loop_fields (l : Label) (w w' : World) :
  step l w = Some w' -> is_frame l = false -> is_resume l = false ->
  loop_fields (el w') = loop_fields (el w) /\ animating w' = animating w /\
  (camera (el w') = camera (el w) \/
   exists c, camera (el w) = Some c /\
             camera (el w')
               = Some {| Three.cam_position := home;
                         Three.cam_layers := Three.cam_layers c |}) /\
  (prevNextTimer (el w') = prevNextTimer (el w) \/
   prevNextTimer (el w') = None).
Proof.
  intros Hs Hf Hr. destruct l; try discriminate; simpl in Hs.
  - injection Hs as <-. unfold set_type, setAttribute, removeAttribute. unfold_ops. split_cases; auto 10.
  - injection Hs as <-. unfold set_angle, setAttribute, removeAttribute. unfold_ops. split_cases; auto 10.
  - injection Hs as <-. unfold set_src, camera_home, setAttribute, removeAttribute. unfold_ops.
    destruct (Js.strict_equal _ _); [destruct (camera (el w)) eqn:E|destruct (Js.truthy val)]; simpl; rewrite ?E; eauto 10.
  - injection Hs as <-. unfold set_backImageSrc, setAttribute, removeAttribute. unfold_ops. split_cases; auto 10.
  - destruct (page_attribute n); [|done]. injection Hs as <-. simpl. auto 10.
  - destruct (page_attribute n); [|done]. injection Hs as <-. simpl. auto 10.
  - destruct (0 <=? d)%Z; [|done]. injection Hs as <-. simpl. auto 10.
  - destruct (timers w !! h) as [tm|]; [|done].
    destruct (due tm <=? clock w)%Z; [|done]. injection Hs as <-.
    destruct (callback tm).
    + unfold_ops. split_cases; auto 10.
    + unfold_ops. split_cases; auto 10.
    + simpl.
      destruct (reparse_el false (with_timers (delete h (timers w)) w))
        as (-> & [-> | (sd & ->)]); simpl; auto 10.
  - destruct (tasks w !! i) as [t|]; [|done].
    destruct (stage t); try done. injection Hs as <-.
    unfold_ops. split_cases; auto 10.
  - destruct (tasks w !! i) as [t|]; [|done].
    destruct (stage t); try done. injection Hs as <-. simpl. auto 10.
  - destruct (tasks w !! i) as [t|]; [|done].
    destruct (stage t); try done; injection Hs as <-; simpl; auto 10.
Qed.

Lemma prevNextLoop_recorded (now : float) (hits : list Three.Hit) (w : World) :
  dwell_recorded (el w) -> dwell_recorded (el (prevNextLoop now hits w)).
Proof.
  revert w. induction hits as [|hit hits IH]; intros w Hw; simpl; [done|].
  destruct (Three.object hit) as [[n|]|]; [|done..].
  destruct (String.eqb n "prev"); [|destruct (String.eqb n "next")].
  - apply IH. unfold dwell_recorded, start_dwell in *. simpl.
    destruct (prevNextTimer (el w)) eqn:E; simpl.
    + rewrite E. intros H. destruct (Hw H). eauto.
    + eauto.
  - apply IH. unfold dwell_recorded, start_dwell in *. simpl.
    destruct (prevNextTimer (el w)) eqn:E; simpl.
    + rewrite E. intros H. destruct (Hw H). eauto.
    + eauto.
  - by apply IH.
Qed.

Lemma prevNextTest_recorded dir hits now (w : World) :
  dwell_recorded (el w) -> dwell_recorded (el (prevNextTest dir hits now w)).
Proof.
  intros Hw. unfold prevNextTest.
  destruct (camera (el w)) as [cam|]; [|done].
  destruct (ready (el w)); simpl; [|done].
  set (w1 := on_el (with_raycaster _) w).
  assert (dwell_recorded (el w1)) as H1 by exact Hw.
  destruct hits as [|hit hits].
  - simpl. destruct (prevNextTimer (el w)) eqn:E.
    + intros [x Hx]. simpl in Hx. done.
    + exact H1.
  - exact (prevNextLoop_recorded now (hit :: hits) w1 H1).
Qed.

(** The fields of the element [prevNextTest] leaves alone. *)
Lemma prevNextTest_fields dir hits now (w : World) :
  let w' := prevNextTest dir hits now w in
  animating w' = animating w /\ camera (el w') = camera (el w) /\
  prevNextButtons (el w') = prevNextButtons (el w) /\
  renderer (el w') = renderer (el w) /\ controls (el w') = controls (el w) /\
  scene (el w') = scene (el w) /\ timerRing (el w') = timerRing (el w) /\
  (is_Some (raycaster (el w)) -> is_Some (raycaster (el w'))).
Proof.
  cbv zeta. unfold prevNextTest.
  destruct (camera (el w)) as [cam|] eqn:Hc; [|done].
  destruct (ready (el w)); simpl; [|done].
  set (w1 := on_el (with_raycaster _) w).
  assert (forall hs w2, renderer (el (prevNextLoop now hs w2)) = renderer (el w2) /\
                        controls (el (prevNextLoop now hs w2)) = controls (el w2)) as Hrc.
  { induction hs as [|hit' hs IH]; intros w2; simpl; [done|].
    destruct (Three.object hit') as [[n|]|]; [|done..].
    destruct (String.eqb n "prev"); [|destruct (String.eqb n "next")].
    - destruct (IH (start_dwell GoToPrev now (on_el (with_timerRingForPrev (Some true)) w2))) as [-> ->].
      unfold start_dwell. simpl. by destruct (prevNextTimer (el w2)).
    - destruct (IH (start_dwell GoToNext now (on_el (with_timerRingForPrev (Some false)) w2))) as [-> ->].
      unfold start_dwell. simpl. by destruct (prevNextTimer (el w2)).
    - apply IH. }
  destruct hits as [|hit hits].
  - simpl. destruct (prevNextTimer (el w)) eqn:E; simpl; rewrite ?Hc;
      repeat apply conj; eauto.
  - cbv beta match.
    destruct (prevNextLoop_frame now (hit :: hits) w1)
      as (_ & _ & _ & _ & -> & _ & _ & _ & _ & _ & -> & -> & -> & -> & ->).
    destruct (Hrc (hit :: hits) w1) as [-> ->].
    simpl. rewrite Hc. repeat apply conj; eauto.
Qed.

Lemma updatePrevNextRing_fields now (w : World) :
  let w' := updatePrevNextRing now w in
  animating w' = animating w /\ camera (el w') = camera (el w) /\
  prevNextButtons (el w') = prevNextButtons (el w) /\
  renderer (el w') = renderer (el w) /\ controls (el w') = controls (el w) /\
  raycaster (el w') = raycaster (el w) /\
  prevNextTimer (el w') = prevNextTimer (el w) /\
  prevNextTimerStartMS (el w') = prevNextTimerStartMS (el w) /\
  timerRingForPrev (el w') = timerRingForPrev (el w) /\
  dispatched w' = dispatched w.
Proof. cbv zeta. unfold_ops. split_cases. Qed.

Lemma controls_update_fields pose (e : Element) :
  let e' := controls_update pose e in
  prevNextButtons e' = prevNextButtons e /\
  renderer e' = renderer e /\ controls e' = controls e /\
  raycaster e' = raycaster e /\ scene e' = scene e /\
  timerRing e' = timerRing e /\
  prevNextTimer e' = prevNextTimer e /\
  prevNextTimerStartMS e' = prevNextTimerStartMS e /\
  timerRingForPrev e' = timerRingForPrev e /\
  (forall c, camera e = Some c ->
     exists c', camera e' = Some c' /\ Three.cam_layers c' = Three.cam_layers c) /\
  (camera e = None -> camera e' = None).
Proof.
  cbv zeta. unfold controls_update.
  destruct (controls e) eqn:Hct, (camera e) as [c0|] eqn:Hc; simpl;
    rewrite ?Hct, ?Hc;
    repeat apply conj; try done; try (intros c' [= <-]; eauto).
Qed.

Lemma construct_mounted (attrs : gmap string string) :
  mounted_ok (construct attrs).
Proof.
  pose proof (construct_window attrs) as (_ & _ & Hd & _ & Hp).
  unfold mounted_ok, dwell_recorded. rewrite Hd, Hp.
  unfold construct in *.
  match goal with
  | |- context [parseImageAndInitialize3DScene true ?w0] =>
      destruct (reparse_el true w0) as (Ha & [He | (sd & He)]);
      rewrite Ha, He
  end; simpl; (split; [done|]); (split; [done|]); by intros [x Hx].
Qed.

Lemma initialize3DScene_fields (e : Element) :
  let e' := match initialize3DScene e with Returned e' | Threw e' => e' end in
  is_Some (scene e') /\ camera e' = camera e /\ raycaster e' = raycaster e /\
  prevNextButtons e' = prevNextButtons e /\ renderer e' = renderer e /\
  controls e' = controls e /\ timerRing e' = timerRing e /\
  prevNextTimer e' = prevNextTimer e /\
  prevNextTimerStartMS e' = prevNextTimerStartMS e /\
  timerRingForPrev e' = timerRingForPrev e.
Proof.
  cbv zeta. unfold initialize3DScene.
  destruct (stereoData e); simpl; repeat apply conj; eauto.
Qed.

Lemma finish_scene_fields' (e : Element) :
  let e' := finish_scene e in
  raycaster e' = raycaster e /\ renderer e' = renderer e /\
  controls e' = controls e /\ timerRing e' = timerRing e /\
  prevNextTimer e' = prevNextTimer e /\
  prevNextTimerStartMS e' = prevNextTimerStartMS e /\
  timerRingForPrev e' = timerRingForPrev e /\
  match camera e with
  | Some c =>
      camera e' = Some {| Three.cam_position := home;
                          Three.cam_layers := Three.cam_layers c |} /\
      prevNextButtons e' = Some navigation_buttons
  | None => camera e' = None /\ prevNextButtons e' = prevNextButtons e
  end.
Proof.
  cbv zeta. unfold finish_scene, camera_home.
  destruct (camera e) as [c|] eqn:Hc; simpl; rewrite ?Hc; simpl;
    repeat apply conj; try done.
Qed.

Lemma init_rest_fields (w : World) :
  let w' := init_rest w in
  animating w' = true /\ is_Some (raycaster (el w')) /\
  prevNextButtons (el w') = Some navigation_buttons /\
  renderer (el w') = true /\ controls (el w') = true /\
  (exists c, camera (el w') = Some c /\ Three.cam_layers c = 3%Z) /\
  timerRing (el w') = timerRing (el w) /\
  prevNextTimer (el w') = prevNextTimer (el w) /\
  prevNextTimerStartMS (el w') = prevNextTimerStartMS (el w) /\
  timerRingForPrev (el w') = timerRingForPrev (el w) /\
  dispatched w' = dispatched w.
Proof.
  cbv zeta. unfold init_rest, camera_home. simpl.
  repeat apply conj; eauto.
Qed.

Lemma mounted_ok_step (l : Label) (w w' : World) :
  reachable w -> mounted_ok w -> step l w = Some w' -> mounted_ok w'.
Proof.
  intros Hreach (Hon & Hoff & Hrec) Hs.
  destruct (is_frame l) eqn:Hf; [|destruct (is_resume l) eqn:Hr].
  - destruct l; try discriminate. simpl in Hs.
    destruct (animating w) eqn:Ha; [|done]. injection Hs as <-.
    destruct (Hon eq_refl) as (Hray & Hb & Hren & Hct & c & Hc & Hl).
    unfold animation_frame.
    set (w1 := on_el (controls_update pose) w).
    destruct (controls_update_fields pose (el w))
      as (Eb & Eren & Ect & Eray & _ & _ & Ep & Es & Ef & Ecam & _).
    destruct (Ecam c Hc) as (c1 & Hc1 & Hl1).
    set (w2 := prevNextTest direction intersects now_test w1).
    destruct (prevNextTest_fields direction intersects now_test w1)
      as (Ea2 & Ec2 & Eb2 & Eren2 & Ect2 & _ & _ & Eray2).
    fold w2 in Ea2, Ec2, Eb2, Eren2, Ect2, Eray2.
    assert (dwell_recorded (el w2)) as Hrec2.
    { apply prevNextTest_recorded. unfold dwell_recorded, w1. simpl.
      by rewrite Ep, Es, Ef. }
    destruct (updatePrevNextRing_fields now_ring w2)
      as (Ea3 & Ec3 & Eb3 & Eren3 & Ect3 & Eray3 & Ep3 & Es3 & Ef3 & _).
    split; [|split].
    + intros _. rewrite Eray3, Eb3, Eren3, Ect3, Ec3, Eb2, Eren2, Ect2, Ec2.
      simpl. rewrite Eb, Eren, Ect. repeat apply conj; try done.
      * apply Eray2. simpl. by rewrite Eray.
      * exists c1. split; [done | congruence].
    + rewrite Ea3, Ea2. simpl. congruence.
    + unfold dwell_recorded. by rewrite Ep3, Es3, Ef3.
  - destruct l; try discriminate. simpl in Hs.
    destruct (tasks w !! i) as [t|]; [|done].
    destruct (stage t); try done.
    + pose proof (initialize3DScene_fields (el w)) as Hi. cbv zeta in Hi.
      assert (exists e', (initialize3DScene (el w) = Returned e' \/
                          initialize3DScene (el w) = Threw e') /\
                         animating w' = animating w /\ el w' = e' /\
                         dispatched w' = dispatched w) as (e' & He & Ha & Hel & Hd).
      { destruct (initialize3DScene (el w)) as [e'|e'];
          injection Hs as <-; exists e'; eauto. }
      assert (match initialize3DScene (el w) with
              | Returned e'0 | Threw e'0 => e'0 end = el w') as E
        by (destruct He as [-> | ->]; done).
      rewrite E in Hi.
      destruct Hi as (_ & Ec & Eray & Eb & Eren & Ect & Ering & Ep & Es & Ef).
      unfold mounted_ok, dwell_recorded.
      rewrite Ha, Hd, Ec, Eray, Eb, Eren, Ect, Ering, Ep, Es, Ef. done.
    + injection Hs as <-.
      destruct (finish_scene_fields' (el w))
        as (Eray & Eren & Ect & Ering & Ep & Es & Ef & Hcam).
      set (w1 := drop_task i (on_el finish_scene w)).
      assert (mounted_ok w1) as H1.
      { unfold mounted_ok, dwell_recorded, w1, drop_task, on_el.
        cbn [el animating dispatched with_tasks with_el].
        rewrite Eray, Eren, Ect, Ering, Ep, Es, Ef.
        split; [|split; [|done]].
        - intros Ha. destruct (Hon Ha) as (? & ? & ? & ? & c & Hc & Hl).
          rewrite Hc in Hcam. destruct Hcam as [-> ->].
          repeat apply conj; eauto.
        - intros Ha. destruct (Hoff Ha) as (Hc & ? & ? & ? & ? & ? & ? & ?).
          rewrite Hc in Hcam. destruct Hcam as [-> ->]. done. }
      destruct (from_init t); [|exact H1].
      destruct (init_rest_fields w1)
        as (Ha & ? & ? & ? & ? & ? & ? & Ep' & Es' & Ef' & ?).
      destruct H1 as (_ & _ & Hrec1).
      unfold mounted_ok, dwell_recorded. rewrite Ha, Ep', Es', Ef'.
      split; [done|]. split; [done|]. exact Hrec1.
  - destruct (step_loop_fields l w w' Hs Hf Hr) as (Hlf & Ha & Hcam & Hp).
    unfold loop_fields in Hlf.
    injection Hlf as Esc Eray Eb Ering Es Ef Eren Ect.
    unfold mounted_ok, dwell_recorded.
    rewrite Ha, Eray, Eb, Ering, Es, Ef, Eren, Ect.
    split; [|split].
    + intros Hat. destruct (Hon Hat) as (? & ? & ? & ? & c & Hc & Hl).
      repeat apply conj; try done.
      destruct Hcam as [-> | (c0 & Hc0 & ->)]; [eauto|].
      eexists. split; [done|]. simpl. congruence.
    + intros Hat. destruct (Hoff Hat) as (Hc & ? & ? & ? & ? & ? & Hpn & Hd).
      repeat apply conj; try done.
      * destruct Hcam as [-> | (c0 & Hc0 & _)]; [done | congruence].
      * destruct Hp as [-> | ->]; done.
      * destruct (reachable_window_ok w Hreach) as (_ & _ & Hthird).
        destruct (step_window l w w' Hs) as
          [ (_ & _ & Ed & _)
          | d _ _ _ _ Ed _ _
          | _ _ Ed _ _
          | h' ? ? ? ? _ (_ & _ & _ & _ & Ed & _)
          | b ? ? ? ? ? _ _ (_ & _ & _ & _ & Ed & _)
          | h' tm b El Hh Hdue Hcb _ _ _ Ed _
          | h' tm _ _ _ _ _ _ Ed _ _ ]; try congruence.
        specialize (Hthird _ _ _ Hh Hcb). congruence.
    + intros Hsome. destruct Hp as [E | E]; rewrite E in Hsome.
      * by apply Hrec.
      * by destruct Hsome.
Qed.

Lemma reachable_mounted_ok (w : World) : reachable w -> mounted_ok w.
Proof.
  apply reachable_ind'.
  - apply construct_mounted.
  - intros l w1 w2 Hr Hok Hs. by eapply mounted_ok_step.
Qed.

Lemma timer_rings_add (o : Three.Object3D) (s : Three.Scene) :
  timer_rings (Three.scene_add o s)
  = timer_rings s ++ match o with Three.ORing id _ => [id] | _ => [] end.
Proof.
  unfold timer_rings, Three.scene_add. simpl. rewrite omap_app.
  by destruct o.
Qed.

Lemma scenery_add (o : Three.Object3D) (s : Three.Scene) :
  scenery (Three.scene_add o s)
  = scenery s ++ match o with Three.ORing _ _ => [] | _ => [o] end.
Proof.
  unfold scenery, Three.scene_add. simpl. rewrite List.filter_app.
  by destruct o.
Qed.

Lemma rings_removed (id : positive) (os : list Three.Object3D) :
  let ring_id o := match o with Three.ORing i _ => Some i | _ => None end in
  let plain o := match o with Three.ORing _ _ => false | _ => true end in
  (forall i, i ∈ omap ring_id os -> i = id) ->
  omap ring_id (List.filter (fun o => negb (Three.is_ring id o)) os) = [] /\
  List.filter plain (List.filter (fun o => negb (Three.is_ring id o)) os)
    = List.filter plain os /\
  List.filter (fun o => negb (Three.is_ring id o)) os = List.filter plain os.
Proof.
  cbv zeta. induction os as [|o os IH]; intros H; [done|].
  destruct o as [m|g|i r].
  - cbn in *. destruct (IH H) as (E1 & E2 & E3). by rewrite E1, E2, E3.
  - cbn in *. destruct (IH H) as (E1 & E2 & E3). by rewrite E1, E2, E3.
  - assert (i = id) as -> by (apply H; cbn; left).
    cbn. rewrite Pos.eqb_refl. cbn. apply IH.
    intros j Hj. apply H. cbn. by right.
Qed.

Lemma timer_rings_remove (id : positive) (s : Three.Scene) :
  (forall i, i ∈ timer_rings s -> i = id) ->
  timer_rings (Three.scene_remove_ring id s) = [] /\
  scenery (Three.scene_remove_ring id s) = scenery s /\
  Three.children (Three.scene_remove_ring id s) = scenery s.
Proof. intros H. exact (rings_removed id (Three.children s) H). Qed.

Lemma timer_rings_none (s : Three.Scene) :
  timer_rings s = [] -> Three.children s = scenery s.
Proof.
  unfold timer_rings, scenery.
  induction (Three.children s) as [|o os IH]; simpl; [done|].
  destruct o as [m|g|i r]; simpl; [| |done]; intros H; by rewrite <- IH.
Qed.

(** What [updatePrevNextRing] makes of a scene that holds no ring but the
    one [this.timerRing] names. *)
Lemma updatePrevNextRing_rings (now : float) (w : World) (sc : Three.Scene) :
  scene (el w) = Some sc ->
  (timer_rings sc = [] \/
   exists id, timer_rings sc = [id] /\ timerRing (el w) = Some id) ->
  let w' := updatePrevNextRing now w in
  exists sc', scene (el w') = Some sc' /\ scenery sc' = scenery sc /\
    Three.background sc' = Three.background sc /\
    match prevNextTimer (el w) with
    | Some _ =>
        timerRing (el w') = Some (next_obj w) /\
        timer_rings sc' = [next_obj w] /\
        Three.children sc'
          = scenery sc
            ++ [Three.ORing (next_obj w)
                  (new_timerRing now (el w) (camera_position (el w)))]
    | None =>
        timerRing (el w') = None /\ timer_rings sc' = [] /\
        Three.children sc' = scenery sc
    end.
Proof.
  intros Hsc Hok. cbv zeta. unfold updatePrevNextRing.
  set (w1 := match timerRing (el w) with Some _ => _ | None => w end).
  assert (exists sc1, scene (el w1) = Some sc1 /\ timer_rings sc1 = [] /\
            scenery sc1 = scenery sc /\ Three.children sc1 = scenery sc /\
            Three.background sc1 = Three.background sc /\
            timerRing (el w1) = None /\
            prevNextTimer (el w1) = prevNextTimer (el w) /\
            next_obj w1 = next_obj w /\
            new_timerRing now (el w1) (camera_position (el w1))
              = new_timerRing now (el w) (camera_position (el w)))
    as (sc1 & Hsc1 & Hr1 & Hs1 & Hch1 & Hbg1 & Ht1 & Hp1 & Hn1 & Hnew).
  { subst w1. destruct (timerRing (el w)) as [id|] eqn:Hid.
    - exists (Three.scene_remove_ring id sc). simpl. rewrite Hsc. simpl.
      destruct (timer_rings_remove id sc) as (? & ? & ?).
      { destruct Hok as [-> | (id' & -> & [= ->])].
        - by intros i ?%elem_of_nil.
        - by intros i ->%list_elem_of_singleton. }
      repeat apply conj; try done.
    - exists sc. destruct Hok as [Hnil | (id' & _ & ?)]; [|done].
      repeat apply conj; try done. by apply timer_rings_none. }
  rewrite Hp1.
  destruct (prevNextTimer (el w)) as [h|] eqn:Hp.
  - simpl. rewrite Hsc1, Hn1, Hnew. simpl.
    eexists. split; [reflexivity|].
    rewrite scenery_add, timer_rings_add, Hs1, Hr1, app_nil_r.
    repeat apply conj; try done.
    simpl. by rewrite Hch1.
  - exists sc1. by repeat apply conj.
Qed.

Lemma construct_scene (attrs : gmap string string) :
  scene (el (construct attrs)) = None /\
  timerRing (el (construct attrs)) = None.
Proof.
  unfold construct.
  match goal with
  | |- context [parseImageAndInitialize3DScene true ?w0] =>
      destruct (reparse_el true w0) as (_ & [-> | (sd & ->)])
  end; done.
Qed.

Lemma initialize3DScene_rings (e e' : Element) (sc : Three.Scene) :
  initialize3DScene e = Returned e' \/ initialize3DScene e = Threw e' ->
  scene e' = Some sc -> timer_rings sc = [] /\ timerRing e' = timerRing e.
Proof.
  unfold initialize3DScene.
  destruct (stereoData e) as [sd|]; intros [[= <-]|[= <-]];
    cbn [scene with_scene timerRing]; intros [= <-]; (split; [|done]).
  - destruct (attr_is (get_angle e) "180"); [|by rewrite !timer_rings_add].
    destruct (get_backImageSrc e) as [back|]; [|by rewrite !timer_rings_add].
    destruct (negb _); by rewrite !timer_rings_add.
  - done.
Qed.

Lemma addPrevNextButtons_rings (e : Element) (sc' : Three.Scene) :
  scene (addPrevNextButtons e) = Some sc' ->
  timerRing (addPrevNextButtons e) = timerRing e /\
  exists sc, scene e = Some sc /\ timer_rings sc' = timer_rings sc /\
             scenery sc'
             = scenery sc ++ [Three.OGroup (createPrevOrNextButton true);
                              Three.OGroup (createPrevOrNextButton false)].
Proof.
  unfold addPrevNextButtons. simpl.
  destruct (scene e) as [sc|]; simpl; [|done]. intros [= <-].
  split; [done|]. exists sc. split; [done|].
  rewrite !timer_rings_add, !scenery_add, !app_nil_r, <- app_assoc. done.
Qed.

Lemma ring_ok_buttons (w : World) :
  ring_ok w -> ring_ok (on_el addPrevNextButtons w).
Proof.
  intros Hok sc' Hsc'. unfold on_el in *. cbn [el with_el] in *.
  destruct (addPrevNextButtons_rings (el w) sc' Hsc')
    as (Et & sc & Hsc & -> & _).
  rewrite Et. by apply Hok.
Qed.

Lemma ring_ok_same (w w' : World) :
  scene (el w') = scene (el w) -> timerRing (el w') = timerRing (el w) ->
  ring_ok w -> ring_ok w'.
Proof. unfold ring_ok. intros -> ->. done. Qed.

Lemma ring_ok_finish (w : World) : ring_ok w -> ring_ok (on_el finish_scene w).
Proof.
  intros Hok. unfold on_el, finish_scene. cbv zeta.
  set (e1 := camera_home (el w)).
  assert (ring_ok (with_el e1 w)) as H1.
  { eapply ring_ok_same; [| |exact Hok]; subst e1; unfold camera_home; simpl;
      by destruct (camera (el w)). }
  destruct (camera e1).
  - pose proof (ring_ok_buttons _ H1) as H2.
    eapply ring_ok_same; [| |exact H2]; done.
  - eapply ring_ok_same; [| |exact H1]; done.
Qed.

Lemma ring_ok_init_rest (w : World) : ring_ok w -> ring_ok (init_rest w).
Proof.
  intros Hok sc' Hsc'.
  unfold init_rest, on_el, camera_home, addPrevNextButtons in *.
  cbn -[Three.scene_add] in *.
  destruct (scene (el w)) as [sc|] eqn:Hsc; [|done].
  cbn -[Three.scene_add] in Hsc'. injection Hsc' as <-.
  rewrite !timer_rings_add, !app_nil_r. by apply Hok.
Qed.

Lemma ring_ok_step (l : Label) (w w' : World) :
  ring_ok w -> step l w = Some w' -> ring_ok w'.
Proof.
  intros Hok Hs.
  destruct (is_frame l) eqn:Hf; [|destruct (is_resume l) eqn:Hr].
  - destruct l; try discriminate. simpl in Hs.
    destruct (animating w); [|done]. injection Hs as <-.
    unfold animation_frame.
    set (w1 := on_el (controls_update pose) w).
    destruct (controls_update_fields pose (el w))
      as (_ & _ & _ & _ & Es1 & Et1 & _).
    set (w2 := prevNextTest direction intersects now_test w1).
    destruct (prevNextTest_fields direction intersects now_test w1)
      as (_ & _ & _ & _ & _ & Es2 & Et2 & _).
    fold w2 in Es2, Et2.
    assert (ring_ok w2) as H2.
    { eapply ring_ok_same; [| |exact Hok].
      - rewrite Es2. exact Es1.
      - rewrite Et2. exact Et1. }
    destruct (scene (el w2)) as [sc|] eqn:Hsc.
    + destruct (updatePrevNextRing_rings now_ring w2 sc Hsc (H2 sc Hsc))
        as (sc' & Hsc' & _ & _ & Hcase).
      intros sc'' Hsc''. rewrite Hsc' in Hsc''. injection Hsc'' as <-.
      destruct (prevNextTimer (el w2)).
      * right. exists (next_obj w2). by destruct Hcase as (? & ? & _).
      * left. by destruct Hcase as (? & ? & _).
    + intros sc' Hsc'. exfalso. revert Hsc'. unfold_ops.
      destruct (timerRing (el w2)); simpl; rewrite Hsc;
        destruct (prevNextTimer (el w2)); simpl; rewrite ?Hsc; done.
  - destruct l; try discriminate. simpl in Hs.
    destruct (tasks w !! i) as [t|]; [|done].
    destruct (stage t); try done.
    + assert (exists e', (initialize3DScene (el w) = Returned e' \/
                          initialize3DScene (el w) = Threw e') /\
                         el w' = e') as (e' & He & Hel).
      { destruct (initialize3DScene (el w)) as [e'|e'];
          injection Hs as <-; exists e'; eauto. }
      intros sc Hsc. rewrite Hel in Hsc. left.
      by destruct (initialize3DScene_rings _ _ _ He Hsc).
    + injection Hs as <-.
      pose proof (ring_ok_finish w Hok) as H1.
      assert (ring_ok (drop_task i (on_el finish_scene w))) as H2
        by (eapply ring_ok_same; [| |exact H1]; done).
      destruct (from_init t); [by apply ring_ok_init_rest | done].
  - destruct (step_loop_fields l w w' Hs Hf Hr) as (Hlf & _).
    unfold loop_fields in Hlf.
    injection Hlf as Esc Eray Eb Ering Es Ef Eren Ect.
    by eapply ring_ok_same.
Qed.

Lemma reachable_ring_ok (w : World) : reachable w -> ring_ok w.
Proof.
  apply reachable_ind'.
  - intros attrs sc Hsc. by rewrite (proj1 (construct_scene attrs)) in Hsc.
  - intros l w1 w2 _ Hok Hs. by eapply ring_ok_step.
Qed.

Lemma spaced_same (w w' : World) :
  timers w' = timers w -> dispatched w' = dispatched w ->
  (clock w <= clock w')%Z -> spaced w -> spaced w'.
Proof.
  intros Et Ed Ec (H1 & H2 & H3). unfold spaced. rewrite Et, Ed.
  split; [done|]. split; [|done].
  intros e t Hin. specialize (H2 e t Hin). lia.
Qed.

Lemma spaced_step (l : Label) (w w' : World) :
  window_ok w -> spaced w -> step l w = Some w' -> spaced w'.
Proof.
  intros (_ & _ & Hone) Hsp Hs.
  destruct (step_window l w w' Hs) as
    [ (Et & _ & Ed & Ec & _)
    | d _ Hd Et _ Ed Ec _
    | Et _ Ed Ec _
    | h' ? ? ? ? _ (_ & _ & Et & _ & Ed & Ec)
    | b ? ? ? ? ? _ _ (_ & _ & Et & _ & Ed & Ec & _)
    | h' tm b _ Hh Hdue Hcb _ Et _ Ed Ec
    | h' tm _ _ _ _ Et _ Ed Ec _ ].
  - eapply spaced_same; [done | done | lia | done].
  - eapply spaced_same; [done | done | lia | done].
  - destruct Hsp as (H1 & H2 & H3). unfold spaced. rewrite Et, Ed, Ec.
    split; [done|]. split; [done|].
    intros h tm b e t [[<- <-]|[_ Hl]]%lookup_insert_Some Hc Hin.
    + by apply dwell_not_reparse in Hc.
    + by eapply H3.
  - destruct Hsp as (H1 & H2 & H3). unfold spaced. rewrite Et, Ed, Ec.
    split; [done|]. split; [done|].
    intros h tm b e t [_ Hl]%lookup_delete_Some Hc Hin. by eapply H3.
  - destruct Hsp as (H1 & H2 & H3). unfold spaced. rewrite Et, Ed, Ec.
    split; [done|]. split; [done|].
    intros h tm b' e t [[<- <-]|[_ Hl]]%lookup_insert_Some Hc Hin.
    + simpl. specialize (H2 e t Hin). lia.
    + by eapply H3.
  - destruct Hsp as (H1 & H2 & H3). unfold spaced. rewrite Et, Ed, Ec.
    assert (forall e t, (e, t) ∈ dispatched w ->
              (t + PREV_NEXT_TIMEOUT_MS <= clock w)%Z) as Hold.
    { intros e t Hin. specialize (H3 h' tm b e t Hh Hcb Hin). lia. }
    split; [|split].
    + intros i j e1 t1 e2 t2 Hij Hi Hj.
      apply lookup_app_Some in Hj as [Hj | [Hlen Hj]].
      * apply lookup_app_Some in Hi as [Hi | [Hlen' _]].
        -- by eapply H1.
        -- apply lookup_lt_Some in Hj. lia.
      * apply list_lookup_singleton_Some in Hj as [Hj0 [= <- <-]].
        apply lookup_app_Some in Hi as [Hi | [Hlen' _]]; [|lia].
        eapply Hold. by eapply list_elem_of_lookup_2.
    + intros e t [Hin | [= -> ->]%list_elem_of_singleton]%elem_of_app.
      * specialize (Hold e t Hin). unfold PREV_NEXT_TIMEOUT_MS in Hold. lia.
      * simpl. lia.
    + intros h tm' b' e t Hl Hc Hin. exfalso.
      pose proof (Hone _ _ _ Hh Hcb) as Hp. rewrite Hp in Hl. simpl in Hl.
      apply lookup_delete_Some in Hl as [Hne Hl].
      apply lookup_delete_Some in Hl as [_ Hl].
      pose proof (Hone _ _ _ Hl Hc) as Hp'. congruence.
  - destruct Hsp as (H1 & H2 & H3). unfold spaced. rewrite Et, Ed, Ec.
    split; [done|]. split; [done|].
    intros h tm' b e t [_ Hl]%lookup_delete_Some Hc Hin. by eapply H3.
Qed.

Lemma reachable_spaced (w : World) : reachable w -> spaced w.
Proof.
  apply reachable_ind'.
  - intros attrs.
    destruct (construct_window attrs) as (Et & _ & Ed & _ & _).
    unfold spaced. rewrite Et, Ed.
    repeat split; intros; simplify_map_eq; set_solver.
  - intros l w1 w2 Hr Hok Hs. eapply spaced_step; [|done..].
    by apply reachable_window_ok.
Qed.

(** X1: in every state the element can reach, the timer table of the window
    holds at most one dwell timer (a timer that carries a navigation
    callback), that timer is the one this.prevNextTimer names, and a timer
    named by this.prevNextTimer is in the table and carries a navigation
    callback. *)
Theorem single_dwell_timer (w : World) :
  reachable w ->
  (forall k k' tm tm' b b',
     timers w !! k = Some tm -> callback tm = dwell_callback b ->
     timers w !! k' = Some tm' -> callback tm' = dwell_callback b' ->
     k = k' /\ prevNextTimer (el w) = Some k) /\
  (forall k, prevNextTimer (el w) = Some k ->
     exists tm b, timers w !! k = Some tm /\ callback tm = dwell_callback b).
Proof.
  intros Hreach. destruct (reachable_window_ok w Hreach) as (_ & H2 & H3).
  split; [|exact H2].
  intros k k' tm tm' b b' Hk Hc Hk' Hc'.
  pose proof (H3 _ _ _ Hk Hc) as E. pose proof (H3 _ _ _ Hk' Hc') as E'.
  split; [congruence | done].
Qed.

Lemma single_dwell_timer_witness :
  reachable w_dwelling /\
  exists tm b, timers w_dwelling !! 1%positive = Some tm /\
               callback tm = dwell_callback b.
Proof.
  assert (reachable w_dwelling) as R
    by (exists ∅, (mounted ++ [gaze [Three.hit_under "prev"]]);
        vm_compute; reflexivity).
  split; [exact R|].
  exact (proj2 (single_dwell_timer w_dwelling R) 1%positive eq_refl).
Defined.

(** X2: any two navigation events the element has dispatched are at least
    PREV_NEXT_TIMEOUT_MS = 1000 ms apart on the clock of the event loop, the
    earlier first in the log; and no event was dispatched before the clock
    read 1000 ms, or after the current time. *)
Theorem navigation_events_spaced (w : World) :
  reachable w ->
  (forall i j e1 t1 e2 t2, (i < j)%nat ->
     dispatched w !! i = Some (e1, t1) -> dispatched w !! j = Some (e2, t2) ->
     (t1 + PREV_NEXT_TIMEOUT_MS <= t2)%Z) /\
  (forall e t, In (e, t) (dispatched w) ->
               (PREV_NEXT_TIMEOUT_MS <= t <= clock w)%Z).
Proof.
  intros Hreach. destruct (reachable_spaced w Hreach) as (H1 & H2 & _).
  split; [exact H1|]. intros e t Hin. split.
  - destruct Hreach as (attrs & ls & Hr).
    destruct (run_traced attrs ls w Hr) as [_ HD].
    destruct (HD e t Hin) as (b & t0 & _ & Ho & Hle).
    destruct Ho as (ls1 & ls2 & w1 & ? & ? & ? & ? & ? & _ & Hr1 & _ & _ & <-).
    assert (reachable w1) as R1 by (by exists attrs, ls1).
    assert (0 <= clock w1)%Z; [|lia].
    clear -R1. revert w1 R1. apply reachable_ind'.
    + intros attrs. by destruct (construct_window attrs) as (_ & _ & _ & -> & _).
    + intros l w w' _ IH Hs.
      destruct (step_window l w w' Hs) as
        [ (_ & _ & _ & Ec & _)
        | d _ Hd _ _ _ Ec _
        | _ _ _ Ec _
        | h' ? ? ? ? _ (_ & _ & _ & _ & _ & Ec)
        | b ? ? ? ? ? _ _ (_ & _ & _ & _ & _ & Ec & _)
        | h' tm b _ _ _ _ _ _ _ _ Ec
        | h' tm _ _ _ _ _ _ _ Ec _ ]; lia.
  - apply (H2 e t). by apply list_elem_of_In.
Qed.

Lemma navigation_events_spaced_witness :
  reachable w_fired_twice /\
  (1000 + PREV_NEXT_TIMEOUT_MS <= 2500)%Z.
Proof.
  assert (reachable w_fired_twice) as R
    by (exists ∅, (mounted ++ [gaze [Three.hit_under "prev"]; Tick 1000;
                               Fire 1%positive; gaze [Three.hit_under "next"];
                               Tick 1500; Fire 2%positive]);
        vm_compute; reflexivity).
  split; [exact R|].
  exact (proj1 (navigation_events_spaced w_fired_twice R) 0%nat 1%nat
           "stereoImgGoToPrev" 1000%Z "stereoImgGoToNext" 2500%Z
           ltac:(lia) eq_refl eq_refl).
Defined.

Lemma start_dwell_side (cb : Callback) (now : float) (w : World) :
  timerRingForPrev (el (start_dwell cb now w)) = timerRingForPrev (el w).
Proof. unfold start_dwell. by destruct (prevNextTimer (el w)). Qed.

(** The ring side after the loop is the side of the last button hit. *)
Lemma prevNextLoop_side (b : Button) (now : float) (pre : list Three.Hit)
    (w : World) :
  Forall has_parent pre ->
  timerRingForPrev
    (el (prevNextLoop now (pre ++ [Three.hit_under (group_name b)]) w))
  = Some (is_prev b).
Proof.
  intros Hpre. revert w.
  induction Hpre as [|hit pre (n & Hn) _ IH]; intros w.
  - destruct b; simpl; by rewrite start_dwell_side.
  - simpl. rewrite Hn.
    destruct (String.eqb n "prev"); [|destruct (String.eqb n "next")];
      apply IH.
Qed.

Lemma prevNextTest_pending dir hit hits now (h : positive) (w : World) :
  ready (el w) = true -> prevNextTimer (el w) = Some h ->
  let w' := prevNextTest dir (hit :: hits) now w in
  same_window w w' /\
  prevNextTimerStartMS (el w') = prevNextTimerStartMS (el w) /\
  (forall b pre, hit :: hits = pre ++ [Three.hit_under (group_name b)] ->
     Forall has_parent pre -> timerRingForPrev (el w') = Some (is_prev b)).
Proof.
  intros Hr Hp. cbv zeta. unfold prevNextTest.
  destruct (ready_camera _ Hr) as [cam ->]. rewrite Hr.
  cbv beta match. unfold negb.
  set (w1 := on_el (with_raycaster _) w).
  assert (is_Some (prevNextTimer (el w1))) as Hs by (simpl; eauto).
  destruct (prevNextLoop_pending now (hit :: hits) w1 Hs) as [Hsame Hms].
  split; [|split].
  - eapply same_window_trans; [|exact Hsame]. by repeat split.
  - rewrite Hms. done.
  - intros b pre -> Hpre. by apply prevNextLoop_side.
Qed.

(** X3: while a dwell timer is pending, an animation step whose raycast
    reports at least one hit neither cancels nor restarts it: the timer
    table, the pending timer, its start time and the event log stay as they
    are, whichever objects were hit. When the last hit is on a button and
    every hit before it has a parent, the progress ring is drawn around that
    button (at its x and z, turned to the camera), also when the pending
    timer belongs to the other button. *)
Theorem dwell_kept_while_anything_is_hit :
  forall (w w' : World) (h : positive) pose dir hit hits n1 n2,
    reachable w -> prevNextTimer (el w) = Some h ->
    step (Frame pose dir (hit :: hits) n1 n2) w = Some w' ->
    (timers w' = timers w /\ prevNextTimer (el w') = Some h /\
     prevNextTimerStartMS (el w') = prevNextTimerStartMS (el w) /\
     dispatched w' = dispatched w) /\
    (forall b pre,
       hit :: hits = pre ++ [Three.hit_under (group_name b)] ->
       Forall has_parent pre ->
       timerRingForPrev (el w') = Some (is_prev b) /\
       exists sc id ring,
         scene (el w') = Some sc /\ timerRing (el w') = Some id /\
         last (Three.children sc) = Some (Three.ORing id ring) /\
         Three.ring_x ring = Three.x (Three.position (button_group b)) /\
         Three.ring_z ring = Three.z (Three.position (button_group b)) /\
         Three.ring_lookAt ring = pose).
Proof.
  intros w w' h pose dir hit hits n1 n2 Hreach Hp Hs.
  destruct (frame_ready _ _ _ _ _ _ _ Hreach Hs) as [Hr ->].
  assert (animating w = true) as Ha
    by (simpl in Hs; by destruct (animating w)).
  destruct (reachable_mounted_ok w Hreach) as (Hon & _ & _).
  destruct (Hon Ha) as (_ & _ & _ & Hct & c & Hc & _).
  set (w1 := on_el (controls_update pose) w) in *.
  destruct (controls_update_window pose w) as (Et & En & Ed & Ec & Ep).
  fold w1 in Et, En, Ed, Ec, Ep.
  assert (prevNextTimer (el w1) = Some h) as Hp1 by congruence.
  assert (camera_position (el w1) = pose) as Hpose.
  { unfold w1, camera_position, controls_update. simpl.
    by rewrite Hct, Hc. }
  destruct (controls_update_fields pose (el w))
    as (_ & _ & _ & _ & _ & _ & _ & Es & _).
  destruct (prevNextTest_pending dir hit hits n1 h w1 Hr Hp1)
    as ((Et2 & En2 & Ed2 & Ec2 & Ep2) & Es2 & Hside).
  set (w2 := prevNextTest dir (hit :: hits) n1 w1) in *.
  destruct (same_window_ring n2 w2) as (Et3 & En3 & Ed3 & Ec3 & Ep3).
  destruct (updatePrevNextRing_fields n2 w2)
    as (_ & _ & _ & _ & _ & _ & _ & Es3 & Ef3 & _).
  split.
  - repeat apply conj; [congruence..| |congruence].
    rewrite Es3, Es2. exact Es.
  - intros b pre Hhits Hpre. specialize (Hside b pre Hhits Hpre).
    split; [by rewrite Ef3|].
    assert (is_Some (scene (el w2))) as [sc Hsc].
    { destruct (prevNextTest_fields dir (hit :: hits) n1 w1)
        as (_ & _ & _ & _ & _ & Esc & _).
      fold w2 in Esc. rewrite Esc.
      apply ready_fields in Hr. tauto. }
    assert (ring_ok w2) as Hok.
    { destruct (prevNextTest_fields dir (hit :: hits) n1 w1)
        as (_ & _ & _ & _ & _ & Esc & Ering & _).
      fold w2 in Esc, Ering.
      eapply (ring_ok_same w1); [done | done |].
      eapply (ring_ok_same w); [| |by apply reachable_ring_ok].
      - by destruct (controls_update_fields pose (el w))
          as (_ & _ & _ & _ & ? & _).
      - by destruct (controls_update_fields pose (el w))
          as (_ & _ & _ & _ & _ & ? & _). }
    destruct (updatePrevNextRing_rings n2 w2 sc Hsc (Hok sc Hsc))
      as (sc' & Hsc' & _ & _ & Hcase).
    rewrite Ep2, Hp1 in Hcase. destruct Hcase as (Hid & _ & Hch).
    exists sc', (next_obj w2), (new_timerRing n2 (el w2) (camera_position (el w2))).
    split; [done|]. split; [done|]. split; [by rewrite Hch, last_snoc|].
    assert (camera_position (el w2) = pose) as ->.
    { destruct (prevNextTest_fields dir (hit :: hits) n1 w1)
        as (_ & Ecam & _).
      fold w2 in Ecam. unfold camera_position in *. by rewrite Ecam. }
    unfold new_timerRing, for_prev, button_group. simpl. rewrite Hside.
    by destruct b.
Qed.

Lemma dwell_kept_while_anything_is_hit_witness :
  (reachable w_dwelling /\
   prevNextTimer (el w_dwelling) = Some 1%positive /\
   step (gaze [Three.hit_under "next"]) w_dwelling = Some w_still_dwelling) /\
  timers w_still_dwelling = timers w_dwelling /\
  timers w_dwelling !! 1%positive
    = Some {| due := 1000; callback := GoToPrev |} /\
  timerRingForPrev (el w_still_dwelling) = Some false.
Proof.
  assert (reachable w_dwelling) as R
    by (exists ∅, (mounted ++ [gaze [Three.hit_under "prev"]]);
        vm_compute; reflexivity).
  assert (step (gaze [Three.hit_under "next"]) w_dwelling
          = Some w_still_dwelling) as S by (vm_compute; reflexivity).
  split; [exact (conj R (conj eq_refl S))|].
  destruct (dwell_kept_while_anything_is_hit w_dwelling w_still_dwelling
              1%positive origin origin (Three.hit_under "next") []
              5%float 6%float R eq_refl S) as ((Ht & _) & Hside).
  split; [exact Ht|]. split; [reflexivity|].
  exact (proj1 (Hside Next [] eq_refl ltac:(constructor))).
Defined.

(** X4: the scene of a reachable state holds at most one progress ring, and
    only the one this.timerRing names. An animation step keeps the other
    children of the scene, in their order, and ends with exactly one ring,
    added last and swept by the scale of the time since the dwell started,
    when a dwell timer is pending, and with no ring and this.timerRing null
    when none is. *)
Theorem at_most_one_timer_ring :
  (forall (w : World) (sc : Three.Scene),
     reachable w -> scene (el w) = Some sc ->
     (length (timer_rings sc) <= 1)%nat /\
     forall id, id ∈ timer_rings sc -> timerRing (el w) = Some id) /\
  (forall (w w' : World) pose dir hits n1 n2,
     reachable w -> step (Frame pose dir hits n1 n2) w = Some w' ->
     exists sc sc',
       scene (el w) = Some sc /\ scene (el w') = Some sc' /\
       scenery sc' = scenery sc /\
       match prevNextTimer (el w') with
       | Some _ =>
           exists id ring,
             timerRing (el w') = Some id /\
             Three.children sc' = scenery sc ++ [Three.ORing id ring] /\
             Three.ring_thetaLength ring
             = sweep (timeSinceStartedMS n2 (el w'))
                     (for_prev (el w') true false)
       | None =>
           timerRing (el w') = None /\ Three.children sc' = scenery sc
       end).
Proof.
  split.
  - intros w sc Hreach Hsc.
    destruct (reachable_ring_ok w Hreach sc Hsc) as [-> | (id & -> & Hid)].
    + split; [simpl; lia | by intros id ?%elem_of_nil].
    + split; [simpl; lia | by intros id' ->%list_elem_of_singleton].
  - intros w w' pose dir hits n1 n2 Hreach Hs.
    destruct (frame_ready _ _ _ _ _ _ _ Hreach Hs) as [Hr ->].
    set (w1 := on_el (controls_update pose) w) in *.
    destruct (controls_update_fields pose (el w))
      as (_ & _ & _ & _ & Esc1 & Ering1 & _).
    set (w2 := prevNextTest dir hits n1 w1).
    destruct (prevNextTest_fields dir hits n1 w1)
      as (_ & _ & _ & _ & _ & Esc2 & Ering2 & _).
    fold w2 in Esc2, Ering2.
    assert (is_Some (scene (el w1))) as [sc Hsc]
      by (apply ready_fields in Hr; tauto).
    assert (ring_ok w2) as Hok.
    { eapply (ring_ok_same w1); [done | done |].
      eapply (ring_ok_same w); [done | done | by apply reachable_ring_ok]. }
    assert (scene (el w2) = Some sc) as Hsc2 by congruence.
    destruct (updatePrevNextRing_rings n2 w2 sc Hsc2 (Hok sc Hsc2))
      as (sc' & Hsc' & Hsy & _ & Hcase).
    destruct (updatePrevNextRing_fields n2 w2)
      as (_ & Ecam & _ & _ & _ & _ & Ep3 & Es3 & Ef3 & _).
    exists sc, sc'. split; [by rewrite <- Esc1|]. split; [done|].
    split; [done|]. rewrite Ep3.
    destruct (prevNextTimer (el w2)).
    + destruct Hcase as (Hid & _ & Hch). eexists _, _.
      split; [done|]. split; [done|].
      unfold new_timerRing, timeSinceStartedMS, for_prev. simpl.
      by rewrite Es3, Ef3.
    + by destruct Hcase as (Hid & _ & Hch).
Qed.

Lemma at_most_one_timer_ring_witness :
  (reachable w_dwelling /\
   step (gaze [Three.hit_under "prev"]) w_dwelling <> None) /\
  exists sc, scene (el w_dwelling) = Some sc /\
             (length (timer_rings sc) <= 1)%nat.
Proof.
  assert (reachable w_dwelling) as R
    by (exists ∅, (mounted ++ [gaze [Three.hit_under "prev"]]);
        vm_compute; reflexivity).
  split; [split; [exact R | vm_compute; discriminate]|].
  eexists. split; [vm_compute; reflexivity|].
  exact (proj1 (proj1 at_most_one_timer_ring w_dwelling _ R eq_refl)).
Defined.

(** X5: once the animation loop is installed, the scene, the camera (in
    layers 0 and 1), the raycaster, the renderer, the controls and the two
    buttons, 'prev' first, exist in every reachable state, so that
    updatePrevNextRing never reads a field of an undefined scene or camera;
    and whenever a dwell timer is pending, its start time and the side of
    its ring are recorded. *)
Theorem animation_loop_runs_on_complete_element (w : World) :
  reachable w -> animating w = true ->
  is_Some (scene (el w)) /\ is_Some (raycaster (el w)) /\
  prevNextButtons (el w) = Some navigation_buttons /\
  renderer (el w) = true /\ controls (el w) = true /\
  (exists c, camera (el w) = Some c /\
             Three.cam_layers c
             = Three.layers_enable 1 Three.layers_default) /\
  (is_Some (prevNextTimer (el w)) ->
   is_Some (prevNextTimerStartMS (el w)) /\
   is_Some (timerRingForPrev (el w))).
Proof.
  intros Hreach Ha.
  destruct (reachable_mounted_ok w Hreach) as (Hon & _ & Hrec).
  destruct (Hon Ha) as (? & ? & ? & ? & c & ? & ?).
  destruct (reachable_loop_ok w Hreach) as [Hr _].
  specialize (Hr Ha). apply ready_fields in Hr.
  split; [tauto|]. do 4 (split; [done|]).
  split; [by exists c | exact Hrec].
Qed.

Lemma animation_loop_runs_on_complete_element_witness :
  (reachable w_dwelling /\ animating w_dwelling = true) /\
  prevNextButtons (el w_dwelling) = Some navigation_buttons.
Proof.
  assert (reachable w_dwelling) as R
    by (exists ∅, (mounted ++ [gaze [Three.hit_under "prev"]]);
        vm_compute; reflexivity).
  split; [exact (conj R eq_refl)|].
  exact (proj1 (proj2 (proj2
           (animation_loop_runs_on_complete_element w_dwelling R eq_refl)))).
Defined.

(** X6: until init has installed the animation loop there is no camera, no
    raycaster, no button and no ring; no dwell timer is pending or in the
    timer table; no event has been dispatched; and no animation step runs. *)
Theorem nothing_navigates_before_the_loop (w : World) :
  reachable w -> animating w = false ->
  camera (el w) = None /\ raycaster (el w) = None /\
  prevNextButtons (el w) = None /\ timerRing (el w) = None /\
  prevNextTimer (el w) = None /\ dispatched w = [] /\
  (forall h tm b, timers w !! h = Some tm -> callback tm <> dwell_callback b) /\
  (forall pose dir hits n1 n2, step (Frame pose dir hits n1 n2) w = None).
Proof.
  intros Hreach Ha.
  destruct (reachable_mounted_ok w Hreach) as (_ & Hoff & _).
  destruct (Hoff Ha) as (? & ? & ? & ? & ? & ? & Hp & ?).
  repeat apply conj; try done.
  - intros h tm b Hl Hc.
    destruct (reachable_window_ok w Hreach) as (_ & _ & Hone).
    specialize (Hone _ _ _ Hl Hc). congruence.
  - intros. simpl. by rewrite Ha.
Qed.

Lemma nothing_navigates_before_the_loop_witness :
  (reachable w_created /\ animating w_created = false) /\
  dispatched w_created = [].
Proof.
  assert (reachable w_created) as R
    by (exists ∅, []; vm_compute; reflexivity).
  split; [exact (conj R eq_refl)|].
  exact (proj1 (proj2 (proj2 (proj2 (proj2 (proj2
           (nothing_navigates_before_the_loop w_created R eq_refl))))))).
Defined.

(** X26: a pending dwell timer leaves the timer table of a reachable state
    only in two ways: it fires, which is possible once its second has passed
    and dispatches exactly one navigation event of its side, or an animation
    step's raycast reports no hit, which dispatches nothing; every other
    step, a re-parse or an assignment to src included, keeps the timer and
    keeps it as the element's prevNextTimer. *)
Theorem dwell_ends_only_by_firing_or_looking_away :
  forall (l : Label) (w w' : World) (h : positive) (tm : Timer) (b : Button),
    reachable w -> step l w = Some w' ->
    timers w !! h = Some tm -> callback tm = dwell_callback b ->
    timers w' !! h = Some tm /\ prevNextTimer (el w') = Some h \/
    timers w' !! h = None /\ prevNextTimer (el w') = None /\
    (l = Fire h /\ (due tm <= clock w)%Z /\
     dispatched w' = dispatched w ++ [(navigation_event b, clock w)] \/
     (exists pose dir n1 n2, l = Frame pose dir [] n1 n2) /\
     dispatched w' = dispatched w).
Proof.
  intros l w w' h tm b Hreach Hs Hl Hc.
  destruct (reachable_window_ok w Hreach) as (Hlt & _ & Hone).
  pose proof (Hone _ _ _ Hl Hc) as Hp.
  assert (h <> next_handle w) as Hne.
  { intros ->. specialize (Hlt _ _ Hl). lia. }
  destruct (step_window l w w' Hs) as
    [ (Et & _ & _ & _ & Ep)
    | d _ _ Et _ _ _ Ep
    | Et _ _ _ Ep
    | h' ? ? ? ? El (Hp' & Ep & Et & _ & Ed & _)
    | b' ? ? ? ? ? _ _ (Hp' & _)
    | h' tm' b' El Hh Hdue Hcb Ep Et _ Ed _
    | h' tm' El Hh _ Hcb Et _ _ _ Ep ].
  - left. by rewrite Et, Ep.
  - left. by rewrite Et, Ep.
  - left. rewrite Et, Ep. by rewrite lookup_insert_ne.
  - right. rewrite Hp in Hp'. injection Hp' as <-.
    rewrite Et, lookup_delete_eq. repeat split; try done.
    right. split; [|done]. eauto.
  - congruence.
  - right. pose proof (Hone _ _ _ Hh Hcb) as Hp'.
    rewrite Hp in Hp'. injection Hp' as <-.
    rewrite Hl in Hh. injection Hh as <-.
    assert (b' = b) as -> by (apply dwell_callback_inj; congruence).
    rewrite Et, Hp. simpl. rewrite lookup_delete_eq.
    split; [done|]. split; [done|]. left. by repeat split.
  - left. rewrite Et, Ep. split; [|done].
    rewrite lookup_delete_ne; [done|].
    intros ->. rewrite Hl in Hh. injection Hh as <-.
    rewrite Hc in Hcb. by destruct b.
Qed.

Lemma dwell_ends_only_by_firing_or_looking_away_witness :
  (reachable w_dwelling /\
   step (SetSrc (Js.VString "a.jpg")) w_dwelling <> None /\
   timers w_dwelling !! 1%positive
     = Some {| due := 1000; callback := GoToPrev |}) /\
  forall w',
    step (SetSrc (Js.VString "a.jpg")) w_dwelling = Some w' ->
    timers w' !! 1%positive = Some {| due := 1000; callback := GoToPrev |}.
Proof.
  assert (reachable w_dwelling) as R
    by (exists ∅, (mounted ++ [gaze [Three.hit_under "prev"]]);
        vm_compute; reflexivity).
  split; [split; [exact R|split; [vm_compute; discriminate | reflexivity]]|].
  intros w' Hs.
  destruct (dwell_ends_only_by_firing_or_looking_away
              (SetSrc (Js.VString "a.jpg")) w_dwelling w' 1%positive
              {| due := 1000; callback := GoToPrev |} Prev R Hs
              eq_refl eq_refl)
    as [[Ht _] | (_ & _ & [([=] & _) | ((? & ? & ? & ? & [=]) & _)])].
  exact Ht.
Defined.

(** X27: every animation step of the mounted element sets the picking ray to
    start at the position the controls gave the camera in that step and to
    point in the direction the camera reports, whatever the raycast then
    hits; the camera keeps its layers. *)
Theorem gaze_ray_follows_the_camera :
  forall (w w' : World) pose dir hits n1 n2,
    reachable w -> step (Frame pose dir hits n1 n2) w = Some w' ->
    raycaster (el w')
      = Some {| Three.ray_origin := pose; Three.ray_direction := dir |} /\
    exists c c',
      camera (el w) = Some c /\ camera (el w') = Some c' /\
      Three.cam_position c' = pose /\
      Three.cam_layers c' = Three.cam_layers c.
Proof.
  intros w w' pose dir hits n1 n2 Hreach Hs.
  destruct (frame_ready _ _ _ _ _ _ _ Hreach Hs) as [Hr ->].
  assert (animating w = true) as Ha
    by (simpl in Hs; by destruct (animating w)).
  destruct (reachable_mounted_ok w Hreach) as (Hon & _ & _).
  destruct (Hon Ha) as (_ & _ & _ & Hct & c & Hc & _).
  set (w1 := on_el (controls_update pose) w) in *.
  assert (camera (el w1)
          = Some {| Three.cam_position := pose;
                    Three.cam_layers := Three.cam_layers c |}) as Hc1.
  { unfold w1, controls_update. simpl. by rewrite Hct, Hc. }
  set (w2 := prevNextTest dir hits n1 w1).
  destruct (prevNextTest_fields dir hits n1 w1) as (_ & Ec2 & _).
  fold w2 in Ec2.
  destruct (updatePrevNextRing_fields n2 w2) as (_ & Ec3 & _ & _ & _ & Er3 & _).
  split.
  - rewrite Er3. unfold w2, prevNextTest. rewrite Hc1, Hr. simpl.
    destruct hits as [|hit hits].
    + simpl. by destruct (prevNextTimer _).
    + cbv beta match.
      by destruct (prevNextLoop_frame n1 (hit :: hits)
                     (on_el (with_raycaster
                               (Some {| Three.ray_origin := pose;
                                        Three.ray_direction := dir |})) w1))
        as (_ & _ & _ & _ & _ & _ & _ & _ & _ & _ & _ & _ & -> & _).
  - eexists c, _. split; [done|]. split; [by rewrite Ec3, Ec2|]. done.
Qed.

Lemma gaze_ray_follows_the_camera_witness :
  (reachable w_mounted /\
   step (gaze [Three.hit_under "prev"]) w_mounted = Some w_dwelling) /\
  raycaster (el w_dwelling)
    = Some {| Three.ray_origin := origin; Three.ray_direction := origin |}.
Proof.
  assert (reachable w_mounted) as R
    by (exists ∅, mounted; vm_compute; reflexivity).
  assert (step (gaze [Three.hit_under "prev"]) w_mounted = Some w_dwelling)
    as S by (vm_compute; reflexivity).
  split; [exact (conj R S)|].
  exact (proj1 (gaze_ray_follows_the_camera w_mounted w_dwelling origin origin
                  _ _ _ R S)).
Defined.

Lemma prevNextLoop_stops (now : float) (pre rest : list Three.Hit)
    (hit : Three.Hit) (w : World) :
  parentless hit ->
  prevNextLoop now (pre ++ hit :: rest) w = prevNextLoop now (pre ++ [hit]) w.
Proof.
  intros Hhit. revert w. induction pre as [|h pre IH]; intros w; simpl.
  - by destruct Hhit as [-> | ->].
  - destruct (Three.object h) as [[n|]|]; [|done..].
    destruct (String.eqb n "prev"); [|destruct (String.eqb n "next")];
      apply IH.
Qed.

(** X7: prevNextTest stops at the first hit that has no object or whose
    object has no parent: the hits after it are never looked at. An
    animation step whose first hit is such a hit changes neither the timer
    table nor the event log nor the pending dwell, its start time and the
    side of its ring; a pending dwell is not cancelled, since the answer of
    the raycast is not empty. *)
Theorem hits_after_a_parentless_hit_are_ignored :
  (forall dir now (pre rest : list Three.Hit) (hit : Three.Hit) (w : World),
     parentless hit ->
     prevNextTest dir (pre ++ hit :: rest) now w
     = prevNextTest dir (pre ++ [hit]) now w) /\
  (forall (w w' : World) pose dir (hit : Three.Hit) rest n1 n2,
     parentless hit ->
     step (Frame pose dir (hit :: rest) n1 n2) w = Some w' ->
     timers w' = timers w /\ dispatched w' = dispatched w /\
     prevNextTimer (el w') = prevNextTimer (el w) /\
     prevNextTimerStartMS (el w') = prevNextTimerStartMS (el w) /\
     timerRingForPrev (el w') = timerRingForPrev (el w)).
Proof.
  split.
  - intros dir now pre rest hit w Hhit. unfold prevNextTest.
    destruct (camera (el w)) as [cam|]; [|done].
    destruct (negb (ready (el w))); [done|].
    pose proof (prevNextLoop_stops now pre rest hit
                  (on_el (with_raycaster
                            (Some {| Three.ray_origin := Three.cam_position cam;
                                     Three.ray_direction := dir |})) w) Hhit)
      as H.
    destruct pre as [|h pre]; simpl in *; exact H.
  - intros w w' pose dir hit rest n1 n2 Hhit Hs. simpl in Hs.
    destruct (animating w); [|done]. injection Hs as <-.
    unfold animation_frame.
    set (w1 := on_el (controls_update pose) w).
    destruct (controls_update_window pose w) as (Et & _ & Ed & _ & Ep).
    destruct (controls_update_fields pose (el w))
      as (_ & _ & _ & _ & _ & _ & _ & Es & Ef & _).
    fold w1 in Et, Ed, Ep.
    assert (prevNextTest dir (hit :: rest) n1 w1 = w1 \/
            exists r, prevNextTest dir (hit :: rest) n1 w1
                      = on_el (with_raycaster r) w1) as Htest.
    { unfold prevNextTest.
      destruct (camera (el w1)) as [cam|]; [|by left].
      destruct (negb (ready (el w1))); [by left|].
      right. eexists. cbv beta match. simpl.
      by destruct Hhit as [-> | ->]. }
    destruct (same_window_ring n2 (prevNextTest dir (hit :: rest) n1 w1))
      as (Et3 & _ & Ed3 & _ & Ep3).
    destruct (updatePrevNextRing_fields n2
                (prevNextTest dir (hit :: rest) n1 w1))
      as (_ & _ & _ & _ & _ & _ & _ & Es3 & Ef3 & _).
    rewrite Et3, Ed3, Ep3, Es3, Ef3.
    destruct Htest as [-> | (r & ->)];
      exact (conj Et (conj Ed (conj Ep (conj Es Ef)))).
Qed.

Lemma hits_after_a_parentless_hit_are_ignored_witness :
  (parentless Three.hit_orphan /\
   step (gaze [Three.hit_orphan; Three.hit_under "next"]) w_dwelling <> None) /\
  forall w',
    step (gaze [Three.hit_orphan; Three.hit_under "next"]) w_dwelling = Some w' ->
    timers w' = timers w_dwelling /\
    timerRingForPrev (el w') = timerRingForPrev (el w_dwelling).
Proof.
  assert (parentless Three.hit_orphan) as H by (by right).
  split; [split; [exact H | vm_compute; discriminate]|].
  intros w' Hs.
  destruct (proj2 hits_after_a_parentless_hit_are_ignored w_dwelling w'
              origin origin Three.hit_orphan [Three.hit_under "next"]
              5%float 6%float H Hs) as (Ht & _ & _ & _ & Hf).
  exact (conj Ht Hf).
Defined.

(** ** Mounting, parsing and the setters *)

Lemma construct_without_src (attrs : gmap string string) :
  Js.truthy_attr (attrs !! "src") = false ->
  construct attrs
  = {| el := {| attributes := attrs; opacity := Some "0";
                stereoData := Some fallback_stereoData;
                scene := None; camera := None; raycaster := None;
                prevNextButtons := None; timerRing := None;
                prevNextTimer := None; prevNextTimerStartMS := None;
                timerRingForPrev := None; renderer := false;
                controls := false |};
       timers := ∅; next_handle := 1%positive; clock := 0;
       dispatched := []; console := []; calls := [];
       tasks := [{| stage := AwaitParsed; from_init := true |}];
       heap := <[2%positive := new_ImageData 10 10]>
                 (<[1%positive := new_ImageData 10 10]> ∅);
       next_obj := 3%positive; animating := false |}.
Proof.
  intros Hsrc. unfold construct, parseImageAndInitialize3DScene, parse.
  unfold on_el, get_src, getAttribute.
  cbn [el with_el with_opacity attributes]. rewrite Hsrc.
  reflexivity.
Qed.

(** X8: an element created without src, or with an empty one, mounts on its
    own: after the two awaits of parseImageAndInitialize3DScene no parser
    and no metadata reader was called, nothing was logged and no timer was
    started; the element is opaque ('1'), holds the fallback stereo data on
    two blank 10 x 10 images, its animation loop is installed, its camera is
    at (0, 0, 0.1) in layers 0 and 1, and its scene holds the two eye
    meshes, the back mesh exactly when angle is '180' and backImageSrc is
    not empty, and then the buttons 'prev' and 'next'. *)
Theorem element_without_src_mounts_by_itself (attrs : gmap string string) :
  Js.truthy_attr (attrs !! "src") = false ->
  exists w sc back,
    run [Resume 0; Resume 0] (construct attrs) = Some w /\
    animating w = true /\ tasks w = [] /\ calls w = [] /\ console w = [] /\
    timers w = ∅ /\ dispatched w = [] /\
    attributes (el w) = attrs /\ opacity (el w) = Some "1" /\
    stereoData (el w) = Some fallback_stereoData /\
    heap w !! 1%positive = Some (new_ImageData 10 10) /\
    heap w !! 2%positive = Some (new_ImageData 10 10) /\
    camera (el w)
      = Some {| Three.cam_position := home;
                Three.cam_layers := Three.layers_enable 1 Three.layers_default |} /\
    prevNextButtons (el w) = Some navigation_buttons /\
    scene (el w) = Some sc /\ Three.background sc = 0x101010%Z /\
    Three.children sc
      = [Three.OMesh (mesh1 fallback_stereoData);
         Three.OMesh (mesh2 fallback_stereoData)]
        ++ back
        ++ [Three.OGroup (createPrevOrNextButton true);
            Three.OGroup (createPrevOrNextButton false)] /\
    (forall src, back_image_set (el w) src ->
       back = [Three.OMesh (mesh3 src fallback_stereoData)]) /\
    ((forall src, ~ back_image_set (el w) src) -> back = []).
Proof.
  intros Hsrc. rewrite (construct_without_src attrs Hsrc).
  unfold run, step. cbn [tasks lookup list_lookup stage el].
  unfold initialize3DScene. cbn [stereoData].
  unfold get_angle, get_backImageSrc, getAttribute. cbn [attributes].
  unfold back_image_set, get_angle, get_backImageSrc, getAttribute.
  unfold attr_is, Js.truthy_attr.
  destruct (attrs !! "angle") as [angle|] eqn:Ha;
    [destruct (String.eqb_spec angle "180") as [->|Hne]|];
    [destruct (attrs !! "backImageSrc") as [back|] eqn:Hb;
     [destruct (String.eqb_spec back EmptyString) as [->|Hnb]|]|..].
  1-5: cbn -[mesh1 mesh2 mesh3 new_ImageData Three.layers_enable home];
    try rewrite Ha; try rewrite Hb;
    cbn -[mesh1 mesh2 mesh3 new_ImageData Three.layers_enable home].
  - eexists _, _, []. split; [reflexivity|].
    cbn -[mesh1 mesh2 mesh3 new_ImageData Three.layers_enable home].
    do 16 (split; [done|]). split; [|done].
    intros src (_ & Hs & Hn). rewrite Hb in Hs. congruence.
  - eexists _, _, [Three.OMesh (mesh3 back fallback_stereoData)].
    split; [reflexivity|].
    cbn -[mesh1 mesh2 mesh3 new_ImageData Three.layers_enable home].
    do 16 (split; [done|]). split.
    + intros src (_ & Hs & Hn). rewrite Hb in Hs. congruence.
    + intros Hno. exfalso. by apply (Hno back).
  - eexists _, _, []. split; [reflexivity|].
    cbn -[mesh1 mesh2 mesh3 new_ImageData Three.layers_enable home].
    do 16 (split; [done|]). split; [|done].
    intros src (_ & Hs & Hn). rewrite Hb in Hs. congruence.
  - eexists _, _, []. split; [reflexivity|].
    cbn -[mesh1 mesh2 mesh3 new_ImageData Three.layers_enable home].
    do 16 (split; [done|]). split; [|done].
    intros src (Hs & _). rewrite Ha in Hs. congruence.
  - eexists _, _, []. split; [reflexivity|].
    cbn -[mesh1 mesh2 mesh3 new_ImageData Three.layers_enable home].
    do 16 (split; [done|]). split; [|done].
    intros src (Hs & _). rewrite Ha in Hs. congruence.
Qed.

Lemma element_without_src_mounts_by_itself_witness :
  Js.truthy_attr ((∅ : gmap string string) !! "src") = false /\
  exists w, run [Resume 0; Resume 0] (construct ∅) = Some w /\
            animating w = true /\ calls w = [] /\
            opacity (el w) = Some "1".
Proof.
  assert (Js.truthy_attr ((∅ : gmap string string) !! "src") = false) as H
    by reflexivity.
  split; [exact H|].
  destruct (element_without_src_mounts_by_itself ∅ H)
    as (w & sc & back & Hrun & Ha & _ & Hc & _ & _ & _ & _ & Ho & _).
  exists w. exact (conj Hrun (conj Ha (conj Hc Ho))).
Defined.

Lemma list_delete_insert_same {A : Type} (l : list A) (i : nat) (x : A) :
  delete i (<[i := x]> l) = delete i l.
Proof.
  revert i. induction l as [|y l IH]; intros [|i]; simpl; try done.
  by rewrite IH.
Qed.

(** X9: when a parse started by a setter has ended on an element that has
    its camera, the rest of parseImageAndInitialize3DScene replaces the
    scene by a new one that holds the two eye meshes of the parsed data, the
    back mesh exactly when angle is '180' and backImageSrc is not empty, and
    the two buttons, in this order; it puts the camera back to (0, 0, 0.1),
    keeping its layers, and sets the opacity to '1'; attributes, timers,
    events, the pending dwell and this.timerRing (whose ring is no longer in
    the scene) stay as they were. *)
Theorem reparse_rebuilds_scene :
  forall (w : World) (i : nat) (t : Task) (sd : StereoData) (c : Three.Camera),
    tasks w !! i = Some t -> stage t = AwaitParsed -> from_init t = false ->
    stereoData (el w) = Some sd -> camera (el w) = Some c ->
    exists w' sc back,
      run [Resume i; Resume i] w = Some w' /\
      tasks w' = delete i (tasks w) /\
      scene (el w') = Some sc /\ Three.background sc = 0x101010%Z /\
      Three.children sc
        = [Three.OMesh (mesh1 sd); Three.OMesh (mesh2 sd)] ++ back
          ++ [Three.OGroup (createPrevOrNextButton true);
              Three.OGroup (createPrevOrNextButton false)] /\
      (forall src, back_image_set (el w) src ->
         back = [Three.OMesh (mesh3 src sd)]) /\
      ((forall src, ~ back_image_set (el w) src) -> back = []) /\
      camera (el w')
        = Some {| Three.cam_position := home;
                  Three.cam_layers := Three.cam_layers c |} /\
      prevNextButtons (el w') = Some navigation_buttons /\
      opacity (el w') = Some "1" /\
      attributes (el w') = attributes (el w) /\
      timers w' = timers w /\ dispatched w' = dispatched w /\
      prevNextTimer (el w') = prevNextTimer (el w) /\
      timerRing (el w') = timerRing (el w).
Proof.
  intros w i t sd c Hi Hst Hfi Hsd Hc.
  assert (exists e1 sc1 back,
            initialize3DScene (el w) = Returned e1 /\
            e1 = with_scene (Some sc1) (el w) /\
            Three.background sc1 = 0x101010%Z /\
            Three.children sc1
              = [Three.OMesh (mesh1 sd); Three.OMesh (mesh2 sd)] ++ back /\
            (forall src, back_image_set (el w) src ->
               back = [Three.OMesh (mesh3 src sd)]) /\
            ((forall src, ~ back_image_set (el w) src) -> back = []))
    as (e1 & sc1 & back & Hinit & -> & Hbg & Hch & Hb1 & Hb2).
  { unfold initialize3DScene, back_image_set. rewrite Hsd.
    unfold attr_is, Js.truthy_attr.
    destruct (get_angle (el w)) as [angle|] eqn:Ha;
      [destruct (String.eqb_spec angle "180") as [->|Hne]|];
      [destruct (get_backImageSrc (el w)) as [b|] eqn:Hb;
       [destruct (String.eqb_spec b EmptyString) as [->|Hnb]|]|..];
      cbn -[mesh1 mesh2 mesh3].
    - eexists _, _, []. do 4 (split; [reflexivity|]).
      split; [|done]. intros src (_ & [= <-] & ?). done.
    - eexists _, _, [_]. do 4 (split; [reflexivity|]).
      split; [by intros src (_ & [= <-] & ?)|].
      intros Hno. exfalso. by apply (Hno b).
    - eexists _, _, []. do 4 (split; [reflexivity|]).
      split; [|done]. by intros src (_ & ? & _).
    - eexists _, _, []. do 4 (split; [reflexivity|]).
      split; [|done]. intros src ([= ->] & _). done.
    - eexists _, _, []. do 4 (split; [reflexivity|]).
      split; [|done]. by intros src (? & _). }
  assert (i < length (tasks w))%nat as Hlen by by eapply lookup_lt_Some.
  eexists _, (Three.scene_add (Three.OGroup (createPrevOrNextButton false))
                (Three.scene_add (Three.OGroup (createPrevOrNextButton true))
                   sc1)), back.
  split.
  { unfold run, step. rewrite Hi, Hst, Hinit.
    unfold set_stage. cbn [tasks with_tasks with_el].
    rewrite list_lookup_insert_eq by done. cbn [stage from_init].
    rewrite Hfi. reflexivity. }
  unfold drop_task, on_el, finish_scene, camera_home, addPrevNextButtons.
  cbn -[Three.scene_add mesh1 mesh2 mesh3 home]. rewrite Hc.
  cbn -[Three.scene_add mesh1 mesh2 mesh3 home].
  split; [apply list_delete_insert_same|].
  split; [done|]. split; [done|].
  split; [simpl; rewrite Hch; by rewrite <- !app_assoc|].
  by repeat apply conj.
Qed.

Lemma reparse_rebuilds_scene_witness :
  (tasks w_reparsing !! 0%nat
     = Some {| stage := AwaitParsed; from_init := false |} /\
   is_Some (stereoData (el w_reparsing)) /\
   is_Some (camera (el w_reparsing))) /\
  exists w' sc,
    run [Resume 0; Resume 0] w_reparsing = Some w' /\
    scene (el w') = Some sc /\
    prevNextTimer (el w') = prevNextTimer (el w_reparsing) /\
    timerRing (el w') = timerRing (el w_reparsing).
Proof.
  split; [split; [reflexivity | split; eexists; reflexivity]|].
  destruct (reparse_rebuilds_scene w_reparsing 0%nat _ _ _
              eq_refl eq_refl eq_refl eq_refl eq_refl)
    as (w' & sc & back & Hrun & _ & Hsc & _ & _ & _ & _ & _ & _ & _ & _ & _
        & _ & Hp & Hr).
  exists w', sc. exact (conj Hrun (conj Hsc (conj Hp Hr))).
Defined.

Lemma reparse_change (b : bool) (w : World) :
  parse_change w (parseImageAndInitialize3DScene b w).
Proof.
  unfold parseImageAndInitialize3DScene, parse.
  set (w0 := on_el (with_opacity (Some "0")) w).
  change (get_src (el w0)) with (get_src (el w)).
  change (get_type (el w0)) with (get_type (el w)).
  change (get_angle (el w0)) with (get_angle (el w)).
  destruct (Js.truthy_attr (get_src (el w))) eqn:Hsrc.
  - destruct (attr_is (get_type (el w)) "vr") eqn:Hvr;
      [|destruct (attr_is (get_type (el w)) "left-right"
                  || attr_is (get_type (el w)) "top-bottom")%bool eqn:Hst;
        [|destruct (attr_is (get_type (el w)) "anaglyph") eqn:Han]].
    + by eapply (pc_called _ _ b AwaitParser (CallParseVR _)); eauto.
    + eapply (pc_called _ _ b AwaitParser (CallParseStereo _ _ _)); eauto.
      split; [done|]. unfold attr_is in Hst.
      destruct (get_type (el w)) as [ty|]; [|done].
      apply orb_true_iff in Hst as [H|H]; apply String.eqb_eq in H as ->;
        eauto.
    + by eapply (pc_called _ _ b AwaitParser (CallParseAnaglyph _ _)); eauto.
    + by eapply (pc_called _ _ b AwaitExif (CallExifr _)); eauto.
  - unfold_ops. simpl. by eapply (pc_fallback _ _ b).
Qed.

Lemma parse_change_timers (t : gmap positive Timer) (w w' : World) :
  parse_change (with_timers t w) w' -> parse_change w w'.
Proof.
  intros H; destruct H;
    [eapply pc_same | eapply pc_called | eapply pc_fallback | eapply pc_exif
    | eapply pc_parsed | eapply pc_initialized | eapply pc_dropped]; eauto.
Qed.

Lemma prevNextTest_parse dir hits now (w : World) :
  let w' := prevNextTest dir hits now w in
  tasks w' = tasks w /\ calls w' = calls w /\ console w' = console w /\
  stereoData (el w') = stereoData (el w).
Proof.
  cbv zeta. unfold prevNextTest.
  destruct (camera (el w)) as [cam|]; [|done].
  destruct (ready (el w)); simpl; [|done].
  set (w1 := on_el (with_raycaster _) w).
  destruct hits as [|hit hits].
  - simpl. by destruct (prevNextTimer (el w)).
  - cbv beta match.
    by destruct (prevNextLoop_frame now (hit :: hits) w1)
      as (_ & _ & _ & _ & _ & -> & -> & -> & _ & -> & _).
Qed.

Lemma step_parse (l : Label) (w w' : World) :
  step l w = Some w' -> parse_change w w'.
Proof.
  intros Hs. destruct l; simpl in Hs.
  - injection Hs as <-.
    apply pc_same; unfold set_type; simpl; try done; by destruct (Js.truthy val).
  - injection Hs as <-.
    apply pc_same; unfold set_angle; simpl; try done; by destruct (Js.truthy val).
  - injection Hs as <-. apply pc_same; unfold set_src, camera_home;
      destruct (Js.strict_equal _ _); simpl; try done;
      try (by destruct (camera (el w))); by destruct (Js.truthy val).
  - injection Hs as <-.
    apply pc_same; unfold set_backImageSrc; simpl; try done;
      by destruct (Js.truthy val).
  - destruct (page_attribute n); [|done]. injection Hs as <-. by apply pc_same.
  - destruct (page_attribute n); [|done]. injection Hs as <-. by apply pc_same.
  - destruct (0 <=? d)%Z; [|done]. injection Hs as <-. by apply pc_same.
  - destruct (timers w !! h) as [tm|]; [|done].
    destruct (due tm <=? clock w)%Z; [|done]. injection Hs as <-.
    destruct (callback tm).
    + apply pc_same; simpl; by destruct (prevNextTimer (el w)).
    + apply pc_same; simpl; by destruct (prevNextTimer (el w)).
    + eapply parse_change_timers. apply reparse_change.
  - destruct (animating w); [|done]. injection Hs as <-.
    unfold animation_frame.
    set (w1 := on_el (controls_update pose) w).
    set (w2 := prevNextTest direction intersects now_test w1).
    destruct (prevNextTest_parse direction intersects now_test w1)
      as (Et & Ec & Eo & Es). fold w2 in Et, Ec, Eo, Es.
    assert (stereoData (el w1) = stereoData (el w)) as Es1.
    { unfold w1, controls_update. simpl.
      by destruct (controls (el w)), (camera (el w)). }
    apply pc_same.
    + transitivity (tasks w2); [|done]. unfold_ops. split_cases.
    + transitivity (calls w2); [|done]. unfold_ops. split_cases.
    + transitivity (console w2); [|done]. unfold_ops. split_cases.
    + transitivity (stereoData (el w2)); [|congruence].
      unfold_ops. split_cases.
  - destruct (tasks w !! i) as [t|] eqn:Hi; [|done].
    destruct (stage t) eqn:Hst; try done. injection Hs as <-.
    destruct left_eye.
    + eapply (pc_exif _ _ i t); eauto.
    + eapply (pc_exif _ _ i t); eauto.
  - destruct (tasks w !! i) as [t|] eqn:Hi; [|done].
    destruct (stage t) eqn:Hst; try done. injection Hs as <-.
    by eapply (pc_parsed _ _ i t sd).
  - destruct (tasks w !! i) as [t|] eqn:Hi; [|done].
    destruct (stage t) eqn:Hst; try done; injection Hs as <-;
      eapply (pc_dropped _ _ i t); eauto; congruence.
  - destruct (tasks w !! i) as [t|] eqn:Hi; [|done].
    destruct (stage t) eqn:Hst; try done.
    + unfold initialize3DScene in Hs.
      destruct (stereoData (el w)) as [sd|] eqn:Hsd; injection Hs as <-.
      * by eapply (pc_initialized _ _ i t); eauto.
      * eapply (pc_dropped _ _ i t); eauto.
    + injection Hs as <-.
      assert (stereoData (finish_scene (el w)) = stereoData (el w)) as Hf.
      { unfold finish_scene, camera_home, addPrevNextButtons.
        destruct (camera (el w)) eqn:E; simpl; by rewrite ?E. }
      destruct (from_init t); eapply (pc_dropped _ _ i t); eauto;
        congruence.
Qed.

Lemma first_call_typed (c : ExternalCall) :
  first_call c -> untyped_stereo c = false.
Proof. destruct c as [| ? [ty|] ?| |]; simpl; try done. by intros (_ & [?|?]). Qed.

Lemma parse_ok_change (w w' : World) :
  parse_ok w -> parse_change w w' -> parse_ok w'.
Proof.
  intros (Ht & Hc & Hk) H. unfold parse_ok.
  destruct H as
    [ Et Ec Eo Es
    | b st c Et Hst Ec Hfc Eo Es
    | b sd Et Ec Eo Es
    | i t c Hi Hs Et Ec Hcase Es
    | i t sd Hi Hs Et Ec Eo Es
    | i t Hi Hs Hsd Et Ec Eo Es
    | i t Hi Hs Et Ec Eo Es ]; rewrite Et, Ec.
  - rewrite Eo, Es. done.
  - rewrite Eo, Es. split; [|split].
    + apply Forall_app. split; [done|]. apply Forall_singleton. simpl.
      intros [?|?]; destruct Hst; congruence.
    + rewrite List.filter_app. simpl. rewrite (first_call_typed c Hfc).
      by rewrite app_nil_r.
    + apply Forall_app. split; [done|]. apply Forall_singleton. by left.
  - rewrite Eo, Es. split; [|done].
    apply Forall_app. split.
    + eapply Forall_impl; [exact Ht|]. simpl. eauto.
    + apply Forall_singleton. eauto.
  - rewrite Es. split; [|split].
    + apply Forall_insert; [done|]. simpl. intros [?|?]; congruence.
    + rewrite List.filter_app, length_app.
      destruct Hcase as [[-> ->] | [-> ->]]; simpl.
      * by rewrite Nat.add_0_r.
      * rewrite Hc, Nat.add_1_r. simpl. by rewrite repeat_cons.
    + apply Forall_app. split; [done|]. apply Forall_singleton.
      destruct Hcase as [[-> _] | [-> _]]; eauto.
  - rewrite Eo, Es. split; [|done].
    apply Forall_insert; [|eauto].
    eapply Forall_impl; [exact Ht|]. simpl. eauto.
  - rewrite Eo, Es. split; [|done].
    apply Forall_insert; [done|]. by intros _.
  - rewrite Eo, Es. split; [|done]. by apply Forall_delete.
Qed.

Lemma reachable_parse_ok (w : World) : reachable w -> parse_ok w.
Proof.
  apply reachable_ind'.
  - intros attrs. unfold construct.
    match goal with
    | |- parse_ok (parseImageAndInitialize3DScene true ?w0) =>
        apply (parse_ok_change w0); [|apply reparse_change]
    end.
    unfold parse_ok. simpl. repeat apply conj; try done; constructor.
  - intros l w1 w2 _ Hok Hs. eapply parse_ok_change; [exact Hok|].
    by eapply step_parse.
Qed.

(** X10: initialize3DScene never runs on an undefined stereoData (the
    parsers being taken to resolve to a stereo data object): in every
    reachable state a pending parseImageAndInitialize3DScene that is past
    its 'await this.parse()' finds this.stereoData set, so that
    initialize3DScene returns and the task goes on to its last part; and one
    that is past 'await this.initialize3DScene()' finds stereoData and scene
    set and ends with the opacity '1'. *)
Theorem initialize3DScene_runs_on_parsed_data :
  forall (w : World) (i : nat) (t : Task),
    reachable w -> tasks w !! i = Some t ->
    (stage t = AwaitParsed ->
     exists sd e' w',
       stereoData (el w) = Some sd /\
       initialize3DScene (el w) = Returned e' /\
       step (Resume i) w = Some w' /\ el w' = e' /\
       tasks w' !! i = Some {| stage := AwaitInitialized;
                               from_init := from_init t |}) /\
    (stage t = AwaitInitialized ->
     is_Some (stereoData (el w)) /\ is_Some (scene (el w)) /\
     exists w', step (Resume i) w = Some w' /\
                tasks w' = delete i (tasks w) /\
                opacity (el w') = Some "1").
Proof.
  intros w i t Hreach Hi.
  destruct (reachable_parse_ok w Hreach) as (Ht & _).
  rewrite Forall_lookup in Ht. specialize (Ht i t Hi).
  split; intros Hst.
  - destruct Ht as [sd Hsd]; [by left|].
    unfold initialize3DScene. simpl. rewrite Hi, Hst. unfold initialize3DScene.
    rewrite Hsd. eexists sd, _, _.
    split; [done|]. split; [reflexivity|]. split; [reflexivity|].
    split; [done|]. simpl. apply list_lookup_insert_eq.
    by eapply lookup_lt_Some.
  - split; [apply Ht; by right|].
    destruct (reachable_loop_ok w Hreach) as [_ Hsc].
    rewrite Forall_lookup in Hsc. split; [by apply (Hsc i t Hi)|].
    simpl. rewrite Hi, Hst. eexists. split; [reflexivity|].
    destruct (from_init t); simpl; done.
Qed.

Lemma initialize3DScene_runs_on_parsed_data_witness :
  (reachable w_reparsing /\
   tasks w_reparsing !! 0%nat
     = Some {| stage := AwaitParsed; from_init := false |}) /\
  exists sd e', stereoData (el w_reparsing) = Some sd /\
                initialize3DScene (el w_reparsing) = Returned e'.
Proof.
  assert (reachable w_reparsing) as R
    by (exists ∅, (mounted ++ [gaze [Three.hit_under "prev"];
                               SetBackImageSrc (Js.VString "b.jpg");
                               Fire 2%positive]);
        vm_compute; reflexivity).
  split; [exact (conj R eq_refl)|].
  destruct (proj1 (initialize3DScene_runs_on_parsed_data w_reparsing 0%nat _
                     R eq_refl) eq_refl) as (sd & e' & _ & Hsd & Hinit & _).
  exists sd, e'. exact (conj Hsd Hinit).
Defined.




(** X11: the constructor of an element with a non-empty src makes exactly
    one call before it waits, chosen by comparing the type attribute with
    four strings: parseVR(src) for 'vr', parseStereo(src, {type, angle}) for
    'left-right' and 'top-bottom', parseAnaglyph(src, {angle}) for
    'anaglyph', and exifr.parse(src) for any other type and for none; at
    that point nothing is logged, stereoData is unset, no ImageData was made
    and the opacity is '0'. *)
Theorem constructor_calls_parser_of_type :
  forall (attrs : gmap string string) (src : string),
    attrs !! "src" = Some src -> src <> EmptyString ->
    exists c st,
      calls (construct attrs) = [c] /\
      tasks (construct attrs) = [{| stage := st; from_init := true |}] /\
      console (construct attrs) = [] /\
      stereoData (el (construct attrs)) = None /\
      heap (construct attrs) = ∅ /\
      opacity (el (construct attrs)) = Some "0" /\
      (attrs !! "type" = Some "vr" ->
       c = CallParseVR (Some src) /\ st = AwaitParser) /\
      (forall ty, attrs !! "type" = Some ty ->
         ty = "left-right" \/ ty = "top-bottom" ->
         c = CallParseStereo (Some src) (Some ty) (attrs !! "angle") /\
         st = AwaitParser) /\
      (attrs !! "type" = Some "anaglyph" ->
       c = CallParseAnaglyph (Some src) (attrs !! "angle") /\
       st = AwaitParser) /\
      ((forall ty, attrs !! "type" = Some ty -> ~ In ty known_types) ->
       c = CallExifr (Some src) /\ st = AwaitExif).
Proof.
  intros attrs src Hsrc Hne.
  unfold construct, parseImageAndInitialize3DScene, parse.
  unfold on_el, get_src, get_type, get_angle, getAttribute, attr_is.
  cbn [el with_el with_opacity attributes]. rewrite Hsrc.
  assert (Js.truthy_attr (Some src) = true) as ->
    by (simpl; by destruct (String.eqb_spec src EmptyString)).
  destruct (attrs !! "type") as [ty|] eqn:Hty.
  - destruct (String.eqb_spec ty "vr") as [->|Hvr].
    { eexists _, _. do 6 (split; [reflexivity|]).
      repeat apply conj; try done.
      - by intros ty [= <-] [?|?].
      - intros Hno. exfalso. apply (Hno "vr" eq_refl). by left. }
    destruct (String.eqb_spec ty "left-right") as [->|Hlr].
    { eexists _, _. do 6 (split; [reflexivity|]).
      repeat apply conj; try done.
      - by intros ty [= <-] _.
      - intros Hno. exfalso. apply (Hno "left-right" eq_refl). right. by left. }
    destruct (String.eqb_spec ty "top-bottom") as [->|Htb].
    { eexists _, _. do 6 (split; [reflexivity|]).
      repeat apply conj; try done.
      - by intros ty [= <-] _.
      - intros Hno. exfalso. apply (Hno "top-bottom" eq_refl).
        right. right. by left. }
    destruct (String.eqb_spec ty "anaglyph") as [->|Han].
    { eexists _, _. do 6 (split; [reflexivity|]).
      repeat apply conj; try done.
      - by intros ty [= <-] [?|?].
      - intros Hno. exfalso. apply (Hno "anaglyph" eq_refl).
        right. right. right. by left. }
    eexists _, _. do 6 (split; [reflexivity|]).
    repeat apply conj; try done; try congruence.
    intros ty' [= <-] [?|?]; congruence.
  - eexists _, _. do 6 (split; [reflexivity|]).
    repeat apply conj; try done.
Qed.

Lemma constructor_calls_parser_of_type_witness :
  (attrs_src_only !! "src" = Some "a.jpg" /\ "a.jpg" <> EmptyString) /\
  exists c st,
    calls (construct attrs_src_only) = [c] /\
    tasks (construct attrs_src_only)
      = [{| stage := st; from_init := true |}].
Proof.
  assert (attrs_src_only !! "src" = Some "a.jpg") as H1 by reflexivity.
  assert ("a.jpg" <> EmptyString) as H2 by discriminate.
  split; [exact (conj H1 H2)|].
  destruct (constructor_calls_parser_of_type attrs_src_only "a.jpg" H1 H2)
    as (c & st & Hc & Ht & _).
  exists c, st. exact (conj Hc Ht).
Defined.

Lemma construct_reads_metadata (attrs : gmap string string) (src : string) :
  attrs !! "src" = Some src -> src <> EmptyString ->
  (forall ty, attrs !! "type" = Some ty -> ~ In ty known_types) ->
  construct attrs
  = {| el := {| attributes := attrs; opacity := Some "0";
                stereoData := None;
                scene := None; camera := None; raycaster := None;
                prevNextButtons := None; timerRing := None;
                prevNextTimer := None; prevNextTimerStartMS := None;
                timerRingForPrev := None; renderer := false;
                controls := false |};
       timers := ∅; next_handle := 1%positive; clock := 0;
       dispatched := []; console := []; calls := [CallExifr (Some src)];
       tasks := [{| stage := AwaitExif; from_init := true |}];
       heap := ∅; next_obj := 1%positive; animating := false |}.
Proof.
  intros Hsrc Hne Hty.
  unfold construct, parseImageAndInitialize3DScene, parse.
  unfold on_el, get_src, get_type, get_angle, getAttribute, attr_is.
  cbn [el with_el with_opacity attributes]. rewrite Hsrc.
  assert (Js.truthy_attr (Some src) = true) as ->
    by (simpl; by destruct (String.eqb_spec src EmptyString)).
  destruct (attrs !! "type") as [ty|] eqn:E; [|reflexivity].
  specialize (Hty ty eq_refl). unfold known_types in Hty. simpl in Hty.
  destruct (String.eqb_spec ty "vr"); [exfalso; apply Hty; subst; auto 6|].
  destruct (String.eqb_spec ty "left-right"); [exfalso; apply Hty; subst; auto 6|].
  destruct (String.eqb_spec ty "top-bottom"); [exfalso; apply Hty; subst; auto 6|].
  destruct (String.eqb_spec ty "anaglyph"); [exfalso; apply Hty; subst; auto 6|].
  reflexivity.
Qed.

(** X12: parse reads this.src again after the metadata reader has answered:
    when src is assigned another value while exifr.parse is pending, the
    parser that follows is called with the new value of src (null when the
    value was falsy), not with the one the metadata were read from; with a
    left eye in the metadata it is parseVR, without one it is parseStereo
    with no type and the current angle, after one warning. *)
Theorem src_is_read_again_after_the_metadata :
  forall (attrs : gmap string string) (src : string) (val : Js.value)
         (left_eye : bool),
    attrs !! "src" = Some src -> src <> EmptyString ->
    (forall ty, attrs !! "type" = Some ty -> ~ In ty known_types) ->
    Js.strict_equal (Some src) val = false ->
    exists w,
      run [SetSrc val; ExifAnswer 0 left_eye] (construct attrs) = Some w /\
      calls w
        = [CallExifr (Some src);
           if left_eye then CallParseVR (src_after val)
           else CallParseStereo (src_after val) None (attrs !! "angle")] /\
      console w = (if left_eye then [] else [no_type_warning]) /\
      tasks w = [{| stage := AwaitParser; from_init := true |}].
Proof.
  intros attrs src val left_eye Hsrc Hne Hty Hval.
  rewrite (construct_reads_metadata attrs src Hsrc Hne Hty).
  unfold run, step, set_src, getAttribute, src_after.
  cbn [el attributes]. rewrite Hsrc, Hval.
  cbn [snd setTimeout on_el with_el el tasks with_next_handle with_timers
       lookup list_lookup stage].
  eexists. split; [reflexivity|].
  unfold parse_after_exif, get_src, get_angle, getAttribute.
  destruct (Js.truthy val), left_eye; simpl;
    rewrite ?lookup_insert_eq, ?lookup_delete_eq,
      ?lookup_insert_ne, ?lookup_delete_ne by done; done.
Qed.

Lemma src_is_read_again_after_the_metadata_witness :
  (attrs_src_only !! "src" = Some "a.jpg" /\ "a.jpg" <> EmptyString /\
   (forall ty, attrs_src_only !! "type" = Some ty -> ~ In ty known_types) /\
   Js.strict_equal (Some "a.jpg") (Js.VString "b.jpg") = false) /\
  exists w,
    run [SetSrc (Js.VString "b.jpg"); ExifAnswer 0 true]
        (construct attrs_src_only) = Some w /\
    calls w = [CallExifr (Some "a.jpg"); CallParseVR (Some "b.jpg")].
Proof.
  assert (attrs_src_only !! "src" = Some "a.jpg") as H1 by reflexivity.
  assert ("a.jpg" <> EmptyString) as H2 by discriminate.
  assert (forall ty, attrs_src_only !! "type" = Some ty -> ~ In ty known_types)
    as H3 by (intros ty Hty; vm_compute in Hty; discriminate Hty).
  assert (Js.strict_equal (Some "a.jpg") (Js.VString "b.jpg") = false) as H4
    by reflexivity.
  split; [exact (conj H1 (conj H2 (conj H3 H4)))|].
  destruct (src_is_read_again_after_the_metadata attrs_src_only "a.jpg"
              (Js.VString "b.jpg") true H1 H2 H3 H4) as (w & Hrun & Hc & _).
  exists w. exact (conj Hrun Hc).
Defined.

Lemma reparse_tasks (b : bool) (w : World) :
  exists st, tasks (parseImageAndInitialize3DScene b w)
             = tasks w ++ [{| stage := st; from_init := b |}].
Proof.
  unfold parseImageAndInitialize3DScene.
  destruct (parse (on_el (with_opacity (Some "0")) w)) as [st w1] eqn:E.
  assert (tasks w1 = tasks w) as Ht1.
  { apply (f_equal snd) in E. simpl in E. rewrite <- E.
    unfold_ops. split_cases. }
  simpl. rewrite Ht1. eauto.
Qed.

Lemma reparse_begins (b : bool) (w : World) :
  let w' := parseImageAndInitialize3DScene b w in
  timers w' = timers w /\ opacity (el w') = Some "0" /\
  length (tasks w') = S (length (tasks w)) /\ scene (el w') = scene (el w).
Proof.
  cbv zeta.
  destruct (same_window_reparse b w) as (Et & _).
  destruct (reparse_el b w) as (_ & He).
  destruct (reparse_tasks b w) as (st & Hst).
  split; [done|]. rewrite Hst, length_app. simpl.
  destruct He as [-> | (sd & ->)]; repeat split; lia.
Qed.

(** X14: assigning src a value other than the current attribute, and
    assigning backImageSrc any value (the current one included), starts
    exactly one timer of 0 ms under a new handle and changes neither the
    pending parses nor the scene nor the opacity; when that timer fires it
    leaves the table, the opacity becomes '0', one more
    parseImageAndInitialize3DScene is pending, and the scene is still the
    old one. *)
Theorem setting_a_source_reparses :
  forall (w : World) (val : Js.value),
    reachable w ->
    (Js.strict_equal (get_src (el w)) val = false ->
     schedules_reparse (SetSrc val) w) /\
    schedules_reparse (SetBackImageSrc val) w.
Proof.
  intros w val Hreach.
  assert (timers w !! next_handle w = None) as Hfresh.
  { destruct (reachable_window_ok w Hreach) as (H1 & _).
    destruct (timers w !! next_handle w) as [tm|] eqn:E; [|done].
    apply H1 in E. lia. }
  assert (forall f : Element -> Element,
            scene (f (el w)) = scene (el w) ->
            opacity (f (el w)) = opacity (el w) ->
            forall l,
              step l w = Some (snd (setTimeout Reparse 0 (on_el f w))) ->
              schedules_reparse l w) as Hgen.
  { intros f Hsc Hop l Hl.
    set (w1 := snd (setTimeout Reparse 0 (on_el f w))) in *.
    assert (timers w1
            = <[next_handle w := {| due := clock w; callback := Reparse |}]>
                (timers w)) as Ht1
      by (unfold w1; simpl; by rewrite Z.add_0_r).
    destruct (reparse_begins false
                (with_timers (delete (next_handle w) (timers w1)) w1))
      as (Et2 & Eo2 & El2 & Es2).
    eexists w1, _. split; [exact Hl|]. split; [exact Hfresh|].
    split; [exact Ht1|]. do 4 (split; [done|]).
    split.
    { simpl. rewrite lookup_insert_eq. simpl.
      destruct (Z.leb_spec (clock w + 0) (clock w)); [reflexivity | lia]. }
    change (run_callback Reparse ?x)
      with (parseImageAndInitialize3DScene false x).
    split; [|split; [|split]].
    - simpl in Et2. simpl. rewrite Z.add_0_r in *. rewrite Et2.
      by apply delete_insert_id.
    - simpl in Eo2. simpl. by rewrite Z.add_0_r in *.
    - simpl in El2. simpl. by rewrite Z.add_0_r in *.
    - simpl in Es2. simpl. rewrite Z.add_0_r in *. by rewrite Es2. }
  split.
  - intros Hne.
    apply (Hgen (fun e => if Js.truthy val
                          then setAttribute "src" (Js.ToString val) e
                          else removeAttribute "src" e)).
    + by destruct (Js.truthy val).
    + by destruct (Js.truthy val).
    + simpl. unfold set_src. unfold get_src in Hne. by rewrite Hne.
  - apply (Hgen (fun e => if Js.truthy val
                          then setAttribute "backImageSrc" (Js.ToString val) e
                          else removeAttribute "backImageSrc" e)).
    + by destruct (Js.truthy val).
    + by destruct (Js.truthy val).
    + reflexivity.
Qed.

Lemma setting_a_source_reparses_witness :
  (reachable w_mounted /\
   Js.strict_equal (get_src (el w_mounted)) (Js.VString "a.jpg") = false) /\
  schedules_reparse (SetSrc (Js.VString "a.jpg")) w_mounted.
Proof.
  assert (reachable w_mounted) as R
    by (exists ∅, mounted; vm_compute; reflexivity).
  split; [exact (conj R eq_refl)|].
  exact (proj1 (setting_a_source_reparses w_mounted (Js.VString "a.jpg") R)
           eq_refl).
Defined.



Lemma filter_length_insert {A : Type} (f : A -> bool) (l : list A) (i : nat)
    (x y : A) :
  l !! i = Some x -> f y = f x ->
  length (List.filter f (<[i := y]> l)) = length (List.filter f l).
Proof.
  revert i. induction l as [|z l IH]; intros [|i] Hi Hf; simpl in *; try done.
  - injection Hi as ->. rewrite Hf. by destruct (f x).
  - destruct (f z); simpl; rewrite (IH i Hi Hf); done.
Qed.

Lemma filter_length_delete {A : Type} (f : A -> bool) (l : list A) (i : nat)
    (x : A) :
  l !! i = Some x ->
  length (List.filter f l)
  = (length (List.filter f (delete i l)) + (if f x then 1 else 0))%nat.
Proof.
  revert i. induction l as [|z l IH]; intros [|i] Hi; simpl in *; try done.
  - injection Hi as ->. destruct (f x); simpl; lia.
  - destruct (f z); simpl; rewrite (IH i Hi); lia.
Qed.

Lemma filter_length_none {A : Type} (f : A -> bool) (l : list A) :
  length (List.filter f l) = 0%nat -> Forall (fun x => f x = false) l.
Proof.
  induction l as [|z l IH]; simpl; [constructor|].
  destruct (f z) eqn:E; simpl; [done|]. intros H. constructor; auto.
Qed.

Lemma animating_frame pose dir hits n1 n2 (w : World) :
  animating (animation_frame pose dir hits n1 n2 w) = animating w /\
  tasks (animation_frame pose dir hits n1 n2 w) = tasks w.
Proof.
  unfold animation_frame.
  set (w1 := on_el (controls_update pose) w).
  pose proof (prevNextTest_fields dir hits n1 w1) as H2.
  pose proof (prevNextTest_parse dir hits n1 w1) as P2.
  pose proof (updatePrevNextRing_fields n2 (prevNextTest dir hits n1 w1))
    as H3.
  cbv zeta in H2, P2, H3.
  destruct H2 as (Ea2 & _), P2 as (Et2 & _), H3 as (Ea3 & _).
  split; [by rewrite Ea3, Ea2|].
  transitivity (tasks (prevNextTest dir hits n1 w1)); [|done].
  unfold_ops. split_cases.
Qed.

Lemma init_count_step (l : Label) (w w' : World) :
  step l w = Some w' -> (init_count w' <= init_count w)%nat.
Proof.
  intros Hs. unfold init_count. destruct l; simpl in Hs.
  - injection Hs as <-. unfold set_type; simpl. done.
  - injection Hs as <-. unfold set_angle; simpl. done.
  - injection Hs as <-. unfold set_src, camera_home;
      destruct (Js.strict_equal _ _); simpl; done.
  - injection Hs as <-. unfold set_backImageSrc; simpl. done.
  - destruct (page_attribute n); [|done]. injection Hs as <-. done.
  - destruct (page_attribute n); [|done]. injection Hs as <-. done.
  - destruct (0 <=? d)%Z; [|done]. injection Hs as <-. done.
  - destruct (timers w !! h) as [tm|]; [|done].
    destruct (due tm <=? clock w)%Z; [|done]. injection Hs as <-.
    destruct (callback tm).
    + simpl. by destruct (prevNextTimer (el w)).
    + simpl. by destruct (prevNextTimer (el w)).
    + simpl.
      destruct (reparse_el false (with_timers (delete h (timers w)) w))
        as [-> _].
      destruct (reparse_tasks false (with_timers (delete h (timers w)) w))
        as [st ->].
      rewrite List.filter_app. simpl. rewrite app_nil_r. done.
  - destruct (animating w) eqn:Ha; [|done]. injection Hs as <-.
    destruct (animating_frame pose direction intersects now_test now_ring w)
      as [-> ->].
    by rewrite Ha.
  - destruct (tasks w !! i) as [t|] eqn:Hi; [|done].
    destruct (stage t) eqn:Hst; try done. injection Hs as <-.
    unfold set_stage, parse_after_exif. destruct left_eye; simpl;
      by rewrite (filter_length_insert from_init (tasks w) i t).
  - destruct (tasks w !! i) as [t|] eqn:Hi; [|done].
    destruct (stage t) eqn:Hst; try done. injection Hs as <-.
    unfold set_stage, parse_after_parser; simpl.
    by rewrite (filter_length_insert from_init (tasks w) i t).
  - destruct (tasks w !! i) as [t|] eqn:Hi; [|done].
    destruct (stage t) eqn:Hst; try done; injection Hs as <-; simpl;
      rewrite (filter_length_delete from_init (tasks w) i t Hi); lia.
  - destruct (tasks w !! i) as [t|] eqn:Hi; [|done].
    destruct (stage t); try done.
    + destruct (initialize3DScene (el w)) as [e'|e']; injection Hs as <-;
        simpl.
      * rewrite (filter_length_insert from_init (tasks w) i t) by done. lia.
      * rewrite (filter_length_delete from_init (tasks w) i t Hi).
        destruct (from_init t); lia.
    + injection Hs as <-.
      rewrite (filter_length_delete from_init (tasks w) i t Hi).
      destruct (from_init t); simpl; [|lia].
      destruct (animating w); lia.
Qed.

Lemma init_count_construct attrs : init_count (construct attrs) = 1%nat.
Proof.
  unfold init_count, construct.
  match goal with
  | |- context [parseImageAndInitialize3DScene true ?w0] =>
      destruct (reparse_el true w0) as [-> _];
      destruct (reparse_tasks true w0) as [st ->]
  end.
  reflexivity.
Qed.

Lemma reachable_init_count (w : World) :
  reachable w -> (init_count w <= 1)%nat.
Proof.
  revert w. apply (reachable_ind' (fun w => (init_count w <= 1)%nat)).
  - intros attrs. by rewrite init_count_construct.
  - intros l w1 w2 _ IH Hs. pose proof (init_count_step l w1 w2 Hs). lia.
Qed.

Lemma init_count_zero (w : World) : init_count w = 0%nat -> unmountable w.
Proof.
  unfold init_count, unmountable. intros H.
  destruct (animating w); [lia|]. split; [done|].
  apply filter_length_none. lia.
Qed.

Lemma init_count_run (ls : list Label) (w w' : World) :
  run ls w = Some w' -> (init_count w' <= init_count w)%nat.
Proof.
  revert w. induction ls as [|l ls IH]; intros w Hr; simpl in Hr.
  - injection Hr as <-. done.
  - destruct (step l w) as [w1|] eqn:Hs; [|done].
    pose proof (init_count_step l w w1 Hs). pose proof (IH w1 Hr). lia.
Qed.

Lemma reachable_run (ls : list Label) (w w' : World) :
  reachable w -> run ls w = Some w' -> reachable w'.
Proof.
  intros (attrs & ls0 & Hr0) Hr. exists attrs, (ls0 ++ ls).
  rewrite run_app, Hr0. done.
Qed.

(** X28: if the metadata reader or the parser rejects for the parse that the
    constructor started, the rest of init never runs, whatever happens
    later: after any further events, assignments to src and successful re-
    parses included, the element has no camera, renderer, controls or
    navigation buttons, no animation step can run and no navigation event
    was dispatched. *)
Theorem rejected_first_parse_never_mounts :
  forall (w w0 w' : World) (i : nat) (t : Task) (ls : list Label),
    reachable w ->
    tasks w !! i = Some t -> from_init t = true ->
    step (Reject i) w = Some w0 ->
    run ls w0 = Some w' ->
    animating w' = false /\ camera (el w') = None /\
    renderer (el w') = false /\ controls (el w') = false /\
    prevNextButtons (el w') = None /\ dispatched w' = [] /\
    forall pose direction intersects now_test now_ring,
      step (Frame pose direction intersects now_test now_ring) w'
      = @None World.
Proof.
  intros w w0 w' i t ls R Hi Hf Hs Hr.
  pose proof (reachable_init_count w R) as Hc.
  assert (init_count w0 = 0)%nat as H0.
  { simpl in Hs. rewrite Hi in Hs.
    assert (w0 = drop_task i w) as -> by (destruct (stage t); congruence).
    revert Hc. unfold init_count, drop_task. simpl.
    rewrite (filter_length_delete from_init (tasks w) i t Hi), Hf. lia. }
  pose proof (init_count_run ls w0 w' Hr) as Hle.
  destruct (init_count_zero w') as [Ha _]; [lia|].
  assert (reachable w') as R'.
  { apply (reachable_run ls w0); [|done].
    apply (reachable_run [Reject i] w); [done|]. simpl.
    simpl in Hs. by rewrite Hs. }
  destruct (reachable_mounted_ok w' R') as (_ & Hoff & _).
  destruct (Hoff Ha) as (Hcam & _ & Hb & Hren & Hctl & _ & _ & Hd).
  repeat apply conj; try done.
  intros. simpl. by rewrite Ha.
Qed.

Lemma rejected_first_parse_never_mounts_witness :
  (reachable (construct attrs_src_only) /\
   step (Reject 0) (construct attrs_src_only) = Some w_rejected /\
   run retried w_rejected = Some w_retried) /\
  animating w_retried = false /\ dispatched w_retried = [].
Proof.
  assert (reachable (construct attrs_src_only)) as R
    by (exists attrs_src_only, []; reflexivity).
  assert (tasks (construct attrs_src_only) !! 0%nat
          = Some {| stage := AwaitExif; from_init := true |}) as Hi
    by (vm_compute; reflexivity).
  assert (step (Reject 0) (construct attrs_src_only) = Some w_rejected) as Hs
    by (vm_compute; reflexivity).
  assert (run retried w_rejected = Some w_retried) as Hr
    by (vm_compute; reflexivity).
  split; [exact (conj R (conj Hs Hr))|].
  destruct (rejected_first_parse_never_mounts
              (construct attrs_src_only) w_rejected w_retried 0
              {| stage := AwaitExif; from_init := true |} retried
              R Hi eq_refl Hs Hr) as (Ha & _ & _ & _ & _ & Hd & _).
  exact (conj Ha Hd).
Defined.

(** ** Registration of the element *)

(** X16: the module registers its class under 'stereo-img' only when that
    name is free: the registration never raises the error that define()
    raises on a name in use; afterwards 'stereo-img' is defined; a class
    registered under that name before is kept; every other name is
    untouched; and evaluating the registration again changes nothing. *)
Theorem registration_keeps_an_earlier_element :
  forall (registry : gmap string Registry.Class),
    exists registry',
      Registry.register registry = Some registry' /\
      is_Some (registry' !! "stereo-img") /\
      (forall c, registry !! "stereo-img" = Some c -> registry' = registry) /\
      (registry !! "stereo-img" = None ->
       registry' !! "stereo-img" = Some Registry.StereoImgClass) /\
      (forall name, name <> "stereo-img" ->
         registry' !! name = registry !! name) /\
      Registry.register registry' = Some registry'.
Proof.
  intros registry. unfold Registry.register, Registry.get, Registry.define.
  destruct (registry !! "stereo-img") as [c|] eqn:E.
  - exists registry. rewrite E. by repeat split; eauto.
  - eexists. split; [reflexivity|].
    rewrite lookup_insert_eq. repeat split; eauto.
    + done.
    + intros name Hne. by rewrite lookup_insert_ne.
Qed.

(** ** The scale at and beyond its ends *)

Lemma ltb_irrefl (v : float) : PrimFloat.ltb v v = false.
Proof.
  rewrite FloatAxioms.ltb_spec. unfold SFltb.
  destruct (Prim2SF v) as [[|]|[|]| |[|] m e]; cbn; try done;
    by rewrite Z.compare_refl, Pos.compare_cont_refl.
Qed.

Lemma SFsub_diag (x : spec_float) : zero_or_nan (SF64sub x x).
Proof.
  destruct x as [[|]|[|]| |s m e]; cbn; try done.
  unfold SF64sub, SFsub. by rewrite Z.sub_diag.
Qed.

Lemma SFmul_zero_or_nan (x z : spec_float) :
  zero_or_nan z -> zero_or_nan (SF64mul x z).
Proof. destruct x as [?|?| |? ? ?], z as [?|?| |? ? ?]; cbn; done. Qed.

Lemma SFdiv_zero_or_nan (n d : spec_float) :
  zero_or_nan n -> zero_or_nan d -> SF64div n d = S754_nan.
Proof. destruct n as [?|?| |? ? ?], d as [?|?| |? ? ?]; cbn; done. Qed.

Lemma SFadd_nan (c : spec_float) : SF64add c S754_nan = S754_nan.
Proof. by destruct c. Qed.

(** With an empty input range the clamped factor is the bound itself,
    unless one of the two is NaN. *)
Lemma clamp_double_degenerate (factor a : float) :
  clamp (T := float) factor a a
  = if (PrimFloat.is_nan factor || PrimFloat.is_nan a)%bool then nan else a.
Proof.
  unfold clamp. simpl. unfold Arith.Math_max, Arith.Math_min.
  destruct (PrimFloat.is_nan factor || PrimFloat.is_nan a)%bool eqn:Hn;
    [reflexivity|].
  apply orb_false_iff in Hn as [Hf Ha].
  destruct (PrimFloat.ltb factor a) eqn:H1.
  { rewrite Ha, ltb_irrefl. simpl. by destruct (Arith.is_neg_zero a). }
  destruct (PrimFloat.ltb a factor) eqn:H2.
  { by rewrite Hf, Ha, H1, H2. }
  destruct (Arith.is_neg_zero factor) eqn:H3.
  { rewrite Ha, ltb_irrefl. simpl. by destruct (Arith.is_neg_zero a). }
  by rewrite Hf, Ha, H1, H2, H3.
Qed.

Lemma linearScale_double_nan (f a b c d : float) :
  zero_or_nan (Prim2SF (PrimFloat.sub f a)) ->
  zero_or_nan (Prim2SF (PrimFloat.sub b a)) ->
  PrimFloat.is_nan
    (PrimFloat.add c
       (PrimFloat.div (PrimFloat.mul (PrimFloat.sub d c) (PrimFloat.sub f a))
                      (PrimFloat.sub b a))) = true.
Proof.
  intros Hf Hb. apply is_nan_SF.
  rewrite add_spec, div_spec, mul_spec.
  rewrite SFdiv_zero_or_nan; [apply SFadd_nan | | done].
  by apply SFmul_zero_or_nan.
Qed.

(** X17: in binary64 arithmetic linearScale(factor, a, a, minOutput,
    maxOutput, true), whose input range is empty, is NaN whatever the
    arguments are (0 / 0 after clamping); and linearScale of a NaN factor is
    NaN for all bounds, so that the sweep angle of the ring is NaN when the
    elapsed time is. *)
Theorem linearScale_of_empty_range_is_NaN :
  (forall (factor a minOutput maxOutput : float),
     PrimFloat.is_nan
       (linearScale (T := float) factor a a minOutput maxOutput true)
     = true) /\
  (forall (factor minInput maxInput minOutput maxOutput : float),
     PrimFloat.is_nan factor = true ->
     PrimFloat.is_nan
       (linearScale (T := float) factor minInput maxInput minOutput
          maxOutput true) = true /\
     PrimFloat.is_nan (sweep (T := float) factor true) = true /\
     PrimFloat.is_nan (sweep (T := float) factor false) = true).
Proof.
  split.
  - intros factor a c d. unfold linearScale. rewrite clamp_double_degenerate.
    simpl. apply linearScale_double_nan.
    + destruct (_ || _)%bool.
      * by rewrite sub_spec.
      * rewrite sub_spec. apply SFsub_diag.
    + rewrite sub_spec. apply SFsub_diag.
  - intros factor a b c d Hn.
    assert (forall a b c d,
              PrimFloat.is_nan
                (linearScale (T := float) factor a b c d true) = true) as H.
    { clear a b c d. intros a b c d. unfold linearScale, clamp. simpl.
      unfold Arith.Math_max. rewrite Hn. simpl.
      unfold Arith.Math_min. simpl.
      apply is_nan_SF.
      rewrite add_spec, div_spec, mul_spec, (sub_spec nan).
      assert (Prim2SF nan = S754_nan) as -> by reflexivity.
      assert (forall y, SF64sub S754_nan y = S754_nan) as -> by done.
      assert (forall x, SF64mul x S754_nan = S754_nan) as ->
        by (by intros [?|?| |? ? ?]).
      assert (forall y, SF64div S754_nan y = S754_nan) as -> by done.
      apply SFadd_nan. }
    split; [apply H|]. split; apply H.
Qed.

Lemma linearScale_of_empty_range_is_NaN_witness :
  PrimFloat.is_nan nan = true /\
  PrimFloat.is_nan (sweep (T := float) nan true) = true /\
  PrimFloat.is_nan
    (linearScale (T := float) 5%float 3%float 3%float 0%float 1%float true)
  = true.
Proof.
  split; [reflexivity|]. split.
  - exact (proj1 (proj2 (proj2 linearScale_of_empty_range_is_NaN
                           nan 0%float 1%float 0%float 1%float eq_refl))).
  - exact (proj1 linearScale_of_empty_range_is_NaN
             5%float 3%float 0%float 1%float).
Defined.

Lemma ltb_not_nan (x y : float) :
  PrimFloat.ltb x y = true ->
  PrimFloat.is_nan x = false /\ PrimFloat.is_nan y = false /\
  PrimFloat.ltb y x = false.
Proof.
  intros H.
  assert (PrimFloat.is_nan x = false /\ PrimFloat.is_nan y = false)
    as [Hx Hy].
  { revert H. rewrite FloatAxioms.ltb_spec, !not_nan. unfold SFltb.
    destruct (Prim2SF x), (Prim2SF y); simpl; done. }
  split; [done|]. split; [done|].
  destruct (double_order x y Hx Hy) as (_ & Hlt & _).
  destruct (double_order y x Hy Hx) as (_ & Hgt & _).
  apply Hlt in H. destruct (PrimFloat.ltb y x); [|done].
  pose proof (proj1 Hgt eq_refl). lia.
Qed.

Lemma clamp_double_inside (v lo hi : float) :
  PrimFloat.ltb lo v = true -> PrimFloat.ltb v hi = true ->
  clamp (T := float) v lo hi = v.
Proof.
  intros H1 H2.
  destruct (ltb_not_nan _ _ H1) as (Nlo & Nv & G1).
  destruct (ltb_not_nan _ _ H2) as (_ & Nhi & G2).
  unfold clamp. cbn [Arith.math_min Arith.math_max Arith.double].
  unfold Arith.Math_max. rewrite Nv, Nlo, G1, H1. cbn [orb].
  unfold Arith.Math_min. by rewrite Nv, Nhi, H2.
Qed.

(** X18: in binary64 arithmetic, for a factor strictly inside the input
    range, clamping changes nothing: linearScale gives the same Number with
    shouldClamp true and false, for all bounds. For the ring this means
    that at an elapsed time strictly between 0 and 1000 ms the sweep angle
    is 0 + (Math.PI * 2) * elapsed / 1000 for 'prev' and
    0 + (-Math.PI * 2) * elapsed / 1000 for 'next', evaluated from left to
    right with one rounding after the product and one after the
    quotient. *)
Theorem linearScale_inside_range_is_unclamped :
  (forall (factor minInput maxInput minOutput maxOutput : float),
     PrimFloat.ltb minInput factor = true ->
     PrimFloat.ltb factor maxInput = true ->
     linearScale (T := float) factor minInput maxInput minOutput maxOutput
       true
     = linearScale (T := float) factor minInput maxInput minOutput maxOutput
         false) /\
  (forall (elapsed : float) (forPrev : bool),
     PrimFloat.ltb 0%float elapsed = true ->
     PrimFloat.ltb elapsed 1000%float = true ->
     sweep (T := float) elapsed forPrev
     = PrimFloat.add 0%float
         (PrimFloat.div
            (PrimFloat.mul (if forPrev then two_pi else minus_two_pi)
                           elapsed)
            1000%float)).
Proof.
  split.
  - intros f a b c d H1 H2. unfold linearScale.
    by rewrite (clamp_double_inside f a b H1 H2).
  - intros e p H1 H2. rewrite sweep_double_unfold.
    by rewrite (clamp_double_inside e _ _ H1 H2).
Qed.

Lemma linearScale_inside_range_is_unclamped_witness :
  (PrimFloat.ltb 0%float 250%float = true /\
   PrimFloat.ltb 250%float 1000%float = true) /\
  linearScale (T := float) 250%float 0%float 1000%float 0%float two_pi true
  = linearScale (T := float) 250%float 0%float 1000%float 0%float two_pi
      false /\
  sweep (T := float) 250%float true
  = PrimFloat.add 0%float
      (PrimFloat.div (PrimFloat.mul two_pi 250%float) 1000%float).
Proof.
  assert (PrimFloat.ltb 0%float 250%float = true) as H1 by reflexivity.
  assert (PrimFloat.ltb 250%float 1000%float = true) as H2 by reflexivity.
  split; [exact (conj H1 H2)|]. split.
  - exact (proj1 linearScale_inside_range_is_unclamped
             250%float 0%float 1000%float 0%float two_pi H1 H2).
  - exact (proj2 linearScale_inside_range_is_unclamped 250%float true H1 H2).
Defined.

Lemma opp_sord (x : float) :
  sordF (PrimFloat.opp x) = (- sordF x)%Z /\
  PrimFloat.is_nan (PrimFloat.opp x) = PrimFloat.is_nan x.
Proof.
  split.
  - unfold sordF. rewrite opp_spec. apply SFopp_sord.
  - destruct (PrimFloat.is_nan x) eqn:E.
    + apply is_nan_SF. rewrite opp_spec. apply SF_of_nan in E.
      by rewrite E.
    + apply not_nan. rewrite opp_spec. apply not_nan in E.
      by destruct (Prim2SF x).
Qed.

(** X19: in binary64 arithmetic, at every elapsed time that is not NaN,
    the sweep angle of the ring for 'next' is the negative of the one for
    'prev': the two rings of a dwell of the same length mirror each other
    (the two Numbers are equal under ===, neither is NaN). *)
Theorem next_sweep_mirrors_prev_sweep :
  forall (elapsed : float),
    PrimFloat.is_nan elapsed = false ->
    PrimFloat.eqb (sweep (T := float) elapsed false)
                  (PrimFloat.opp (sweep (T := float) elapsed true)) = true /\
    PrimFloat.is_nan (sweep (T := float) elapsed true) = false /\
    PrimFloat.is_nan (sweep (T := float) elapsed false) = false.
Proof.
  intros e He.
  destruct (sweep_double_between e He) as (_ & Hm & N1 & N2).
  destruct (opp_sord (sweep (T := float) e true)) as [Eo No].
  split; [|done].
  apply double_order; [done | by rewrite No | by rewrite Eo].
Qed.

Lemma next_sweep_mirrors_prev_sweep_witness :
  PrimFloat.is_nan 250%float = false /\
  PrimFloat.eqb (sweep (T := float) 250%float false)
                (PrimFloat.opp (sweep (T := float) 250%float true)) = true.
Proof.
  split; [reflexivity|].
  exact (proj1 (next_sweep_mirrors_prev_sweep 250%float eq_refl)).
Defined.

(** ** Requests and fallbacks of the VR button *)

Lemma stylizeElement_display (v : string) (e : VRButton.HTMLElement) :
  VRButton.stylizeElement (VRButton.set_style "display" v e)
  = VRButton.stylizeElement e.
Proof.
  unfold VRButton.stylizeElement, VRButton.set_style.
  cbn [VRButton.with_style VRButton.style VRButton.tagName VRButton.id
       VRButton.textContent VRButton.innerHTML VRButton.href
       VRButton.onclick VRButton.onmouseenter VRButton.onmouseleave].
  by rewrite insert_insert_eq.
Qed.

(** X20: with 'xr' in navigator, createButton returns the button itself,
    with the id 'VRButton' and exactly the style that stylizeElement gives a
    new element: the display 'none' set just before is overwritten by the
    empty display of stylizeElement, so the button is not hidden while
    isSessionSupported is pending; it has no text and no handler, nothing
    was requested or logged, and a click does nothing. *)
Theorem createButton_shows_button_while_probing :
  forall (p : VRButton.Page),
    VRButton.xr_in_navigator p = true ->
    let s := VRButton.createButton p in
    VRButton.returned s = VRButton.button s /\
    VRButton.button s
      = VRButton.stylizeElement
          (VRButton.with_id "VRButton" (VRButton.createElement "button")) /\
    VRButton.style (VRButton.button s) !! "display" = Some EmptyString /\
    ~ VRButton.hidden (VRButton.button s) /\
    VRButton.textContent (VRButton.button s) = EmptyString /\
    VRButton.handlers_cleared (VRButton.button s) /\
    VRButton.probing s = true /\ VRButton.closure s = None /\
    VRButton.requests s = [] /\ VRButton.console s = [] /\
    VRButton.step VRButton.Click s = Some s.
Proof.
  intros p Hxr. cbv zeta. unfold VRButton.createButton. rewrite Hxr.
  cbn [VRButton.returned VRButton.message VRButton.button].
  rewrite stylizeElement_display.
  split; [reflexivity|]. split; [reflexivity|].
  split; [vm_compute; reflexivity|].
  split; [intros H; vm_compute in H; discriminate H|].
  split; [reflexivity|].
  split; [vm_compute; by repeat split|].
  do 4 (split; [reflexivity|]).
  vm_compute. reflexivity.
Qed.

Lemma createButton_shows_button_while_probing_witness :
  VRButton.xr_in_navigator page_with_xr = true /\
  ~ VRButton.hidden (VRButton.button (VRButton.createButton page_with_xr)).
Proof.
  split; [reflexivity|].
  exact (proj1 (proj2 (proj2 (proj2
           (createButton_shows_button_while_probing page_with_xr eq_refl))))).
Defined.



Lemma click_requests_ok (s : VRButton.State) :
  vr_ok s -> requests_ok s -> requests_ok (VRButton.click s).
Proof.
  intros Hok (Hr & Hu & He). unfold VRButton.click, VRButton.click_handler.
  destruct (VRButton.onclick (VRButton.button s)) as [[]|]; [|done].
  destruct (VRButton.closure s) as [[[session|]]|] eqn:Hc;
    unfold requests_ok; simpl; [| |done].
  - split; [done|]. split; [done|].
    apply Forall_app. split; [done|]. apply Forall_singleton.
    destruct Hok as (_ & _ & _ & _ & Hcur & _).
    apply (Hcur session). unfold current. by rewrite Hc.
  - split; [|split; [|done]].
    + apply Forall_app. split; [done|]. by apply Forall_singleton.
    + rewrite length_app. simpl. lia.
Qed.

Lemma requests_ok_step (l : VRButton.Label) (s s' : VRButton.State) :
  vr_ok s -> requests_ok s -> VRButton.step l s = Some s' -> requests_ok s'.
Proof.
  intros Hok Hrq Hs. pose proof Hrq as (Hr & Hu & He).
  destruct l; simpl in Hs.
  - destruct (VRButton.probing s) eqn:Hp; [|done]. injection Hs as <-.
    destruct supported; simpl.
    + destruct (VRButton.xrSessionIsGranted s); simpl; [|done].
      unfold VRButton.click, VRButton.click_handler. simpl.
      unfold requests_ok. simpl. split; [|split; [|done]].
      * apply Forall_app. split; [done|]. by apply Forall_singleton.
      * rewrite length_app. simpl. lia.
    + done.
  - destruct (VRButton.probing s); [|done]. by injection Hs as <-.
  - destruct (VRButton.message s); [done|]. injection Hs as <-.
    by destruct (VRButton.granted_listener s).
  - destruct (VRButton.message s) as [m|]; injection Hs as <-.
    + unfold VRButton.follow_link. by destruct (VRButton.href m).
    + by apply click_requests_ok.
  - destruct (VRButton.unanswered s) as [|n] eqn:Hn; [done|].
    destruct (bool_decide (session ∈ VRButton.known s)) eqn:Hk; [done|].
    apply bool_decide_eq_false in Hk. injection Hs as <-.
    unfold requests_ok. simpl. split; [done|]. split.
    + rewrite size_union by set_solver. rewrite size_singleton. lia.
    + eapply Forall_impl; [exact He|]. simpl. set_solver.
  - destruct (VRButton.unanswered s) as [|n] eqn:Hn; [done|].
    injection Hs as <-. unfold requests_ok. simpl.
    split; [done|]. split; [lia | done].
  - destruct (bool_decide (session ∈ VRButton.awaiting s)); [|done].
    by injection Hs as <-.
  - destruct (bool_decide (session ∈ VRButton.awaiting s)); [|done].
    by injection Hs as <-.
  - destruct (bool_decide (session ∈ VRButton.known s)); [|done].
    destruct (bool_decide (session ∈ VRButton.listeners s)).
    + unfold VRButton.onSessionEnded in Hs.
      destruct (VRButton.closure s) as [[[c|]]|]; by injection Hs as <-.
    + by injection Hs as <-.
Qed.

Lemma vr_reachable_requests_ok (s : VRButton.State) :
  vr_reachable s -> vr_ok s /\ requests_ok s.
Proof.
  apply (vr_reachable_ind (fun s => vr_ok s /\ requests_ok s)).
  - intros p. split; [apply vr_ok_create|].
    unfold VRButton.createButton, requests_ok.
    destruct (VRButton.xr_in_navigator p); simpl;
      by repeat split.
  - intros l s1 s2 _ [Hok Hrq] Hs. split.
    + by eapply vr_ok_step.
    + by eapply requests_ok_step.
Qed.

Lemma vr_click_message (s : VRButton.State) :
  VRButton.message (VRButton.click s) = VRButton.message s.
Proof.
  unfold VRButton.click, VRButton.click_handler.
  destruct (VRButton.onclick (VRButton.button s)) as [[]|]; [|done].
  by destruct (VRButton.closure s) as [[[c|]]|].
Qed.

Lemma vr_step_message (l : VRButton.Label) (s s' : VRButton.State) :
  VRButton.step l s = Some s' -> VRButton.message s' = VRButton.message s.
Proof.
  intros Hs. destruct l; simpl in Hs.
  - destruct (VRButton.probing s); [|done]. injection Hs as <-.
    destruct (_ && _); [rewrite vr_click_message|];
      destruct supported; reflexivity.
  - destruct (VRButton.probing s); [|done]. injection Hs as <-; reflexivity.
  - destruct (VRButton.message s) eqn:E; [done|]. injection Hs as <-.
    by destruct (VRButton.granted_listener s).
  - destruct (VRButton.message s) as [m|] eqn:E; injection Hs as <-.
    + unfold VRButton.follow_link. by destruct (VRButton.href m).
    + by rewrite vr_click_message.
  - destruct (VRButton.unanswered s); [done|].
    destruct (bool_decide _); [done|]. injection Hs as <-; reflexivity.
  - destruct (VRButton.unanswered s); [done|]. injection Hs as <-; reflexivity.
  - destruct (bool_decide _); [|done]. injection Hs as <-; reflexivity.
  - destruct (bool_decide _); [|done]. injection Hs as <-; reflexivity.
  - destruct (bool_decide _); [|done].
    destruct (bool_decide _).
    + unfold VRButton.onSessionEnded in Hs.
      destruct (VRButton.closure s) as [[[c|]]|]; injection Hs as <-; reflexivity.
    + injection Hs as <-; reflexivity.
Qed.

(** X22: every session request the button has made is for 'immersive-vr'
    with the optional features local-floor, bounded-floor, hand-tracking and
    layers; the sessions handed out and the requests still pending never
    outnumber the requests made; end() was only called on sessions that were
    handed out; and where createButton returned the link, nothing was
    requested or ended. *)
Theorem only_immersive_vr_is_requested (s : VRButton.State) :
  vr_reachable s ->
  (forall r, In r (VRButton.requests s) ->
     VRButton.mode r = "immersive-vr" /\
     VRButton.optionalFeatures r
       = ["local-floor"; "bounded-floor"; "hand-tracking"; "layers"]) /\
  (VRButton.unanswered s + size (VRButton.known s)
   <= length (VRButton.requests s))%nat /\
  (forall session, In session (VRButton.ended s) ->
     session ∈ VRButton.known s) /\
  (VRButton.message s <> None ->
   VRButton.requests s = [] /\ VRButton.ended s = []).
Proof.
  intros Hreach.
  destruct (vr_reachable_requests_ok s Hreach) as (Hok & Hr & Hu & He).
  split; [|split; [done|split]].
  - intros r Hin%list_elem_of_In. rewrite Forall_forall in Hr.
    by rewrite <- (Hr r Hin).
  - intros session Hin%list_elem_of_In. rewrite Forall_forall in He.
    by apply He.
  - intros Hm.
    destruct Hok as (Hprobe & Hcl & _ & _ & _ & Hnone).
    destruct (VRButton.closure s) as [c|] eqn:Hc.
    { by destruct (Hcl c eq_refl) as (_ & _ & ?). }
    destruct (Hnone eq_refl) as [Hu0 Ha].
    revert Hreach Hm. clear. intros Hreach.
    revert s Hreach. apply (vr_reachable_ind
      (fun s => VRButton.message s <> None ->
                VRButton.requests s = [] /\ VRButton.ended s = [])).
    + intros p. unfold VRButton.createButton.
      by destruct (VRButton.xr_in_navigator p).
    + intros l s1 s2 Hr1 IH Hs Hm.
      pose proof (vr_step_message l s1 s2 Hs) as Em.
      rewrite Em in Hm. specialize (IH Hm) as [IH1 IH2].
      destruct (vr_reachable_ok s1 Hr1) as (Hprobe & Hcl & _ & _ & _ & Hnone).
      assert (VRButton.closure s1 = None) as Hc1.
      { destruct (VRButton.closure s1) as [c|] eqn:Hc; [|done].
        by destruct (Hcl c eq_refl) as (_ & _ & ?). }
      assert (VRButton.probing s1 = false) as Hp1.
      { destruct (VRButton.probing s1); [|done].
        by destruct (Hprobe eq_refl) as [_ ?]. }
      destruct (Hnone Hc1) as [Hu1 Ha1].
      destruct l; simpl in Hs; rewrite ?Hp1, ?Hu1 in Hs; try done.
      * destruct (VRButton.message s1); [done|]. injection Hs as <-.
        by destruct (VRButton.granted_listener s1).
      * destruct (VRButton.message s1) as [m|]; injection Hs as <-.
        -- unfold VRButton.follow_link. by destruct (VRButton.href m).
        -- unfold VRButton.click, VRButton.click_handler.
           rewrite Hc1. by destruct (VRButton.onclick _) as [[]|].
      * rewrite Ha1 in Hs. by rewrite bool_decide_eq_false_2 in Hs by set_solver.
      * rewrite Ha1 in Hs. by rewrite bool_decide_eq_false_2 in Hs by set_solver.
      * destruct (bool_decide (session ∈ VRButton.known s1)); [|done].
        destruct (bool_decide (session ∈ VRButton.listeners s1)).
        -- unfold VRButton.onSessionEnded in Hs. rewrite Hc1 in Hs.
           by injection Hs as <-.
        -- by injection Hs as <-.
Qed.

Lemma only_immersive_vr_is_requested_witness :
  vr_reachable s_requested /\
  (forall r, In r (VRButton.requests s_requested) ->
     VRButton.mode r = "immersive-vr") /\
  VRButton.requests s_requested = [vr_request].
Proof.
  assert (vr_reachable s_requested) as R
    by (exists page_with_xr, [VRButton.Supported true; VRButton.Click];
        vm_compute; reflexivity).
  split; [exact R|]. split; [|reflexivity].
  intros r Hin.
  exact (proj1 (proj1 (only_immersive_vr_is_requested s_requested R) r Hin)).
Defined.

Lemma clicks_while_idle (n : nat) (s : VRButton.State) :
  VRButton.closure s = Some {| VRButton.currentSession := None |} ->
  VRButton.onclick (VRButton.button s) = Some VRButton.EnterOrExit ->
  VRButton.message s = None ->
  VRButton.run (repeat VRButton.Click n) s
  = Some (VRButton.put_unanswered (n + VRButton.unanswered s)
            (VRButton.put_requests
               (VRButton.requests s ++ repeat vr_request n) s)).
Proof.
  revert s. induction n as [|n IH]; intros s Hc Ho Hm.
  - simpl. rewrite app_nil_r. by destruct s.
  - cbn [repeat VRButton.run VRButton.step]. rewrite Hm.
    unfold VRButton.click, VRButton.click_handler. rewrite Ho, Hc.
    cbn [VRButton.currentSession].
    rewrite IH by done. f_equal. simpl.
    rewrite <- app_assoc. simpl. by rewrite Nat.add_succ_r.
Qed.

(** X23: the click handler does not wait for a pending request: while
    currentSession is null (also while a request or setSession is pending),
    n clicks make n further requestSession calls, and change neither the
    button nor currentSession nor the sessions ended. *)
Theorem every_click_requests_a_session :
  forall (s : VRButton.State) (n : nat),
    vr_reachable s -> current s = Some None ->
    exists s',
      VRButton.run (repeat VRButton.Click n) s = Some s' /\
      VRButton.requests s' = VRButton.requests s ++ repeat vr_request n /\
      VRButton.unanswered s' = (n + VRButton.unanswered s)%nat /\
      VRButton.button s' = VRButton.button s /\
      VRButton.closure s' = VRButton.closure s /\
      VRButton.ended s' = VRButton.ended s.
Proof.
  intros s n Hreach Hcur.
  destruct (vr_reachable_ok s Hreach) as (_ & Hcl & _).
  unfold current in Hcur.
  destruct (VRButton.closure s) as [[c]|] eqn:Hc; [|done].
  injection Hcur as ->.
  destruct (Hcl _ eq_refl) as (_ & Ho & Hm).
  rewrite (clicks_while_idle n s Hc Ho Hm).
  eexists. split; [reflexivity|]. by repeat split.
Qed.

Lemma every_click_requests_a_session_witness :
  (vr_reachable s_requested /\ current s_requested = Some None) /\
  exists s',
    VRButton.run [VRButton.Click; VRButton.Click] s_requested = Some s' /\
    VRButton.requests s' = [vr_request; vr_request; vr_request].
Proof.
  assert (vr_reachable s_requested) as R
    by (exists page_with_xr, [VRButton.Supported true; VRButton.Click];
        vm_compute; reflexivity).
  split; [exact (conj R eq_refl)|].
  destruct (every_click_requests_a_session s_requested 2%nat R eq_refl)
    as (s' & Hrun & Hreq & _).
  exists s'. exact (conj Hrun Hreq).
Defined.

Lemma given_up_step (l : VRButton.Label) (s s' : VRButton.State) :
  given_up s -> VRButton.step l s = Some s' ->
  given_up s' /\ VRButton.button s' = VRButton.button s /\
  VRButton.console s' = VRButton.console s /\
  VRButton.message s' = VRButton.message s.
Proof.
  intros (Hp & Hc & Ho & Hu & Ha & Hk & Hr & He) Hs.
  destruct l; simpl in Hs; rewrite ?Hp, ?Hu, ?Ha, ?Hk in Hs; try done.
  - destruct (VRButton.message s) eqn:Hm; [done|]. injection Hs as <-.
    destruct (VRButton.granted_listener s); by repeat split.
  - destruct (VRButton.message s) as [m|] eqn:Hm; injection Hs as <-.
    + unfold VRButton.follow_link.
      destruct (VRButton.href m); by repeat split.
    + unfold VRButton.click. rewrite Ho. by repeat split.
Qed.

(** X24: once isSessionSupported has resolved false or has rejected, the
    button stays as disableButton left it, whatever happens afterwards
    (clicks, the 'sessiongranted' event): hidden, without handlers, nothing
    requested, nothing ended, nothing more logged, and showEnterVR never
    run. *)
Theorem disabled_button_stays_disabled :
  forall (p : VRButton.Page) (l : VRButton.Label) (ls : list VRButton.Label)
         (s0 s : VRButton.State),
    VRButton.xr_in_navigator p = true ->
    (l = VRButton.Supported false \/ exists e, l = VRButton.NotAllowed e) ->
    VRButton.step l (VRButton.createButton p) = Some s0 ->
    VRButton.run ls s0 = Some s ->
    VRButton.button s = VRButton.button s0 /\
    VRButton.hidden (VRButton.button s) /\
    VRButton.handlers_cleared (VRButton.button s) /\
    VRButton.requests s = [] /\ VRButton.ended s = [] /\
    VRButton.console s = VRButton.console s0 /\
    VRButton.closure s = None.
Proof.
  intros p l ls s0 s Hxr Hl Hs0 Hrun.
  assert (given_up s0 /\ VRButton.hidden (VRButton.button s0) /\
          VRButton.handlers_cleared (VRButton.button s0)) as (H0 & Hh & Hcl).
  { unfold VRButton.createButton in Hs0. rewrite Hxr in Hs0.
    destruct Hl as [-> | (e & ->)]; simpl in Hs0; injection Hs0 as <-;
      (split; [by repeat split|]); (split; [vm_compute; reflexivity|]);
      by repeat split. }
  assert (given_up s /\ VRButton.button s = VRButton.button s0 /\
          VRButton.console s = VRButton.console s0) as (Hg & Hb & Hc).
  { clear Hs0 Hh Hcl. revert s0 H0 Hrun.
    induction ls as [|l' ls IH]; intros s0 H0 Hrun; simpl in Hrun.
    - injection Hrun as <-. done.
    - destruct (VRButton.step l' s0) as [s1|] eqn:Hs1; [|done].
      destruct (given_up_step l' s0 s1 H0 Hs1) as (H1 & Hb1 & Hc1 & _).
      destruct (IH s1 H1 Hrun) as (Hg & Eb & Ec).
      split; [exact Hg|]. split; congruence. }
  destruct Hg as (_ & Hclo & _ & _ & _ & _ & Hreq & Hend).
  rewrite Hb.
  exact (conj eq_refl (conj Hh (conj Hcl (conj Hreq (conj Hend
           (conj Hc Hclo)))))).
Qed.

Lemma disabled_button_stays_disabled_witness :
  (VRButton.xr_in_navigator page_with_xr = true /\
   VRButton.run [VRButton.Click; VRButton.SessionGranted; VRButton.Click]
     (vr_after [VRButton.Supported false]) <> None) /\
  forall s,
    VRButton.run [VRButton.Click; VRButton.SessionGranted; VRButton.Click]
      (vr_after [VRButton.Supported false]) = Some s ->
    VRButton.requests s = [].
Proof.
  split; [split; [reflexivity | vm_compute; discriminate]|].
  intros s Hrun.
  assert (VRButton.step (VRButton.Supported false)
            (VRButton.createButton page_with_xr)
          = Some (vr_after [VRButton.Supported false])) as Hs0
    by (vm_compute; reflexivity).
  destruct (disabled_button_stays_disabled page_with_xr
              (VRButton.Supported false) _ _ s eq_refl (or_introl eq_refl)
              Hs0 Hrun) as (_ & _ & _ & Hr & _).
  exact Hr.
Defined.

Lemma substring_all (s : string) :
  String.substring 0 (String.length s) s = s.
Proof. induction s as [|c s IH]; simpl; [done | by rewrite IH]. Qed.

Lemma to_https_http (rest : string) :
  VRButton.to_https ("http:" ++ rest)%string = ("https:" ++ rest)%string.
Proof.
  unfold VRButton.to_https.
  cbv beta iota fix delta [String.append].
  match goal with
  | |- context [String.prefix ?a ?b] =>
      assert (String.prefix a b = true) as -> by (by destruct rest)
  end.
  cbn [String.length String.substring Nat.sub].
  by rewrite Nat.sub_0_r, substring_all.
Qed.

Lemma to_https_not_http (s : string) :
  String.prefix "http:" (VRButton.to_https s) = false.
Proof.
  unfold VRButton.to_https.
  destruct (String.prefix "http:" s) eqn:Hp; [|exact Hp].
  reflexivity.
Qed.

(** X25: the address of the HTTPS link is the page address with a leading
    'http:' replaced by 'https:' and the rest unchanged; an address that
    does not start with 'http:' in lower case is unchanged, every 'https:'
    address among them; the result never starts with 'http:'; and rewriting
    twice is rewriting once. *)
Theorem to_https_rewrites_the_scheme :
  (forall rest, VRButton.to_https ("http:" ++ rest)%string = ("https:" ++ rest)%string) /\
  (forall rest, VRButton.to_https ("https:" ++ rest)%string = ("https:" ++ rest)%string) /\
  (forall s, String.prefix "http:" s = false -> VRButton.to_https s = s) /\
  (forall s, String.prefix "http:" (VRButton.to_https s) = false) /\
  (forall s, VRButton.to_https (VRButton.to_https s) = VRButton.to_https s) /\
  VRButton.to_https "HTTP://example.org/" = "HTTP://example.org/".
Proof.
  split; [exact to_https_http|].
  assert (forall s, String.prefix "http:" s = false -> VRButton.to_https s = s)
    as Hid by (intros s Hs; unfold VRButton.to_https; by rewrite Hs).
  split; [intros rest; by apply Hid|].
  split; [exact Hid|].
  split; [exact to_https_not_http|].
  split; [intros s; apply Hid, to_https_not_http | reflexivity].
Qed.

Lemma to_https_rewrites_the_scheme_witness :
  String.prefix "http:" "ftp://example.org/" = false /\
  VRButton.to_https "ftp://example.org/" = "ftp://example.org/" /\
  VRButton.to_https "http://example.org/a?b=http:" = "https://example.org/a?b=http:".
Proof.
  split; [reflexivity|]. split.
  - exact (proj1 (proj2 (proj2 to_https_rewrites_the_scheme))
             "ftp://example.org/" eq_refl).
  - exact (proj1 to_https_rewrites_the_scheme "//example.org/a?b=http:").
Defined.

(** X29: when a session ends while setSession is still pending for it and no
    session is current, onSessionEnded raises the TypeError of
    null.removeEventListener before it writes anything, so the end changes
    nothing; if setSession then resolves, the button reads 'Exit VR' with
    the ended session as the current one and its 'end' listener still
    attached. *)
Theorem session_ended_while_starting_becomes_current :
  forall (s : VRButton.State) (session : positive),
    vr_reachable s ->
    current s = Some None ->
    session ∈ VRButton.awaiting s ->
    VRButton.onSessionEnded s = None /\
    VRButton.step (VRButton.SessionEnd session) s = Some s /\
    exists s',
      VRButton.run [VRButton.SessionEnd session;
                    VRButton.SetSessionDone session] s = Some s' /\
      current s' = Some (Some session) /\
      VRButton.textContent (VRButton.button s') = "Exit VR" /\
      session ∈ VRButton.listeners s'.
Proof.
  intros s session R Hcur Haw.
  destruct (vr_reachable_ok s R) as (_ & _ & Hak & Hal & _).
  assert (VRButton.onSessionEnded s = None) as He.
  { unfold VRButton.onSessionEnded. unfold current in Hcur.
    destruct (VRButton.closure s) as [[[x|]]|]; simpl in Hcur; congruence. }
  assert (VRButton.step (VRButton.SessionEnd session) s = Some s) as Hs.
  { simpl. rewrite bool_decide_eq_true_2 by set_solver.
    rewrite bool_decide_eq_true_2 by set_solver. by rewrite He. }
  split; [done|]. split; [done|].
  eexists. split.
  - cbn [VRButton.run]. rewrite Hs. cbn [VRButton.step].
    rewrite bool_decide_eq_true_2 by done. reflexivity.
  - split; [reflexivity|]. split; [reflexivity|]. simpl. set_solver.
Qed.

Lemma session_ended_while_starting_becomes_current_witness :
  (vr_reachable s_starting /\ current s_starting = Some None /\
   1%positive ∈ VRButton.awaiting s_starting) /\
  VRButton.step (VRButton.SessionEnd 1) s_starting = Some s_starting.
Proof.
  assert (vr_reachable s_starting) as R
    by (exists page_with_xr,
          [VRButton.Supported true; VRButton.Click;
           VRButton.SessionStarted 1];
        vm_compute; reflexivity).
  assert (1%positive ∈ VRButton.awaiting s_starting) as Ha
    by (vm_compute; set_solver).
  split; [exact (conj R (conj eq_refl Ha))|].
  exact (proj1 (proj2 (session_ended_while_starting_becomes_current
                         s_starting 1%positive R eq_refl Ha))).
Defined.
